(** * The storage core of etcd: replicated log, WAL frames, MVCC key index
      and the backend's bucket buffer, embedded from the Go sources.

    The file has three parts.  Part I embeds the Go code, one module per Go
    package ([Wal], [Raft], [RaftExample], [Mvcc], [Backend]); Part II states and proves
    the properties of the specification; Part III proves further properties
    of the code.

    Conventions of the embedding:
    - a Go [uint64] is a [Z] in [0, 2^64); every arithmetic operation of the
      source is written with its wrap-around ([u64]);
    - a Go [int]/[int64] is a [Z]; where the source converts between signed
      and unsigned the conversion is written out ([u64], [i64]);
    - a Go panic (an explicit [Panicf], or an index out of range) is the
      [Panic] outcome; a Go [error] value is returned as data;
    - a Go slice of entries is its elements together with its capacity. *)

From stdpp Require Import base list gmap.
From Stdlib Require Import ZArith Lia.
From Stdlib.Strings Require Import Byte.

Open Scope Z_scope.

(** ** Outcomes: a computation returns a value or panics *)

Inductive outcome (A : Type) : Type :=
| Ret (a : A)
| Panic.
Arguments Ret {A} a.
Arguments Panic {A}.

Definition obind {A B} (m : outcome A) (k : A -> outcome B) : outcome B :=
  match m with
  | Ret a => k a
  | Panic => Panic
  end.

Notation "'let*' x ':=' m 'in' k" := (obind m (fun x => k))
  (at level 10, x name, m at level 200, k at level 200).

(** ** Machine integers *)

Definition u64 (z : Z) : Z := z mod 2^64.
Definition i64 (z : Z) : Z := (z + 2^63) mod 2^64 - 2^63.
Definition is_u64 (z : Z) : Prop := 0 <= z < 2^64.
Arguments u64 : simpl never.
Arguments i64 : simpl never.

(** Length of a Go slice, as the [uint64] the sources convert it to. *)
Definition zlen {A} (l : list A) : Z := Z.of_nat (length l).

(** * Part I: the code *)

(** ** Package wal: frame sizes and torn entries (encoder.go, decoder.go) *)

Module Wal.

(** [encodeFrameSize(dataBytes int) (lenField uint64, padBytes int)];
    Go's [%] truncates towards zero, which is [Z.rem]. *)
Definition encodeFrameSize (dataBytes : Z) : Z * Z :=
  let lenField := u64 dataBytes in
  let padBytes := Z.rem (8 - Z.rem dataBytes 8) 8 in
  if padBytes =? 0 then (lenField, padBytes)
  else (Z.lor lenField (u64 (Z.shiftl (u64 (Z.lor 128 padBytes)) 56)), padBytes).

(** [decodeFrameSize(lenField int64) (recBytes int64, padBytes int64)]. *)
Definition decodeFrameSize (lenField : Z) : Z * Z :=
  let recBytes := i64 (Z.land (u64 lenField) (u64 (Z.lnot (u64 (Z.shiftl 255 56))))) in
  let padBytes :=
    if lenField <? 0 then i64 (Z.land (Z.shiftr (u64 lenField) 56) 7) else 0 in
  (recBytes, padBytes).

(** [const frameSizeBytes = 8]: the length field itself. *)
Definition frameSizeBytes : Z := 8.

Definition minSectorSize : Z := 512.

(** What [isTornEntry] reads of the decoder: the readers that are left and
    the file offset after the last valid record. *)
Record decoder (R : Type) := mkDecoder { brs : list R; lastValidOff : Z }.
Arguments mkDecoder {R} _ _.
Arguments brs {R} _.
Arguments lastValidOff {R} _.

(** [data[lo:hi]] of a byte slice whose capacity is its length, as the
    slice [decodeRecord] makes. *)
Definition bytes_range (data : list byte) (lo hi : Z) : outcome (list byte) :=
  if (0 <=? lo) && (lo <=? hi) && (hi <=? zlen data)
  then Ret (take (Z.to_nat (hi - lo)) (drop (Z.to_nat lo) data))
  else Panic.

(** The first loop of [isTornEntry]: split [data] on sector boundaries.
    Every iteration advances [curOff], so [len(data)] iterations are
    enough; running out of them is reported as [Panic]. *)
Fixpoint chunk_loop (fuel : nat) (data : list byte) (fileOff curOff : Z)
    (chunks : list (list byte)) : outcome (list (list byte)) :=
  if curOff <? zlen data then
    match fuel with
    | O => Panic
    | S fuel' =>
        let chunkLen := i64 (minSectorSize - Z.rem fileOff minSectorSize) in
        let chunkLen :=
          if chunkLen >? i64 (zlen data - curOff) then i64 (zlen data - curOff)
          else chunkLen in
        let* chunk := bytes_range data curOff (i64 (curOff + chunkLen)) in
        chunk_loop fuel' data (i64 (fileOff + chunkLen)) (i64 (curOff + chunkLen))
          (chunks ++ [chunk])
    end
  else Ret chunks.

(** The inner loop: [isZero] stays true unless a byte differs from 0. *)
Fixpoint sector_isZero (sect : list byte) : bool :=
  match sect with
  | [] => true
  | v :: rest => if negb (Byte.eqb v x00) then false else sector_isZero rest
  end.

(** The second loop: true at the first chunk that is all zero. *)
Fixpoint any_zero_chunk (chunks : list (list byte)) : bool :=
  match chunks with
  | [] => false
  | sect :: rest => if sector_isZero sect then true else any_zero_chunk rest
  end.

Definition decoder_isTornEntry {R : Type} (d : decoder R) (data : list byte)
  : outcome bool :=
  if negb (zlen (brs d) =? 1) then Ret false
  else
    let fileOff := i64 (lastValidOff d + frameSizeBytes) in
    let* chunks := chunk_loop (length data) data fileOff 0 [] in
    Ret (any_zero_chunk chunks).

End Wal.

(** ** Package raft: the unstable tail, the Storage interface with
       MemoryStorage, and raftLog *)

Module Raft.

(** *** raftpb messages *)

Inductive EntryType := EntryNormal | EntryConfChange | EntryConfChangeV2.

Record Entry := mkEntry {
  Term : Z;
  Index : Z;
  EType : EntryType;
  Data : list byte
}.

Record ConfState := mkConfState { Voters : list Z; Learners : list Z }.

Record SnapshotMetadata := mkSnapshotMetadata {
  SnapConfState : ConfState;
  SnapIndex : Z;
  SnapTerm : Z
}.

Record Snapshot := mkSnapshot { SnapData : list byte; Metadata : SnapshotMetadata }.

Record HardState := mkHardState { HardTerm : Z; Vote : Z; Commit : Z }.

Inductive error :=
| ErrCompacted
| ErrSnapOutOfDate
| ErrUnavailable
| ErrSnapshotTemporarilyUnavailable.

Definition error_eqb (a b : error) : bool :=
  match a, b with
  | ErrCompacted, ErrCompacted
  | ErrSnapOutOfDate, ErrSnapOutOfDate
  | ErrUnavailable, ErrUnavailable
  | ErrSnapshotTemporarilyUnavailable, ErrSnapshotTemporarilyUnavailable => true
  | _, _ => false
  end.

(** *** Slices of entries

    A [[]pb.Entry] is the elements it holds and the capacity of its
    backing array. *)

Record slice := mkSlice { elems : list Entry; cap : Z }.

Definition nil_slice : slice := mkSlice [] 0.
Definition len (s : slice) : Z := zlen (elems s).

(** [s[k]]: out of range panics. *)
Definition at_ (s : slice) (k : Z) : outcome Entry :=
  if (0 <=? k) && (k <? len s) then
    match elems s !! Z.to_nat k with
    | Some e => Ret e
    | None => Panic
    end
  else Panic.

(** [s[k:]]: panics unless [k <= len(s)]. *)
Definition slice_from (s : slice) (k : Z) : outcome slice :=
  if (0 <=? k) && (k <=? len s) then
    Ret (mkSlice (drop (Z.to_nat k) (elems s)) (cap s - k))
  else Panic.

(** [s[lo:hi]]: panics unless [lo <= hi <= cap(s)].  The sources only slice
    below [len(s)] (each caller checks its bounds first); what the backing
    array holds between [len] and [cap] is not represented, and the model
    panics there. *)
Definition slice_range (s : slice) (lo hi : Z) : outcome slice :=
  if (0 <=? lo) && (lo <=? hi) && (hi <=? len s) then
    Ret (mkSlice (take (Z.to_nat (hi - lo)) (drop (Z.to_nat lo) (elems s))) (cap s - lo))
  else Panic.

(** What the sources use and this repository does not define:
    - [growslice oldcap needed]: the capacity the Go runtime gives the new
      backing array when [append] outgrows the old one;
    - [limitSize ents maxSize] (raft/util.go): the byte-limited prefix of
      [ents]. *)
Class External := {
  growslice : Z -> Z -> Z;
  limitSize : slice -> Z -> slice
}.

(** *** storage.go: the [Storage] interface.  A method returns its values
    and its error; an implementation may also panic. *)
Class Storage (S : Type) := {
  Storage_InitialState : S -> outcome (HardState * ConfState * option error);
  Storage_Entries : S -> Z -> Z -> Z -> outcome (slice * option error);
  Storage_Term : S -> Z -> outcome (Z * option error);
  Storage_LastIndex : S -> outcome (Z * option error);
  Storage_FirstIndex : S -> outcome (Z * option error);
  Storage_Snapshot : S -> outcome (Snapshot * option error)
}.

Section WithExternal.
Context {ext : External}.

(** [append(s, xs...)] *)
Definition append_slice (s : slice) (xs : list Entry) : slice :=
  let n := len s + zlen xs in
  mkSlice (elems s ++ xs) (if n <=? cap s then cap s else growslice (cap s) n).

(** *** log_unstable.go *)

Record unstable := mkUnstable {
  snapshot : option Snapshot;
  entries : slice;
  offset : Z
}.

Definition unstable_maybeFirstIndex (u : unstable) : Z * bool :=
  match snapshot u with
  | Some s => (u64 (SnapIndex (Metadata s) + 1), true)
  | None => (0, false)
  end.

Definition unstable_maybeLastIndex (u : unstable) : Z * bool :=
  let l := len (entries u) in
  if negb (l =? 0) then (u64 (offset u + l - 1), true)
  else match snapshot u with
       | Some s => (SnapIndex (Metadata s), true)
       | None => (0, false)
       end.

Definition unstable_maybeTerm (u : unstable) (i : Z) : outcome (Z * bool) :=
  if i <? offset u then
    match snapshot u with
    | Some s =>
        if SnapIndex (Metadata s) =? i then Ret (SnapTerm (Metadata s), true)
        else Ret (0, false)
    | None => Ret (0, false)
    end
  else
    let '(last, ok) := unstable_maybeLastIndex u in
    if negb ok then Ret (0, false)
    else if i >? last then Ret (0, false)
    else let* e := at_ (entries u) (u64 (i - offset u)) in Ret (Term e, true).

Definition lenMultiple : Z := 2.

Definition unstable_shrinkEntriesArray (u : unstable) : unstable :=
  if len (entries u) =? 0 then
    mkUnstable (snapshot u) nil_slice (offset u)
  else if i64 (len (entries u) * lenMultiple) <? cap (entries u) then
    mkUnstable (snapshot u) (mkSlice (elems (entries u)) (len (entries u))) (offset u)
  else u.

Definition unstable_stableTo (u : unstable) (i t : Z) : outcome unstable :=
  let* r := unstable_maybeTerm u i in
  let '(gt, ok) := r in
  if negb ok then Ret u
  else if (gt =? t) && (i >=? offset u) then
    let* es := slice_from (entries u) (u64 (i + 1 - offset u)) in
    Ret (unstable_shrinkEntriesArray (mkUnstable (snapshot u) es (u64 (i + 1))))
  else Ret u.

Definition unstable_stableSnapTo (u : unstable) (i : Z) : unstable :=
  match snapshot u with
  | Some s =>
      if SnapIndex (Metadata s) =? i then mkUnstable None (entries u) (offset u) else u
  | None => u
  end.

Definition unstable_restore (u : unstable) (s : Snapshot) : unstable :=
  mkUnstable (Some s) nil_slice (u64 (SnapIndex (Metadata s) + 1)).

Definition unstable_mustCheckOutOfBounds (u : unstable) (lo hi : Z) : outcome unit :=
  if lo >? hi then Panic
  else
    let upper := u64 (offset u + len (entries u)) in
    if (lo <? offset u) || (hi >? upper) then Panic else Ret tt.

Definition unstable_slice (u : unstable) (lo hi : Z) : outcome slice :=
  let* ok_ := unstable_mustCheckOutOfBounds u lo hi in
  slice_range (entries u) (u64 (lo - offset u)) (u64 (hi - offset u)).

Definition unstable_truncateAndAppend (u : unstable) (ents : slice) : outcome unstable :=
  let* e0 := at_ ents 0 in
  let after := Index e0 in
  if after =? u64 (offset u + len (entries u)) then
    Ret (mkUnstable (snapshot u) (append_slice (entries u) (elems ents)) (offset u))
  else if after <=? offset u then
    Ret (mkUnstable (snapshot u) ents after)
  else
    let* kept := unstable_slice u (offset u) after in
    Ret (mkUnstable (snapshot u)
           (append_slice (append_slice (mkSlice [] 0) (elems kept)) (elems ents))
           (offset u)).

(** *** storage.go: MemoryStorage (the mutex is not represented) *)

Record MemoryStorage := mkMemoryStorage {
  hardState : HardState;
  ms_snapshot : Snapshot;
  ents : slice
}.

Definition NewMemoryStorage : MemoryStorage :=
  mkMemoryStorage (mkHardState 0 0 0)
    (mkSnapshot [] (mkSnapshotMetadata (mkConfState [] []) 0 0))
    (mkSlice [mkEntry 0 0 EntryNormal []] 1).

Definition MemoryStorage_lastIndex (ms : MemoryStorage) : outcome Z :=
  let* e0 := at_ (ents ms) 0 in Ret (u64 (Index e0 + len (ents ms) - 1)).

Definition MemoryStorage_firstIndex (ms : MemoryStorage) : outcome Z :=
  let* e0 := at_ (ents ms) 0 in Ret (u64 (Index e0 + 1)).

Definition MemoryStorage_LastIndex (ms : MemoryStorage) : outcome (Z * option error) :=
  let* i := MemoryStorage_lastIndex ms in Ret (i, None).

Definition MemoryStorage_FirstIndex (ms : MemoryStorage) : outcome (Z * option error) :=
  let* i := MemoryStorage_firstIndex ms in Ret (i, None).

Definition MemoryStorage_Entries (ms : MemoryStorage) (lo hi maxSize : Z)
  : outcome (slice * option error) :=
  let* e0 := at_ (ents ms) 0 in
  let offset := Index e0 in
  if lo <=? offset then Ret (nil_slice, Some ErrCompacted)
  else
    let* li := MemoryStorage_lastIndex ms in
    if hi >? u64 (li + 1) then Panic
    else if len (ents ms) =? 1 then Ret (nil_slice, Some ErrUnavailable)
    else
      let* s := slice_range (ents ms) (u64 (lo - offset)) (u64 (hi - offset)) in
      Ret (limitSize s maxSize, None).

Definition MemoryStorage_Term (ms : MemoryStorage) (i : Z) : outcome (Z * option error) :=
  let* e0 := at_ (ents ms) 0 in
  let offset := Index e0 in
  if i <? offset then Ret (0, Some ErrCompacted)
  else if i64 (u64 (i - offset)) >=? len (ents ms) then Ret (0, Some ErrUnavailable)
  else let* e := at_ (ents ms) (u64 (i - offset)) in Ret (Term e, None).

Definition MemoryStorage_Snapshot (ms : MemoryStorage) : Snapshot * option error :=
  (ms_snapshot ms, None).

Definition MemoryStorage_InitialState (ms : MemoryStorage)
  : HardState * ConfState * option error :=
  (hardState ms, SnapConfState (Metadata (ms_snapshot ms)), None).

(** [MemoryStorage] implements [Storage]. *)
#[global] Instance MemoryStorage_Storage : Storage MemoryStorage := {|
  Storage_InitialState := fun ms => Ret (MemoryStorage_InitialState ms);
  Storage_Entries := MemoryStorage_Entries;
  Storage_Term := MemoryStorage_Term;
  Storage_LastIndex := MemoryStorage_LastIndex;
  Storage_FirstIndex := MemoryStorage_FirstIndex;
  Storage_Snapshot := fun ms => Ret (MemoryStorage_Snapshot ms)
|}.

(** *** storage.go: the methods that change a MemoryStorage.  Each returns
    the storage it leaves together with its results. *)

Definition MemoryStorage_SetHardState (ms : MemoryStorage) (st : HardState)
  : MemoryStorage * option error :=
  (mkMemoryStorage st (ms_snapshot ms) (ents ms), None).

Definition MemoryStorage_ApplySnapshot (ms : MemoryStorage) (snap : Snapshot)
  : MemoryStorage * option error :=
  let msIndex := SnapIndex (Metadata (ms_snapshot ms)) in
  let snapIndex := SnapIndex (Metadata snap) in
  if msIndex >=? snapIndex then (ms, Some ErrSnapOutOfDate)
  else
    (mkMemoryStorage (hardState ms) snap
       (mkSlice [mkEntry (SnapTerm (Metadata snap)) (SnapIndex (Metadata snap))
                   EntryNormal []] 1),
     None).

(** [pb.Snapshot{}] *)
Definition zero_Snapshot : Snapshot :=
  mkSnapshot [] (mkSnapshotMetadata (mkConfState [] []) 0 0).

(** [cs] is a pointer: [None] is nil. *)
Definition MemoryStorage_CreateSnapshot (ms : MemoryStorage) (i : Z)
    (cs : option ConfState) (data : list byte)
  : outcome (MemoryStorage * (Snapshot * option error)) :=
  if i <=? SnapIndex (Metadata (ms_snapshot ms)) then
    Ret (ms, (zero_Snapshot, Some ErrSnapOutOfDate))
  else
    let* e0 := at_ (ents ms) 0 in
    let offset := Index e0 in
    let* li := MemoryStorage_lastIndex ms in
    if i >? li then Panic
    else
      let* e := at_ (ents ms) (u64 (i - offset)) in
      let cs' := match cs with
                 | Some c => c
                 | None => SnapConfState (Metadata (ms_snapshot ms))
                 end in
      let snap := mkSnapshot data (mkSnapshotMetadata cs' i (Term e)) in
      Ret (mkMemoryStorage (hardState ms) snap (ents ms), (snap, None)).

(** [make([]pb.Entry, 1, c)] panics when the capacity is below the
    length. *)
Definition MemoryStorage_Compact (ms : MemoryStorage) (compactIndex : Z)
  : outcome (MemoryStorage * option error) :=
  let* e0 := at_ (ents ms) 0 in
  let offset := Index e0 in
  if compactIndex <=? offset then Ret (ms, Some ErrCompacted)
  else
    let* li := MemoryStorage_lastIndex ms in
    if compactIndex >? li then Panic
    else
      let i := u64 (compactIndex - offset) in
      let c := u64 (u64 (1 + len (ents ms)) - i) in
      if c <? 1 then Panic
      else
        let* ei := at_ (ents ms) i in
        let fresh := mkSlice [mkEntry (Term ei) (Index ei) EntryNormal []] c in
        let* rest := slice_from (ents ms) (u64 (i + 1)) in
        Ret (mkMemoryStorage (hardState ms) (ms_snapshot ms)
               (append_slice fresh (elems rest)),
             None).

Definition MemoryStorage_Append (ms : MemoryStorage) (entries : slice)
  : outcome (MemoryStorage * option error) :=
  if len entries =? 0 then Ret (ms, None)
  else
    let* first := MemoryStorage_firstIndex ms in
    let* e0 := at_ entries 0 in
    let last := u64 (u64 (Index e0 + len entries) - 1) in
    if last <? first then Ret (ms, None)
    else
      let* entries1 :=
        (if first >? Index e0 then slice_from entries (u64 (first - Index e0))
         else Ret entries) in
      let* e1 := at_ entries1 0 in
      let* d := at_ (ents ms) 0 in
      let offset := u64 (Index e1 - Index d) in
      if len (ents ms) >? offset then
        let* kept := slice_range (ents ms) 0 offset in
        Ret (mkMemoryStorage (hardState ms) (ms_snapshot ms)
               (append_slice (append_slice (mkSlice [] 0) (elems kept)) (elems entries1)),
             None)
      else if len (ents ms) =? offset then
        Ret (mkMemoryStorage (hardState ms) (ms_snapshot ms)
               (append_slice (ents ms) (elems entries1)),
             None)
      else Panic.

(** *** log.go: raftLog, over any [Storage]; the logger is not
    represented. *)

Record raftLog (S : Type) := mkRaftLog {
  storage : S;
  unstab : unstable;
  committed : Z;
  applied : Z;
  maxNextEntsSize : Z
}.
#[global] Arguments mkRaftLog {S} _ _ _ _ _.
#[global] Arguments storage {S} _.
#[global] Arguments unstab {S} _.
#[global] Arguments committed {S} _.
#[global] Arguments applied {S} _.
#[global] Arguments maxNextEntsSize {S} _.

Section Log.
Context {S : Type} {St : Storage S}.

Definition raftLog_firstIndex (l : raftLog S) : outcome Z :=
  let '(i, ok) := unstable_maybeFirstIndex (unstab l) in
  if ok then Ret i
  else
    let* r := Storage_FirstIndex (storage l) in
    match r with
    | (index, None) => Ret index
    | (_, Some _) => Panic
    end.

Definition raftLog_lastIndex (l : raftLog S) : outcome Z :=
  let '(i, ok) := unstable_maybeLastIndex (unstab l) in
  if ok then Ret i
  else
    let* r := Storage_LastIndex (storage l) in
    match r with
    | (index, None) => Ret index
    | (_, Some _) => Panic
    end.

Definition newLogWithSize (st : S) (maxNextEnts : Z) : outcome (raftLog S) :=
  let* r1 := Storage_FirstIndex st in
  match r1 with
  | (_, Some _) => Panic
  | (firstIndex, None) =>
      let* r2 := Storage_LastIndex st in
      match r2 with
      | (_, Some _) => Panic
      | (lastIndex, None) =>
          Ret (mkRaftLog st (mkUnstable None nil_slice (u64 (lastIndex + 1)))
                 (u64 (firstIndex - 1)) (u64 (firstIndex - 1)) maxNextEnts)
      end
  end.

Definition noLimit : Z := 2^64 - 1.

Definition newLog (st : S) : outcome (raftLog S) := newLogWithSize st noLimit.

Definition raftLog_term (l : raftLog S) (i : Z) : outcome (Z * option error) :=
  let* fi := raftLog_firstIndex l in
  let dummyIndex := u64 (fi - 1) in
  if i <? dummyIndex then Ret (0, None)
  else
    let* li := raftLog_lastIndex l in
    if i >? li then Ret (0, None)
    else
      let* r := unstable_maybeTerm (unstab l) i in
      let '(t, ok) := r in
      if ok then Ret (t, None)
      else
        let* r' := Storage_Term (storage l) i in
        match r' with
        | (t', None) => Ret (t', None)
        | (_, Some ErrCompacted) => Ret (0, Some ErrCompacted)
        | (_, Some ErrUnavailable) => Ret (0, Some ErrUnavailable)
        | (_, Some _) => Panic
        end.

Definition raftLog_zeroTermOnErrCompacted (r : Z * option error) : outcome Z :=
  match r with
  | (t, None) => Ret t
  | (_, Some ErrCompacted) => Ret 0
  | (_, Some _) => Panic
  end.

Definition raftLog_matchTerm (l : raftLog S) (i term : Z) : outcome bool :=
  let* r := raftLog_term l i in
  match r with
  | (_, Some _) => Ret false
  | (t, None) => Ret (t =? term)
  end.

(** The loop of [findConflict]; the arguments of the [Infof] call are
    evaluated, and [zeroTermOnErrCompacted] among them can panic. *)
Fixpoint raftLog_findConflict (l : raftLog S) (ents : list Entry) : outcome Z :=
  match ents with
  | [] => Ret 0
  | ne :: rest =>
      let* m := raftLog_matchTerm l (Index ne) (Term ne) in
      if negb m then
        let* li := raftLog_lastIndex l in
        if Index ne <=? li then
          let* r := raftLog_term l (Index ne) in
          let* ok_ := raftLog_zeroTermOnErrCompacted r in
          Ret (Index ne)
        else Ret (Index ne)
      else raftLog_findConflict l rest
  end.

Definition raftLog_commitTo (l : raftLog S) (tocommit : Z) : outcome (raftLog S) :=
  if committed l <? tocommit then
    let* li := raftLog_lastIndex l in
    if li <? tocommit then Panic
    else Ret (mkRaftLog (storage l) (unstab l) tocommit (applied l) (maxNextEntsSize l))
  else Ret l.

Definition raftLog_appliedTo (l : raftLog S) (i : Z) : outcome (raftLog S) :=
  if i =? 0 then Ret l
  else if (committed l <? i) || (i <? applied l) then Panic
  else Ret (mkRaftLog (storage l) (unstab l) (committed l) i (maxNextEntsSize l)).

Definition raftLog_stableTo (l : raftLog S) (i t : Z) : outcome (raftLog S) :=
  let* u := unstable_stableTo (unstab l) i t in
  Ret (mkRaftLog (storage l) u (committed l) (applied l) (maxNextEntsSize l)).

Definition raftLog_stableSnapTo (l : raftLog S) (i : Z) : raftLog S :=
  mkRaftLog (storage l) (unstable_stableSnapTo (unstab l) i)
    (committed l) (applied l) (maxNextEntsSize l).

Definition raftLog_append (l : raftLog S) (ents : slice) : outcome (raftLog S * Z) :=
  if len ents =? 0 then let* li := raftLog_lastIndex l in Ret (l, li)
  else
    let* e0 := at_ ents 0 in
    let after := u64 (Index e0 - 1) in
    if after <? committed l then Panic
    else
      let* u := unstable_truncateAndAppend (unstab l) ents in
      let l' := mkRaftLog (storage l) u (committed l) (applied l) (maxNextEntsSize l) in
      let* li := raftLog_lastIndex l' in
      Ret (l', li).

Definition raftLog_maybeAppend (l : raftLog S) (index logTerm committed_ : Z) (ents : slice)
  : outcome (raftLog S * (Z * bool)) :=
  let* m := raftLog_matchTerm l index logTerm in
  if m then
    let lastnewi := u64 (index + len ents) in
    let* ci := raftLog_findConflict l (elems ents) in
    let* l1 := (if ci =? 0 then Ret l
           else if ci <=? committed l then Panic
           else
             let offset := u64 (index + 1) in
             let* suffix := slice_from ents (u64 (ci - offset)) in
             let* r := raftLog_append l suffix in
             Ret (fst r)) in
    let* l2 := raftLog_commitTo l1 (Z.min committed_ lastnewi) in
    Ret (l2, (lastnewi, true))
  else Ret (l, (0, false)).

Definition raftLog_maybeCommit (l : raftLog S) (maxIndex term : Z) : outcome (raftLog S * bool) :=
  if maxIndex >? committed l then
    let* r := raftLog_term l maxIndex in
    let* t := raftLog_zeroTermOnErrCompacted r in
    if t =? term then
      let* l' := raftLog_commitTo l maxIndex in
      Ret (l', true)
    else Ret (l, false)
  else Ret (l, false).

Definition raftLog_restore (l : raftLog S) (s : Snapshot) : raftLog S :=
  mkRaftLog (storage l) (unstable_restore (unstab l) s)
    (SnapIndex (Metadata s)) (applied l) (maxNextEntsSize l).

(** The loop of [findConflictByTerm].  Every iteration lowers [index] by
    one and [term] answers 0 below the log, so the loop is run for at most
    index + 2 iterations ([fuel]); running out of them is reported as
    [Panic]. *)
Fixpoint findConflictByTerm_loop (fuel : nat) (l : raftLog S) (index term : Z)
  : outcome Z :=
  match fuel with
  | O => Panic
  | Datatypes.S fuel' =>
      let* r := raftLog_term l index in
      let '(logTerm, err) := r in
      if (logTerm <=? term) || negb (bool_decide (err = None)) then Ret index
      else findConflictByTerm_loop fuel' l (u64 (index - 1)) term
  end.

Definition raftLog_findConflictByTerm (l : raftLog S) (index term : Z) : outcome Z :=
  let* li := raftLog_lastIndex l in
  if index >? li then Ret index
  else findConflictByTerm_loop (Z.to_nat index + 2) l index term.

Definition raftLog_unstableEntries (l : raftLog S) : slice :=
  if len (entries (unstab l)) =? 0 then nil_slice else entries (unstab l).

Definition raftLog_snapshot (l : raftLog S) : outcome (Snapshot * option error) :=
  match snapshot (unstab l) with
  | Some s => Ret (s, None)
  | None => Storage_Snapshot (storage l)
  end.

Definition raftLog_lastTerm (l : raftLog S) : outcome Z :=
  let* li := raftLog_lastIndex l in
  let* r := raftLog_term l li in
  match r with
  | (t, None) => Ret t
  | (_, Some _) => Panic
  end.

(** [term > l.lastTerm() || (term == l.lastTerm() && lasti >= l.lastIndex())],
    evaluated from left to right. *)
Definition raftLog_isUpToDate (l : raftLog S) (lasti term : Z) : outcome bool :=
  let* lt := raftLog_lastTerm l in
  if term >? lt then Ret true
  else
    let* lt' := raftLog_lastTerm l in
    if term =? lt' then
      let* li := raftLog_lastIndex l in Ret (lasti >=? li)
    else Ret false.

Definition raftLog_mustCheckOutOfBounds (l : raftLog S) (lo hi : Z)
  : outcome (option error) :=
  if lo >? hi then Panic
  else
    let* fi := raftLog_firstIndex l in
    if lo <? fi then Ret (Some ErrCompacted)
    else
      let* li := raftLog_lastIndex l in
      let length := u64 (u64 (li + 1) - fi) in
      if hi >? u64 (fi + length) then Panic else Ret None.

(** [l.slice(lo, hi, maxSize)].  The part read from the storage is either
    the result ([inl], an early return) or the entries to continue with
    ([inr]). *)
Definition raftLog_slice (l : raftLog S) (lo hi maxSize : Z)
  : outcome (slice * option error) :=
  let* err := raftLog_mustCheckOutOfBounds l lo hi in
  match err with
  | Some e => Ret (nil_slice, Some e)
  | None =>
      if lo =? hi then Ret (nil_slice, None)
      else
        let off := offset (unstab l) in
        let* stored :=
          (if lo <? off then
             let* r := Storage_Entries (storage l) lo (Z.min hi off) maxSize in
             match r with
             | (_, Some ErrCompacted) => Ret (inl (nil_slice, Some ErrCompacted))
             | (_, Some _) => Panic
             | (storedEnts, None) =>
                 if len storedEnts <? u64 (Z.min hi off - lo)
                 then Ret (inl (storedEnts, None))
                 else Ret (inr storedEnts)
             end
           else Ret (inr nil_slice)) in
        match stored with
        | inl result => Ret result
        | inr ents =>
            let* ents' :=
              (if hi >? off then
                 let* un := unstable_slice (unstab l) (Z.max lo off) hi in
                 if len ents >? 0 then
                   Ret (mkSlice (elems ents ++ elems un) (len ents + len un))
                 else Ret un
               else Ret ents) in
            Ret (limitSize ents' maxSize, None)
        end
  end.

Definition raftLog_entries (l : raftLog S) (i maxsize : Z)
  : outcome (slice * option error) :=
  let* li := raftLog_lastIndex l in
  if i >? li then Ret (nil_slice, None)
  else
    let* li' := raftLog_lastIndex l in
    raftLog_slice l i (u64 (li' + 1)) maxsize.

Definition raftLog_hasNextEnts (l : raftLog S) : outcome bool :=
  let* fi := raftLog_firstIndex l in
  let off := Z.max (u64 (applied l + 1)) fi in
  Ret (u64 (committed l + 1) >? off).

Definition raftLog_nextEnts (l : raftLog S) : outcome slice :=
  let* fi := raftLog_firstIndex l in
  let off := Z.max (u64 (applied l + 1)) fi in
  if u64 (committed l + 1) >? off then
    let* r := raftLog_slice l off (u64 (committed l + 1)) (maxNextEntsSize l) in
    match r with
    | (ents, None) => Ret ents
    | (_, Some _) => Panic
    end
  else Ret nil_slice.

End Log.

End WithExternal.

End Raft.

(** ** Package main of raftexample (raft.go): the entries to apply *)

Module RaftExample.

(** [rc.entriesToApply(ents)], with [rc.appliedIndex] as its first
    argument; [log.Fatalf] ends the process, which is the [Panic] outcome.
    [nents] is nil unless the condition assigns it. *)
Definition raftNode_entriesToApply (appliedIndex : Z) (ents : Raft.slice)
  : outcome Raft.slice :=
  if Raft.len ents =? 0 then Ret ents
  else
    let* e0 := Raft.at_ ents 0 in
    let firstIdx := Raft.Index e0 in
    if firstIdx >? u64 (appliedIndex + 1) then Panic
    else if u64 (u64 (appliedIndex - firstIdx) + 1) <? u64 (Raft.len ents) then
      Raft.slice_from ents (u64 (u64 (appliedIndex - firstIdx) + 1))
    else Ret Raft.nil_slice.

(** What [serveChannels] does with a [Ready] [rd] before it calls
    [Advance]: [rc.raftStorage.ApplySnapshot(rd.Snapshot)] unless the
    snapshot is empty ([raft.IsEmptySnap]: its index is 0), then
    [rc.raftStorage.Append(rd.Entries)].  What the two calls return is
    dropped; a panic of [Append] is not. *)
Definition raftNode_saveSnapshot (st : Raft.MemoryStorage) (snapshot : Raft.Snapshot)
  : Raft.MemoryStorage :=
  if Raft.SnapIndex (Raft.Metadata snapshot) =? 0 then st
  else fst (Raft.MemoryStorage_ApplySnapshot st snapshot).

Definition raftNode_saveEntries {ext : Raft.External} (st : Raft.MemoryStorage)
    (entries : Raft.slice) : outcome Raft.MemoryStorage :=
  let* r := Raft.MemoryStorage_Append st entries in Ret (fst r).

End RaftExample.

(** ** Package mvcc: the key index (key_index.go) *)

Module Mvcc.

Inductive error := ErrRevisionNotFound.

(** Modelled from the spec: the [revision] type and its order
    [GreaterThan] (revision.go is not among the sources).  A revision is a
    pair (main, sub) of int64, ordered lexicographically. *)
Record revision := mkRevision { main : Z; sub : Z }.

Definition GreaterThan (a b : revision) : bool :=
  (main a >? main b) || ((main a =? main b) && (sub a >? sub b)).

#[global] Instance revision_eq_dec : EqDecision revision.
Proof. solve_decision. Defined.

#[global] Instance revision_countable : Countable revision.
Proof.
  apply (inj_countable' (fun r => (main r, sub r)) (fun p => mkRevision (fst p) (snd p))).
  intros []. reflexivity.
Defined.

Record generation := mkGeneration {
  ver : Z;
  created : revision;
  revs : list revision
}.

Record keyIndex := mkKeyIndex {
  key : list byte;
  modified : revision;
  generations : list generation
}.

(** [generation{}] and [revision{}] *)
Definition zero_revision : revision := mkRevision 0 0.
Definition zero_generation : generation := mkGeneration 0 zero_revision [].

(** [g.isEmpty()] on a generation, and on a possibly nil pointer. *)
Definition generation_isEmpty (g : generation) : bool :=
  match revs g with [] => true | _ :: _ => false end.

Definition generation_ptr_isEmpty (g : option generation) : bool :=
  match g with None => true | Some g' => generation_isEmpty g' end.

Definition keyIndex_isEmpty (ki : keyIndex) : bool :=
  match generations ki with
  | [g] => generation_isEmpty g
  | _ => false
  end.

(** [ki.put]: the metrics gauge and the logger are not represented. *)
Definition keyIndex_put (ki : keyIndex) (main_ sub_ : Z) : outcome keyIndex :=
  let rev := mkRevision main_ sub_ in
  if negb (GreaterThan rev (modified ki)) then Panic
  else
    let gens :=
      if zlen (generations ki) =? 0 then generations ki ++ [zero_generation]
      else generations ki in
    let n := (length gens - 1)%nat in
    match gens !! n with
    | None => Panic
    | Some g =>
        let g1 := if zlen (revs g) =? 0
                  then mkGeneration (ver g) rev (revs g) else g in
        let g2 := mkGeneration (i64 (ver g1 + 1)) (created g1) (revs g1 ++ [rev]) in
        Ret (mkKeyIndex (key ki) rev (<[n := g2]> gens))
    end.

Definition keyIndex_restore (ki : keyIndex) (created_ modified_ : revision) (ver_ : Z)
  : outcome keyIndex :=
  if negb (zlen (generations ki) =? 0) then Panic
  else
    Ret (mkKeyIndex (key ki) modified_
           (generations ki ++ [mkGeneration ver_ created_ [modified_]])).

Definition keyIndex_tombstone (ki : keyIndex) (main_ sub_ : Z)
  : outcome (keyIndex * option error) :=
  if keyIndex_isEmpty ki then Panic
  else
    match generations ki !! (length (generations ki) - 1)%nat with
    | None => Panic
    | Some g =>
        if generation_isEmpty g then Ret (ki, Some ErrRevisionNotFound)
        else
          let* ki1 := keyIndex_put ki main_ sub_ in
          Ret (mkKeyIndex (key ki1) (modified ki1) (generations ki1 ++ [zero_generation]),
               None)
    end.

(** [g.walk(f)]: visits the revisions from the newest ([desc] is [g.revs]
    reversed, [i] the index of its head in [g.revs]) while [f] holds;
    returns the index where [f] failed, -1 if it never did. *)
Fixpoint walk_desc (f : revision -> bool) (desc : list revision) (i : Z) : Z :=
  match desc with
  | [] => -1
  | r :: older => if f r then walk_desc f older (i - 1) else i
  end.

Definition generation_walk (g : generation) (f : revision -> bool) : Z :=
  walk_desc f (reverse (revs g)) (zlen (revs g) - 1).

(** [ki.findGeneration(rev)]: [desc] is [ki.generations[0..cg]] reversed. *)
Fixpoint findGeneration_desc (rev lastg : Z) (desc : list generation) (cg : Z)
  : option generation :=
  match desc with
  | [] => None
  | g :: older =>
      match head (revs g), last (revs g) with
      | Some first, Some tomb =>
          if negb (cg =? lastg) && (main tomb <=? rev) then None
          else if main first <=? rev then Some g
          else findGeneration_desc rev lastg older (cg - 1)
      | _, _ => findGeneration_desc rev lastg older (cg - 1)
      end
  end.

Definition keyIndex_findGeneration (ki : keyIndex) (rev : Z) : option generation :=
  let lastg := zlen (generations ki) - 1 in
  findGeneration_desc rev lastg (reverse (generations ki)) lastg.

Definition keyIndex_get (ki : keyIndex) (atRev : Z)
  : outcome (revision * revision * Z * option error) :=
  if keyIndex_isEmpty ki then Panic
  else
    let notFound := Ret (zero_revision, zero_revision, 0, Some ErrRevisionNotFound) in
    match keyIndex_findGeneration ki atRev with
    | None => notFound
    | Some g =>
        if generation_isEmpty g then notFound
        else
          let n := generation_walk g (fun rev => main rev >? atRev) in
          if negb (n =? -1) then
            match revs g !! Z.to_nat n with
            | Some r =>
                Ret (r, created g,
                     i64 (ver g - i64 (zlen (revs g) - n - 1)), None)
            | None => Panic
            end
          else notFound
    end.

(** The loop of [doCompact]: [gs] is [ki.generations[genIdx..]]; reading
    the tombstone of an empty generation is an index out of range. *)
Fixpoint doCompact_loop (atRev : Z) (gs : list generation) (genIdx : Z)
  : outcome (Z * generation) :=
  match gs with
  | [] => Panic
  | g :: rest =>
      match rest with
      | [] => Ret (genIdx, g)
      | _ :: _ =>
          match last (revs g) with
          | None => Panic
          | Some tomb =>
              if main tomb >? atRev then Ret (genIdx, g)
              else doCompact_loop atRev rest (genIdx + 1)
          end
      end
  end.

(** [ki.doCompact]: the closure [f] adds the revision at which the walk
    stops to [available]. *)
Definition keyIndex_doCompact (ki : keyIndex) (atRev : Z) (available : gset revision)
  : outcome (Z * Z * gset revision) :=
  let* r := doCompact_loop atRev (generations ki) 0 in
  let '(genIdx, g) := r in
  let revIndex := generation_walk g (fun rev => negb (main rev <=? atRev)) in
  let available' :=
    match revs g !! Z.to_nat revIndex with
    | Some r => if revIndex =? -1 then available else {[ r ]} ∪ available
    | None => available
    end in
  Ret (genIdx, revIndex, available').

Definition keyIndex_compact (ki : keyIndex) (atRev : Z) (available : gset revision)
  : outcome (keyIndex * gset revision) :=
  if keyIndex_isEmpty ki then Panic
  else
    let* r := keyIndex_doCompact ki atRev available in
    let '(genIdx, revIndex, av) := r in
    let gens := generations ki in
    match gens !! Z.to_nat genIdx with
    | None => Panic
    | Some g =>
        if negb (generation_isEmpty g) then
          let g1 := if negb (revIndex =? -1)
                    then mkGeneration (ver g) (created g) (drop (Z.to_nat revIndex) (revs g))
                    else g in
          let gens1 := <[Z.to_nat genIdx := g1]> gens in
          if (zlen (revs g1) =? 1) && negb (genIdx =? zlen gens - 1) then
            match revs g1 with
            | r0 :: _ =>
                Ret (mkKeyIndex (key ki) (modified ki) (drop (Z.to_nat (genIdx + 1)) gens1),
                     av ∖ {[ r0 ]})
            | [] => Panic
            end
          else
            Ret (mkKeyIndex (key ki) (modified ki) (drop (Z.to_nat genIdx) gens1), av)
        else
          Ret (mkKeyIndex (key ki) (modified ki) (drop (Z.to_nat genIdx) gens), av)
    end.

(** [ki.keep]: the revision [compact] would keep, without changing the
    key index. *)
Definition keyIndex_keep (ki : keyIndex) (atRev : Z) (available : gset revision)
  : outcome (gset revision) :=
  if keyIndex_isEmpty ki then Ret available
  else
    let* r := keyIndex_doCompact ki atRev available in
    let '(genIdx, revIndex, av) := r in
    match generations ki !! Z.to_nat genIdx with
    | None => Panic
    | Some g =>
        if negb (generation_isEmpty g) then
          if (revIndex =? zlen (revs g) - 1) && negb (genIdx =? zlen (generations ki) - 1)
          then
            if revIndex <? 0 then Panic
            else
              match revs g !! Z.to_nat revIndex with
              | Some r0 => Ret (av ∖ {[ r0 ]})
              | None => Panic
              end
          else Ret av
        else Ret av
    end.

(** The first loop of [since]: [desc] is [ki.generations[1..gi]] from the
    newest on; the loop leaves [gi] at the generation to start from. *)
Fixpoint since_start (since : revision) (desc : list generation) (gi : Z) : Z :=
  match desc with
  | [] => gi
  | g :: older =>
      if generation_isEmpty g then since_start since older (gi - 1)
      else if GreaterThan since (created g) then gi
      else since_start since older (gi - 1)
  end.

(** The body of the second loop of [since], on the revision [r]:
    [revs[len(revs)-1] = r] on an empty [revs] is an index out of range. *)
Definition since_step (since : revision) (st : list revision * Z) (r : revision)
  : outcome (list revision * Z) :=
  let '(revs_, last_) := st in
  if GreaterThan since r then Ret st
  else if main r =? last_ then
    match revs_ with
    | [] => Panic
    | _ :: _ => Ret (<[(length revs_ - 1)%nat := r]> revs_, last_)
    end
  else Ret (revs_ ++ [r], main r).

Fixpoint since_loop (since : revision) (rs : list revision) (st : list revision * Z)
  : outcome (list revision * Z) :=
  match rs with
  | [] => Ret st
  | r :: rest => let* st' := since_step since st r in since_loop since rest st'
  end.

(** [ki.since(rev)]: the second loop runs over the revisions of the
    generations from [gi] on, in order. *)
Definition keyIndex_since (ki : keyIndex) (rev : Z) : outcome (list revision) :=
  if keyIndex_isEmpty ki then Panic
  else
    let since := mkRevision rev 0 in
    let gi := since_start since (reverse (drop 1 (generations ki)))
                (zlen (generations ki) - 1) in
    if gi <? 0 then Panic
    else
      let* st := since_loop since
                   (concat (map revs (drop (Z.to_nat gi) (generations ki)))) ([], 0) in
      Ret (fst st).

(** [ar != br] on revisions, and the loops of [generation.equal] and
    [keyIndex.equal]; the lengths are compared before the loops run. *)
Definition revision_eqb (a b : revision) : bool :=
  (main a =? main b) && (sub a =? sub b).

Fixpoint revs_equal (a b : list revision) : bool :=
  match a, b with
  | ar :: a', br :: b' => if negb (revision_eqb ar br) then false else revs_equal a' b'
  | _, _ => true
  end.

Definition generation_equal (g b : generation) : bool :=
  if negb (ver g =? ver b) then false
  else if negb (zlen (revs g) =? zlen (revs b)) then false
  else revs_equal (revs g) (revs b).

Fixpoint generations_equal (a b : list generation) : bool :=
  match a, b with
  | ag :: a', bg :: b' => if negb (generation_equal ag bg) then false
                          else generations_equal a' b'
  | _, _ => true
  end.

(** [bytes.Equal] of the Go library. *)
Fixpoint bytes_Equal (a b : list byte) : bool :=
  match a, b with
  | [], [] => true
  | x :: a', y :: b' => Byte.eqb x y && bytes_Equal a' b'
  | _, _ => false
  end.

Definition keyIndex_equal (ki b : keyIndex) : bool :=
  if negb (bytes_Equal (key ki) (key b)) then false
  else if negb (revision_eqb (modified ki) (modified b)) then false
  else if negb (zlen (generations ki) =? zlen (generations b)) then false
  else generations_equal (generations ki) (generations b).

(** [&keyIndex{key: k}] *)
Definition newKeyIndex (k : list byte) : keyIndex := mkKeyIndex k zero_revision [].

End Mvcc.

(** ** Package backend: the bucket buffer (tx_buffer.go) *)

Module Backend.

Record kv := mkKv { key : list byte; val : list byte }.

Record bucketBuffer := mkBucketBuffer { buf : list kv; used : Z }.

Definition bucketBufferInitialSize : Z := 512.

(** The zero value of [kv]: two nil slices. *)
Definition zero_kv : kv := mkKv [] [].

(** [make([]kv, n)] panics on a negative length. *)
Definition make_kvs (n : Z) : outcome (list kv) :=
  if n <? 0 then Panic else Ret (replicate (Z.to_nat n) zero_kv).

(** [copy(dst, src)]: the first min(len(dst), len(src)) elements. *)
Definition copy_kvs (dst src : list kv) : list kv :=
  take (length dst) src ++ drop (length src) dst.

(** [b[i]] and [b[i] = x], bounds-checked. *)
Definition get_kv (b : list kv) (i : Z) : outcome kv :=
  if (0 <=? i) && (i <? zlen b) then
    match b !! Z.to_nat i with
    | Some e => Ret e
    | None => Panic
    end
  else Panic.

Definition set_kv (b : list kv) (i : Z) (x : kv) : outcome (list kv) :=
  if (0 <=? i) && (i <? zlen b) then Ret (<[Z.to_nat i := x]> b) else Panic.

(** [bytes.Compare] and [bytes.Equal] of the Go library: the
    lexicographic order on byte strings. *)
Fixpoint bytes_Compare (a b : list byte) : Z :=
  match a, b with
  | [], [] => 0
  | [], _ :: _ => -1
  | _ :: _, [] => 1
  | x :: a', y :: b' =>
      if (Byte.to_N x <? Byte.to_N y)%N then -1
      else if (Byte.to_N y <? Byte.to_N x)%N then 1
      else bytes_Compare a' b'
  end.

Definition bytes_Equal (a b : list byte) : bool := bytes_Compare a b =? 0.

(** The indices lo, lo+1, ..., hi-1 of a counting loop. *)
Fixpoint count_from (lo : Z) (n : nat) : list Z :=
  match n with
  | O => []
  | S n' => lo :: count_from (lo + 1) n'
  end.

Definition indices (lo hi : Z) : list Z := count_from lo (Z.to_nat (hi - lo)).

(** [for _, i := range idxs { s = body(s, i) }] *)
Fixpoint for_each {S : Type} (idxs : list Z) (body : S -> Z -> outcome S) (s : S)
  : outcome S :=
  match idxs with
  | [] => Ret s
  | i :: rest => let* s' := body s i in for_each rest body s'
  end.

(** [sort.Search(n, f)] of the Go library: binary search for the smallest
    index in [0, n) at which [f] holds, [n] if there is none.  Each
    iteration shrinks [j - i], so [n] iterations are enough; running out
    of them is reported as [Panic]. *)
Fixpoint search_loop (fuel : nat) (f : Z -> outcome bool) (i j : Z) : outcome Z :=
  if i <? j then
    match fuel with
    | O => Panic
    | S fuel' =>
        let h := i64 (Z.shiftr (u64 (i + j)) 1) in
        let* b := f h in
        if negb b then search_loop fuel' f (h + 1) j
        else search_loop fuel' f i h
    end
  else Ret i.

Definition sort_Search (n : Z) (f : Z -> outcome bool) : outcome Z :=
  search_loop (Z.to_nat n) f 0 n.

Definition newBucketBuffer : bucketBuffer :=
  mkBucketBuffer (replicate (Z.to_nat bucketBufferInitialSize) zero_kv) 0.

Definition bucketBuffer_Len (bb : bucketBuffer) : Z := used bb.

Definition kv_Less (x y : kv) : bool := bytes_Compare (key x) (key y) <? 0.

(** [sort.Stable(bb)] of the Go library, through [Len], [Less] and
    [Swap]: the first [used] pairs in the order of their keys, pairs of
    equal keys in their former order.  Below two elements nothing is
    read; otherwise the insertion sort reads every index below [used]. *)
Fixpoint insert_stable (x : kv) (sorted : list kv) : list kv :=
  match sorted with
  | [] => [x]
  | y :: rest => if kv_Less y x then y :: insert_stable x rest else x :: y :: rest
  end.

Definition stable_sort (l : list kv) : list kv := foldr insert_stable [] l.

Definition sort_Stable (bb : bucketBuffer) : outcome bucketBuffer :=
  if bucketBuffer_Len bb <=? 1 then Ret bb
  else if bucketBuffer_Len bb <=? zlen (buf bb) then
    Ret (mkBucketBuffer
           (stable_sort (take (Z.to_nat (used bb)) (buf bb))
              ++ drop (Z.to_nat (used bb)) (buf bb))
           (used bb))
  else Panic.

Definition bucketBuffer_add (bb : bucketBuffer) (k v : list byte) : outcome bucketBuffer :=
  let* buf1 := set_kv (buf bb) (used bb) (mkKv k v) in
  let used1 := i64 (used bb + 1) in
  if used1 =? zlen buf1 then
    let* fresh := make_kvs (Z.quot (i64 (3 * zlen buf1)) 2) in
    Ret (mkBucketBuffer (copy_kvs fresh buf1) used1)
  else Ret (mkBucketBuffer buf1 used1).

(** [bb.merge(bbsrc)], for two distinct buffers. *)
Definition bucketBuffer_merge (bb bbsrc : bucketBuffer) : outcome bucketBuffer :=
  let* bb1 :=
    for_each (indices 0 (used bbsrc))
      (fun b i => let* e := get_kv (buf bbsrc) i in bucketBuffer_add b (key e) (val e))
      bb in
  if used bb1 =? used bbsrc then Ret bb1
  else
    let* a := get_kv (buf bb1) (i64 (i64 (used bb1 - used bbsrc) - 1)) in
    let* b := get_kv (buf bbsrc) 0 in
    if bytes_Compare (key a) (key b) <? 0 then Ret bb1
    else
      let* bb2 := sort_Stable bb1 in
      let* r :=
        for_each (indices 1 (used bb2))
          (fun (st : list kv * Z) ridx =>
             let '(b, widx) := st in
             let* er := get_kv b ridx in
             let* ew := get_kv b widx in
             let widx' := if negb (bytes_Equal (key er) (key ew))
                          then i64 (widx + 1) else widx in
             let* b' := set_kv b widx' er in
             Ret (b', widx'))
          (buf bb2, 0) in
      Ret (mkBucketBuffer (fst r) (i64 (snd r + 1))).

(** The loop of [Range]: [idxs] are the indices from [idx] up to [used]. *)
Fixpoint range_loop (b : list kv) (endKey : list byte) (limit : Z) (idxs : list Z)
    (keys vals : list (list byte)) : outcome (list (list byte) * list (list byte)) :=
  match idxs with
  | [] => Ret (keys, vals)
  | i :: rest =>
      if zlen keys <? limit then
        let* e := get_kv b i in
        if bytes_Compare endKey (key e) <=? 0 then Ret (keys, vals)
        else range_loop b endKey limit rest (keys ++ [key e]) (vals ++ [val e])
      else Ret (keys, vals)
  end.

Definition bucketBuffer_Range (bb : bucketBuffer) (key_ endKey : list byte) (limit : Z)
  : outcome (list (list byte) * list (list byte)) :=
  let f := fun i => let* e := get_kv (buf bb) i in
                    Ret (bytes_Compare (key e) key_ >=? 0) in
  let* idx := sort_Search (used bb) f in
  if idx <? 0 then Ret ([], [])
  else if zlen endKey =? 0 then
    let* e := get_kv (buf bb) idx in
    if bytes_Equal key_ (key e) then Ret ([key e], [val e]) else Ret ([], [])
  else
    let* e := get_kv (buf bb) idx in
    if bytes_Compare endKey (key e) <=? 0 then Ret ([], [])
    else range_loop (buf bb) endKey limit (indices idx (used bb)) [] [].

(** [bb.ForEach(visitor)]; the visitor returns its error, if any. *)
Fixpoint foreach_loop {E : Type} (b : list kv) (visitor : list byte -> list byte -> option E)
    (idxs : list Z) : outcome (option E) :=
  match idxs with
  | [] => Ret None
  | i :: rest =>
      let* e := get_kv b i in
      match visitor (key e) (val e) with
      | Some err => Ret (Some err)
      | None => foreach_loop b visitor rest
      end
  end.

Definition bucketBuffer_ForEach {E : Type} (bb : bucketBuffer)
    (visitor : list byte -> list byte -> option E) : outcome (option E) :=
  foreach_loop (buf bb) visitor (indices 0 (used bb)).

(** [txBuffer.reset] on a bucket that stays: [v.used = 0]. *)
Definition bucketBuffer_reset (bb : bucketBuffer) : bucketBuffer :=
  mkBucketBuffer (buf bb) 0.

End Backend.

(** ** Concrete inputs used by the examples of Part II *)

Module Fixtures.
Import Raft.

(** A runtime that doubles capacities and a [limitSize] that never cuts. *)
Definition doubling : External :=
  {| growslice := fun oldcap needed => Z.max needed (2 * oldcap);
     limitSize := fun s _ => s |}.

Definition entry (i t : Z) : Entry := mkEntry t i EntryNormal [].
Definition exact (l : list Entry) : slice := mkSlice l (zlen l).

(** [MemoryStorage] as the [Storage] of the examples. *)
Definition in_memory : Storage MemoryStorage := MemoryStorage_Storage (ext := doubling).
Definition snap (i t : Z) : Snapshot :=
  mkSnapshot [] (mkSnapshotMetadata (mkConfState [] []) i t).

Definition storage_of (l : list Entry) : MemoryStorage :=
  mkMemoryStorage (mkHardState 0 0 0) (snap 0 0) (exact l).

(** stable = [(1,1),(2,1),(3,1)] behind the dummy entry (0,0). *)
Definition stable3 : MemoryStorage :=
  storage_of [entry 0 0; entry 1 1; entry 2 1; entry 3 1].

(** The log over [stable3] with nothing unstable, [committed] and
    [applied] as given. *)
Definition log3 (c a : Z) : raftLog MemoryStorage :=
  mkRaftLog stable3 (mkUnstable None nil_slice 4) c a noLimit.

(** offset = 10, entries 10..19 of term 1, in an array of capacity [c]. *)
Definition tail10 (c : Z) : unstable :=
  mkUnstable None
    (mkSlice (map (fun i => entry i 1) [10; 11; 12; 13; 14; 15; 16; 17; 18; 19]) c) 10.

(** offset = 5, entries 5 and 6. *)
Definition tail5 : unstable :=
  mkUnstable None (exact [entry 5 1; entry 6 1]) 5.

End Fixtures.

(** * Part II: the properties *)

(** ** Machine integers *)

Lemma u64_small z : is_u64 z -> u64 z = z.
Proof. unfold is_u64, u64. intros H. apply Z.mod_small. lia. Qed.

Lemma u64_range z : is_u64 (u64 z).
Proof. unfold is_u64, u64. apply Z.mod_pos_bound. lia. Qed.

Lemma i64_small z : - 2^63 <= z < 2^63 -> i64 z = z.
Proof. unfold i64. intros H. rewrite Z.mod_small; lia. Qed.

Lemma u64_i64 z : is_u64 z -> u64 (i64 z) = z.
Proof.
  unfold is_u64, u64, i64. intros H.
  destruct (Z_lt_dec z (2^63)) as [Hlt|Hge].
  - rewrite (Z.mod_small (z + 2^63)) by lia.
    replace (z + 2^63 - 2^63) with z by lia. apply Z.mod_small. lia.
  - replace (z + 2^63) with (z - 2^63 + 1 * 2^64) by lia.
    rewrite Z.mod_add by lia. rewrite (Z.mod_small (z - 2^63)) by lia.
    replace (z - 2^63 - 2^63) with (z + (-1) * 2^64) by lia.
    rewrite Z.mod_add by lia. apply Z.mod_small. lia.
Qed.

Lemma i64_neg_iff z : is_u64 z -> (i64 z < 0 <-> 2^63 <= z).
Proof.
  unfold is_u64, i64. intros H.
  destruct (Z_lt_dec z (2^63)) as [Hlt|Hge].
  - rewrite (Z.mod_small (z + 2^63)) by lia. lia.
  - replace (z + 2^63) with (z - 2^63 + 1 * 2^64) by lia.
    rewrite Z.mod_add by lia. rewrite (Z.mod_small (z - 2^63)) by lia. lia.
Qed.

(** ** WAL frames *)

Section FrameSize.

(** A 56-bit payload length and an 8-bit tag share no bit. *)
Lemma frame_low_bits n k :
  0 <= n < 2^56 -> Z.land (Z.lor n (Z.shiftl k 56)) (Z.ones 56) = n.
Proof.
  intros Hn. rewrite Z.land_lor_distr_l, !Z.land_ones by lia.
  rewrite Z.shiftl_mul_pow2 by lia. rewrite Z.mod_mul by lia.
  rewrite Z.lor_0_r. apply Z.mod_small. lia.
Qed.

Lemma frame_high_bits n k :
  0 <= n < 2^56 -> Z.shiftr (Z.lor n (Z.shiftl k 56)) 56 = k.
Proof.
  intros Hn. rewrite Z.shiftr_lor, Z.shiftr_shiftl_l by lia.
  rewrite Z.shiftr_div_pow2 by lia. rewrite Z.div_small by lia.
  rewrite Z.sub_diag, Z.shiftl_0_r. apply Z.lor_0_l.
Qed.

Lemma frame_value n k :
  0 <= n < 2^56 -> Z.lor n (Z.shiftl k 56) = n + k * 2^56.
Proof.
  intros Hn. set (x := Z.lor n (Z.shiftl k 56)).
  rewrite (Z.div_mod x (2^56)) by lia.
  rewrite <- Z.shiftr_div_pow2 by lia. rewrite <- Z.land_ones by lia.
  unfold x. rewrite frame_high_bits, frame_low_bits by lia. lia.
Qed.

Lemma pad_cases n :
  0 <= n -> exists p, 0 <= p < 8 /\ Z.rem (8 - Z.rem n 8) 8 = p /\
                      p = (8 - n mod 8) mod 8 /\ (n + p) mod 8 = 0.
Proof.
  intros Hn. rewrite (Z.rem_mod_nonneg n 8) by lia.
  assert (0 <= n mod 8 < 8) as Hm by (apply Z.mod_pos_bound; lia).
  rewrite Z.rem_mod_nonneg by lia.
  exists ((8 - n mod 8) mod 8). split; [apply Z.mod_pos_bound; lia|].
  split; [reflexivity|]. split; [reflexivity|].
  rewrite Z.add_mod_idemp_r by lia.
  rewrite (Z.div_mod n 8) at 1 by lia.
  replace (8 * (n / 8) + n mod 8 + (8 - n mod 8)) with ((n / 8 + 1) * 8) by lia.
  apply Z.mod_mul. lia.
Qed.

End FrameSize.

(** C4: for a payload length n with 0 <= n < 2^56, [encodeFrameSize] yields
    padBytes = (8 - n mod 8) mod 8 and a 64-bit length field whose low 56
    bits are n, whose sign bit (bit 63) is set iff padBytes > 0 and whose
    bits 56..58 carry padBytes; [decodeFrameSize] applied to that field
    (read back as an int64) returns (n, padBytes); and the frame size
    8 + n + padBytes is a multiple of 8. *)
Theorem encodeFrameSize_decodeFrameSize (n : Z) :
  0 <= n < 2^56 ->
  let '(lenField, padBytes) := Wal.encodeFrameSize n in
  padBytes = (8 - n mod 8) mod 8 /\
  is_u64 lenField /\
  Z.land lenField (Z.ones 56) = n /\
  (Z.testbit lenField 63 = true <-> 0 < padBytes) /\
  Z.land (Z.shiftr lenField 56) 7 = padBytes /\
  Wal.decodeFrameSize (i64 lenField) = (n, padBytes) /\
  (Wal.frameSizeBytes + n + padBytes) mod 8 = 0.
Proof.
  intros Hn. unfold Wal.encodeFrameSize.
  destruct (pad_cases n) as (p & Hp & Hrem & Hpeq & Hmul); [lia|].
  rewrite Hrem. clear Hrem. rewrite (u64_small n) by (unfold is_u64; lia).
  rewrite <- Hpeq. clear Hpeq.
  assert (Hframe : (Wal.frameSizeBytes + n + p) mod 8 = 0).
  { unfold Wal.frameSizeBytes. replace (8 + n + p) with (n + p + 1 * 8) by lia.
    rewrite Z.mod_add by lia. exact Hmul. }
  assert (Hmask : u64 (Z.lnot (u64 (Z.shiftl 255 56))) = Z.ones 56) by reflexivity.
  destruct (Z.eqb_spec p 0) as [Hz|Hnz].
  - (* no padding: the length field is n itself *)
    subst p.
    assert (Hu : is_u64 n) by (unfold is_u64; lia).
    assert (Hhi : Z.shiftr n 56 = 0).
    { rewrite Z.shiftr_div_pow2 by lia. apply Z.div_small. lia. }
    repeat split; try lia.
    + rewrite Z.land_ones by lia. apply Z.mod_small. lia.
    + intros Hb. destruct (Z.eq_dec n 0) as [->|Hn0]; [discriminate|].
      assert (Z.log2 n < 63) as Hlog by (apply Z.log2_lt_pow2; lia).
      rewrite (Z.bits_above_log2 n 63) in Hb by lia. discriminate.
    + rewrite Hhi. reflexivity.
    + unfold Wal.decodeFrameSize. rewrite (i64_small n) by lia.
      rewrite u64_small by exact Hu. rewrite Hmask.
      rewrite Z.land_ones by lia. rewrite Z.mod_small by lia.
      rewrite i64_small by lia.
      destruct (Z.ltb_spec n 0); [lia|reflexivity].
  - (* padding p in 1..7: tag byte 0x80|p above the 56 payload bits *)
    assert (Htag : Z.lor 128 p = 128 + p).
    { assert (p = 1 \/ p = 2 \/ p = 3 \/ p = 4 \/ p = 5 \/ p = 6 \/ p = 7) as Hc by lia.
      destruct Hc as [->|[->|[->|[->|[->|[->| ->]]]]]]; reflexivity. }
    rewrite Htag. rewrite (u64_small (128 + p)) by (unfold is_u64; lia).
    assert (Hsh : u64 (Z.shiftl (128 + p) 56) = Z.shiftl (128 + p) 56).
    { apply u64_small. unfold is_u64. rewrite Z.shiftl_mul_pow2 by lia. lia. }
    rewrite Hsh.
    pose proof (frame_value n (128 + p) Hn) as Hval.
    pose proof (frame_high_bits n (128 + p) Hn) as Hhi.
    pose proof (frame_low_bits n (128 + p) Hn) as Hlo.
    set (lf := Z.lor n (Z.shiftl (128 + p) 56)) in *.
    assert (Hu : is_u64 lf) by (unfold is_u64; lia).
    assert (Hp7 : Z.land (128 + p) 7 = p).
    { assert (p = 1 \/ p = 2 \/ p = 3 \/ p = 4 \/ p = 5 \/ p = 6 \/ p = 7) as Hc by lia.
      destruct Hc as [->|[->|[->|[->|[->|[->| ->]]]]]]; reflexivity. }
    repeat split; try lia; try assumption.
    + intros _.
      replace 63 with (7 + 56) by lia. rewrite <- Z.shiftr_spec by lia.
      rewrite Hhi. rewrite <- Htag. rewrite Z.lor_spec. reflexivity.
    + rewrite Hhi. exact Hp7.
    + unfold Wal.decodeFrameSize. rewrite u64_i64 by exact Hu.
      rewrite Hmask, Hlo, Hhi, Hp7.
      rewrite (i64_small n), (i64_small p) by lia.
      destruct (Z.ltb_spec (i64 lf) 0) as [Hneg|Hpos]; [reflexivity|].
      exfalso. pose proof (i64_neg_iff lf Hu) as Hiff. lia.
Qed.

Lemma encodeFrameSize_decodeFrameSize_witness :
  let '(lenField, padBytes) := Wal.encodeFrameSize 13 in
  padBytes = (8 - 13 mod 8) mod 8 /\
  is_u64 lenField /\
  Z.land lenField (Z.ones 56) = 13 /\
  (Z.testbit lenField 63 = true <-> 0 < padBytes) /\
  Z.land (Z.shiftr lenField 56) 7 = padBytes /\
  Wal.decodeFrameSize (i64 lenField) = (13, padBytes) /\
  (Wal.frameSizeBytes + 13 + padBytes) mod 8 = 0.
Proof. apply (encodeFrameSize_decodeFrameSize 13). lia. Defined.

(** ** The replicated log *)

Section RaftLog.
Import Raft.
Context {ext : External}.

Lemma at_0_cons (e : Entry) (l : list Entry) (c : Z) :
  at_ (mkSlice (e :: l) c) 0 = Ret e.
Proof.
  unfold at_, len, zlen. simpl elems. rewrite length_cons.
  destruct (Z.ltb_spec 0 (Z.of_nat (S (length l)))); [reflexivity|lia].
Qed.

Lemma at_0_inv (s : slice) (e : Entry) :
  at_ s 0 = Ret e -> exists l, elems s = e :: l.
Proof.
  unfold at_. destruct ((0 <=? 0) && (0 <? len s)); [|discriminate].
  change (Z.to_nat 0) with 0%nat.
  destruct (elems s) as [|e' l]; simpl; [discriminate|].
  intros [= ->]. eauto.
Qed.

(** *** The unstable tail *)

Lemma slice_from_ok (s : slice) (k : Z) :
  0 <= k <= len s ->
  slice_from s k = Ret (mkSlice (drop (Z.to_nat k) (elems s)) (cap s - k)).
Proof.
  intros Hk. unfold slice_from.
  destruct (Z.leb_spec 0 k); [|lia]. destruct (Z.leb_spec k (len s)); [|lia].
  reflexivity.
Qed.

Lemma slice_range_ok (s : slice) (lo hi : Z) :
  0 <= lo <= hi -> hi <= len s ->
  slice_range s lo hi =
    Ret (mkSlice (take (Z.to_nat (hi - lo)) (drop (Z.to_nat lo) (elems s))) (cap s - lo)).
Proof.
  intros Hlo Hhi. unfold slice_range.
  destruct (Z.leb_spec 0 lo); [|lia]. destruct (Z.leb_spec lo hi); [|lia].
  destruct (Z.leb_spec hi (len s)); [|lia]. reflexivity.
Qed.

Lemma at_Ret (s : slice) (k : Z) (e : Entry) :
  at_ s k = Ret e <-> 0 <= k < len s /\ elems s !! Z.to_nat k = Some e.
Proof.
  unfold at_. destruct (Z.leb_spec 0 k); destruct (Z.ltb_spec k (len s)); simpl;
    try (split; [discriminate|lia]).
  destruct (elems s !! Z.to_nat k) as [e'|].
  - split; [intros [= ->]; auto|intros [_ [= ->]]; reflexivity].
  - split; [discriminate|intros [_ H']; discriminate].
Qed.

Lemma len_nonneg (s : slice) : 0 <= len s.
Proof. unfold len, zlen. lia. Qed.

Lemma len_drop (s : slice) (k : Z) :
  0 <= k <= len s -> zlen (drop (Z.to_nat k) (elems s)) = len s - k.
Proof. unfold len, zlen. intros Hk. rewrite length_drop. lia. Qed.

(** An index that [maybeTerm] finds at or above the offset lies inside the
    entries. *)
Lemma unstable_maybeTerm_entries (u : unstable) (i gt : Z) :
  is_u64 (offset u) -> is_u64 (offset u + len (entries u)) ->
  unstable_maybeTerm u i = Ret (gt, true) -> offset u <= i ->
  i < offset u + len (entries u) /\
  exists e, elems (entries u) !! Z.to_nat (i - offset u) = Some e /\ Term e = gt.
Proof.
  intros Ho Hol Hm Hi. unfold unstable_maybeTerm in Hm.
  destruct (Z.ltb_spec i (offset u)); [lia|].
  unfold unstable_maybeLastIndex in Hm.
  pose proof (len_nonneg (entries u)) as Hl.
  destruct (Z.eqb_spec (len (entries u)) 0) as [Hz|Hnz]; simpl in Hm.
  - destruct (snapshot u) as [s|]; simpl in Hm; [|discriminate].
    destruct (Z.gtb_spec i (SnapIndex (Metadata s))); [discriminate|].
    destruct (at_ (entries u) (u64 (i - offset u))) as [e|] eqn:Hat; [|discriminate].
    apply at_Ret in Hat. lia.
  - rewrite u64_small in Hm by (unfold is_u64 in *; lia).
    destruct (Z.gtb_spec i (offset u + len (entries u) - 1)); [discriminate|].
    rewrite u64_small in Hm by (unfold is_u64 in *; lia).
    destruct (at_ (entries u) (i - offset u)) as [e|] eqn:Hat; [|discriminate].
    apply at_Ret in Hat. destruct Hat as [_ Hat]. simpl in Hm.
    injection Hm as Hm. split; [lia|]. eauto.
Qed.

End RaftLog.

(** C8 (as stated): after [restore(s)] both [committed] and [applied] equal
    the snapshot index.  [raftLog.restore] does not assign [applied]. *)
Definition restore_resets_applied {S : Type} (l : Raft.raftLog S) (s : Raft.Snapshot) : Prop :=
  let l' := Raft.raftLog_restore l s in
  Raft.committed l' = Raft.SnapIndex (Raft.Metadata s) /\
  Raft.applied l' = Raft.SnapIndex (Raft.Metadata s).

(** C8, counterexample: restoring the snapshot at index 3 into a log with
    applied = 0 leaves applied = 0. *)
Lemma restore_keeps_applied_example :
  ~ restore_resets_applied (Fixtures.log3 0 0) (Fixtures.snap 3 1).
Proof. unfold restore_resets_applied. simpl. intros [_ H]. discriminate H. Qed.

(** C8 (amended): after [l.restore(s)] the unstable tail holds [s] as its
    pending snapshot, its entries are cleared and its offset is
    s.metadata.index + 1; [committed] is reset to s.metadata.index;
    [applied] and the storage are left as they were. *)
Theorem raftLog_restore_spec {S : Type} (l : Raft.raftLog S) (s : Raft.Snapshot) :
  is_u64 (Raft.SnapIndex (Raft.Metadata s) + 1) ->
  let l' := Raft.raftLog_restore l s in
  Raft.snapshot (Raft.unstab l') = Some s /\
  Raft.entries (Raft.unstab l') = Raft.nil_slice /\
  Raft.offset (Raft.unstab l') = Raft.SnapIndex (Raft.Metadata s) + 1 /\
  Raft.committed l' = Raft.SnapIndex (Raft.Metadata s) /\
  Raft.applied l' = Raft.applied l /\
  Raft.storage l' = Raft.storage l.
Proof.
  intros Hr. simpl. rewrite u64_small by exact Hr. repeat split; reflexivity.
Qed.

Lemma raftLog_restore_spec_witness :
  let l' := Raft.raftLog_restore (Fixtures.log3 2 1) (Fixtures.snap 7 2) in
  Raft.snapshot (Raft.unstab l') = Some (Fixtures.snap 7 2) /\
  Raft.entries (Raft.unstab l') = Raft.nil_slice /\
  Raft.offset (Raft.unstab l') = 8 /\
  Raft.committed l' = 7 /\
  Raft.applied l' = 1 /\
  Raft.storage l' = Fixtures.stable3.
Proof.
  apply (raftLog_restore_spec (Fixtures.log3 2 1) (Fixtures.snap 7 2)).
  unfold is_u64. simpl. lia.
Defined.

(** C10: a [MemoryStorage] that holds only the dummy entry answers every
    [Entries(lo, hi, maxSize)] with lo > dummy.index and hi <= lastIndex + 1
    with [ErrUnavailable]: neither an empty slice without error nor
    [ErrCompacted], and without panicking. *)
Theorem MemoryStorage_Entries_dummy_only {ext : Raft.External}
    (ms : Raft.MemoryStorage) (dummy : Raft.Entry) (li lo hi maxSize : Z) :
  Raft.elems (Raft.ents ms) = [dummy] ->
  is_u64 (Raft.Index dummy) -> is_u64 lo ->
  Raft.MemoryStorage_lastIndex ms = Ret li ->
  Raft.Index dummy < lo ->
  hi <= li + 1 ->
  Raft.MemoryStorage_Entries ms lo hi maxSize = Ret (Raft.nil_slice, Some Raft.ErrUnavailable).
Proof.
  intros Hents Hd Hlo Hli Hlt Hhi.
  unfold Raft.MemoryStorage_Entries.
  unfold Raft.MemoryStorage_lastIndex in Hli |- *.
  destruct ms as [hs sn [es c]]. simpl in *. subst es.
  rewrite at_0_cons in Hli |- *. simpl in Hli |- *.
  unfold Raft.len, zlen in Hli |- *. simpl in Hli |- *.
  injection Hli as Hli.
  replace (Raft.Index dummy + Z.of_nat 1 - 1) with (Raft.Index dummy) in Hli |- * by lia.
  rewrite (u64_small (Raft.Index dummy)) in Hli |- * by exact Hd. subst li.
  destruct (Z.leb_spec lo (Raft.Index dummy)); [lia|].
  rewrite u64_small by (unfold is_u64 in *; lia).
  destruct (Z.gtb_spec hi (Raft.Index dummy + 1)); [lia|]. reflexivity.
Qed.

Lemma MemoryStorage_Entries_dummy_only_witness :
  Raft.MemoryStorage_Entries (ext := Fixtures.doubling)
    (Fixtures.storage_of [Fixtures.entry 5 2]) 6 6 100
  = Ret (Raft.nil_slice, Some Raft.ErrUnavailable).
Proof.
  apply (MemoryStorage_Entries_dummy_only (ext := Fixtures.doubling)
           (Fixtures.storage_of [Fixtures.entry 5 2]) (Fixtures.entry 5 2) 5 6 6 100);
    unfold is_u64; simpl; try reflexivity; lia.
Defined.

(** [maybeTerm] returns on every tail whose pending snapshot, if any, lies
    below the offset. *)
Lemma unstable_maybeTerm_total (u : Raft.unstable) (i : Z) :
  is_u64 (Raft.offset u) ->
  is_u64 (Raft.offset u + Raft.len (Raft.entries u)) ->
  match Raft.snapshot u with
  | Some s => Raft.SnapIndex (Raft.Metadata s) < Raft.offset u
  | None => True
  end ->
  exists r, Raft.unstable_maybeTerm u i = Ret r.
Proof.
  intros Ho Hol Hs. unfold Raft.unstable_maybeTerm, Raft.unstable_maybeLastIndex.
  pose proof (len_nonneg (Raft.entries u)) as Hn.
  destruct (Z.ltb_spec i (Raft.offset u)) as [Hlt|Hge].
  - destruct (Raft.snapshot u) as [s|]; [|eauto].
    destruct (Raft.SnapIndex (Raft.Metadata s) =? i); eauto.
  - destruct (Z.eqb_spec (Raft.len (Raft.entries u)) 0) as [Hz|Hnz]; simpl negb; cbv iota.
    + destruct (Raft.snapshot u) as [s|]; simpl; [|eauto].
      destruct (Z.gtb_spec i (Raft.SnapIndex (Raft.Metadata s))); [eauto|lia].
    + rewrite u64_small by (unfold is_u64 in *; lia). simpl negb. cbv iota.
      destruct (Z.gtb_spec i (Raft.offset u + Raft.len (Raft.entries u) - 1)); [eauto|].
      rewrite u64_small by (unfold is_u64 in *; lia).
      destruct (Raft.at_ (Raft.entries u) (i - Raft.offset u)) as [e|] eqn:Hat.
      * simpl. eauto.
      * exfalso.
        assert (Hin : 0 <= i - Raft.offset u < Raft.len (Raft.entries u)) by lia.
        unfold Raft.at_ in Hat.
        destruct (Z.leb_spec 0 (i - Raft.offset u)); [|lia].
        destruct (Z.ltb_spec (i - Raft.offset u) (Raft.len (Raft.entries u))); [|lia].
        simpl in Hat.
        destruct (lookup_lt_is_Some_2 (Raft.elems (Raft.entries u))
                    (Z.to_nat (i - Raft.offset u))) as [e He].
        { unfold Raft.len, zlen in Hin. lia. }
        rewrite He in Hat. discriminate.
Qed.

(** ** unstable.truncateAndAppend *)

(** C5 (as stated): the three cases of [truncateAndAppend], the third one
    being every first index [a] that is neither [offset + len(entries)] nor
    at most [offset]. *)
Definition truncateAndAppend_three_cases (ext : Raft.External)
    (u : Raft.unstable) (ents : Raft.slice) : Prop :=
  forall e0, Raft.at_ ents 0 = Ret e0 ->
  let a := Raft.Index e0 in
  let n := Raft.len (Raft.entries u) in
  (a = Raft.offset u + n ->
   exists u', Raft.unstable_truncateAndAppend u ents = Ret u' /\
     Raft.elems (Raft.entries u') = Raft.elems (Raft.entries u) ++ Raft.elems ents /\
     Raft.offset u' = Raft.offset u) /\
  (a <= Raft.offset u ->
   exists u', Raft.unstable_truncateAndAppend u ents = Ret u' /\
     Raft.elems (Raft.entries u') = Raft.elems ents /\
     Raft.offset u' = a) /\
  (a <> Raft.offset u + n -> ~ a <= Raft.offset u ->
   exists u', Raft.unstable_truncateAndAppend u ents = Ret u' /\
     Raft.elems (Raft.entries u') =
       take (Z.to_nat (a - Raft.offset u)) (Raft.elems (Raft.entries u)) ++ Raft.elems ents /\
     Raft.offset u' = Raft.offset u).

(** C5, counterexample: with offset = 5 and entries 5, 6 the tail ends at
    index 6; appending an entry of index 10 leaves a gap, and
    [unstable.slice] panics on its bounds check. *)
Lemma truncateAndAppend_gap_panics :
  Raft.unstable_truncateAndAppend (ext := Fixtures.doubling)
    Fixtures.tail5 (Fixtures.exact [Fixtures.entry 10 1]) = Panic /\
  ~ truncateAndAppend_three_cases Fixtures.doubling
      Fixtures.tail5 (Fixtures.exact [Fixtures.entry 10 1]).
Proof.
  split; [reflexivity|].
  intros H. destruct (H (Fixtures.entry 10 1) eq_refl) as (_ & _ & H3).
  destruct H3 as (u' & Hrun & _); [simpl; unfold Raft.len, zlen; simpl; lia|simpl; lia|].
  discriminate Hrun.
Qed.

(** C5 (amended): for an unstable tail [u] and a non-empty [ents] with first
    index [a]: [truncateAndAppend] extends [u.entries] when
    a = offset + len(entries); replaces [u.entries] with [ents] and sets
    offset = a when a <= offset; keeps entries[0 .. a - offset) and appends
    [ents], offset unchanged, when offset < a < offset + len(entries); and
    panics when a > offset + len(entries). *)
Theorem unstable_truncateAndAppend_spec {ext : Raft.External}
    (u : Raft.unstable) (ents : Raft.slice) (e0 : Raft.Entry) :
  is_u64 (Raft.offset u) ->
  is_u64 (Raft.offset u + Raft.len (Raft.entries u)) ->
  Raft.at_ ents 0 = Ret e0 ->
  let a := Raft.Index e0 in
  let n := Raft.len (Raft.entries u) in
  (a = Raft.offset u + n ->
   Raft.unstable_truncateAndAppend u ents =
     Ret (Raft.mkUnstable (Raft.snapshot u)
            (Raft.append_slice (Raft.entries u) (Raft.elems ents)) (Raft.offset u)) /\
   Raft.elems (Raft.append_slice (Raft.entries u) (Raft.elems ents)) =
     Raft.elems (Raft.entries u) ++ Raft.elems ents) /\
  (a <= Raft.offset u ->
   exists u', Raft.unstable_truncateAndAppend u ents = Ret u' /\
     Raft.elems (Raft.entries u') = Raft.elems ents /\
     Raft.offset u' = a /\ Raft.snapshot u' = Raft.snapshot u /\
     (a <> Raft.offset u + n -> Raft.entries u' = ents)) /\
  (Raft.offset u < a < Raft.offset u + n ->
   exists u', Raft.unstable_truncateAndAppend u ents = Ret u' /\
     Raft.elems (Raft.entries u') =
       take (Z.to_nat (a - Raft.offset u)) (Raft.elems (Raft.entries u)) ++ Raft.elems ents /\
     Raft.offset u' = Raft.offset u /\ Raft.snapshot u' = Raft.snapshot u) /\
  (Raft.offset u + n < a -> Raft.unstable_truncateAndAppend u ents = Panic).
Proof.
  intros Ho Hol He0 a n. unfold Raft.unstable_truncateAndAppend.
  rewrite He0. simpl obind. fold a. fold n.
  rewrite (u64_small (Raft.offset u + n)) by exact Hol.
  pose proof (len_nonneg (Raft.entries u)) as Hn. fold n in Hn.
  repeat split.
  - destruct (Z.eqb_spec a (Raft.offset u + n)); [reflexivity|lia].
  - intros Hle. destruct (Z.eqb_spec a (Raft.offset u + n)) as [Heq|Hne].
    + (* a = offset and the tail is empty: the extension gives the same *)
      assert (n = 0) as Hn0 by lia.
      eexists. split; [reflexivity|]. simpl.
      assert (Raft.elems (Raft.entries u) = []) as ->.
      { unfold n, Raft.len, zlen in Hn0. destruct (Raft.elems (Raft.entries u)); [reflexivity|].
        simpl in Hn0. lia. }
      repeat split; try reflexivity; lia.
    + destruct (Z.leb_spec a (Raft.offset u)); [|lia].
      eexists. split; [reflexivity|]. simpl. auto.
  - intros [Hlo Hhi].
    destruct (Z.eqb_spec a (Raft.offset u + n)); [lia|].
    destruct (Z.leb_spec a (Raft.offset u)); [lia|].
    unfold Raft.unstable_slice, Raft.unstable_mustCheckOutOfBounds.
    destruct (Z.gtb_spec (Raft.offset u) a); [lia|]. fold n.
    rewrite (u64_small (Raft.offset u + n)) by exact Hol.
    destruct (Z.ltb_spec (Raft.offset u) (Raft.offset u)); [lia|].
    destruct (Z.gtb_spec a (Raft.offset u + n)); [lia|]. simpl obind.
    rewrite Z.sub_diag. rewrite (u64_small 0) by (unfold is_u64; lia).
    rewrite (u64_small (a - Raft.offset u)) by (unfold is_u64 in *; lia).
    rewrite slice_range_ok by (fold n; lia). simpl obind.
    eexists. split; [reflexivity|]. simpl.
    rewrite Z.sub_0_r. rewrite drop_0. auto.
  - intros Hgap.
    destruct (Z.eqb_spec a (Raft.offset u + n)); [lia|].
    destruct (Z.leb_spec a (Raft.offset u)); [lia|].
    unfold Raft.unstable_slice, Raft.unstable_mustCheckOutOfBounds.
    destruct (Z.gtb_spec (Raft.offset u) a); [lia|]. fold n.
    rewrite (u64_small (Raft.offset u + n)) by exact Hol.
    destruct (Z.ltb_spec (Raft.offset u) (Raft.offset u)); [lia|].
    destruct (Z.gtb_spec a (Raft.offset u + n)); [reflexivity|lia].
Qed.

Lemma unstable_truncateAndAppend_spec_witness :
  exists u',
    Raft.unstable_truncateAndAppend (ext := Fixtures.doubling) Fixtures.tail5
      (Fixtures.exact [Fixtures.entry 6 2; Fixtures.entry 7 2]) = Ret u' /\
    Raft.elems (Raft.entries u') =
      [Fixtures.entry 5 1; Fixtures.entry 6 2; Fixtures.entry 7 2] /\
    Raft.offset u' = 5.
Proof.
  destruct (unstable_truncateAndAppend_spec (ext := Fixtures.doubling) Fixtures.tail5
              (Fixtures.exact [Fixtures.entry 6 2; Fixtures.entry 7 2]) (Fixtures.entry 6 2))
    as (_ & _ & H & _).
  - unfold is_u64. simpl. lia.
  - unfold is_u64, Raft.len, zlen. simpl. lia.
  - reflexivity.
  - destruct H as (u' & Hr & He & Ho & _).
    + unfold Raft.len, zlen. simpl. lia.
    + exists u'. split; [exact Hr|]. split; [exact He|exact Ho].
Defined.

(** ** unstable.stableTo *)

Lemma unstable_shrinkEntriesArray_spec (u : Raft.unstable) :
  Raft.len (Raft.entries u) < 2^62 ->
  let u' := Raft.unstable_shrinkEntriesArray u in
  Raft.offset u' = Raft.offset u /\
  Raft.snapshot u' = Raft.snapshot u /\
  Raft.elems (Raft.entries u') = Raft.elems (Raft.entries u) /\
  (2 * Raft.len (Raft.entries u) < Raft.cap (Raft.entries u) ->
   Raft.cap (Raft.entries u') = Raft.len (Raft.entries u)) /\
  (Raft.cap (Raft.entries u) <= 2 * Raft.len (Raft.entries u) ->
   Raft.len (Raft.entries u) <> 0 ->
   Raft.cap (Raft.entries u') = Raft.cap (Raft.entries u)).
Proof.
  intros Hlen. pose proof (len_nonneg (Raft.entries u)) as Hn.
  unfold Raft.unstable_shrinkEntriesArray, Raft.lenMultiple.
  rewrite i64_small by lia.
  destruct (Z.eqb_spec (Raft.len (Raft.entries u)) 0) as [Hz|Hnz].
  - simpl. repeat split; try lia.
    unfold Raft.len, zlen in Hz. destruct (Raft.elems (Raft.entries u)); [reflexivity|].
    simpl in Hz. lia.
  - destruct (Z.ltb_spec (Raft.len (Raft.entries u) * 2) (Raft.cap (Raft.entries u))).
    + simpl. repeat split; try lia.
    + repeat split; try lia.
Qed.

(** The entries of [u] carry the indices of their positions. *)
Definition positions_indexed (u : Raft.unstable) : Prop :=
  forall (k : nat) (e : Raft.Entry),
    Raft.elems (Raft.entries u) !! k = Some e -> Raft.Index e = Raft.offset u + Z.of_nat k.

(** C6: when [u.term(i)] is [t] and i >= offset, [stableTo(i, t)] drops the
    entries up to and including position i and sets offset = i + 1, so that
    afterwards offset > i and no entry of index <= i is left; when the term
    does not match or i < offset, the tail is unchanged; and after the drop
    the backing array is replaced by one of exactly the remaining length
    whenever its capacity exceeds twice that length. *)
Theorem unstable_stableTo_spec (u : Raft.unstable) (i t gt : Z) (ok : bool) :
  is_u64 (Raft.offset u) ->
  is_u64 (Raft.offset u + Raft.len (Raft.entries u)) ->
  Raft.len (Raft.entries u) < 2^62 ->
  Raft.unstable_maybeTerm u i = Ret (gt, ok) ->
  (ok = true -> gt = t -> Raft.offset u <= i ->
   exists u', Raft.unstable_stableTo u i t = Ret u' /\
     Raft.offset u' = i + 1 /\ i < Raft.offset u' /\
     Raft.snapshot u' = Raft.snapshot u /\
     Raft.elems (Raft.entries u') =
       drop (Z.to_nat (i + 1 - Raft.offset u)) (Raft.elems (Raft.entries u)) /\
     Raft.offset u' + Raft.len (Raft.entries u') = Raft.offset u + Raft.len (Raft.entries u) /\
     (positions_indexed u ->
      positions_indexed u' /\ Forall (fun e => i < Raft.Index e) (Raft.elems (Raft.entries u'))) /\
     (let c := Raft.cap (Raft.entries u) - (i + 1 - Raft.offset u) in
      (2 * Raft.len (Raft.entries u') < c ->
       Raft.cap (Raft.entries u') = Raft.len (Raft.entries u')) /\
      (c <= 2 * Raft.len (Raft.entries u') -> Raft.len (Raft.entries u') <> 0 ->
       Raft.cap (Raft.entries u') = c))) /\
  (ok = false \/ gt <> t \/ i < Raft.offset u -> Raft.unstable_stableTo u i t = Ret u).
Proof.
  intros Ho Hol Hlen Hm. split.
  - intros -> -> Hi.
    destruct (unstable_maybeTerm_entries u i t Ho Hol Hm Hi) as (Hlt & e & He & _).
    pose proof (len_nonneg (Raft.entries u)) as Hn.
    unfold Raft.unstable_stableTo. rewrite Hm. simpl obind. cbv iota beta. simpl negb.
    cbv iota. rewrite Z.eqb_refl.
    destruct (Z.geb_spec i (Raft.offset u)); [|lia]. simpl andb. cbv iota.
    rewrite (u64_small (i + 1 - Raft.offset u)) by (unfold is_u64 in *; lia).
    rewrite (u64_small (i + 1)) by (unfold is_u64 in *; lia).
    rewrite slice_from_ok by lia. simpl obind.
    set (k := i + 1 - Raft.offset u).
    set (dropped := Raft.mkUnstable (Raft.snapshot u)
                      (Raft.mkSlice (drop (Z.to_nat k) (Raft.elems (Raft.entries u)))
                         (Raft.cap (Raft.entries u) - k)) (i + 1)).
    assert (Hrest : Raft.len (Raft.entries dropped) = Raft.len (Raft.entries u) - k).
    { unfold dropped, Raft.len at 1. simpl. apply len_drop. unfold k. lia. }
    destruct (unstable_shrinkEntriesArray_spec dropped) as (Hso & Hss & Hse & Hsc1 & Hsc2);
      [lia|].
    assert (Hsl : Raft.len (Raft.entries (Raft.unstable_shrinkEntriesArray dropped))
                  = Raft.len (Raft.entries u) - k).
    { rewrite <- Hrest. unfold Raft.len. rewrite Hse. reflexivity. }
    assert (Hidx : positions_indexed u ->
                   forall (j : nat) (x : Raft.Entry),
                     Raft.elems (Raft.entries dropped) !! j = Some x ->
                     Raft.Index x = i + 1 + Z.of_nat j).
    { intros Hpos j x Hx. unfold dropped in Hx. simpl in Hx.
      rewrite lookup_drop in Hx. apply Hpos in Hx. unfold k in Hx. lia. }
    exists (Raft.unstable_shrinkEntriesArray dropped).
    split; [reflexivity|]. rewrite Hso, Hss, Hse, Hsl.
    split; [reflexivity|]. split; [simpl; lia|]. split; [reflexivity|].
    split; [reflexivity|]. split; [unfold dropped, k; simpl; lia|].
    split.
    + intros Hpos. split.
      * intros j x Hx. rewrite Hse in Hx. rewrite Hso. apply (Hidx Hpos) in Hx. exact Hx.
      * apply Forall_lookup. intros j x Hx. apply (Hidx Hpos) in Hx. lia.
    + simpl. split.
      * intros Hc. rewrite Hsc1; [exact Hrest|]. rewrite Hrest. exact Hc.
      * intros Hc Hnz. rewrite Hsc2; [reflexivity| |]; rewrite Hrest; assumption.
  - intros Hcase. unfold Raft.unstable_stableTo. rewrite Hm. simpl obind. cbv iota beta.
    destruct ok; simpl negb; cbv iota; [|reflexivity].
    destruct (Z.eqb_spec gt t) as [Heq|Hne]; simpl andb; [|reflexivity].
    destruct (Z.geb_spec i (Raft.offset u)); [|reflexivity].
    exfalso. destruct Hcase as [Hc|[Hc|Hc]]; [discriminate|congruence|lia].
Qed.

Lemma unstable_stableTo_spec_witness :
  exists u',
    Raft.unstable_stableTo (Fixtures.tail10 20) 14 1 = Ret u' /\
    Raft.offset u' = 15 /\
    Raft.elems (Raft.entries u') =
      map (fun i => Fixtures.entry i 1) [15; 16; 17; 18; 19] /\
    Raft.cap (Raft.entries u') = 5.
Proof.
  destruct (unstable_stableTo_spec (Fixtures.tail10 20) 14 1 1 true) as [H _].
  - unfold is_u64. simpl. lia.
  - unfold is_u64, Raft.len, zlen. simpl. lia.
  - unfold Raft.len, zlen. simpl. lia.
  - reflexivity.
  - destruct H as (u' & Hr & Ho & _ & _ & He & _ & _ & Hc & _);
      [reflexivity|reflexivity|simpl; lia|].
    exists u'. split; [exact Hr|]. split; [exact Ho|]. split; [exact He|].
    assert (Raft.len (Raft.entries u') = 5) as Hl.
    { unfold Raft.len. rewrite He. reflexivity. }
    rewrite Hl in Hc. apply Hc. simpl. lia.
Defined.

(** ** raftLog: well-formed logs *)

(** A well-formed log over any [Storage]: the storage answers [FirstIndex]
    with [fi] and [LastIndex] with [sl] and knows the term of every index
    from fi - 1 to sl; offsets and lengths stay inside [uint64]; the
    unstable tail starts above a pending snapshot; every index between the
    snapshot (or the storage's first index) and the tail is held by the
    storage; and with nothing unstable the tail starts right after the
    storage. *)
Record wf_log {S : Type} {St : Raft.Storage S} (l : Raft.raftLog S) (fi sl : Z) : Prop := {
  wf_first : Raft.Storage_FirstIndex (Raft.storage l) = Ret (fi, None);
  wf_stable_last : Raft.Storage_LastIndex (Raft.storage l) = Ret (sl, None);
  wf_stable_range : 1 <= fi <= sl + 1 /\ sl + 1 < 2^64;
  wf_stable_term :
    forall i, fi - 1 <= i <= sl ->
              exists t, Raft.Storage_Term (Raft.storage l) i = Ret (t, None);
  wf_offset : is_u64 (Raft.offset (Raft.unstab l));
  wf_tail_range :
    Raft.offset (Raft.unstab l) + Raft.len (Raft.entries (Raft.unstab l)) < 2^64;
  wf_committed : is_u64 (Raft.committed l);
  wf_shape :
    match Raft.snapshot (Raft.unstab l) with
    | Some s =>
        0 <= Raft.SnapIndex (Raft.Metadata s) < Raft.offset (Raft.unstab l) /\
        (Raft.SnapIndex (Raft.Metadata s) + 1 < Raft.offset (Raft.unstab l) ->
         fi - 1 <= Raft.SnapIndex (Raft.Metadata s) + 1 /\
         Raft.offset (Raft.unstab l) <= sl + 1)
    | None =>
        Raft.offset (Raft.unstab l) <= sl + 1 /\
        (Raft.len (Raft.entries (Raft.unstab l)) = 0 ->
         Raft.offset (Raft.unstab l) = sl + 1)
    end
}.

Section InMemory.
Import Raft.
Context {ext : External}.

Lemma at_in_range (s : slice) (k : Z) :
  0 <= k < len s -> exists e, at_ s k = Ret e.
Proof.
  intros Hk. destruct (lookup_lt_is_Some_2 (elems s) (Z.to_nat k)) as [e He].
  { unfold len, zlen in Hk. lia. }
  exists e. apply at_Ret. auto.
Qed.

(** What a [MemoryStorage] with the dummy entry [d] answers. *)
Lemma MemoryStorage_answers (ms : MemoryStorage) (d : Entry) :
  at_ (ents ms) 0 = Ret d ->
  is_u64 (Index d) ->
  Index d + len (ents ms) < 2^64 ->
  len (ents ms) < 2^63 ->
  Storage_FirstIndex ms = Ret (Index d + 1, None) /\
  Storage_LastIndex ms = Ret (Index d + len (ents ms) - 1, None) /\
  (forall i, Index d <= i <= Index d + len (ents ms) - 1 ->
             exists t, Storage_Term ms i = Ret (t, None)).
Proof.
  intros Hd Hr Hs Hl.
  assert (Hp : 1 <= len (ents ms)) by (apply at_Ret in Hd; lia).
  simpl. unfold MemoryStorage_FirstIndex, MemoryStorage_firstIndex,
    MemoryStorage_LastIndex, MemoryStorage_lastIndex, MemoryStorage_Term.
  rewrite Hd. simpl obind.
  rewrite (u64_small (Index d + 1)) by (unfold is_u64 in *; lia).
  rewrite (u64_small (Index d + len (ents ms) - 1)) by (unfold is_u64 in *; lia).
  split; [reflexivity|]. split; [reflexivity|].
  intros i Hi.
  destruct (Z.ltb_spec i (Index d)); [lia|].
  rewrite u64_small by (unfold is_u64 in *; lia).
  rewrite i64_small by lia.
  destruct (Z.geb_spec (i - Index d) (len (ents ms))); [lia|].
  destruct (at_in_range (ents ms) (i - Index d)) as [e He]; [lia|].
  rewrite He. simpl. eauto.
Qed.

End InMemory.

Section WellFormedLog.
Import Raft.
Context {Store : Type} {St : Storage Store}.
Variables (l : raftLog Store) (fi sl : Z).
Hypothesis Hwf : wf_log l fi sl.

Let u := unstab l.
Let st := storage l.

(** The last index of a well-formed log. *)
Definition wf_last : Z :=
  if len (entries u) =? 0 then
    match snapshot u with
    | Some s => SnapIndex (Metadata s)
    | None => sl
    end
  else offset u + len (entries u) - 1.

(** The index of the entry before the first one. *)
Definition wf_dummyIndex : Z :=
  match snapshot u with
  | Some s => SnapIndex (Metadata s)
  | None => fi - 1
  end.

Lemma wf_raftLog_lastIndex : raftLog_lastIndex l = Ret wf_last.
Proof.
  pose proof (len_nonneg (entries u)) as Hn.
  destruct Hwf as [Hf Hl Hr _ Ho Ht _ Hsh]. fold u st in Hf, Hl, Ho, Ht, Hsh.
  unfold raftLog_lastIndex, unstable_maybeLastIndex, wf_last. fold u st.
  destruct (Z.eqb_spec (len (entries u)) 0) as [Hz|Hnz]; simpl negb; cbv iota.
  - destruct (snapshot u) as [s|]; [reflexivity|].
    rewrite Hl. reflexivity.
  - rewrite u64_small by (unfold is_u64 in *; lia). reflexivity.
Qed.

Lemma wf_raftLog_firstIndex : raftLog_firstIndex l = Ret (wf_dummyIndex + 1).
Proof.
  destruct Hwf as [Hf Hl Hr _ Ho Ht _ Hsh]. fold u st in Hf, Hl, Ho, Ht, Hsh.
  unfold raftLog_firstIndex, unstable_maybeFirstIndex, wf_dummyIndex. fold u st.
  destruct (snapshot u) as [s|].
  - rewrite u64_small by (unfold is_u64 in *; lia). reflexivity.
  - rewrite Hf. simpl. f_equal. lia.
Qed.

Lemma wf_last_bounds :
  0 <= wf_dummyIndex < 2^64 - 1 /\ wf_last + 1 <= offset u + len (entries u)
  /\ wf_last < 2^64.
Proof.
  pose proof (len_nonneg (entries u)) as Hn.
  destruct Hwf as [Hf Hl Hr _ Ho Ht _ Hsh]. fold u st in Hf, Hl, Ho, Ht, Hsh.
  unfold wf_last, wf_dummyIndex. unfold is_u64 in *.
  destruct (Z.eqb_spec (len (entries u)) 0) as [Hz|Hnz];
    destruct (snapshot u) as [s|]; lia.
Qed.

(** [term] never fails on a well-formed log, and only indices inside the
    log have a non-zero term. *)
Lemma wf_raftLog_term (i : Z) :
  is_u64 i ->
  exists t, raftLog_term l i = Ret (t, None) /\
            (t <> 0 -> wf_dummyIndex <= i <= wf_last).
Proof.
  intros Hi.
  pose proof (len_nonneg (entries u)) as Hn.
  pose proof wf_last_bounds as (Hdb & Hlb & Hlr).
  unfold raftLog_term. rewrite wf_raftLog_firstIndex. simpl obind.
  replace (wf_dummyIndex + 1 - 1) with wf_dummyIndex by lia.
  rewrite u64_small by (unfold is_u64; lia).
  destruct (Z.ltb_spec i wf_dummyIndex) as [Hlo|Hlo].
  { exists 0. split; [reflexivity|]. intros Hc. exfalso. apply Hc. reflexivity. }
  rewrite wf_raftLog_lastIndex. simpl obind.
  destruct (Z.gtb_spec i wf_last) as [Hhi|Hhi].
  { exists 0. split; [reflexivity|]. intros Hc. exfalso. apply Hc. reflexivity. }
  destruct Hwf as [Hf Hl Hr Hst Ho Ht _ Hsh]. fold u st in Hf, Hl, Hst, Ho, Ht, Hsh.
  unfold wf_last, wf_dummyIndex in *. fold u st.
  assert (Hstore : wf_dummyIndex <= i -> i < offset u ->
                   match snapshot u with
                   | Some s => SnapIndex (Metadata s) <> i
                   | None => True
                   end ->
                   exists t, Storage_Term st i = Ret (t, None)).
  { unfold wf_dummyIndex. fold u. intros H1 H2 H3.
    apply Hst. destruct (snapshot u) as [s|]; lia. }
  unfold unstable_maybeTerm, unstable_maybeLastIndex. fold u.
  destruct (Z.ltb_spec i (offset u)) as [Hbelow|Habove].
  - destruct (snapshot u) as [s|] eqn:Hsnap.
    + destruct (Z.eqb_spec (SnapIndex (Metadata s)) i) as [Heq|Hne].
      * simpl. exists (SnapTerm (Metadata s)). split; [reflexivity|].
        intros _. destruct (len (entries u) =? 0); lia.
      * simpl obind. cbv iota beta.
        destruct Hstore as [t Ht']; [unfold wf_dummyIndex; fold u; rewrite Hsnap; lia|lia|exact Hne|].
        rewrite Ht'. simpl. exists t. split; [reflexivity|].
        intros _. destruct (len (entries u) =? 0); lia.
    + simpl obind. cbv iota beta.
      destruct Hstore as [t Ht']; [unfold wf_dummyIndex; fold u; rewrite Hsnap; lia|lia|exact I|].
      rewrite Ht'. simpl. exists t. split; [reflexivity|].
      intros _. destruct (len (entries u) =? 0); lia.
  - destruct (Z.eqb_spec (len (entries u)) 0) as [Hz|Hnz]; simpl negb; cbv iota.
    + exfalso. destruct (snapshot u) as [s|]; lia.
    + rewrite u64_small by (unfold is_u64 in *; lia). simpl negb. cbv iota.
      destruct (Z.gtb_spec i (offset u + len (entries u) - 1)); [lia|].
      rewrite u64_small by (unfold is_u64 in *; lia).
      destruct (at_in_range (entries u) (i - offset u)) as [e He]; [lia|].
      rewrite He. simpl. exists (Term e). split; [reflexivity|].
      intros _. destruct (snapshot u); lia.
Qed.

Lemma wf_raftLog_matchTerm (i t' : Z) :
  is_u64 i ->
  exists t, raftLog_term l i = Ret (t, None) /\
            raftLog_matchTerm l i t' = Ret (t =? t') /\
            (t <> 0 -> wf_dummyIndex <= i <= wf_last).
Proof.
  intros Hi. destruct (wf_raftLog_term i Hi) as (t & Ht & Hr).
  exists t. unfold raftLog_matchTerm. rewrite Ht. simpl. auto.
Qed.

(** What [findConflict] returns: 0 when every entry matches, and otherwise
    the index of the first entry whose term the log does not match. *)
Definition first_conflict (es : list Entry) (ci : Z) : Prop :=
  (ci = 0 /\ Forall (fun e => raftLog_matchTerm l (Index e) (Term e) = Ret true) es) \/
  (exists (k : nat) (e : Entry),
      es !! k = Some e /\ ci = Index e /\
      raftLog_matchTerm l (Index e) (Term e) = Ret false /\
      Forall (fun e' => raftLog_matchTerm l (Index e') (Term e') = Ret true) (take k es)).

Lemma wf_raftLog_findConflict (es : list Entry) :
  Forall (fun e => is_u64 (Index e)) es ->
  exists ci, raftLog_findConflict l es = Ret ci /\ first_conflict es ci.
Proof.
  induction es as [|ne rest IH]; intros Hr.
  - exists 0. split; [reflexivity|]. left. split; [reflexivity|constructor].
  - inversion Hr as [|? ? Hne Hrest]; subst.
    destruct (wf_raftLog_matchTerm (Index ne) (Term ne) Hne) as (t & Ht & Hm & _).
    simpl. rewrite Hm. simpl obind.
    destruct (Z.eqb_spec t (Term ne)) as [Heq|Hneq]; simpl negb; cbv iota.
    + destruct (IH Hrest) as (ci & Hci & Hfc). exists ci. split; [exact Hci|].
      assert (Hm' : raftLog_matchTerm l (Index ne) (Term ne) = Ret true).
      { rewrite Hm. destruct (Z.eqb_spec t (Term ne)); [reflexivity|contradiction]. }
      destruct Hfc as [[-> Hall]|(k & e & Hk & -> & Hmis & Hpre)].
      * left. split; [reflexivity|]. constructor; assumption.
      * right. exists (S k), e. simpl. repeat split; try assumption.
        constructor; assumption.
    + rewrite wf_raftLog_lastIndex. simpl obind.
      assert (Hres : (if Index ne <=? wf_last
                      then let* r := raftLog_term l (Index ne) in
                           let* ok_ := raftLog_zeroTermOnErrCompacted r in Ret (Index ne)
                      else Ret (Index ne)) = Ret (Index ne)).
      { destruct (Index ne <=? wf_last); [|reflexivity]. rewrite Ht. reflexivity. }
      rewrite Hres. exists (Index ne). split; [reflexivity|].
      right. exists 0%nat, ne. simpl. repeat split; try constructor.
      rewrite Hm. destruct (Z.eqb_spec t (Term ne)); [contradiction|reflexivity].
Qed.

End WellFormedLog.

(** ** raftLog.append and raftLog.maybeAppend *)

(** [es] carries the indices a, a+1, a+2, ... *)
Fixpoint consecutive (a : Z) (es : list Raft.Entry) : Prop :=
  match es with
  | [] => True
  | e :: rest => Raft.Index e = a /\ consecutive (a + 1) rest
  end.

Lemma consecutive_lookup (es : list Raft.Entry) (a : Z) (k : nat) (e : Raft.Entry) :
  consecutive a es -> es !! k = Some e -> Raft.Index e = a + Z.of_nat k.
Proof.
  revert a k. induction es as [|x rest IH]; intros a k Hc Hk.
  - rewrite lookup_nil in Hk. discriminate.
  - destruct Hc as [Hx Hrest]. destruct k as [|k]; simpl in Hk.
    + injection Hk as <-. lia.
    + rewrite (IH (a + 1) k Hrest Hk). lia.
Qed.

Lemma u64_shift (x y q : Z) : x = y + q * 2^64 -> u64 x = u64 y.
Proof. intros ->. unfold u64. apply Z.mod_add. lia. Qed.

Lemma u64_eq (b : Z) : u64 b = b - (b / 2^64) * 2^64.
Proof. unfold u64. rewrite Z.mod_eq by lia. lia. Qed.

Section Append.
Import Raft.
Context {ext : External} {Store : Type} {St : Storage Store}.

(** After [truncateAndAppend(ents)] the tail ends at the last index of
    [ents] (modulo 2^64), whatever case applied. *)
Lemma unstable_truncateAndAppend_last (u u' : unstable) (ents : slice) (e0 : Entry) :
  at_ ents 0 = Ret e0 ->
  unstable_truncateAndAppend u ents = Ret u' ->
  unstable_maybeLastIndex u' = (u64 (Index e0 + len ents - 1), true) /\
  snapshot u' = snapshot u.
Proof.
  intros He0 Hrun. unfold unstable_truncateAndAppend in Hrun.
  rewrite He0 in Hrun. simpl obind in Hrun.
  assert (Hpos : 1 <= len ents) by (apply at_Ret in He0; lia).
  pose proof (len_nonneg (entries u)) as Hn.
  destruct (Z.eqb_spec (Index e0) (u64 (offset u + len (entries u)))) as [Heq|Hne].
  - injection Hrun as <-. unfold unstable_maybeLastIndex. simpl.
    unfold len at 1 2. simpl. unfold zlen. rewrite length_app.
    fold (zlen (elems (entries u))). fold (len (entries u)).
    split; [|reflexivity].
    assert (Hnz : (Z.of_nat (length (elems (entries u)) + length (elems ents)) =? 0) = false).
    { apply Z.eqb_neq. unfold len, zlen in Hpos. lia. }
    rewrite Hnz. simpl. f_equal. rewrite Heq, (u64_eq (offset u + len (entries u))).
    apply u64_shift with (q := (offset u + len (entries u)) / 2^64).
    unfold len, zlen. lia.
  - destruct (Z.leb_spec (Index e0) (offset u)) as [Hle|Hgt].
    + injection Hrun as <-. unfold unstable_maybeLastIndex. simpl.
      destruct (Z.eqb_spec (len ents) 0); [lia|]. simpl. auto.
    + unfold unstable_slice in Hrun.
      destruct (unstable_mustCheckOutOfBounds u (offset u) (Index e0)); [|discriminate].
      simpl obind in Hrun. unfold slice_range in Hrun.
      set (lo := u64 (offset u - offset u)) in *.
      set (hi := u64 (Index e0 - offset u)) in *.
      destruct (Z.leb_spec 0 lo); [|discriminate].
      destruct (Z.leb_spec lo hi); [|discriminate].
      destruct (Z.leb_spec hi (len (entries u))); [|discriminate].
      simpl in Hrun. injection Hrun as <-.
      assert (Hlo0 : lo = 0).
      { unfold lo. rewrite Z.sub_diag. reflexivity. }
      unfold unstable_maybeLastIndex. simpl. unfold len at 1 2. simpl.
      unfold zlen. rewrite length_app, length_take, length_drop.
      split; [|reflexivity].
      assert (Hkept : Z.of_nat (Z.to_nat (hi - lo) `min`
                                  (length (elems (entries u)) - Z.to_nat lo)) = hi).
      { unfold len, zlen in *. lia. }
      assert (Hsum : Z.of_nat ((Z.to_nat (hi - lo) `min`
                                  (length (elems (entries u)) - Z.to_nat lo))
                               + length (elems ents)) = hi + len ents).
      { unfold len at 1, zlen. lia. }
      rewrite Hsum.
      destruct (Z.eqb_spec (hi + len ents) 0); [lia|]. simpl. f_equal.
      unfold hi. rewrite (u64_eq (Index e0 - offset u)).
      apply u64_shift with (q := - ((Index e0 - offset u) / 2^64)). lia.
Qed.

(** [truncateAndAppend] returns whenever the new entries start at most
    one past the end of the tail. *)
Lemma unstable_truncateAndAppend_total (u : unstable) (ents : slice) (e0 : Entry) :
  is_u64 (offset u) -> is_u64 (offset u + len (entries u)) ->
  at_ ents 0 = Ret e0 ->
  Index e0 <= offset u + len (entries u) ->
  exists u', unstable_truncateAndAppend u ents = Ret u'.
Proof.
  intros Ho Hol He0 Hle. unfold unstable_truncateAndAppend.
  rewrite He0. simpl obind.
  pose proof (len_nonneg (entries u)) as Hn.
  rewrite (u64_small (offset u + len (entries u))) by exact Hol.
  destruct (Z.eqb_spec (Index e0) (offset u + len (entries u))); [eauto|].
  destruct (Z.leb_spec (Index e0) (offset u)); [eauto|].
  unfold unstable_slice, unstable_mustCheckOutOfBounds.
  destruct (Z.gtb_spec (offset u) (Index e0)); [lia|].
  rewrite (u64_small (offset u + len (entries u))) by exact Hol.
  destruct (Z.ltb_spec (offset u) (offset u)); [lia|].
  destruct (Z.gtb_spec (Index e0) (offset u + len (entries u))); [lia|].
  simpl obind. rewrite Z.sub_diag. rewrite (u64_small 0) by (unfold is_u64; lia).
  rewrite (u64_small (Index e0 - offset u)) by (unfold is_u64 in *; lia).
  rewrite slice_range_ok by lia. simpl. eauto.
Qed.

(** [raftLog.append] of a non-empty [ents] that starts above [committed]
    returns as soon as [truncateAndAppend] does. *)
Lemma raftLog_append_run (l : raftLog Store) (ents : slice) (e0 : Entry) (u' : unstable) :
  at_ ents 0 = Ret e0 ->
  committed l <= u64 (Index e0 - 1) ->
  unstable_truncateAndAppend (unstab l) ents = Ret u' ->
  raftLog_append l ents =
    Ret (mkRaftLog (storage l) u' (committed l) (applied l) (maxNextEntsSize l),
         u64 (Index e0 + len ents - 1)).
Proof.
  intros He0 Hc Hrun. unfold raftLog_append.
  assert (Hpos : 1 <= len ents) by (apply at_Ret in He0; lia).
  destruct (Z.eqb_spec (len ents) 0); [lia|].
  rewrite He0. simpl obind.
  destruct (Z.ltb_spec (u64 (Index e0 - 1)) (committed l)); [lia|].
  rewrite Hrun. simpl obind.
  unfold raftLog_lastIndex. simpl unstab.
  destruct (unstable_truncateAndAppend_last _ _ _ _ He0 Hrun) as [-> _].
  reflexivity.
Qed.

Lemma raftLog_commitTo_run (l : raftLog Store) (tocommit li : Z) :
  raftLog_lastIndex l = Ret li -> tocommit <= li ->
  raftLog_commitTo l tocommit =
    Ret (mkRaftLog (storage l) (unstab l) (Z.max (committed l) tocommit)
           (applied l) (maxNextEntsSize l)).
Proof.
  intros Hli Hle. unfold raftLog_commitTo.
  destruct (Z.ltb_spec (committed l) tocommit) as [Hlt|Hge].
  - rewrite Hli. simpl obind. destruct (Z.ltb_spec li tocommit); [lia|].
    rewrite Z.max_r by lia. reflexivity.
  - rewrite Z.max_l by lia. destruct l; reflexivity.
Qed.

End Append.

(** C1 (as stated), for one call: when [matchTerm(prevIndex, prevTerm)]
    holds, [maybeAppend] succeeds with prevIndex + |ents| and leaves
    committed = min(leaderCommit, prevIndex + |ents|). *)
Definition maybeAppend_commits_min {Store : Type} (St : Raft.Storage Store)
    (ext : Raft.External) (l : Raft.raftLog Store)
    (index logTerm leaderCommit : Z) (ents : Raft.slice) : Prop :=
  Raft.raftLog_matchTerm l index logTerm = Ret true ->
  exists l',
    Raft.raftLog_maybeAppend l index logTerm leaderCommit ents
      = Ret (l', (index + Raft.len ents, true)) /\
    Raft.committed l' = Z.min leaderCommit (index + Raft.len ents).

(** C1, counterexample: on the log [(1,1),(2,1),(3,1)] with committed = 3,
    [maybeAppend(3, 1, 1)] without entries matches and succeeds, and
    [commitTo(min(1, 3))] leaves committed at 3: it never decreases. *)
Lemma maybeAppend_keeps_higher_commit :
  ~ maybeAppend_commits_min Fixtures.in_memory Fixtures.doubling (Fixtures.log3 3 0) 3 1 1
      Raft.nil_slice.
Proof.
  intros H. destruct (H eq_refl) as (l' & Hrun & Hc).
  vm_compute in Hrun. injection Hrun as <-. vm_compute in Hc. discriminate Hc.
Qed.

(** C1 (amended): on a well-formed log, for a [prevIndex] inside the log and
    entries [ents] that carry the indices prevIndex + 1, prevIndex + 2, ...
    and non-zero terms: if [matchTerm(prevIndex, prevTerm)] fails,
    [maybeAppend] returns (0, false) and changes nothing; if it holds,
    [findConflict] returns the first index [ci] of [ents] whose term the log
    does not match (0 if there is none), [maybeAppend] panics when
    0 < ci <= committed, and otherwise it returns
    (prevIndex + |ents|, true), has appended [ents] from index [ci] on to the
    unstable tail with [truncateAndAppend] (nothing when ci = 0), and leaves
    committed = max(committed, min(leaderCommit, prevIndex + |ents|)) with
    lastIndex >= prevIndex + |ents|. *)
Theorem raftLog_maybeAppend_spec {ext : Raft.External} {Store : Type}
    {St : Raft.Storage Store} (l : Raft.raftLog Store) (fi sl : Z)
    (index logTerm leaderCommit li : Z) (ents : Raft.slice) :
  wf_log l fi sl ->
  is_u64 index -> index + Raft.len ents < 2^64 ->
  Raft.raftLog_lastIndex l = Ret li -> index <= li ->
  consecutive (index + 1) (Raft.elems ents) ->
  Forall (fun e => Raft.Term e <> 0) (Raft.elems ents) ->
  (Raft.raftLog_matchTerm l index logTerm = Ret false ->
   Raft.raftLog_maybeAppend l index logTerm leaderCommit ents = Ret (l, (0, false))) /\
  (Raft.raftLog_matchTerm l index logTerm = Ret true ->
   exists ci,
     Raft.raftLog_findConflict l (Raft.elems ents) = Ret ci /\
     first_conflict l (Raft.elems ents) ci /\
     (0 < ci <= Raft.committed l ->
      Raft.raftLog_maybeAppend l index logTerm leaderCommit ents = Panic) /\
     (ci = 0 \/ Raft.committed l < ci ->
      exists l' li',
        Raft.raftLog_maybeAppend l index logTerm leaderCommit ents
          = Ret (l', (index + Raft.len ents, true)) /\
        Raft.committed l'
          = Z.max (Raft.committed l) (Z.min leaderCommit (index + Raft.len ents)) /\
        Raft.applied l' = Raft.applied l /\
        Raft.storage l' = Raft.storage l /\
        Raft.raftLog_lastIndex l' = Ret li' /\ index + Raft.len ents <= li' /\
        (ci = 0 -> Raft.unstab l' = Raft.unstab l) /\
        (ci <> 0 ->
         exists suffix,
           Raft.slice_from ents (ci - (index + 1)) = Ret suffix /\
           Raft.unstable_truncateAndAppend (Raft.unstab l) suffix = Ret (Raft.unstab l')))).
Proof.
  intros Hwf Hidx Hov Hli Hin Hcons Hterms. split.
  { intros Hm. unfold Raft.raftLog_maybeAppend. rewrite Hm. reflexivity. }
  intros Hm.
  pose proof (len_nonneg ents) as Hlen.
  rewrite (wf_raftLog_lastIndex l fi sl Hwf) in Hli. injection Hli as <-.
  pose proof (wf_last_bounds l fi sl Hwf) as (Hdb & Hlb & Hlr).
  (* every entry of ents has an index inside uint64, at least 1 *)
  assert (Hpos : forall (k : nat) (e : Raft.Entry),
             Raft.elems ents !! k = Some e ->
             Raft.Index e = index + 1 + Z.of_nat k /\ Z.of_nat k < Raft.len ents).
  { intros k e Hk. split; [apply (consecutive_lookup _ _ _ _ Hcons Hk)|].
    apply lookup_lt_Some in Hk. unfold Raft.len, zlen. lia. }
  assert (Hrange : Forall (fun e => is_u64 (Raft.Index e)) (Raft.elems ents)).
  { apply Forall_lookup. intros k e Hk. destruct (Hpos k e Hk). unfold is_u64 in *. lia. }
  (* an entry that matches lies inside the log *)
  assert (Hinside : forall (k : nat) (e : Raft.Entry),
             Raft.elems ents !! k = Some e ->
             Raft.raftLog_matchTerm l (Raft.Index e) (Raft.Term e) = Ret true ->
             Raft.Index e <= wf_last l sl).
  { intros k e Hk Hme.
    assert (is_u64 (Raft.Index e)) as Hu.
    { rewrite Forall_lookup in Hrange. exact (Hrange k e Hk). }
    destruct (wf_raftLog_matchTerm l fi sl Hwf (Raft.Index e) (Raft.Term e) Hu)
      as (t & _ & Hmt & Hnz).
    rewrite Hmt in Hme. injection Hme as Hme. apply Z.eqb_eq in Hme.
    rewrite Forall_lookup in Hterms. specialize (Hterms k e Hk). simpl in Hterms.
    lia. }
  destruct (wf_raftLog_findConflict l fi sl Hwf (Raft.elems ents) Hrange) as (ci & Hci & Hfc).
  exists ci. split; [exact Hci|]. split; [exact Hfc|].
  unfold Raft.raftLog_maybeAppend. rewrite Hm. simpl obind. cbv iota.
  rewrite Hci. simpl obind.
  rewrite (u64_small (index + Raft.len ents)) by (unfold is_u64 in *; lia).
  destruct Hfc as [[-> Hall]|(k & e & Hk & -> & Hmis & Hpre)].
  - (* no conflict: nothing is appended *)
    split; [intros Hc; lia|]. intros _. simpl.
    assert (Hlast : index + Raft.len ents <= wf_last l sl).
    { assert (Hcase : Raft.elems ents = [] \/
                      exists xs x, Raft.elems ents = xs ++ [x]).
      { destruct (Raft.elems ents) using rev_ind; eauto. }
      destruct Hcase as [Hes|(xs & x & Hes)].
      - unfold Raft.len, zlen. rewrite Hes. simpl. lia.
      - assert (Hx : Raft.elems ents !! length xs = Some x).
        { rewrite Hes. rewrite lookup_app_r by lia. rewrite Nat.sub_diag. reflexivity. }
        rewrite Forall_lookup in Hall. pose proof (Hall _ _ Hx) as Hmx. simpl in Hmx.
        pose proof (Hinside _ _ Hx Hmx) as Hix.
        destruct (Hpos _ _ Hx) as [Hpx _].
        unfold Raft.len, zlen. rewrite Hes, length_app. simpl. lia. }
    rewrite (raftLog_commitTo_run l _ (wf_last l sl)); [|apply (wf_raftLog_lastIndex l fi sl Hwf)|lia].
    simpl obind. eexists. exists (wf_last l sl).
    split; [reflexivity|]. simpl.
    split; [reflexivity|]. split; [reflexivity|]. split; [reflexivity|].
    split.
    { apply (wf_raftLog_lastIndex l fi sl Hwf). }
    split; [exact Hlast|]. split; [reflexivity|]. intros Hc. exfalso. apply Hc. reflexivity.
  - (* conflict at position k of ents *)
    destruct (Hpos k e Hk) as [Hek Hklt].
    rewrite (u64_small (index + 1)) by (unfold is_u64 in *; lia).
    pose proof (wf_offset _ _ _ Hwf) as Ho. pose proof (wf_tail_range _ _ _ Hwf) as Ht.
    pose proof (wf_committed _ _ _ Hwf) as Hcm.
    assert (Hi0 : 0 <= index) by (unfold is_u64 in Hidx; lia).
    split.
    + intros Hc. destruct (Z.eqb_spec (Raft.Index e) 0); [lia|].
      destruct (Z.leb_spec (Raft.Index e) (Raft.committed l)); [reflexivity|lia].
    + intros [Hc|Hc]; [exfalso; lia|].
      destruct (Z.eqb_spec (Raft.Index e) 0); [lia|].
      destruct (Z.leb_spec (Raft.Index e) (Raft.committed l)); [lia|].
      rewrite (u64_small (Raft.Index e - (index + 1))) by (unfold is_u64 in *; lia).
      rewrite slice_from_ok by lia. simpl obind.
      set (suffix := Raft.mkSlice
                       (drop (Z.to_nat (Raft.Index e - (index + 1))) (Raft.elems ents))
                       (Raft.cap ents - (Raft.Index e - (index + 1)))).
      assert (Hk' : Z.to_nat (Raft.Index e - (index + 1)) = k) by lia.
      assert (He0 : Raft.at_ suffix 0 = Ret e).
      { apply at_Ret. unfold suffix, Raft.len. simpl. rewrite len_drop by lia.
        split; [lia|]. rewrite lookup_drop, Hk'. rewrite Nat.add_0_r. exact Hk. }
      assert (Hsl : Raft.len suffix = Raft.len ents - Z.of_nat k).
      { unfold suffix, Raft.len at 1. simpl. rewrite len_drop by lia. lia. }
      (* the entry before the conflict lies inside the log *)
      assert (Hprev : Raft.Index e - 1 <= wf_last l sl).
      { destruct k as [|k'].
        - lia.
        - assert (Hlt : (k' < length (Raft.elems ents))%nat).
          { apply lookup_lt_Some in Hk. lia. }
          destruct (lookup_lt_is_Some_2 (Raft.elems ents) k' Hlt) as [p Hp].
          assert (Hmp : Raft.raftLog_matchTerm l (Raft.Index p) (Raft.Term p) = Ret true).
          { rewrite Forall_lookup in Hpre. apply (Hpre k' p).
            rewrite lookup_take_lt by lia. exact Hp. }
          pose proof (Hinside _ _ Hp Hmp) as Hip.
          destruct (Hpos _ _ Hp) as [Hpk _]. lia. }
      destruct (unstable_truncateAndAppend_total (Raft.unstab l) suffix e)
        as [u' Hrun]; [exact Ho|unfold is_u64 in *;
                                pose proof (len_nonneg (Raft.entries (Raft.unstab l))); lia
                       |exact He0|lia|].
      rewrite (raftLog_append_run l suffix e u' He0); [|unfold is_u64 in *;
          rewrite u64_small by (unfold is_u64; lia); lia|exact Hrun].
      simpl obind. simpl fst.
      set (l1 := Raft.mkRaftLog (Raft.storage l) u' (Raft.committed l) (Raft.applied l)
                   (Raft.maxNextEntsSize l)).
      assert (Hl1 : Raft.raftLog_lastIndex l1 = Ret (index + Raft.len ents)).
      { unfold Raft.raftLog_lastIndex. simpl Raft.unstab.
        destruct (unstable_truncateAndAppend_last _ _ _ _ He0 Hrun) as [-> _].
        rewrite Hsl. rewrite u64_small by (unfold is_u64 in *; lia). f_equal. lia. }
      rewrite (raftLog_commitTo_run l1 _ _ Hl1) by lia. simpl obind.
      eexists. exists (index + Raft.len ents).
      split; [reflexivity|]. simpl.
      split; [reflexivity|]. split; [reflexivity|]. split; [reflexivity|].
      split; [exact Hl1|]. split; [lia|]. split; [intros; lia|].
      intros _. exists suffix. split; [reflexivity|exact Hrun].
Qed.

(** Why the theorem asks for a [prevIndex] inside the log and for non-zero
    terms: [term] answers 0 without error outside the log, so term 0
    "matches" there, and the append that follows finds a gap, or the commit
    finds nothing to commit. *)
Example maybeAppend_beyond_the_log_panics :
  Raft.raftLog_matchTerm (St := Fixtures.in_memory) (Fixtures.log3 0 0) 100 0 = Ret true /\
  Raft.raftLog_maybeAppend (ext := Fixtures.doubling) (St := Fixtures.in_memory)
    (Fixtures.log3 0 0) 100 0 1
    (Fixtures.exact [Fixtures.entry 101 1]) = Panic.
Proof. split; reflexivity. Qed.

Example maybeAppend_zero_term_panics :
  Raft.raftLog_matchTerm (St := Fixtures.in_memory) (Fixtures.log3 0 0) 3 1 = Ret true /\
  Raft.raftLog_findConflict (St := Fixtures.in_memory) (Fixtures.log3 0 0) [Fixtures.entry 4 0] = Ret 0 /\
  Raft.raftLog_maybeAppend (ext := Fixtures.doubling) (St := Fixtures.in_memory)
    (Fixtures.log3 0 0) 3 1 5
    (Fixtures.exact [Fixtures.entry 4 0]) = Panic.
Proof. repeat split; reflexivity. Qed.

(** A conflict at a committed index: with committed = 2 the entries
    (2,2),(3,2),(4,2) conflict with the log at index 2, and [maybeAppend]
    panics. *)
Example maybeAppend_conflict_with_committed_panics :
  Raft.raftLog_findConflict (St := Fixtures.in_memory) (Fixtures.log3 2 0)
    [Fixtures.entry 2 2; Fixtures.entry 3 2; Fixtures.entry 4 2] = Ret 2 /\
  Raft.raftLog_maybeAppend (ext := Fixtures.doubling) (St := Fixtures.in_memory)
    (Fixtures.log3 2 0) 1 1 2
    (Fixtures.exact [Fixtures.entry 2 2; Fixtures.entry 3 2; Fixtures.entry 4 2]) = Panic.
Proof. split; reflexivity. Qed.

Lemma log3_wf (c a : Z) :
  is_u64 c -> wf_log (St := Fixtures.in_memory) (Fixtures.log3 c a) 1 3.
Proof.
  intros Hc.
  destruct (MemoryStorage_answers (ext := Fixtures.doubling) Fixtures.stable3
              (Fixtures.entry 0 0)) as (Hf & Hl & Ht);
    [reflexivity|unfold is_u64; simpl; lia|vm_compute; reflexivity
    |vm_compute; reflexivity|].
  constructor; simpl Raft.storage; simpl Raft.unstab; simpl Raft.committed.
  - exact Hf.
  - exact Hl.
  - lia.
  - intros i Hi. apply Ht. simpl. unfold Raft.len, zlen. simpl. lia.
  - unfold is_u64. simpl. lia.
  - unfold Raft.len, zlen. simpl. lia.
  - exact Hc.
  - simpl. unfold Raft.len, zlen. simpl. lia.
Qed.

Lemma raftLog_maybeAppend_spec_witness :
  exists l',
    Raft.raftLog_maybeAppend (ext := Fixtures.doubling) (St := Fixtures.in_memory)
    (Fixtures.log3 1 0) 1 1 2
      (Fixtures.exact [Fixtures.entry 2 2; Fixtures.entry 3 2; Fixtures.entry 4 2])
      = Ret (l', (4, true)) /\
    Raft.committed l' = 2.
Proof.
  destruct (raftLog_maybeAppend_spec (ext := Fixtures.doubling) (St := Fixtures.in_memory)
              (Fixtures.log3 1 0) 1 3 1 1 2 3
              (Fixtures.exact [Fixtures.entry 2 2; Fixtures.entry 3 2; Fixtures.entry 4 2]))
    as [_ H].
  - apply log3_wf. unfold is_u64. lia.
  - unfold is_u64. lia.
  - unfold Raft.len, zlen. simpl. lia.
  - reflexivity.
  - lia.
  - simpl. repeat split.
  - repeat constructor; simpl; lia.
  - destruct (H eq_refl) as (ci & Hci & _ & _ & Hok).
    vm_compute in Hci. injection Hci as <-.
    destruct Hok as (l' & li' & Hrun & Hc & _); [right; simpl; lia|].
    exists l'. split; [exact Hrun|]. rewrite Hc. reflexivity.
Defined.

(** ** The invariant applied <= committed <= lastIndex *)

(** The calls on a log over a [MemoryStorage]: the methods of [raftLog]
    that change it, and the two writes with which the application makes
    the storage hold what is unstable, before it acknowledges it with
    [stableTo] and [stableSnapTo].  The [Ready] the application is handed
    carries the pending snapshot and the unstable entries (raft/node.go,
    which is not among the sources); with nothing pending it carries the
    empty snapshot. *)
Inductive log_op :=
| OpAppend (ents : Raft.slice)
| OpMaybeAppend (index logTerm committed : Z) (ents : Raft.slice)
| OpCommitTo (tocommit : Z)
| OpAppliedTo (i : Z)
| OpMaybeCommit (maxIndex term : Z)
| OpRestore (s : Raft.Snapshot)
| OpStableTo (i t : Z)
| OpStableSnapTo (i : Z)
| OpSaveSnapshot
| OpSaveEntries.

(** The log with another storage. *)
Definition with_storage (l : Raft.raftLog Raft.MemoryStorage) (st : Raft.MemoryStorage)
  : Raft.raftLog Raft.MemoryStorage :=
  Raft.mkRaftLog st (Raft.unstab l) (Raft.committed l) (Raft.applied l)
    (Raft.maxNextEntsSize l).

Definition exec_op {ext : Raft.External}
    (l : Raft.raftLog Raft.MemoryStorage) (o : log_op)
  : outcome (Raft.raftLog Raft.MemoryStorage) :=
  match o with
  | OpAppend ents => let* r := Raft.raftLog_append l ents in Ret (fst r)
  | OpMaybeAppend index logTerm c ents =>
      let* r := Raft.raftLog_maybeAppend l index logTerm c ents in Ret (fst r)
  | OpCommitTo tocommit => Raft.raftLog_commitTo l tocommit
  | OpAppliedTo i => Raft.raftLog_appliedTo l i
  | OpMaybeCommit maxIndex term =>
      let* r := Raft.raftLog_maybeCommit l maxIndex term in Ret (fst r)
  | OpRestore s => Ret (Raft.raftLog_restore l s)
  | OpStableTo i t => Raft.raftLog_stableTo l i t
  | OpStableSnapTo i => Ret (Raft.raftLog_stableSnapTo l i)
  | OpSaveSnapshot =>
      match Raft.snapshot (Raft.unstab l) with
      | Some s => Ret (with_storage l (RaftExample.raftNode_saveSnapshot (Raft.storage l) s))
      | None => Ret l
      end
  | OpSaveEntries =>
      let* st := RaftExample.raftNode_saveEntries (Raft.storage l)
                   (Raft.raftLog_unstableEntries l) in
      Ret (with_storage l st)
  end.

Fixpoint run {ext : Raft.External}
    (l : Raft.raftLog Raft.MemoryStorage) (ops : list log_op)
  : outcome (Raft.raftLog Raft.MemoryStorage) :=
  match ops with
  | [] => Ret l
  | o :: rest => let* l1 := exec_op l o in run l1 rest
  end.

Definition log_invariant {Store : Type} {St : Raft.Storage Store}
    (l : Raft.raftLog Store) : Prop :=
  exists li, Raft.raftLog_lastIndex l = Ret li /\
             Raft.applied l <= Raft.committed l /\ Raft.committed l <= li.

(** C2 (as stated): every run of the operations keeps the invariant and
    never lowers [committed] or [applied]. *)
Definition invariant_of_every_run (ext : Raft.External) : Prop :=
  forall (l l' : Raft.raftLog Raft.MemoryStorage) (ops : list log_op),
    log_invariant l -> run l ops = Ret l' ->
    log_invariant l' /\
    Raft.committed l <= Raft.committed l' /\ Raft.applied l <= Raft.applied l'.

(** C2, counterexample: on a log with committed = applied = 3, restoring a
    snapshot of index 1 sets committed to 1: committed has decreased and
    applied = 3 is above it. *)
Lemma restore_lowers_committed :
  ~ invariant_of_every_run Fixtures.doubling.
Proof.
  intros H.
  destruct (H (Fixtures.log3 3 3) (Raft.raftLog_restore (Fixtures.log3 3 3) (Fixtures.snap 1 1))
              [OpRestore (Fixtures.snap 1 1)]) as (_ & Hc & _).
  - exists 3. split; [reflexivity|]. simpl. lia.
  - reflexivity.
  - simpl in Hc. lia.
Qed.

(** [stableTo] can also break the invariant: once the last unstable entry
    is dropped, [lastIndex] falls back to the storage, which here does not
    hold entry 1. *)
Example stableTo_lowers_lastIndex :
  let l := Raft.mkRaftLog (Fixtures.storage_of [Fixtures.entry 0 0])
             (Raft.mkUnstable None (Fixtures.exact [Fixtures.entry 1 1]) 1) 1 0 Raft.noLimit in
  log_invariant (St := Fixtures.in_memory) l /\
  exists l', Raft.raftLog_stableTo l 1 1 = Ret l' /\
             Raft.raftLog_lastIndex (St := Fixtures.in_memory) l' = Ret 0 /\
             Raft.committed l' = 1.
Proof.
  split.
  - exists 1. split; [reflexivity|]. simpl. lia.
  - eexists. split; [reflexivity|]. split; reflexivity.
Qed.

(** And so can [append] of an entry of index 0: [ents[0].Index - 1] wraps
    around to 2^64 - 1, the guard against truncating committed entries lets
    it pass, and the tail is replaced from index 0. *)
Example append_index_zero_wraps :
  exists l' n,
    Raft.raftLog_append (ext := Fixtures.doubling) (St := Fixtures.in_memory)
      (Fixtures.log3 3 0)
      (Fixtures.exact [Fixtures.entry 0 5]) = Ret (l', n) /\
    Raft.raftLog_lastIndex (St := Fixtures.in_memory) l' = Ret 0 /\
    Raft.committed l' = 3.
Proof. eexists. eexists. split; [reflexivity|]. split; reflexivity. Qed.

(** The indices of [es] are consecutive, start at 1 or above and stay
    inside [uint64]. *)
Definition well_indexed (es : list Raft.Entry) : Prop :=
  match es with
  | [] => True
  | e :: _ => 1 <= Raft.Index e /\ Raft.Index e + zlen es <= 2^64 /\
              consecutive (Raft.Index e) es
  end.

(** The calls the invariant is proved for: entries are well indexed;
    [restore] is given a snapshot at or above [committed]; [stableTo(i, t)]
    is called when the storage holds entry i or, while a snapshot is
    pending, when that snapshot is at or above [committed];
    [stableSnapTo(i)] is called when the storage reaches index i. *)
Definition allowed {ext : Raft.External}
    (l : Raft.raftLog Raft.MemoryStorage) (o : log_op) : Prop :=
  match o with
  | OpAppend ents => well_indexed (Raft.elems ents)
  | OpMaybeAppend _ _ _ ents => well_indexed (Raft.elems ents)
  | OpRestore s => Raft.committed l <= Raft.SnapIndex (Raft.Metadata s)
  | OpStableTo i _ =>
      is_u64 i /\
      match Raft.snapshot (Raft.unstab l) with
      | None =>
          exists sl, Raft.Storage_LastIndex (Raft.storage l) = Ret (sl, None) /\ i <= sl
      | Some s => Raft.committed l <= Raft.SnapIndex (Raft.Metadata s)
      end
  | OpStableSnapTo i =>
      exists sl, Raft.Storage_LastIndex (Raft.storage l) = Ret (sl, None) /\ i <= sl
  | _ => True
  end.

Inductive steps {ext : Raft.External}
  : Raft.raftLog Raft.MemoryStorage -> list log_op -> Raft.raftLog Raft.MemoryStorage
    -> Prop :=
| steps_nil (l : Raft.raftLog Raft.MemoryStorage) : steps l [] l
| steps_cons (l l1 l2 : Raft.raftLog Raft.MemoryStorage) (o : log_op) (ops : list log_op) :
    allowed l o -> exec_op l o = Ret l1 -> steps l1 ops l2 -> steps l (o :: ops) l2.

Section Invariant.
Import Raft.
Context {ext : External} {Store : Type} {St : Storage Store}.

Lemma raftLog_lastIndex_fields (st : Store) (u : unstable) (c a c' a' m m' : Z) :
  raftLog_lastIndex (mkRaftLog st u c a m) = raftLog_lastIndex (mkRaftLog st u c' a' m').
Proof. reflexivity. Qed.

Lemma raftLog_commitTo_preserves (l l' : raftLog Store) (tocommit : Z) :
  log_invariant l -> raftLog_commitTo l tocommit = Ret l' ->
  log_invariant l' /\ committed l <= committed l' /\ applied l' = applied l.
Proof.
  intros (li & Hli & Ha & Hc) Hrun. unfold raftLog_commitTo in Hrun.
  destruct (Z.ltb_spec (committed l) tocommit) as [Hlt|Hge].
  - rewrite Hli in Hrun. simpl obind in Hrun.
    destruct (Z.ltb_spec li tocommit); [discriminate|]. injection Hrun as <-.
    simpl. split; [|lia]. exists li. split; [|simpl; lia].
    rewrite <- Hli. destruct l; reflexivity.
  - injection Hrun as <-. split; [|lia]. exists li. auto.
Qed.

Lemma raftLog_appliedTo_preserves (l l' : raftLog Store) (i : Z) :
  log_invariant l -> raftLog_appliedTo l i = Ret l' ->
  log_invariant l' /\ committed l' = committed l /\ applied l <= applied l'.
Proof.
  intros (li & Hli & Ha & Hc) Hrun. unfold raftLog_appliedTo in Hrun.
  destruct (Z.eqb_spec i 0).
  - injection Hrun as <-. split; [|lia]. exists li. auto.
  - destruct (Z.ltb_spec (committed l) i); simpl in Hrun; [discriminate|].
    destruct (Z.ltb_spec i (applied l)); simpl in Hrun; [discriminate|].
    injection Hrun as <-. simpl. split; [|lia]. exists li. split; [|simpl; lia].
    rewrite <- Hli. destruct l; reflexivity.
Qed.

Lemma raftLog_append_preserves (l l' : raftLog Store) (ents : slice) (n : Z) :
  log_invariant l ->
  (forall e0, at_ ents 0 = Ret e0 -> 1 <= Index e0 /\ Index e0 + len ents <= 2^64) ->
  raftLog_append l ents = Ret (l', n) ->
  log_invariant l' /\ committed l' = committed l /\ applied l' = applied l.
Proof.
  intros (li & Hli & Ha & Hc) Hidx Hrun. unfold raftLog_append in Hrun.
  destruct (Z.eqb_spec (len ents) 0) as [Hz|Hnz].
  - rewrite Hli in Hrun. simpl in Hrun. injection Hrun as <- _.
    split; [|lia]. exists li. auto.
  - destruct (at_ ents 0) as [e0|] eqn:He0; [|discriminate]. simpl obind in Hrun.
    destruct (Hidx e0 eq_refl) as [H1 H2].
    pose proof (len_nonneg ents) as Hlen.
    rewrite u64_small in Hrun by (unfold is_u64; lia).
    destruct (Z.ltb_spec (Index e0 - 1) (committed l)); [discriminate|].
    destruct (unstable_truncateAndAppend (unstab l) ents) as [u'|] eqn:Hta; [|discriminate].
    simpl obind in Hrun.
    destruct (unstable_truncateAndAppend_last _ _ _ _ He0 Hta) as [Hlast _].
    assert (Hpos : 1 <= len ents) by (apply at_Ret in He0; lia).
    unfold raftLog_lastIndex in Hrun. simpl unstab in Hrun. rewrite Hlast in Hrun.
    simpl in Hrun. injection Hrun as <- _. simpl. split; [|lia].
    exists (Index e0 + len ents - 1). split; [|simpl; lia].
    unfold raftLog_lastIndex. simpl unstab. rewrite Hlast.
    rewrite u64_small by (unfold is_u64; lia). reflexivity.
Qed.

Lemma well_indexed_drop (es : list Entry) (k : nat) (e : Entry) :
  well_indexed es -> es !! k = Some e ->
  1 <= Index e /\ Index e + zlen (drop k es) <= 2^64.
Proof.
  intros Hw Hk. destruct es as [|e0 rest]; [rewrite lookup_nil in Hk; discriminate|].
  destruct Hw as (H1 & H2 & Hc).
  pose proof (consecutive_lookup _ _ _ _ Hc Hk) as He.
  apply lookup_lt_Some in Hk.
  unfold zlen in *. rewrite length_drop. lia.
Qed.

Lemma raftLog_maybeAppend_preserves (l l' : raftLog Store) (index logTerm c : Z)
    (ents : slice) (r : Z * bool) :
  log_invariant l -> well_indexed (elems ents) ->
  raftLog_maybeAppend l index logTerm c ents = Ret (l', r) ->
  log_invariant l' /\ committed l <= committed l' /\ applied l' = applied l.
Proof.
  intros Hinv Hw Hrun. unfold raftLog_maybeAppend in Hrun.
  destruct (raftLog_matchTerm l index logTerm) as [[|]|]; simpl obind in Hrun;
    [| |discriminate].
  2:{ injection Hrun as <- _. split; [exact Hinv|lia]. }
  destruct (raftLog_findConflict l (elems ents)) as [ci|]; simpl obind in Hrun;
    [|discriminate].
  assert (Hl1 : forall l1,
             (if ci =? 0 then Ret l
              else if ci <=? committed l then Panic
              else let* suffix := slice_from ents (u64 (ci - u64 (index + 1))) in
                   let* r := raftLog_append l suffix in Ret (fst r)) = Ret l1 ->
             log_invariant l1 /\ committed l1 = committed l /\ applied l1 = applied l).
  { intros l1 H1. destruct (ci =? 0).
    - injection H1 as <-. auto.
    - destruct (ci <=? committed l); [discriminate|].
      set (k := u64 (ci - u64 (index + 1))) in *.
      unfold slice_from in H1.
      destruct (Z.leb_spec 0 k); [|discriminate].
      destruct (Z.leb_spec k (len ents)); [|discriminate]. simpl in H1.
      match type of H1 with
      | context [raftLog_append l ?s] =>
          destruct (raftLog_append l s) as [[l1' n]|] eqn:Hap; [|discriminate]
      end.
      simpl in H1. injection H1 as <-.
      apply (raftLog_append_preserves _ _ _ _ Hinv) in Hap; [exact Hap|].
      intros e0 He0. apply at_Ret in He0. simpl in He0. destruct He0 as [_ He0].
      rewrite lookup_drop in He0. rewrite Nat.add_0_r in He0.
      unfold len at 1. simpl elems.
      apply (well_indexed_drop _ _ _ Hw He0). }
  match type of Hrun with
  | context [obind ?m _] => destruct m as [l1|] eqn:Hm1; [|discriminate]
  end.
  simpl obind in Hrun.
  destruct (Hl1 l1 eq_refl) as (Hinv1 & Hc1 & Ha1).
  destruct (raftLog_commitTo l1 _) as [l2|] eqn:Hct; [|discriminate].
  simpl in Hrun. injection Hrun as <- _.
  destruct (raftLog_commitTo_preserves _ _ _ Hinv1 Hct) as (Hinv2 & Hc2 & Ha2).
  split; [exact Hinv2|]. lia.
Qed.

Lemma raftLog_maybeCommit_preserves (l l' : raftLog Store) (maxIndex term : Z) (b : bool) :
  log_invariant l -> raftLog_maybeCommit l maxIndex term = Ret (l', b) ->
  log_invariant l' /\ committed l <= committed l' /\ applied l' = applied l.
Proof.
  intros Hinv Hrun. unfold raftLog_maybeCommit in Hrun.
  destruct (maxIndex >? committed l).
  - destruct (raftLog_term l maxIndex) as [r|]; [|discriminate]. simpl obind in Hrun.
    destruct (raftLog_zeroTermOnErrCompacted r) as [t|]; [|discriminate].
    simpl obind in Hrun. destruct (t =? term).
    + destruct (raftLog_commitTo l maxIndex) as [l2|] eqn:Hct; [|discriminate].
      simpl in Hrun. injection Hrun as <- _.
      apply (raftLog_commitTo_preserves _ _ _ Hinv Hct).
    + injection Hrun as <- _. split; [exact Hinv|lia].
  - injection Hrun as <- _. split; [exact Hinv|lia].
Qed.

Lemma raftLog_restore_preserves (l : raftLog Store) (s : Snapshot) :
  log_invariant l -> committed l <= SnapIndex (Metadata s) ->
  log_invariant (raftLog_restore l s) /\
  committed l <= committed (raftLog_restore l s) /\
  applied (raftLog_restore l s) = applied l.
Proof.
  intros (li & Hli & Ha & Hc) Hs. simpl. split; [|lia].
  exists (SnapIndex (Metadata s)). split; [reflexivity|]. simpl. lia.
Qed.

Lemma unstable_shrinkEntriesArray_same (u : unstable) :
  unstable_maybeLastIndex (unstable_shrinkEntriesArray u) = unstable_maybeLastIndex u.
Proof.
  unfold unstable_shrinkEntriesArray.
  destruct (Z.eqb_spec (len (entries u)) 0) as [Hz|Hnz].
  - unfold unstable_maybeLastIndex. simpl. rewrite Hz. reflexivity.
  - destruct (i64 (len (entries u) * lenMultiple) <? cap (entries u)); reflexivity.
Qed.

Lemma raftLog_stableTo_preserves (l l' : raftLog Store) (i t sl : Z) :
  log_invariant l ->
  is_u64 i -> snapshot (unstab l) = None ->
  Storage_LastIndex (storage l) = Ret (sl, None) -> i <= sl ->
  raftLog_stableTo l i t = Ret l' ->
  log_invariant l' /\ committed l' = committed l /\ applied l' = applied l.
Proof.
  intros (li & Hli & Ha & Hc) Hi Hsnap Hsl Hle Hrun.
  unfold raftLog_stableTo, unstable_stableTo in Hrun.
  destruct (unstable_maybeTerm (unstab l) i) as [[gt ok]|]; [|discriminate].
  simpl obind in Hrun. cbv iota beta in Hrun.
  assert (Hsame : log_invariant
                    (mkRaftLog (storage l) (unstab l) (committed l) (applied l)
                       (maxNextEntsSize l))).
  { exists li. split; [|auto]. rewrite <- Hli. destruct l; reflexivity. }
  destruct (negb ok).
  { simpl in Hrun. injection Hrun as <-. auto. }
  destruct ((gt =? t) && (i >=? offset (unstab l))).
  2:{ simpl in Hrun. injection Hrun as <-. auto. }
  set (k := u64 (i + 1 - offset (unstab l))) in *.
  unfold slice_from in Hrun.
  destruct (Z.leb_spec 0 k) as [Hk0|]; [|discriminate].
  destruct (Z.leb_spec k (len (entries (unstab l)))) as [Hkl|]; [|discriminate].
  simpl in Hrun. injection Hrun as <-. simpl. split; [|lia].
  unfold log_invariant, raftLog_lastIndex. simpl unstab. simpl storage.
  simpl committed. simpl applied.
  rewrite unstable_shrinkEntriesArray_same.
  unfold raftLog_lastIndex in Hli.
  unfold unstable_maybeLastIndex in Hli |- *. simpl entries. simpl offset. simpl snapshot.
  unfold len at 1 2. simpl elems. rewrite (len_drop (entries (unstab l)) k) by lia.
  rewrite Hsnap in Hli |- *.
  rewrite Hsl in Hli |- *. simpl obind in Hli |- *.
  destruct (Z.eqb_spec (len (entries (unstab l)) - k) 0) as [Hz|Hnz]; simpl negb; cbv iota.
  - (* the tail is empty now: lastIndex is the storage's *)
    exists sl. split; [reflexivity|]. split; [lia|].
    destruct (Z.eqb_spec (len (entries (unstab l))) 0) as [Hz'|Hnz']; simpl in Hli.
    + injection Hli as <-. lia.
    + injection Hli as <-.
      assert (Hli' : u64 (offset (unstab l) + len (entries (unstab l)) - 1) = u64 i).
      { replace (len (entries (unstab l))) with k by lia. unfold k.
        rewrite (u64_eq (i + 1 - offset (unstab l))).
        apply u64_shift with (q := - ((i + 1 - offset (unstab l)) / 2^64)). lia. }
      rewrite Hli' in Hc. rewrite u64_small in Hc by exact Hi. lia.
  - (* entries remain: lastIndex is unchanged *)
    destruct (Z.eqb_spec (len (entries (unstab l))) 0) as [Hz'|Hnz']; [lia|].
    simpl in Hli. injection Hli as <-.
    eexists. split; [reflexivity|]. split; [lia|].
    assert (Heq : u64 (u64 (i + 1) + (len (entries (unstab l)) - k) - 1)
                  = u64 (offset (unstab l) + len (entries (unstab l)) - 1)).
    { unfold k. rewrite (u64_eq (i + 1)), (u64_eq (i + 1 - offset (unstab l))).
      apply u64_shift with
        (q := (i + 1 - offset (unstab l)) / 2^64 - (i + 1) / 2^64). lia. }
    rewrite Heq. exact Hc.
Qed.

(** With a snapshot pending, the log ends at the snapshot once the tail is
    acknowledged. *)
Lemma raftLog_stableTo_preserves_pending (l l' : raftLog Store) (i t : Z) (s : Snapshot) :
  log_invariant l ->
  snapshot (unstab l) = Some s -> committed l <= SnapIndex (Metadata s) ->
  raftLog_stableTo l i t = Ret l' ->
  log_invariant l' /\ committed l' = committed l /\ applied l' = applied l.
Proof.
  intros (li & Hli & Ha & Hc) Hsnap Hcs Hrun.
  unfold raftLog_stableTo, unstable_stableTo in Hrun.
  destruct (unstable_maybeTerm (unstab l) i) as [[gt ok]|]; [|discriminate].
  simpl obind in Hrun. cbv iota beta in Hrun.
  assert (Hsame : log_invariant
                    (mkRaftLog (storage l) (unstab l) (committed l) (applied l)
                       (maxNextEntsSize l))).
  { exists li. split; [|auto]. rewrite <- Hli. destruct l; reflexivity. }
  destruct (negb ok).
  { simpl in Hrun. injection Hrun as <-. auto. }
  destruct ((gt =? t) && (i >=? offset (unstab l))).
  2:{ simpl in Hrun. injection Hrun as <-. auto. }
  set (k := u64 (i + 1 - offset (unstab l))) in *.
  unfold slice_from in Hrun.
  destruct (Z.leb_spec 0 k) as [Hk0|]; [|discriminate].
  destruct (Z.leb_spec k (len (entries (unstab l)))) as [Hkl|]; [|discriminate].
  simpl in Hrun. injection Hrun as <-. simpl. split; [|lia].
  unfold log_invariant, raftLog_lastIndex. simpl unstab. simpl storage.
  simpl committed. simpl applied.
  rewrite unstable_shrinkEntriesArray_same.
  unfold raftLog_lastIndex in Hli.
  unfold unstable_maybeLastIndex in Hli |- *. simpl entries. simpl offset. simpl snapshot.
  unfold len at 1 2. simpl elems. rewrite (len_drop (entries (unstab l)) k) by lia.
  rewrite Hsnap in Hli |- *.
  destruct (Z.eqb_spec (len (entries (unstab l)) - k) 0) as [Hz|Hnz]; simpl negb; cbv iota.
  - exists (SnapIndex (Metadata s)). split; [reflexivity|]. split; [lia|exact Hcs].
  - destruct (Z.eqb_spec (len (entries (unstab l))) 0) as [Hz'|Hnz']; [lia|].
    simpl in Hli. injection Hli as <-.
    eexists. split; [reflexivity|]. split; [lia|].
    assert (Heq : u64 (u64 (i + 1) + (len (entries (unstab l)) - k) - 1)
                  = u64 (offset (unstab l) + len (entries (unstab l)) - 1)).
    { unfold k. rewrite (u64_eq (i + 1)), (u64_eq (i + 1 - offset (unstab l))).
      apply u64_shift with
        (q := (i + 1 - offset (unstab l)) / 2^64 - (i + 1) / 2^64). lia. }
    rewrite Heq. exact Hc.
Qed.

Lemma raftLog_stableSnapTo_preserves (l : raftLog Store) (i sl : Z) :
  log_invariant l ->
  Storage_LastIndex (storage l) = Ret (sl, None) -> i <= sl ->
  log_invariant (raftLog_stableSnapTo l i) /\
  committed (raftLog_stableSnapTo l i) = committed l /\
  applied (raftLog_stableSnapTo l i) = applied l.
Proof.
  intros (li & Hli & Ha & Hc) Hsl Hle.
  split; [|split; reflexivity].
  unfold log_invariant, raftLog_stableSnapTo, raftLog_lastIndex, unstable_stableSnapTo.
  cbn [unstab storage committed applied].
  unfold raftLog_lastIndex in Hli.
  destruct (snapshot (unstab l)) as [s|] eqn:Hsnap.
  2:{ exists li. split; [exact Hli|]. split; assumption. }
  destruct (Z.eqb_spec (SnapIndex (Metadata s)) i) as [Hi|Hi].
  2:{ exists li. split; [exact Hli|]. split; assumption. }
  unfold unstable_maybeLastIndex in Hli |- *. cbn [entries offset snapshot].
  rewrite Hsnap in Hli.
  destruct (Z.eqb_spec (len (entries (unstab l))) 0) as [Hz|Hnz]; cbn [negb] in Hli |- *;
    cbv iota in Hli |- *.
  - (* the snapshot was the end of the log: now the storage is *)
    injection Hli as <-. rewrite Hsl. cbn [obind].
    exists sl. split; [reflexivity|]. split; [exact Ha|lia].
  - exists li. split; [exact Hli|]. split; assumption.
Qed.

End Invariant.

Section InvariantOverMemoryStorage.
Import Raft.
Context {ext : External}.

(** A write to the storage leaves [lastIndex] alone as long as the
    unstable part answers it. *)
Lemma raftLog_lastIndex_unstable (l : raftLog MemoryStorage) (st : MemoryStorage) :
  snd (unstable_maybeLastIndex (unstab l)) = true ->
  raftLog_lastIndex (with_storage l st) = raftLog_lastIndex l.
Proof.
  intros Hok. unfold raftLog_lastIndex, with_storage. cbn [unstab].
  destruct (unstable_maybeLastIndex (unstab l)) as [i ok]. simpl in Hok. subst ok.
  reflexivity.
Qed.

Lemma with_storage_same (l : raftLog MemoryStorage) : with_storage l (storage l) = l.
Proof. destruct l; reflexivity. Qed.

Lemma saveSnapshot_preserves (l : raftLog MemoryStorage) (s : Snapshot) :
  log_invariant l -> snapshot (unstab l) = Some s ->
  log_invariant (with_storage l (RaftExample.raftNode_saveSnapshot (storage l) s)).
Proof.
  intros (li & Hli & Ha & Hc) Hsnap.
  exists li. split; [|split; assumption].
  rewrite raftLog_lastIndex_unstable; [exact Hli|].
  unfold unstable_maybeLastIndex. rewrite Hsnap.
  destruct (negb (len (entries (unstab l)) =? 0)); reflexivity.
Qed.

Lemma saveEntries_preserves (l : raftLog MemoryStorage) (st : MemoryStorage) :
  log_invariant l ->
  RaftExample.raftNode_saveEntries (storage l) (raftLog_unstableEntries l) = Ret st ->
  log_invariant (with_storage l st).
Proof.
  intros (li & Hli & Ha & Hc) Hrun.
  exists li. split; [|split; assumption].
  destruct (Z.eqb_spec (len (entries (unstab l))) 0) as [Hz|Hnz].
  - (* nothing unstable: [Append] of no entries returns at once *)
    unfold RaftExample.raftNode_saveEntries, raftLog_unstableEntries in Hrun.
    rewrite Hz in Hrun. simpl in Hrun. injection Hrun as <-.
    rewrite with_storage_same. exact Hli.
  - rewrite raftLog_lastIndex_unstable; [exact Hli|].
    unfold unstable_maybeLastIndex.
    destruct (Z.eqb_spec (len (entries (unstab l))) 0); [contradiction|reflexivity].
Qed.

Lemma exec_op_preserves (l l' : raftLog MemoryStorage) (o : log_op) :
  log_invariant l -> allowed l o -> exec_op l o = Ret l' ->
  log_invariant l' /\ committed l <= committed l' /\ applied l <= applied l'.
Proof.
  intros Hinv Hal Hrun.
  destruct o as [ents|index logTerm c ents|c|i|m t|s|i t|i| |];
    simpl in Hal, Hrun.
  - destruct (raftLog_append l ents) as [[l1 n]|] eqn:Hap; [|discriminate].
    simpl in Hrun. injection Hrun as <-.
    apply (raftLog_append_preserves _ _ _ _ Hinv) in Hap; [destruct Hap as (? & ? & ?); split; [assumption|lia]|].
    intros e0 He0. apply at_Ret in He0. destruct He0 as [_ He0]. simpl in He0.
    pose proof (well_indexed_drop _ 0 _ Hal He0) as Hd. rewrite drop_0 in Hd. exact Hd.
  - destruct (raftLog_maybeAppend l index logTerm c ents) as [[l1 r]|] eqn:Hma; [|discriminate].
    simpl in Hrun. injection Hrun as <-.
    destruct (raftLog_maybeAppend_preserves _ _ _ _ _ _ _ Hinv Hal Hma) as (? & ? & ?).
    split; [assumption|lia].
  - destruct (raftLog_commitTo_preserves _ _ _ Hinv Hrun) as (? & ? & ?).
    split; [assumption|lia].
  - destruct (raftLog_appliedTo_preserves _ _ _ Hinv Hrun) as (? & ? & ?).
    split; [assumption|lia].
  - destruct (raftLog_maybeCommit l m t) as [[l1 b]|] eqn:Hmc; [|discriminate].
    simpl in Hrun. injection Hrun as <-.
    destruct (raftLog_maybeCommit_preserves _ _ _ _ _ Hinv Hmc) as (? & ? & ?).
    split; [assumption|lia].
  - injection Hrun as <-.
    destruct (raftLog_restore_preserves l s Hinv Hal) as (? & ? & ?).
    split; [assumption|lia].
  - destruct Hal as (Hi & Hal).
    destruct (snapshot (unstab l)) as [s|] eqn:Hsnap.
    + destruct (raftLog_stableTo_preserves_pending _ _ _ _ _ Hinv Hsnap Hal Hrun)
        as (? & ? & ?).
      split; [assumption|lia].
    + destruct Hal as (sl & Hsl & Hle).
      destruct (raftLog_stableTo_preserves _ _ _ _ _ Hinv Hi Hsnap Hsl Hle Hrun)
        as (? & ? & ?).
      split; [assumption|lia].
  - destruct Hal as (sl & Hsl & Hle). injection Hrun as <-.
    destruct (raftLog_stableSnapTo_preserves l i sl Hinv Hsl Hle) as (? & ? & ?).
    split; [assumption|lia].
  - destruct (snapshot (unstab l)) as [s|] eqn:Hsnap.
    + injection Hrun as <-. split; [apply saveSnapshot_preserves; assumption|].
      simpl. lia.
    + injection Hrun as <-. split; [exact Hinv|lia].
  - destruct (RaftExample.raftNode_saveEntries (storage l) (raftLog_unstableEntries l))
      as [st|] eqn:Hsave; [|discriminate].
    simpl in Hrun. injection Hrun as <-.
    split; [apply saveEntries_preserves; assumption|]. simpl. lia.
Qed.

End InvariantOverMemoryStorage.

(** C2 (amended): on a log over a [MemoryStorage], along every sequence of
    [append], [maybeAppend], [commitTo], [appliedTo], [maybeCommit],
    [restore], [stableTo] and [stableSnapTo] calls, interleaved with the
    application's writes to the storage ([ApplySnapshot] of the pending
    snapshot, [Append] of the unstable entries), that return (none
    panics), where the appended entries are well indexed, every [restore]
    is given a snapshot whose index is at least [committed], every
    [stableTo(i, t)] is called with entry i held by the storage or, while
    a snapshot is pending, with that snapshot at or above [committed], and
    every [stableSnapTo(i)] with index i reached by the storage, the
    invariant applied <= committed <= lastIndex is kept and neither
    [committed] nor [applied] decreases.  The entries and the snapshot that
    [stableTo] and [stableSnapTo] acknowledge may be ones that the same
    sequence appended, restored and wrote to the storage. *)
Theorem log_invariant_steps {ext : Raft.External}
    (l l' : Raft.raftLog Raft.MemoryStorage) (ops : list log_op) :
  log_invariant l -> steps l ops l' ->
  log_invariant l' /\
  Raft.committed l <= Raft.committed l' /\ Raft.applied l <= Raft.applied l'.
Proof.
  intros Hinv Hsteps. induction Hsteps as [l|l l1 l2 o ops Hal Hex Hrest IH].
  - split; [exact Hinv|lia].
  - destruct (exec_op_preserves l l1 o Hinv Hal Hex) as (Hinv1 & Hc1 & Ha1).
    destruct (IH Hinv1) as (Hinv2 & Hc2 & Ha2).
    split; [exact Hinv2|lia].
Qed.

(** The invariant holds in the log that [newLog] builds over a storage
    that answers [FirstIndex] with [fi] and [LastIndex] with [sl]. *)
Lemma newLog_invariant {Store : Type} {St : Raft.Storage Store} (st : Store) (fi sl : Z) :
  Raft.Storage_FirstIndex st = Ret (fi, None) ->
  Raft.Storage_LastIndex st = Ret (sl, None) ->
  1 <= fi <= sl + 1 -> sl + 1 < 2^64 ->
  exists l, Raft.newLog st = Ret l /\
            log_invariant l /\ Raft.committed l = fi - 1 /\ Raft.applied l = fi - 1.
Proof.
  intros Hf Hl Hr Hs.
  unfold Raft.newLog, Raft.newLogWithSize. rewrite Hf, Hl. simpl obind.
  rewrite (u64_small (fi - 1)) by (unfold is_u64; lia).
  eexists. split; [reflexivity|]. simpl. split; [|auto].
  exists sl. split; [|simpl; lia].
  unfold Raft.raftLog_lastIndex, Raft.unstable_maybeLastIndex. simpl.
  rewrite Hl. reflexivity.
Qed.

(** It does for a [MemoryStorage] that holds its dummy entry. *)
Lemma newLog_MemoryStorage_invariant {ext : Raft.External} (st : Raft.MemoryStorage)
    (d : Raft.Entry) :
  Raft.at_ (Raft.ents st) 0 = Ret d ->
  is_u64 (Raft.Index d) -> Raft.Index d + Raft.len (Raft.ents st) < 2^64 ->
  Raft.len (Raft.ents st) < 2^63 ->
  exists l, Raft.newLog st = Ret l /\
            log_invariant l /\ Raft.committed l = Raft.Index d /\
            Raft.applied l = Raft.Index d.
Proof.
  intros Hd Hr Hs Hl.
  assert (Hpos : 1 <= Raft.len (Raft.ents st)) by (apply at_Ret in Hd; lia).
  destruct (MemoryStorage_answers st d Hd Hr Hs Hl) as (Hf & Hla & _).
  destruct (newLog_invariant st _ _ Hf Hla) as (l & Hnew & Hinv & Hc & Ha);
    [unfold is_u64 in Hr; lia|lia|].
  exists l. split; [exact Hnew|]. split; [exact Hinv|]. lia.
Qed.

(** A run over the log [(1,1),(2,1),(3,1)] with committed = 1: a follower
    append that truncates at index 2; apply; the entries 2, 3, 4 are
    written to the storage and acknowledged; commit; a leader append;
    a snapshot at index 9 and entry 10 after it, both written to the
    storage and acknowledged, entries first. *)
Definition sample_ops : list log_op :=
  [ OpMaybeAppend 1 1 2
      (Fixtures.exact [Fixtures.entry 2 2; Fixtures.entry 3 2; Fixtures.entry 4 2]);
    OpAppliedTo 2;
    OpSaveEntries;
    OpStableTo 4 2;
    OpCommitTo 4;
    OpAppend (Fixtures.exact [Fixtures.entry 5 3]);
    OpMaybeCommit 5 3;
    OpRestore (Fixtures.snap 9 3);
    OpAppend (Fixtures.exact [Fixtures.entry 10 4]);
    OpSaveSnapshot;
    OpSaveEntries;
    OpStableTo 10 4;
    OpStableSnapTo 9;
    OpCommitTo 10 ].

Definition sample_final : Raft.raftLog Raft.MemoryStorage :=
  Eval vm_compute in
    match run (ext := Fixtures.doubling) (Fixtures.log3 1 0) sample_ops with
    | Ret l => l
    | Panic => Fixtures.log3 1 0
    end.

Lemma log_invariant_steps_witness :
  log_invariant (St := Fixtures.in_memory) sample_final /\
  Raft.committed (Fixtures.log3 1 0) <= Raft.committed sample_final /\
  Raft.applied (Fixtures.log3 1 0) <= Raft.applied sample_final /\
  Raft.committed sample_final = 10 /\
  Raft.raftLog_lastIndex (St := Fixtures.in_memory) sample_final = Ret 10 /\
  Raft.len (Raft.entries (Raft.unstab sample_final)) = 0 /\
  Raft.snapshot (Raft.unstab sample_final) = None.
Proof.
  destruct (log_invariant_steps (ext := Fixtures.doubling) (Fixtures.log3 1 0) sample_final
              sample_ops) as (Hinv & Hc & Ha).
  - exists 3. split; [reflexivity|]. simpl. lia.
  - unfold sample_ops.
    eapply steps_cons; [simpl; unfold zlen; simpl; repeat split; lia
                       |vm_compute; reflexivity|].
    eapply steps_cons; [exact I|vm_compute; reflexivity|].
    eapply steps_cons; [exact I|vm_compute; reflexivity|].
    eapply steps_cons; [split; [unfold is_u64; lia|];
                        exists 4; split; [reflexivity|lia]
                       |vm_compute; reflexivity|].
    eapply steps_cons; [exact I|vm_compute; reflexivity|].
    eapply steps_cons; [simpl; unfold zlen; simpl; repeat split; lia
                       |vm_compute; reflexivity|].
    eapply steps_cons; [exact I|vm_compute; reflexivity|].
    eapply steps_cons; [simpl; lia|vm_compute; reflexivity|].
    eapply steps_cons; [simpl; unfold zlen; simpl; repeat split; lia
                       |vm_compute; reflexivity|].
    eapply steps_cons; [exact I|vm_compute; reflexivity|].
    eapply steps_cons; [exact I|vm_compute; reflexivity|].
    eapply steps_cons; [split; [unfold is_u64; lia|]; simpl; lia
                       |vm_compute; reflexivity|].
    eapply steps_cons; [exists 10; split; [reflexivity|lia]|vm_compute; reflexivity|].
    eapply steps_cons; [exact I|vm_compute; reflexivity|].
    apply steps_nil.
  - split; [exact Hinv|]. split; [exact Hc|]. split; [exact Ha|].
    split; [reflexivity|]. split; [reflexivity|]. split; reflexivity.
Defined.

(** ** The MVCC key index *)

(** Case analysis on the integer comparisons of the goal; the branches that
    contradict the hypotheses are closed. *)
Ltac zcase :=
  match goal with
  | |- context [?a <=? ?b] => destruct (Z.leb_spec a b); try lia
  | |- context [?a <? ?b] => destruct (Z.ltb_spec a b); try lia
  | |- context [?a >? ?b] => destruct (Z.gtb_spec a b); try lia
  | |- context [?a =? ?b] => destruct (Z.eqb_spec a b); try lia
  end.

Ltac zcases := repeat (simpl; zcase).

(** put(r1); put(r2); tombstone(r3); put(r4) on the fresh index of a key;
    the tombstone is required to succeed. *)
Definition put_put_tombstone_put (k : list byte) (r1 s1 r2 s2 r3 s3 r4 s4 : Z)
  : outcome Mvcc.keyIndex :=
  let* k1 := Mvcc.keyIndex_put (Mvcc.newKeyIndex k) r1 s1 in
  let* k2 := Mvcc.keyIndex_put k1 r2 s2 in
  let* t := Mvcc.keyIndex_tombstone k2 r3 s3 in
  match t with
  | (k3, None) => Mvcc.keyIndex_put k3 r4 s4
  | (_, Some _) => Panic
  end.

Lemma GreaterThan_main (a b : Mvcc.revision) :
  Mvcc.main b < Mvcc.main a -> Mvcc.GreaterThan a b = true.
Proof.
  intros H. unfold Mvcc.GreaterThan.
  destruct (Z.gtb_spec (Mvcc.main a) (Mvcc.main b)); [reflexivity|lia].
Qed.

Lemma put_put_tombstone_put_builds (k : list byte) (r1 s1 r2 s2 r3 s3 r4 s4 : Z) :
  Mvcc.GreaterThan (Mvcc.mkRevision r1 s1) Mvcc.zero_revision = true ->
  r1 < r2 -> r2 < r3 -> r3 < r4 ->
  put_put_tombstone_put k r1 s1 r2 s2 r3 s3 r4 s4 =
    Ret (Mvcc.mkKeyIndex k (Mvcc.mkRevision r4 s4)
           [ Mvcc.mkGeneration 3 (Mvcc.mkRevision r1 s1)
               [Mvcc.mkRevision r1 s1; Mvcc.mkRevision r2 s2; Mvcc.mkRevision r3 s3];
             Mvcc.mkGeneration 1 (Mvcc.mkRevision r4 s4) [Mvcc.mkRevision r4 s4] ]).
Proof.
  intros H1 H12 H23 H34. unfold put_put_tombstone_put.
  unfold Mvcc.keyIndex_put at 1. simpl Mvcc.modified. rewrite H1. simpl.
  unfold Mvcc.keyIndex_put at 1. simpl Mvcc.modified.
  rewrite GreaterThan_main by (simpl; lia). simpl.
  unfold Mvcc.keyIndex_tombstone, Mvcc.keyIndex_isEmpty. simpl.
  unfold Mvcc.keyIndex_put at 1. simpl Mvcc.modified.
  rewrite GreaterThan_main by (simpl; lia). simpl.
  unfold Mvcc.keyIndex_put at 1. simpl Mvcc.modified.
  rewrite GreaterThan_main by (simpl; lia). simpl.
  reflexivity.
Qed.

(** C3: on the key index built by put(k, r1); put(k, r2); tombstone(k, r3);
    put(k, r4) with main revisions r1 < r2 < r3 < r4, [get(atRev = r)]
    returns the revision written at r2 (created at r1, version 2) for
    r2 <= r < r3, [ErrRevisionNotFound] for r3 <= r < r4, and the revision
    written at r4 (version 1 of the new generation) for r >= r4. *)
Theorem keyIndex_get_after_tombstone (k : list byte) (r1 s1 r2 s2 r3 s3 r4 s4 : Z) :
  Mvcc.GreaterThan (Mvcc.mkRevision r1 s1) Mvcc.zero_revision = true ->
  r1 < r2 -> r2 < r3 -> r3 < r4 ->
  exists ki,
    put_put_tombstone_put k r1 s1 r2 s2 r3 s3 r4 s4 = Ret ki /\
    forall r,
      (r2 <= r < r3 ->
       Mvcc.keyIndex_get ki r =
         Ret (Mvcc.mkRevision r2 s2, Mvcc.mkRevision r1 s1, 2, None)) /\
      (r3 <= r < r4 ->
       Mvcc.keyIndex_get ki r =
         Ret (Mvcc.zero_revision, Mvcc.zero_revision, 0, Some Mvcc.ErrRevisionNotFound)) /\
      (r4 <= r ->
       Mvcc.keyIndex_get ki r =
         Ret (Mvcc.mkRevision r4 s4, Mvcc.mkRevision r4 s4, 1, None)).
Proof.
  intros H1 H12 H23 H34. eexists. split.
  { apply put_put_tombstone_put_builds; assumption. }
  intros r.
  unfold Mvcc.keyIndex_get, Mvcc.keyIndex_isEmpty, Mvcc.keyIndex_findGeneration,
    Mvcc.generation_walk.
  simpl. unfold zlen. simpl.
  split; [|split]; intros Hr; zcases; reflexivity.
Qed.

Lemma keyIndex_get_after_tombstone_witness :
  exists ki,
    put_put_tombstone_put [] 1 0 2 0 3 0 4 0 = Ret ki /\
    Mvcc.keyIndex_get ki 2 = Ret (Mvcc.mkRevision 2 0, Mvcc.mkRevision 1 0, 2, None) /\
    Mvcc.keyIndex_get ki 3 =
      Ret (Mvcc.zero_revision, Mvcc.zero_revision, 0, Some Mvcc.ErrRevisionNotFound) /\
    Mvcc.keyIndex_get ki 7 = Ret (Mvcc.mkRevision 4 0, Mvcc.mkRevision 4 0, 1, None).
Proof.
  destruct (keyIndex_get_after_tombstone [] 1 0 2 0 3 0 4 0) as (ki & Hb & Hg);
    [reflexivity|lia|lia|lia|].
  exists ki. split; [exact Hb|].
  split; [apply (Hg 2); lia|]. split; [apply (Hg 3); lia|apply (Hg 7); lia].
Defined.

(** ** Compaction of a key index *)

(** Every closed generation (every generation but the last) holds at least
    two revisions: what [put] and [tombstone] build, since a tombstone is
    only appended to a non-empty generation. *)
Fixpoint closed_generations_ok (gs : list Mvcc.generation) : Prop :=
  match gs with
  | [] => True
  | g :: rest =>
      match rest with
      | [] => True
      | _ :: _ => (2 <= length (Mvcc.revs g))%nat /\ closed_generations_ok rest
      end
  end.

(** The walk of [doCompact] and the cut it leads to. *)
Definition keep_from (r : Z) (rev : Mvcc.revision) : bool := negb (Mvcc.main rev <=? r).

Definition walk_to (r : Z) (l : list Mvcc.revision) : Z :=
  Mvcc.walk_desc (keep_from r) (reverse l) (zlen l - 1).

Definition trim (r : Z) (g : Mvcc.generation) : Mvcc.generation :=
  if negb (walk_to r (Mvcc.revs g) =? -1)
  then Mvcc.mkGeneration (Mvcc.ver g) (Mvcc.created g)
         (drop (Z.to_nat (walk_to r (Mvcc.revs g))) (Mvcc.revs g))
  else g.

(** The generations [compact(r)] leaves, by recursion on the list. *)
Fixpoint compact_generations (r : Z) (gs : list Mvcc.generation) : list Mvcc.generation :=
  match gs with
  | [] => []
  | g :: rest =>
      match rest with
      | [] => [trim r g]
      | _ :: _ =>
          match last (Mvcc.revs g) with
          | None => []
          | Some tomb =>
              if Mvcc.main tomb >? r then
                if zlen (Mvcc.revs (trim r g)) =? 1 then rest else trim r g :: rest
              else compact_generations r rest
          end
      end
  end.

Section Walk.

Lemma walk_to_nil r : walk_to r [] = -1.
Proof. reflexivity. Qed.

Lemma walk_to_snoc r (l : list Mvcc.revision) (x : Mvcc.revision) :
  walk_to r (l ++ [x]) = if keep_from r x then walk_to r l else zlen l.
Proof.
  unfold walk_to. rewrite reverse_app. simpl.
  unfold zlen. rewrite length_app. simpl.
  replace (Z.of_nat (length l + 1) - 1) with (Z.of_nat (length l)) by lia.
  reflexivity.
Qed.

Lemma walk_to_bound r (l : list Mvcc.revision) : -1 <= walk_to r l < zlen l.
Proof.
  induction l as [|x l IH] using rev_ind.
  - rewrite walk_to_nil. unfold zlen. simpl. lia.
  - rewrite walk_to_snoc. unfold zlen in *. rewrite length_app. simpl.
    destruct (keep_from r x); lia.
Qed.

Lemma walk_to_drop r (l : list Mvcc.revision) (k : nat) :
  walk_to r (drop k l) =
    if Z.of_nat k <=? walk_to r l then walk_to r l - Z.of_nat k else -1.
Proof.
  induction l as [|x l IH] using rev_ind.
  - rewrite drop_nil, walk_to_nil. destruct (Z.leb_spec (Z.of_nat k) (-1)); [lia|reflexivity].
  - pose proof (walk_to_bound r l) as Hb. unfold zlen in Hb.
    destruct (Nat.le_gt_cases k (length l)) as [Hk|Hk].
    + rewrite drop_app_le by exact Hk. rewrite !walk_to_snoc, IH.
      destruct (keep_from r x); [reflexivity|].
      unfold zlen. rewrite length_drop.
      destruct (Z.leb_spec (Z.of_nat k) (Z.of_nat (length l))); lia.
    + rewrite drop_ge by (rewrite length_app; simpl; lia).
      rewrite walk_to_nil, walk_to_snoc. unfold zlen.
      destruct (keep_from r x);
        match goal with |- context [?a <=? ?b] => destruct (Z.leb_spec a b) end;
        lia.
Qed.

Lemma walk_to_mono r1 r2 (l : list Mvcc.revision) :
  r1 <= r2 -> 0 <= walk_to r1 l -> walk_to r1 l <= walk_to r2 l.
Proof.
  intros Hr. induction l as [|x l IH] using rev_ind.
  - rewrite walk_to_nil. lia.
  - rewrite !walk_to_snoc. pose proof (walk_to_bound r1 l) as Hb.
    unfold keep_from.
    destruct (Z.leb_spec (Mvcc.main x) r1); destruct (Z.leb_spec (Mvcc.main x) r2);
      simpl; try lia.
Qed.

Lemma trim_revs r (g : Mvcc.generation) :
  Mvcc.revs (trim r g) =
    if walk_to r (Mvcc.revs g) =? -1 then Mvcc.revs g
    else drop (Z.to_nat (walk_to r (Mvcc.revs g))) (Mvcc.revs g).
Proof. unfold trim. destruct (walk_to r (Mvcc.revs g) =? -1); reflexivity. Qed.

Lemma trim_eq r (g g' : Mvcc.generation) :
  Mvcc.ver g' = Mvcc.ver g -> Mvcc.created g' = Mvcc.created g ->
  Mvcc.revs g' = Mvcc.revs (trim r g) -> g' = trim r g.
Proof.
  intros Hv Hc Hr. destruct g' as [v c l]. simpl in *. subst.
  unfold trim. destruct (negb _); destruct g; reflexivity.
Qed.

(** Cutting at [r1] and then at a later [r2] is cutting at [r2]. *)
Lemma trim_trim r1 r2 (g : Mvcc.generation) :
  r1 <= r2 -> trim r2 (trim r1 g) = trim r2 g.
Proof.
  intros Hr. symmetry. apply trim_eq.
  - unfold trim. repeat destruct (negb _); reflexivity.
  - unfold trim. repeat destruct (negb _); reflexivity.
  - rewrite !trim_revs.
    pose proof (walk_to_bound r1 (Mvcc.revs g)) as Hb1.
    pose proof (walk_to_bound r2 (Mvcc.revs g)) as Hb2.
    destruct (Z.eqb_spec (walk_to r1 (Mvcc.revs g)) (-1)) as [H1|H1]; [reflexivity|].
    pose proof (walk_to_mono r1 r2 (Mvcc.revs g) Hr) as Hm.
    rewrite walk_to_drop. rewrite Z2Nat.id by lia.
    destruct (Z.leb_spec (walk_to r1 (Mvcc.revs g)) (walk_to r2 (Mvcc.revs g))); [|lia].
    destruct (Z.eqb_spec (walk_to r2 (Mvcc.revs g) - walk_to r1 (Mvcc.revs g)) (-1)); [lia|].
    destruct (Z.eqb_spec (walk_to r2 (Mvcc.revs g)) (-1)); [lia|].
    rewrite drop_drop. f_equal. lia.
Qed.

(** A closed generation whose tombstone is above [r] keeps its tombstone
    and at least one more revision. *)
Lemma trim_closed r (g : Mvcc.generation) (tomb : Mvcc.revision) :
  (2 <= length (Mvcc.revs g))%nat ->
  last (Mvcc.revs g) = Some tomb -> r < Mvcc.main tomb ->
  (2 <= length (Mvcc.revs (trim r g)))%nat /\
  last (Mvcc.revs (trim r g)) = Some tomb.
Proof.
  intros Hlen Hlast Htomb. rewrite trim_revs.
  destruct (Z.eqb_spec (walk_to r (Mvcc.revs g)) (-1)) as [H1|H1]; [auto|].
  destruct (Mvcc.revs g) as [|x l] eqn:Hrevs using rev_ind; [discriminate|].
  clear IHl. rewrite last_snoc in Hlast. injection Hlast as ->.
  rewrite walk_to_snoc in H1 |- *. unfold keep_from in *.
  destruct (Z.leb_spec (Mvcc.main tomb) r); [lia|]. simpl in *.
  pose proof (walk_to_bound r l) as Hb. unfold zlen in Hb.
  rewrite drop_app_le by lia. rewrite length_app, length_drop, last_snoc. simpl.
  split; [lia|reflexivity].
Qed.

End Walk.

Section Compact.
Import Mvcc.

Lemma compact_generations_nonempty r (gs : list generation) :
  gs <> [] -> closed_generations_ok gs -> compact_generations r gs <> [].
Proof.
  induction gs as [|g rest IH]; intros Hne Hok; [contradiction|].
  destruct rest as [|g' rest']; [discriminate|].
  destruct Hok as [Hlen Hok]. simpl.
  destruct (last (revs g)) as [tomb|] eqn:Hlast.
  2:{ destruct (revs g) using rev_ind; [simpl in Hlen; lia|].
      rewrite last_snoc in Hlast. discriminate. }
  destruct (Z.gtb_spec (main tomb) r).
  - destruct (zlen (revs (trim r g)) =? 1); discriminate.
  - apply IH; [discriminate|exact Hok].
Qed.

Lemma compact_generations_closed r (gs : list generation) :
  closed_generations_ok gs -> closed_generations_ok (compact_generations r gs).
Proof.
  induction gs as [|g rest IH]; intros Hok; [exact I|].
  destruct rest as [|g' rest']; [exact I|].
  destruct Hok as [Hlen Hok]. simpl.
  destruct (last (revs g)) as [tomb|] eqn:Hlast; [|exact I].
  destruct (Z.gtb_spec (main tomb) r) as [Hgt|Hle].
  - destruct (trim_closed r g tomb Hlen Hlast) as [Hlen' _]; [lia|].
    destruct (Z.eqb_spec (zlen (revs (trim r g))) 1); [exact Hok|].
    split; [exact Hlen'|exact Hok].
  - apply IH. exact Hok.
Qed.

(** Compacting at [r1] and then at a later [r2] leaves the generations
    that compacting at [r2] leaves. *)
Lemma compact_generations_seq r1 r2 (gs : list generation) :
  r1 <= r2 -> closed_generations_ok gs ->
  compact_generations r2 (compact_generations r1 gs) = compact_generations r2 gs.
Proof.
  intros Hr. induction gs as [|g rest IH]; intros Hok; [reflexivity|].
  destruct rest as [|g' rest'].
  - simpl. rewrite trim_trim by exact Hr. reflexivity.
  - destruct Hok as [Hlen Hok].
    destruct (last (revs g)) as [tomb|] eqn:Hlast.
    2:{ destruct (revs g) using rev_ind; [simpl in Hlen; lia|].
        rewrite last_snoc in Hlast. discriminate. }
    change (compact_generations r1 (g :: g' :: rest')) with
      (match last (revs g) with
       | None => []
       | Some tomb =>
           if main tomb >? r1 then
             if zlen (revs (trim r1 g)) =? 1 then g' :: rest' else trim r1 g :: g' :: rest'
           else compact_generations r1 (g' :: rest')
       end).
    change (compact_generations r2 (g :: g' :: rest')) with
      (match last (revs g) with
       | None => []
       | Some tomb =>
           if main tomb >? r2 then
             if zlen (revs (trim r2 g)) =? 1 then g' :: rest' else trim r2 g :: g' :: rest'
           else compact_generations r2 (g' :: rest')
       end).
    rewrite Hlast.
    destruct (Z.gtb_spec (main tomb) r1) as [Hgt1|Hle1].
    + destruct (trim_closed r1 g tomb Hlen Hlast) as [Hlen1 Hlast1]; [lia|].
      destruct (Z.eqb_spec (zlen (revs (trim r1 g))) 1) as [H1|H1];
        [unfold zlen in H1; lia|].
      change (compact_generations r2 (trim r1 g :: g' :: rest')) with
        (match last (revs (trim r1 g)) with
         | None => []
         | Some tomb =>
             if main tomb >? r2 then
               if zlen (revs (trim r2 (trim r1 g))) =? 1
               then g' :: rest' else trim r2 (trim r1 g) :: g' :: rest'
             else compact_generations r2 (g' :: rest')
         end).
      rewrite Hlast1, trim_trim by exact Hr. reflexivity.
    + destruct (Z.gtb_spec (main tomb) r2) as [Hgt2|Hle2]; [lia|].
      apply IH. exact Hok.
Qed.

(** [doCompact]'s loop stops at the generation where
    [compact_generations] cuts: with [gs] the generations from [genIdx]
    on and [pre] those before, what [compact] keeps of [pre ++ gs] is
    [compact_generations r gs]. *)
Lemma doCompact_loop_cut r (gs pre : list generation) :
  gs <> [] -> closed_generations_ok gs ->
  exists (i : nat) (g : generation),
    doCompact_loop r gs (zlen pre) = Ret (Z.of_nat i, g) /\
    (pre ++ gs) !! i = Some g /\
    (let g1 := trim r g in
     let gens1 := <[i := g1]> (pre ++ gs) in
     (if (zlen (revs g1) =? 1) && negb (Z.of_nat i =? zlen (pre ++ gs) - 1)
      then drop (S i) gens1 else drop i gens1) = compact_generations r gs /\
     ((zlen (revs g1) =? 1) && negb (Z.of_nat i =? zlen (pre ++ gs) - 1) = true ->
      revs g1 <> [])).
Proof.
  revert pre. induction gs as [|g rest IH]; intros pre Hne Hok; [contradiction|].
  destruct rest as [|g' rest'].
  - exists (length pre), g. simpl. split; [reflexivity|].
    split; [rewrite lookup_app_r, Nat.sub_diag by lia; reflexivity|].
    assert (Hlast : (Z.of_nat (length pre) =? zlen (pre ++ [g]) - 1) = true).
    { apply Z.eqb_eq. unfold zlen. rewrite length_app. simpl. lia. }
    rewrite Hlast, andb_false_r. split; [|discriminate].
    rewrite insert_app_r_alt, Nat.sub_diag by lia. simpl.
    rewrite drop_app_length. reflexivity.
  - destruct Hok as [Hlen Hok].
    destruct (last (revs g)) as [tomb|] eqn:Hlast.
    2:{ destruct (revs g) using rev_ind; [simpl in Hlen; lia|].
        rewrite last_snoc in Hlast. discriminate. }
    change (doCompact_loop r (g :: g' :: rest') (zlen pre)) with
      (match last (revs g) with
       | None => Panic
       | Some tomb =>
           if main tomb >? r then Ret (zlen pre, g)
           else doCompact_loop r (g' :: rest') (zlen pre + 1)
       end).
    change (compact_generations r (g :: g' :: rest')) with
      (match last (revs g) with
       | None => []
       | Some tomb =>
           if main tomb >? r then
             if zlen (revs (trim r g)) =? 1 then g' :: rest' else trim r g :: g' :: rest'
           else compact_generations r (g' :: rest')
       end).
    rewrite Hlast.
    destruct (Z.gtb_spec (main tomb) r) as [Hgt|Hle].
    + exists (length pre), g. split; [reflexivity|].
      split; [rewrite lookup_app_r, Nat.sub_diag by lia; reflexivity|].
      assert (Hnl : (Z.of_nat (length pre) =? zlen (pre ++ g :: g' :: rest') - 1) = false).
      { apply Z.eqb_neq. unfold zlen. rewrite length_app. simpl. lia. }
      cbv zeta. rewrite Hnl, andb_true_r.
      rewrite insert_app_r_alt, Nat.sub_diag by lia. simpl.
      destruct (Z.eqb_spec (zlen (revs (trim r g))) 1) as [H1|H1].
      * split.
        -- change (pre ++ trim r g :: g' :: rest') with (pre ++ [trim r g] ++ g' :: rest').
           rewrite app_assoc.
           replace (S (length pre)) with (length (pre ++ [trim r g]))
             by (rewrite length_app; simpl; lia).
           apply drop_app_length.
        -- intros _ Hnil. rewrite Hnil in H1. discriminate H1.
      * split; [apply drop_app_length|discriminate].
    + destruct (IH (pre ++ [g])) as (i & gi & Hrun & Hlook & Hcut); [discriminate|exact Hok|].
      replace (zlen (pre ++ [g])) with (zlen pre + 1) in Hrun
        by (unfold zlen; rewrite length_app; simpl; lia).
      rewrite <- app_assoc in Hlook, Hcut. simpl in Hlook, Hcut.
      exists i, gi. split; [exact Hrun|]. split; [exact Hlook|exact Hcut].
Qed.

(** [compact] on a key index that is not empty and whose closed
    generations hold two revisions: it returns, and keeps
    [compact_generations]. *)
Lemma keyIndex_compact_generations (ki : keyIndex) (r : Z) (av : gset revision) :
  generations ki <> [] -> closed_generations_ok (generations ki) ->
  keyIndex_isEmpty ki = false ->
  exists av',
    keyIndex_compact ki r av =
      Ret (mkKeyIndex (key ki) (modified ki) (compact_generations r (generations ki)), av').
Proof.
  intros Hne Hok Hemp.
  destruct (doCompact_loop_cut r (generations ki) [] Hne Hok)
    as (i & g & Hrun & Hlook & Hcut & Hnonnil).
  simpl in Hrun, Hlook, Hcut, Hnonnil.
  unfold keyIndex_compact. rewrite Hemp.
  unfold keyIndex_doCompact. change (zlen []) with 0 in Hrun. rewrite Hrun.
  simpl obind. cbv iota beta. rewrite Nat2Z.id, Hlook.
  fold (keep_from r). fold (walk_to r (revs g)).
  unfold generation_walk. fold (walk_to r (revs g)).
  destruct (generation_isEmpty g) eqn:Hge; simpl negb; cbv iota.
  - (* an empty generation: it is the last one, and trim leaves it *)
    assert (Hrevs : revs g = []).
    { unfold generation_isEmpty in Hge. destruct (revs g); [reflexivity|discriminate]. }
    assert (Htrim : trim r g = g).
    { unfold trim. rewrite Hrevs. reflexivity. }
    rewrite Htrim, Hrevs in Hcut. change (zlen [] =? 1) with false in Hcut.
    simpl in Hcut. rewrite list_insert_id in Hcut by exact Hlook.
    eexists. rewrite Hcut. reflexivity.
  - fold (trim r g).
    destruct ((zlen (revs (trim r g)) =? 1)
              && negb (Z.of_nat i =? zlen (generations ki) - 1)) eqn:Hdrop.
    + specialize (Hnonnil eq_refl).
      destruct (revs (trim r g)) as [|r0 rs] eqn:Hr0; [contradiction|].
      replace (Z.to_nat (Z.of_nat i + 1)) with (S i) by lia.
      eexists. rewrite Hcut. reflexivity.
    + eexists. rewrite Hcut. reflexivity.
Qed.

End Compact.

(** C7 (as stated), first half: running [compact(r)] again after
    [compact(r)] leaves the key index as the first run left it. *)
Definition compact_twice_is_compact_once (ki : Mvcc.keyIndex) (r : Z) : Prop :=
  forall av ki1 av1,
    Mvcc.keyIndex_compact ki r av = Ret (ki1, av1) ->
    exists av2, Mvcc.keyIndex_compact ki1 r av1 = Ret (ki1, av2).

(** The key index after put(1.0); tombstone(2.0): {1.0, 2.0(t)}, {empty}. *)
Definition tombstoned_key : Mvcc.keyIndex :=
  Mvcc.mkKeyIndex [] (Mvcc.mkRevision 2 0)
    [ Mvcc.mkGeneration 2 (Mvcc.mkRevision 1 0) [Mvcc.mkRevision 1 0; Mvcc.mkRevision 2 0];
      Mvcc.zero_generation ].

(** C7, counterexample: [compact(2)] leaves {empty} alone, the index that
    "should be removed"; a second [compact(2)] panics on it. *)
Lemma compact_twice_panics_on_emptied_index :
  Mvcc.keyIndex_isEmpty tombstoned_key = false /\
  ~ compact_twice_is_compact_once tombstoned_key 2.
Proof.
  split; [reflexivity|]. intros H.
  destruct (H ∅ (Mvcc.mkKeyIndex [] (Mvcc.mkRevision 2 0) [Mvcc.zero_generation]) ∅ eq_refl)
    as (av2 & Hrun).
  discriminate Hrun.
Qed.

(** C7 (amended): for a key index that is not empty and whose closed
    generations each hold at least two revisions, [compact(r1)] returns;
    if it leaves the index empty, any further [compact] panics; if not,
    running [compact(r1)] again leaves the index as it is, and for every
    r2 >= r1 running [compact(r2)] next leaves the index that [compact(r2)]
    alone leaves. *)
Theorem keyIndex_compact_idempotent (ki : Mvcc.keyIndex) (r1 r2 : Z) (av : gset Mvcc.revision) :
  Mvcc.generations ki <> [] ->
  closed_generations_ok (Mvcc.generations ki) ->
  Mvcc.keyIndex_isEmpty ki = false ->
  r1 <= r2 ->
  exists ki1 av1,
    Mvcc.keyIndex_compact ki r1 av = Ret (ki1, av1) /\
    (Mvcc.keyIndex_isEmpty ki1 = true ->
     forall av', Mvcc.keyIndex_compact ki1 r2 av' = Panic) /\
    (Mvcc.keyIndex_isEmpty ki1 = false ->
     (forall av', exists a, Mvcc.keyIndex_compact ki1 r1 av' = Ret (ki1, a)) /\
     (forall av' av'', exists ki2 a a',
         Mvcc.keyIndex_compact ki1 r2 av' = Ret (ki2, a) /\
         Mvcc.keyIndex_compact ki r2 av'' = Ret (ki2, a'))).
Proof.
  intros Hne Hok Hemp Hr.
  destruct (keyIndex_compact_generations ki r1 av Hne Hok Hemp) as (av1 & Hrun1).
  set (ki1 := Mvcc.mkKeyIndex (Mvcc.key ki) (Mvcc.modified ki)
                (compact_generations r1 (Mvcc.generations ki))) in *.
  exists ki1, av1. split; [exact Hrun1|].
  assert (Hne1 : Mvcc.generations ki1 <> []).
  { apply compact_generations_nonempty; assumption. }
  assert (Hok1 : closed_generations_ok (Mvcc.generations ki1)).
  { apply compact_generations_closed; assumption. }
  split.
  - intros He av'. unfold Mvcc.keyIndex_compact. rewrite He. reflexivity.
  - intros He. split.
    + intros av'.
      destruct (keyIndex_compact_generations ki1 r1 av' Hne1 Hok1 He) as (a & Hrun).
      exists a. rewrite Hrun. unfold ki1 at 3. simpl.
      rewrite compact_generations_seq by (lia || assumption). reflexivity.
    + intros av' av''.
      destruct (keyIndex_compact_generations ki1 r2 av' Hne1 Hok1 He) as (a & Hrun).
      destruct (keyIndex_compact_generations ki r2 av'' Hne Hok Hemp) as (a' & Hrun').
      eexists. exists a, a'. split; [exact Hrun|]. rewrite Hrun'.
      unfold ki1. simpl. rewrite compact_generations_seq by assumption. reflexivity.
Qed.

(** Why closed generations need two revisions: a closed generation of one
    revision is dropped by [compact] whatever its revision, so every run
    removes one more.  No sequence of [put] and [tombstone] builds such an
    index. *)
Example compact_drops_single_revision_generations :
  let ki := Mvcc.mkKeyIndex [] (Mvcc.mkRevision 6 0)
              [ Mvcc.mkGeneration 1 (Mvcc.mkRevision 5 0) [Mvcc.mkRevision 5 0];
                Mvcc.mkGeneration 1 (Mvcc.mkRevision 6 0) [Mvcc.mkRevision 6 0];
                Mvcc.zero_generation ] in
  exists ki1 av1 ki2 av2,
    Mvcc.keyIndex_compact ki 1 ∅ = Ret (ki1, av1) /\
    Mvcc.keyIndex_compact ki1 1 ∅ = Ret (ki2, av2) /\
    length (Mvcc.generations ki1) = 2%nat /\ length (Mvcc.generations ki2) = 1%nat.
Proof. do 4 eexists. split; [reflexivity|]. split; [reflexivity|]. split; reflexivity. Qed.

(** The key index of the comment in key_index.go: put(1.0); put(2.0);
    tombstone(3.0); put(4.0); tombstone(5.0). *)
Definition commented_key : Mvcc.keyIndex :=
  Mvcc.mkKeyIndex [] (Mvcc.mkRevision 5 0)
    [ Mvcc.mkGeneration 3 (Mvcc.mkRevision 1 0)
        [Mvcc.mkRevision 1 0; Mvcc.mkRevision 2 0; Mvcc.mkRevision 3 0];
      Mvcc.mkGeneration 2 (Mvcc.mkRevision 4 0) [Mvcc.mkRevision 4 0; Mvcc.mkRevision 5 0];
      Mvcc.zero_generation ].

Lemma keyIndex_compact_idempotent_witness :
  exists ki1 av1,
    Mvcc.keyIndex_compact commented_key 2 ∅ = Ret (ki1, av1) /\
    (exists a, Mvcc.keyIndex_compact ki1 2 ∅ = Ret (ki1, a)) /\
    (exists ki2 a a',
        Mvcc.keyIndex_compact ki1 4 ∅ = Ret (ki2, a) /\
        Mvcc.keyIndex_compact commented_key 4 ∅ = Ret (ki2, a')).
Proof.
  destruct (keyIndex_compact_idempotent commented_key 2 4 ∅)
    as (ki1 & av1 & Hrun & _ & Hok).
  - discriminate.
  - simpl. repeat split; lia.
  - reflexivity.
  - lia.
  - exists ki1, av1. split; [exact Hrun|].
    assert (He : Mvcc.keyIndex_isEmpty ki1 = false).
    { vm_compute in Hrun. injection Hrun as <- _. reflexivity. }
    destruct (Hok He) as [Hsame Hseq]. split; [apply Hsame|apply Hseq].
Defined.

(** [put] and [tombstone] keep every closed generation at two revisions or
    more, starting from the fresh index of a key. *)
Section ClosedGenerations.
Import Mvcc.

Lemma closed_generations_ok_insert_last (gs : list generation) (g : generation) :
  closed_generations_ok gs ->
  closed_generations_ok (<[(length gs - 1)%nat := g]> gs).
Proof.
  induction gs as [|x rest IH]; intros Hok; [exact I|].
  destruct rest as [|y rest']; [exact I|].
  destruct Hok as [Hlen Hok].
  replace (length (x :: y :: rest') - 1)%nat with (S (length (y :: rest') - 1))
    by (simpl; lia).
  change (<[S (length (y :: rest') - 1) := g]> (x :: y :: rest'))
    with (x :: <[(length (y :: rest') - 1)%nat := g]> (y :: rest')).
  specialize (IH Hok).
  destruct (<[(length (y :: rest') - 1)%nat := g]> (y :: rest')) as [|z zs] eqn:Hins.
  - apply (f_equal length) in Hins. rewrite length_insert in Hins. discriminate.
  - split; assumption.
Qed.

Lemma closed_generations_ok_snoc (gs : list generation) (g : generation) :
  closed_generations_ok gs ->
  (forall x, last gs = Some x -> (2 <= length (revs x))%nat) ->
  closed_generations_ok (gs ++ [g]).
Proof.
  induction gs as [|x rest IH]; intros Hok Hlast; [exact I|].
  destruct rest as [|y rest'].
  - simpl. split; [apply Hlast; reflexivity|exact I].
  - destruct Hok as [Hlen Hok]. simpl. split; [exact Hlen|].
    apply IH; [exact Hok|]. intros z Hz. apply Hlast. exact Hz.
Qed.

Lemma keyIndex_put_closed (ki ki' : keyIndex) (m s : Z) :
  closed_generations_ok (generations ki) ->
  keyIndex_put ki m s = Ret ki' ->
  closed_generations_ok (generations ki') /\
  exists g, last (generations ki') = Some g /\ revs g <> [] /\
    forall g0, last (generations ki) = Some g0 -> (length (revs g0) < length (revs g))%nat.
Proof.
  intros Hok Hput. unfold keyIndex_put in Hput.
  destruct (negb _); [discriminate|].
  set (gens := if zlen (generations ki) =? 0
               then generations ki ++ [zero_generation] else generations ki) in *.
  assert (Hgens : closed_generations_ok gens /\ gens <> [] /\
                  forall g0, last (generations ki) = Some g0 -> last gens = Some g0).
  { unfold gens. destruct (Z.eqb_spec (zlen (generations ki)) 0) as [Hz|Hnz].
    - destruct (generations ki); [|unfold zlen in Hz; simpl in Hz; lia].
      simpl. split; [exact I|]. split; [discriminate|]. intros g0 H0. discriminate.
    - split; [exact Hok|]. split; [|auto].
      intros Hnil. rewrite Hnil in Hnz. apply Hnz. reflexivity. }
  destruct Hgens as (Hokg & Hneg & Hlastg).
  destruct (gens !! (length gens - 1)%nat) as [g|] eqn:Hlook; [|discriminate].
  injection Hput as <-. simpl.
  split; [apply closed_generations_ok_insert_last; exact Hokg|].
  eexists. split.
  { rewrite last_lookup. rewrite length_insert.
    replace (Init.Nat.pred (length gens)) with (length gens - 1)%nat by lia.
    apply list_lookup_insert_eq. destruct gens; [contradiction|simpl; lia]. }
  simpl. split.
  { destruct (revs (if zlen (revs g) =? 0 then _ else g)); discriminate. }
  intros g0 H0. apply Hlastg in H0. rewrite last_lookup in H0.
  replace (Init.Nat.pred (length gens)) with (length gens - 1)%nat in H0 by lia.
  rewrite Hlook in H0. injection H0 as <-.
  rewrite length_app. simpl. destruct (zlen (revs g) =? 0); simpl; lia.
Qed.

Lemma keyIndex_tombstone_closed (ki ki' : keyIndex) (m s : Z) :
  closed_generations_ok (generations ki) ->
  keyIndex_tombstone ki m s = Ret (ki', None) ->
  closed_generations_ok (generations ki').
Proof.
  intros Hok Htomb. unfold keyIndex_tombstone in Htomb.
  destruct (keyIndex_isEmpty ki); [discriminate|].
  destruct (generations ki !! (length (generations ki) - 1)%nat) as [g|] eqn:Hlook;
    [|discriminate].
  destruct (generation_isEmpty g) eqn:Hg; [discriminate|].
  destruct (keyIndex_put ki m s) as [ki1|] eqn:Hput; [|discriminate].
  simpl in Htomb. injection Htomb as <-. simpl.
  destruct (keyIndex_put_closed ki ki1 m s Hok Hput) as (Hok1 & g1 & Hlast1 & _ & Hgrow).
  apply closed_generations_ok_snoc; [exact Hok1|].
  intros x Hx. rewrite Hlast1 in Hx. injection Hx as <-.
  assert (Hl : last (generations ki) = Some g).
  { rewrite last_lookup.
    replace (Init.Nat.pred (length (generations ki)))
      with (length (generations ki) - 1)%nat by lia. exact Hlook. }
  specialize (Hgrow g Hl).
  unfold generation_isEmpty in Hg. destruct (revs g); [discriminate|]. simpl in Hgrow. lia.
Qed.

End ClosedGenerations.

(** ** The bucket buffer *)

(** The invariant of a bucket buffer: [used] is a valid index of [buf], and
    [buf] has at least two slots (so that growing by half enlarges it). *)
Definition buffer_ok (bb : Backend.bucketBuffer) : Prop :=
  0 <= Backend.used bb < zlen (Backend.buf bb) /\ 2 <= zlen (Backend.buf bb).

Section BucketBuffer.
Import Backend.

Lemma get_kv_in_range (b : list kv) (i : Z) :
  0 <= i < zlen b -> exists e, get_kv b i = Ret e.
Proof.
  intros Hi. unfold get_kv.
  destruct (Z.leb_spec 0 i); [|lia]. destruct (Z.ltb_spec i (zlen b)); [|lia]. simpl.
  destruct (lookup_lt_is_Some_2 b (Z.to_nat i)) as [e He]; [unfold zlen in Hi; lia|].
  rewrite He. eauto.
Qed.

Lemma set_kv_in_range (b : list kv) (i : Z) (x : kv) :
  0 <= i < zlen b -> set_kv b i x = Ret (<[Z.to_nat i := x]> b).
Proof.
  intros Hi. unfold set_kv.
  destruct (Z.leb_spec 0 i); [|lia]. destruct (Z.ltb_spec i (zlen b)); [|lia]. reflexivity.
Qed.

Lemma zlen_insert (b : list kv) (i : nat) (x : kv) : zlen (<[i := x]> b) = zlen b.
Proof. unfold zlen. rewrite length_insert. reflexivity. Qed.

Lemma indices_nil (lo hi : Z) : hi <= lo -> indices lo hi = [].
Proof. intros H. unfold indices. replace (Z.to_nat (hi - lo)) with 0%nat by lia. reflexivity. Qed.

Lemma indices_cons (lo hi : Z) : lo < hi -> indices lo hi = lo :: indices (lo + 1) hi.
Proof.
  intros H. unfold indices.
  replace (Z.to_nat (hi - lo)) with (S (Z.to_nat (hi - (lo + 1)))) by lia. reflexivity.
Qed.

Lemma indices_bounds (lo hi : Z) : Forall (fun i => lo <= i < hi) (indices lo hi).
Proof.
  unfold indices. remember (Z.to_nat (hi - lo)) as n eqn:Hn.
  revert lo Hn. induction n as [|n IH]; intros lo Hn; [constructor|].
  simpl. constructor; [lia|].
  eapply Forall_impl; [apply IH; lia|]. simpl. intros i Hi. lia.
Qed.

(** A counting loop whose body keeps an invariant returns, and the
    invariant holds at the end. *)
Lemma for_each_invariant {S : Type} (P : S -> Z -> Prop) (body : S -> Z -> outcome S)
    (lo hi : Z) (s : S) :
  lo <= hi -> P s lo ->
  (forall s i, lo <= i < hi -> P s i -> exists s', body s i = Ret s' /\ P s' (i + 1)) ->
  exists s', for_each (indices lo hi) body s = Ret s' /\ P s' hi.
Proof.
  intros Hle Hs Hbody.
  remember (Z.to_nat (hi - lo)) as n eqn:Hn.
  revert lo s Hle Hs Hbody Hn. induction n as [|n IH]; intros lo s Hle Hs Hbody Hn.
  - assert (hi = lo) as -> by lia. rewrite indices_nil by lia. simpl. eauto.
  - rewrite indices_cons by lia. simpl.
    destruct (Hbody s lo) as (s1 & Hrun & Hs1); [lia|exact Hs|].
    rewrite Hrun. simpl obind.
    apply IH; [lia|exact Hs1| |lia].
    intros s2 i Hi Hs2. apply Hbody; [lia|exact Hs2].
Qed.

(** [add] on a buffer that satisfies the invariant returns and keeps it. *)
Lemma bucketBuffer_add_ok (bb : bucketBuffer) (k v : list byte) :
  buffer_ok bb -> zlen (buf bb) < 2^61 ->
  exists bb', bucketBuffer_add bb k v = Ret bb' /\ buffer_ok bb' /\
    used bb' = used bb + 1 /\
    zlen (buf bb) <= zlen (buf bb') /\
    2 * zlen (buf bb') <= Z.max (2 * zlen (buf bb)) (3 * used bb').
Proof.
  intros [Hu Hl] Hb. unfold bucketBuffer_add.
  rewrite set_kv_in_range by exact Hu. simpl obind.
  rewrite zlen_insert. rewrite i64_small by lia.
  destruct (Z.eqb_spec (used bb + 1) (zlen (buf bb))) as [Heq|Hne].
  - rewrite i64_small by lia.
    rewrite Z.quot_div_nonneg by lia.
    assert (Hn : zlen (buf bb) + 1 <= 3 * zlen (buf bb) / 2).
    { apply Z.div_le_lower_bound; lia. }
    assert (Hn2 : 2 * (3 * zlen (buf bb) / 2) <= 3 * zlen (buf bb)).
    { apply Z.mul_div_le. lia. }
    unfold make_kvs. destruct (Z.ltb_spec (3 * zlen (buf bb) / 2) 0); [lia|].
    simpl obind. eexists. split; [reflexivity|].
    assert (Hlen : zlen (copy_kvs (replicate (Z.to_nat (3 * zlen (buf bb) / 2)) zero_kv)
                           (<[Z.to_nat (used bb) := mkKv k v]> (buf bb)))
                   = 3 * zlen (buf bb) / 2).
    { unfold copy_kvs, zlen in *.
      rewrite length_app, length_take, length_drop, !length_replicate, length_insert. lia. }
    unfold buffer_ok. simpl. rewrite Hlen. lia.
  - eexists. split; [reflexivity|]. unfold buffer_ok. simpl. rewrite zlen_insert. lia.
Qed.

(** Binary search returns an index between 0 and [n] when [f] can be
    evaluated below [n]. *)
Lemma search_loop_ok (fuel : nat) (f : Z -> outcome bool) (i j n : Z) :
  0 <= i <= j -> j <= n -> n < 2^62 -> j - i <= Z.of_nat fuel ->
  (forall h, 0 <= h < n -> exists b, f h = Ret b) ->
  exists idx, search_loop fuel f i j = Ret idx /\ i <= idx <= j.
Proof.
  revert i j. induction fuel as [|fuel IH]; intros i j Hij Hjn Hn Hfuel Hf.
  - simpl. destruct (Z.ltb_spec i j); [lia|]. exists i. split; [reflexivity|lia].
  - simpl. destruct (Z.ltb_spec i j) as [Hlt|Hge]; [|exists i; split; [reflexivity|lia]].
    rewrite u64_small by (unfold is_u64; lia).
    rewrite Z.shiftr_div_pow2 by lia. change (2 ^ 1) with 2.
    assert (Hh : i <= (i + j) / 2 < j).
    { split; [apply Z.div_le_lower_bound; lia|apply Z.div_lt_upper_bound; lia]. }
    rewrite i64_small by lia.
    destruct (Hf ((i + j) / 2)) as [b Hb]; [lia|]. rewrite Hb. simpl obind.
    destruct b; simpl negb; cbv iota.
    + destruct (IH i ((i + j) / 2)) as (idx & Hrun & Hidx); [lia|lia|lia|lia|exact Hf|].
      exists idx. split; [exact Hrun|lia].
    + destruct (IH ((i + j) / 2 + 1) j) as (idx & Hrun & Hidx); [lia|lia|lia|lia|exact Hf|].
      exists idx. split; [exact Hrun|lia].
Qed.

Lemma sort_Search_ok (n : Z) (f : Z -> outcome bool) :
  0 <= n < 2^62 ->
  (forall h, 0 <= h < n -> exists b, f h = Ret b) ->
  exists idx, sort_Search n f = Ret idx /\ 0 <= idx <= n.
Proof.
  intros Hn Hf. unfold sort_Search.
  apply (search_loop_ok (Z.to_nat n) f 0 n n); try lia. exact Hf.
Qed.

Lemma range_loop_ok (b : list kv) (endKey : list byte) (limit : Z) (idxs : list Z)
    (keys vals : list (list byte)) :
  Forall (fun i => 0 <= i < zlen b) idxs ->
  exists r, range_loop b endKey limit idxs keys vals = Ret r.
Proof.
  revert keys vals. induction idxs as [|i rest IH]; intros keys vals Hall.
  - simpl. eauto.
  - inversion Hall as [|? ? Hi Hrest]; subst. simpl.
    destruct (zlen keys <? limit); [|eauto].
    destruct (get_kv_in_range b i Hi) as [e He]. rewrite He. simpl obind.
    destruct (bytes_Compare endKey (key e) <=? 0); [eauto|]. apply IH. exact Hrest.
Qed.

Lemma foreach_loop_ok {E : Type} (b : list kv) (visitor : list byte -> list byte -> option E)
    (idxs : list Z) :
  Forall (fun i => 0 <= i < zlen b) idxs ->
  exists r, foreach_loop b visitor idxs = Ret r.
Proof.
  induction idxs as [|i rest IH]; intros Hall.
  - simpl. eauto.
  - inversion Hall as [|? ? Hi Hrest]; subst. simpl.
    destruct (get_kv_in_range b i Hi) as [e He]. rewrite He. simpl obind.
    destruct (visitor (key e) (val e)); [eauto|]. apply IH. exact Hrest.
Qed.

(** Every index that [Range] reads is inside [buf]: the binary search
    returns an index of at most [used], which the invariant keeps below
    [len(buf)]. *)
Lemma bucketBuffer_Range_ok (bb : bucketBuffer) (key_ endKey : list byte) (limit : Z) :
  buffer_ok bb -> zlen (buf bb) < 2^62 ->
  (exists r, bucketBuffer_Range bb key_ endKey limit = Ret r) /\
  (exists idx e,
      sort_Search (used bb)
        (fun i => let* e := get_kv (buf bb) i in
                  Ret (bytes_Compare (key e) key_ >=? 0)) = Ret idx /\
      0 <= idx <= used bb /\ get_kv (buf bb) idx = Ret e).
Proof.
  intros [Hu Hl] Hb.
  destruct (sort_Search_ok (used bb)
              (fun i => let* e := get_kv (buf bb) i in
                        Ret (bytes_Compare (key e) key_ >=? 0)))
    as (idx & Hs & Hidx); [lia| |].
  { intros h Hh. destruct (get_kv_in_range (buf bb) h) as [e He]; [lia|].
    rewrite He. simpl. eauto. }
  destruct (get_kv_in_range (buf bb) idx) as [e He]; [lia|].
  split; [|exists idx, e; auto].
  unfold bucketBuffer_Range. rewrite Hs. simpl obind.
  destruct (Z.ltb_spec idx 0); [lia|]. rewrite He. simpl obind.
  destruct (zlen endKey =? 0).
  - destruct (bytes_Equal key_ (key e)); eauto.
  - destruct (bytes_Compare endKey (key e) <=? 0); [eauto|].
    apply range_loop_ok.
    eapply Forall_impl; [apply indices_bounds|]. simpl. intros i Hi. lia.
Qed.

Lemma bucketBuffer_ForEach_ok {E : Type} (bb : bucketBuffer)
    (visitor : list byte -> list byte -> option E) :
  buffer_ok bb -> exists r, bucketBuffer_ForEach bb visitor = Ret r.
Proof.
  intros [Hu Hl]. unfold bucketBuffer_ForEach. apply foreach_loop_ok.
  eapply Forall_impl; [apply indices_bounds|]. simpl. intros i Hi. lia.
Qed.

End BucketBuffer.

Section BucketBufferMerge.
Import Backend.

Lemma insert_stable_length (x : kv) (l : list kv) :
  length (insert_stable x l) = S (length l).
Proof.
  induction l as [|y rest IH]; [reflexivity|]. simpl.
  destruct (kv_Less y x); simpl; [rewrite IH|]; reflexivity.
Qed.

Lemma stable_sort_length (l : list kv) : length (stable_sort l) = length l.
Proof.
  induction l as [|x rest IH]; [reflexivity|].
  change (stable_sort (x :: rest)) with (insert_stable x (stable_sort rest)).
  rewrite insert_stable_length, IH. reflexivity.
Qed.

Lemma sort_Stable_ok (bb : bucketBuffer) :
  buffer_ok bb ->
  exists bb2, sort_Stable bb = Ret bb2 /\ used bb2 = used bb /\
              zlen (buf bb2) = zlen (buf bb).
Proof.
  intros [Hu Hl]. unfold sort_Stable, bucketBuffer_Len.
  destruct (Z.leb_spec (used bb) 1); [eauto|].
  destruct (Z.leb_spec (used bb) (zlen (buf bb))); [|lia].
  eexists. split; [reflexivity|]. simpl. split; [reflexivity|].
  unfold zlen in *. rewrite length_app, stable_sort_length, length_take, length_drop. lia.
Qed.

(** [merge] returns and keeps the invariant: the adds stay inside [buf],
    and so do the two reads before the sort and the reads and writes of
    the deduplication. *)
Lemma bucketBuffer_merge_ok (bb bbsrc : bucketBuffer) :
  buffer_ok bb -> buffer_ok bbsrc ->
  zlen (buf bb) + used bbsrc < 2^59 ->
  exists bb', bucketBuffer_merge bb bbsrc = Ret bb' /\ buffer_ok bb' /\
              zlen (buf bb) <= zlen (buf bb').
Proof.
  intros Hbb Hsrc Hbound. unfold bucketBuffer_merge.
  pose proof Hbb as [Hu Hl]. pose proof Hsrc as [Hsu Hsl].
  destruct (for_each_invariant
              (fun b i => buffer_ok b /\ used b = used bb + i /\
                          zlen (buf bb) <= zlen (buf b) /\
                          2 * zlen (buf b) <= Z.max (2 * zlen (buf bb)) (3 * used b))
              (fun b i => let* e := get_kv (buf bbsrc) i in
                          bucketBuffer_add b (key e) (val e))
              0 (used bbsrc) bb) as (bb1 & Hrun1 & Hok1 & Hused1 & Hgrow1 & Hlen1).
  { lia. }
  { split; [exact Hbb|]. lia. }
  { intros b i Hi (Hb & Hbu & Hbg & Hbl).
    destruct (get_kv_in_range (buf bbsrc) i) as [e He]; [lia|].
    rewrite He. simpl obind.
    destruct (bucketBuffer_add_ok b (key e) (val e) Hb) as (b' & Hadd & Hb' & Hu' & Hg' & Hl').
    { destruct Hb as [Hbu' _]. lia. }
    exists b'. split; [exact Hadd|]. split; [exact Hb'|]. lia. }
  rewrite Hrun1. simpl obind.
  destruct (Z.eqb_spec (used bb1) (used bbsrc)) as [Heq|Hne].
  { exists bb1. auto. }
  rewrite (i64_small (used bb1 - used bbsrc)) by lia.
  rewrite (i64_small (used bb1 - used bbsrc - 1)) by lia.
  pose proof Hok1 as [Hu1 Hl1].
  destruct (get_kv_in_range (buf bb1) (used bb1 - used bbsrc - 1)) as [a Ha]; [lia|].
  destruct (get_kv_in_range (buf bbsrc) 0) as [b Hb]; [lia|].
  rewrite Ha, Hb. simpl obind.
  destruct (bytes_Compare (key a) (key b) <? 0).
  { exists bb1. auto. }
  destruct (sort_Stable_ok bb1 Hok1) as (bb2 & Hsort & Hused2 & Hlen2).
  rewrite Hsort. simpl obind.
  destruct (for_each_invariant
              (fun (st : list kv * Z) ridx =>
                 zlen (fst st) = zlen (buf bb2) /\ 0 <= snd st < ridx)
              (fun (st : list kv * Z) ridx =>
                 let '(b, widx) := st in
                 let* er := get_kv b ridx in
                 let* ew := get_kv b widx in
                 let widx' := if negb (bytes_Equal (key er) (key ew))
                              then i64 (widx + 1) else widx in
                 let* b' := set_kv b widx' er in
                 Ret (b', widx'))
              1 (used bb2) (buf bb2, 0)) as ([b3 widx] & Hrun2 & Hlen3 & Hw).
  { lia. }
  { simpl. lia. }
  { intros [b0 w] ridx Hri [Hl0 Hw0]. simpl in Hl0, Hw0.
    destruct (get_kv_in_range b0 ridx) as [er Her]; [lia|].
    destruct (get_kv_in_range b0 w) as [ew Hew]; [lia|].
    rewrite Her, Hew. simpl obind. rewrite (i64_small (w + 1)) by lia.
    destruct (negb (bytes_Equal (key er) (key ew))).
    - rewrite set_kv_in_range by lia. simpl obind.
      eexists. split; [reflexivity|]. simpl. rewrite zlen_insert. lia.
    - rewrite set_kv_in_range by lia. simpl obind.
      eexists. split; [reflexivity|]. simpl. rewrite zlen_insert. lia. }
  match goal with
  | |- context [obind ?m _] =>
      replace m with (Ret (b3, widx) : outcome (list kv * Z)) by (symmetry; exact Hrun2)
  end.
  simpl obind. simpl in Hlen3, Hw.
  rewrite i64_small by lia.
  eexists. split; [reflexivity|]. unfold buffer_ok. simpl. lia.
Qed.

End BucketBufferMerge.

(** The buffers that [newBucketBuffer], [add], [merge] and the reset of
    [used] build, while they stay below 2^59 slots. *)
Inductive reachable : Backend.bucketBuffer -> Prop :=
| reach_new : reachable Backend.newBucketBuffer
| reach_add (bb bb' : Backend.bucketBuffer) (k v : list byte) :
    reachable bb -> zlen (Backend.buf bb) < 2^59 ->
    Backend.bucketBuffer_add bb k v = Ret bb' -> reachable bb'
| reach_merge (bb bbsrc bb' : Backend.bucketBuffer) :
    reachable bb -> reachable bbsrc ->
    zlen (Backend.buf bb) + Backend.used bbsrc < 2^59 ->
    Backend.bucketBuffer_merge bb bbsrc = Ret bb' -> reachable bb'
| reach_reset (bb : Backend.bucketBuffer) :
    reachable bb -> reachable (Backend.bucketBuffer_reset bb).

Lemma newBucketBuffer_len : zlen (Backend.buf Backend.newBucketBuffer) = 512.
Proof. vm_compute. reflexivity. Qed.

Lemma reachable_buffer_ok (bb : Backend.bucketBuffer) : reachable bb -> buffer_ok bb.
Proof.
  induction 1 as [|bb bb' k v Hr IH Hb Hadd|bb bbsrc bb' Hr IH Hrs IHs Hb Hm|bb Hr IH].
  - unfold buffer_ok. rewrite newBucketBuffer_len. simpl. lia.
  - destruct (bucketBuffer_add_ok bb k v IH) as (b & Hrun & Hok & _); [lia|].
    rewrite Hrun in Hadd. injection Hadd as <-. exact Hok.
  - destruct (bucketBuffer_merge_ok bb bbsrc IH IHs Hb) as (b & Hrun & Hok & _).
    rewrite Hrun in Hm. injection Hm as <-. exact Hok.
  - destruct IH as [Hu Hl]. unfold buffer_ok. simpl. lia.
Qed.

(** C9: a bucket buffer built by [newBucketBuffer] and any sequence of [add]
    and [merge] calls satisfies used < len(buf); hence no index access of
    [Range], [ForEach], [add] or [merge] leaves the backing array, whatever
    key, endKey and limit: each of them returns instead of panicking, and
    the index the binary search of [Range] returns, which can be [used]
    itself, is an index of [buf]. *)
Theorem bucketBuffer_accesses_in_bounds (bb : Backend.bucketBuffer) :
  reachable bb ->
  0 <= Backend.used bb < zlen (Backend.buf bb) /\
  (zlen (Backend.buf bb) < 2^59 ->
   (forall key_ endKey limit,
       (exists r, Backend.bucketBuffer_Range bb key_ endKey limit = Ret r) /\
       (exists idx e,
           Backend.sort_Search (Backend.used bb)
             (fun i => let* e := Backend.get_kv (Backend.buf bb) i in
                       Ret (Backend.bytes_Compare (Backend.key e) key_ >=? 0)) = Ret idx /\
           0 <= idx <= Backend.used bb /\
           Backend.get_kv (Backend.buf bb) idx = Ret e)) /\
   (forall (E : Type) (visitor : list byte -> list byte -> option E),
       exists r, Backend.bucketBuffer_ForEach bb visitor = Ret r) /\
   (forall k v,
       exists bb', Backend.bucketBuffer_add bb k v = Ret bb' /\
                   0 <= Backend.used bb' < zlen (Backend.buf bb')) /\
   (forall bbsrc,
       reachable bbsrc -> zlen (Backend.buf bb) + Backend.used bbsrc < 2^59 ->
       exists bb', Backend.bucketBuffer_merge bb bbsrc = Ret bb' /\
                   0 <= Backend.used bb' < zlen (Backend.buf bb'))).
Proof.
  intros Hr. pose proof (reachable_buffer_ok bb Hr) as Hok.
  split; [exact (proj1 Hok)|]. intros Hb.
  split; [|split; [|split]].
  - intros key_ endKey limit. apply bucketBuffer_Range_ok; [exact Hok|lia].
  - intros E visitor. apply bucketBuffer_ForEach_ok. exact Hok.
  - intros k v. destruct (bucketBuffer_add_ok bb k v Hok) as (b & Hrun & Hokb & _); [lia|].
    exists b. split; [exact Hrun|exact (proj1 Hokb)].
  - intros bbsrc Hrs Hbs.
    destruct (bucketBuffer_merge_ok bb bbsrc Hok (reachable_buffer_ok _ Hrs) Hbs)
      as (b & Hrun & Hokb & _).
    exists b. split; [exact Hrun|exact (proj1 Hokb)].
Qed.

(** On the fresh buffer the binary search of [Range] returns 0 = used, and
    [buf[0]] is read. *)
Lemma bucketBuffer_accesses_in_bounds_witness :
  0 <= Backend.used Backend.newBucketBuffer < zlen (Backend.buf Backend.newBucketBuffer) /\
  (exists r, Backend.bucketBuffer_Range Backend.newBucketBuffer [x61%byte] [] 10 = Ret r) /\
  (exists idx e,
      Backend.sort_Search (Backend.used Backend.newBucketBuffer)
        (fun i => let* e := Backend.get_kv (Backend.buf Backend.newBucketBuffer) i in
                  Ret (Backend.bytes_Compare (Backend.key e) [x61%byte] >=? 0)) = Ret idx /\
      0 <= idx <= Backend.used Backend.newBucketBuffer /\
      Backend.get_kv (Backend.buf Backend.newBucketBuffer) idx = Ret e).
Proof.
  destruct (bucketBuffer_accesses_in_bounds Backend.newBucketBuffer reach_new) as [Hu Hrest].
  split; [exact Hu|].
  destruct Hrest as (Hrange & _).
  - rewrite newBucketBuffer_len. lia.
  - exact (Hrange [x61%byte] [] 10).
Defined.

(** * Part III: further properties of the code *)

(** ** MemoryStorage: Append, Compact, CreateSnapshot, ApplySnapshot *)

(** The entries of a storage carry consecutive indices from its dummy entry
    [d] on, inside [uint64]; the length of a slice is an [int]. *)
Definition ms_ok (ms : Raft.MemoryStorage) (d : Raft.Entry) : Prop :=
  Raft.at_ (Raft.ents ms) 0 = Ret d /\
  consecutive (Raft.Index d) (Raft.elems (Raft.ents ms)) /\
  0 <= Raft.Index d /\
  Raft.Index d + Raft.len (Raft.ents ms) < 2^64 /\
  Raft.len (Raft.ents ms) < 2^63.

Lemma consecutive_of_lookup (es : list Raft.Entry) (a : Z) :
  (forall (k : nat) (e : Raft.Entry), es !! k = Some e -> Raft.Index e = a + Z.of_nat k) ->
  consecutive a es.
Proof.
  revert a. induction es as [|x rest IH]; intros a H; [exact I|].
  split.
  - rewrite (H 0%nat x eq_refl). lia.
  - apply IH. intros k e Hk. rewrite (H (S k) e Hk). lia.
Qed.

Lemma consecutive_app (xs ys : list Raft.Entry) (a : Z) :
  consecutive a xs -> consecutive (a + zlen xs) ys -> consecutive a (xs ++ ys).
Proof.
  intros Hx Hy. apply consecutive_of_lookup. intros k e Hk.
  apply lookup_app_Some in Hk. destruct Hk as [Hk|[Hge Hk]].
  - apply (consecutive_lookup _ _ _ _ Hx Hk).
  - rewrite (consecutive_lookup _ _ _ _ Hy Hk). unfold zlen. lia.
Qed.

Lemma consecutive_take (es : list Raft.Entry) (a : Z) (n : nat) :
  consecutive a es -> consecutive a (take n es).
Proof.
  intros H. apply consecutive_of_lookup. intros k e Hk.
  apply lookup_take_Some in Hk. destruct Hk as [Hk _].
  apply (consecutive_lookup _ _ _ _ H Hk).
Qed.

Lemma consecutive_drop (es : list Raft.Entry) (a : Z) (n : nat) :
  consecutive a es -> consecutive (a + Z.of_nat n) (drop n es).
Proof.
  intros H. apply consecutive_of_lookup. intros k e Hk.
  rewrite lookup_drop in Hk.
  rewrite (consecutive_lookup _ _ _ _ H Hk). lia.
Qed.

Section MemoryStorageFacts.
Import Raft.
Context {ext : External}.

Lemma ms_ok_len (ms : MemoryStorage) (d : Entry) : ms_ok ms d -> 1 <= len (ents ms).
Proof. intros (Hd & _). apply at_Ret in Hd. lia. Qed.

Lemma ms_ok_firstIndex (ms : MemoryStorage) (d : Entry) :
  ms_ok ms d -> MemoryStorage_firstIndex ms = Ret (Index d + 1).
Proof.
  intros Hok. pose proof (ms_ok_len _ _ Hok). destruct Hok as (Hd & _ & H0 & Hr & _).
  unfold MemoryStorage_firstIndex. rewrite Hd. simpl.
  rewrite u64_small by (unfold is_u64; lia). reflexivity.
Qed.

Lemma ms_ok_lastIndex (ms : MemoryStorage) (d : Entry) :
  ms_ok ms d -> MemoryStorage_lastIndex ms = Ret (Index d + len (ents ms) - 1).
Proof.
  intros Hok. pose proof (ms_ok_len _ _ Hok). destruct Hok as (Hd & _ & H0 & Hr & _).
  unfold MemoryStorage_lastIndex. rewrite Hd. simpl.
  rewrite u64_small by (unfold is_u64; lia). reflexivity.
Qed.

(** [Term(i)] of an index the storage holds is the term of the entry at
    position i - d.index. *)
Lemma ms_ok_Term (ms : MemoryStorage) (d : Entry) (i : Z) (e : Entry) :
  ms_ok ms d -> Index d <= i ->
  elems (ents ms) !! Z.to_nat (i - Index d) = Some e ->
  MemoryStorage_Term ms i = Ret (Term e, None).
Proof.
  intros (Hd & Hc & H0 & Hr & Hl) Hi He.
  assert (Hlt : i - Index d < len (ents ms)).
  { apply lookup_lt_Some in He. unfold len, zlen. lia. }
  unfold MemoryStorage_Term. rewrite Hd. simpl obind.
  destruct (Z.ltb_spec i (Index d)); [lia|].
  rewrite u64_small by (unfold is_u64; lia).
  rewrite i64_small by lia.
  destruct (Z.geb_spec (i - Index d) (len (ents ms))); [lia|].
  assert (Hat : at_ (ents ms) (i - Index d) = Ret e) by (apply at_Ret; split; [lia|exact He]).
  rewrite Hat. reflexivity.
Qed.

Lemma ms_ok_Term_below (ms : MemoryStorage) (d : Entry) (i : Z) :
  ms_ok ms d -> i < Index d -> MemoryStorage_Term ms i = Ret (0, Some ErrCompacted).
Proof.
  intros (Hd & _) Hi. unfold MemoryStorage_Term. rewrite Hd. simpl obind.
  destruct (Z.ltb_spec i (Index d)); [reflexivity|lia].
Qed.

Lemma ms_ok_Term_above (ms : MemoryStorage) (d : Entry) (i : Z) :
  ms_ok ms d -> Index d + len (ents ms) <= i -> i < 2^64 -> i - Index d < 2^63 ->
  MemoryStorage_Term ms i = Ret (0, Some ErrUnavailable).
Proof.
  intros Hok Hi Hu Hs. pose proof (ms_ok_len _ _ Hok).
  destruct Hok as (Hd & _ & H0 & Hr & Hl).
  unfold MemoryStorage_Term. rewrite Hd. simpl obind.
  destruct (Z.ltb_spec i (Index d)); [lia|].
  rewrite u64_small by (unfold is_u64; lia).
  rewrite i64_small by lia.
  destruct (Z.geb_spec (i - Index d) (len (ents ms))) as [|Hlt]; [reflexivity|lia].
Qed.

End MemoryStorageFacts.

Section MemoryStorageAppend.
Import Raft.
Context {ext : External}.

(** What [Append] stores: the entries below the first new index [a],
    followed by the new entries from [a] on. *)
Lemma MemoryStorage_Append_elems (ms : MemoryStorage) (d e0 : Entry) (entries : slice) :
  ms_ok ms d ->
  at_ entries 0 = Ret e0 ->
  consecutive (Index e0) (elems entries) ->
  0 <= Index e0 <= Index d + len (ents ms) ->
  Index d + 1 <= Index e0 + len entries - 1 ->
  Index e0 + len entries < 2^64 ->
  let a := Z.max (Index e0) (Index d + 1) in
  exists es',
    MemoryStorage_Append ms entries
      = Ret (mkMemoryStorage (hardState ms) (ms_snapshot ms) es', None) /\
    elems es' = take (Z.to_nat (a - Index d)) (elems (ents ms))
                  ++ drop (Z.to_nat (a - Index e0)) (elems entries).
Proof.
  intros Hok He0 Hc Hlo Hlast Hhi a.
  pose proof (ms_ok_len _ _ Hok) as Hlen.
  pose proof (ms_ok_firstIndex _ _ Hok) as Hfi.
  destruct Hok as (Hd & Hcs & H0 & Hr & Hl).
  assert (Hn : 1 <= len entries) by (apply at_Ret in He0; lia).
  unfold MemoryStorage_Append.
  destruct (Z.eqb_spec (len entries) 0); [lia|].
  rewrite Hfi, He0. simpl obind.
  rewrite (u64_small (Index e0 + len entries)) by (unfold is_u64; lia).
  rewrite (u64_small (Index e0 + len entries - 1)) by (unfold is_u64; lia).
  destruct (Z.ltb_spec (Index e0 + len entries - 1) (Index d + 1)); [lia|].
  destruct (Z.gtb_spec (Index d + 1) (Index e0)) as [Hcut|Hnocut].
  - (* the entries start at or below the dummy entry: they are cut *)
    assert (Ha : a = Index d + 1) by lia.
    rewrite (u64_small (Index d + 1 - Index e0)) by (unfold is_u64; lia).
    rewrite slice_from_ok by lia. simpl obind.
    set (k := Z.to_nat (Index d + 1 - Index e0)).
    destruct (lookup_lt_is_Some_2 (elems entries) k) as [e1 He1].
    { unfold len, zlen in *. lia. }
    assert (Hat1 : at_ (mkSlice (drop k (elems entries))
                          (cap entries - (Index d + 1 - Index e0))) 0 = Ret e1).
    { apply at_Ret. unfold len. simpl elems. unfold zlen. rewrite length_drop.
      split; [unfold len, zlen in *; lia|].
      change (Z.to_nat 0) with 0%nat. rewrite lookup_drop, Nat.add_0_r. exact He1. }
    rewrite Hat1, Hd. simpl obind.
    assert (Hi1 : Index e1 = Index d + 1).
    { rewrite (consecutive_lookup _ _ _ _ Hc He1). unfold k. lia. }
    rewrite Hi1. replace (Index d + 1 - Index d) with 1 by lia.
    rewrite (u64_small 1) by (unfold is_u64; lia).
    rewrite Ha. replace (Index d + 1 - Index d) with 1 by lia.
    destruct (Z.gtb_spec (len (ents ms)) 1) as [Hmore|Hone].
    + rewrite slice_range_ok by lia. simpl obind.
      eexists. split; [reflexivity|]. simpl. rewrite drop_0. reflexivity.
    + destruct (Z.eqb_spec (len (ents ms)) 1); [|lia].
      eexists. split; [reflexivity|]. simpl.
      rewrite take_ge by (unfold len, zlen in *; lia). reflexivity.
  - (* the entries start above the dummy entry *)
    assert (Ha : a = Index e0) by lia.
    simpl obind. rewrite He0, Hd. simpl obind.
    rewrite (u64_small (Index e0 - Index d)) by (unfold is_u64; lia).
    rewrite Ha, Z.sub_diag. change (Z.to_nat 0) with 0%nat. rewrite drop_0.
    destruct (Z.gtb_spec (len (ents ms)) (Index e0 - Index d)) as [Hmore|Hend].
    + rewrite slice_range_ok by lia. simpl obind.
      eexists. split; [reflexivity|]. simpl. rewrite drop_0.
      rewrite Z.sub_0_r. reflexivity.
    + destruct (Z.eqb_spec (len (ents ms)) (Index e0 - Index d)); [|lia].
      eexists. split; [reflexivity|]. simpl.
      rewrite take_ge by (unfold len, zlen in *; lia). reflexivity.
Qed.

End MemoryStorageAppend.

(** What [Append] answers, and what the storage it leaves answers. *)
Lemma MemoryStorage_Append_result {ext : Raft.External} (ms : Raft.MemoryStorage)
    (d e0 : Raft.Entry) (entries : Raft.slice) :
  ms_ok ms d ->
  Raft.at_ entries 0 = Ret e0 ->
  consecutive (Raft.Index e0) (Raft.elems entries) ->
  0 <= Raft.Index e0 <= Raft.Index d + Raft.len (Raft.ents ms) ->
  Raft.Index d + 1 <= Raft.Index e0 + Raft.len entries - 1 ->
  Raft.Index e0 + Raft.len entries < 2^64 ->
  Raft.Index e0 + Raft.len entries - Raft.Index d < 2^63 ->
  let a := Z.max (Raft.Index e0) (Raft.Index d + 1) in
  exists ms',
    Raft.MemoryStorage_Append ms entries = Ret (ms', None) /\
    ms_ok ms' d /\
    Raft.MemoryStorage_FirstIndex ms' = Ret (Raft.Index d + 1, None) /\
    Raft.MemoryStorage_LastIndex ms' = Ret (Raft.Index e0 + Raft.len entries - 1, None) /\
    (forall i, Raft.Index d <= i < a ->
               Raft.MemoryStorage_Term ms' i = Raft.MemoryStorage_Term ms i) /\
    (forall e, e ∈ Raft.elems entries -> a <= Raft.Index e ->
               Raft.MemoryStorage_Term ms' (Raft.Index e) = Ret (Raft.Term e, None)) /\
    Raft.hardState ms' = Raft.hardState ms /\
    Raft.ms_snapshot ms' = Raft.ms_snapshot ms /\
    Raft.elems (Raft.ents ms') =
      take (Z.to_nat (a - Raft.Index d)) (Raft.elems (Raft.ents ms))
        ++ drop (Z.to_nat (a - Raft.Index e0)) (Raft.elems entries).
Proof.
  intros Hok He0 Hc Hlo Hlast Hhi Hint a.
  destruct (MemoryStorage_Append_elems ms d e0 entries Hok He0 Hc Hlo Hlast Hhi)
    as (es' & Hrun & Hes). fold a in Hes.
  pose proof (ms_ok_len _ _ Hok) as Hlen.
  assert (Hn : 1 <= Raft.len entries) by (apply at_Ret in He0; lia).
  set (na := Z.to_nat (a - Raft.Index d)) in *.
  set (nb := Z.to_nat (a - Raft.Index e0)) in *.
  assert (Hna : (1 <= na <= length (Raft.elems (Raft.ents ms)))%nat).
  { unfold na, Raft.len, zlen in *. lia. }
  assert (Hnb : (nb < length (Raft.elems entries))%nat).
  { unfold nb, Raft.len, zlen in *. lia. }
  assert (Hlen' : Raft.len es' = Raft.Index e0 + Raft.len entries - Raft.Index d).
  { unfold Raft.len, zlen. rewrite Hes, length_app, length_take, length_drop.
    unfold na, nb, Raft.len, zlen in *. lia. }
  set (ms' := Raft.mkMemoryStorage (Raft.hardState ms) (Raft.ms_snapshot ms) es').
  assert (Hok' : ms_ok ms' d).
  { destruct Hok as (Hd & Hcs & H0 & Hr & Hl).
    unfold ms_ok. simpl Raft.ents. rewrite Hlen'.
    split; [|split; [|lia]].
    - apply at_Ret. split; [lia|]. apply at_Ret in Hd. destruct Hd as [_ Hd].
      rewrite Hes. rewrite lookup_app_l by (rewrite length_take; lia).
      rewrite lookup_take_lt by lia. exact Hd.
    - rewrite Hes. apply consecutive_app; [apply consecutive_take; exact Hcs|].
      unfold zlen. rewrite length_take.
      replace (Raft.Index d + Z.of_nat (na `min` length (Raft.elems (Raft.ents ms))))
        with (Raft.Index e0 + Z.of_nat nb) by (unfold na, nb; lia).
      apply consecutive_drop. exact Hc. }
  exists ms'. split; [exact Hrun|]. split; [exact Hok'|].
  split.
  { unfold Raft.MemoryStorage_FirstIndex. rewrite (ms_ok_firstIndex _ _ Hok'). reflexivity. }
  split.
  { unfold Raft.MemoryStorage_LastIndex. rewrite (ms_ok_lastIndex _ _ Hok').
    simpl Raft.ents. rewrite Hlen'. simpl. do 2 f_equal. lia. }
  split.
  { intros i Hi.
    destruct (lookup_lt_is_Some_2 (Raft.elems (Raft.ents ms)) (Z.to_nat (i - Raft.Index d)))
      as [e He]; [unfold na in Hna; lia|].
    rewrite (ms_ok_Term ms d i e Hok); [|lia|exact He].
    apply (ms_ok_Term ms' d i e Hok'); [lia|].
    simpl. rewrite Hes. rewrite lookup_app_l by (rewrite length_take; unfold na; lia).
    rewrite lookup_take_lt by (unfold na; lia). exact He. }
  split; [|split; [reflexivity|split; [reflexivity|exact Hes]]].
  intros e Hin Ha. apply list_elem_of_lookup in Hin. destruct Hin as [k Hk].
  pose proof (consecutive_lookup _ _ _ _ Hc Hk) as Hik.
  apply (ms_ok_Term ms' d (Raft.Index e) e Hok'); [lia|].
  simpl. rewrite Hes.
  rewrite lookup_app_r by (rewrite length_take; unfold na; lia).
  rewrite length_take, lookup_drop.
  replace (nb + (Z.to_nat (Raft.Index e - Raft.Index d)
                 - na `min` length (Raft.elems (Raft.ents ms))))%nat
    with k by (unfold na, nb; lia).
  exact Hk.
Qed.

(** X1: [Append] of entries with consecutive indices that start at most one
    past the last index and end at or above the first index: the entries
    the storage then holds are exactly its former entries below the first
    new index a (the dummy entry among them), followed by the new entries
    from index a on, each entry as it was given, with its data and type;
    [FirstIndex] is unchanged, [LastIndex] is the last new index, and
    [Term] answers accordingly.  Hard state and snapshot are untouched. *)
Theorem MemoryStorage_Append_stores {ext : Raft.External} (ms : Raft.MemoryStorage)
    (d e0 : Raft.Entry) (entries : Raft.slice) :
  ms_ok ms d ->
  Raft.at_ entries 0 = Ret e0 ->
  consecutive (Raft.Index e0) (Raft.elems entries) ->
  0 <= Raft.Index e0 <= Raft.Index d + Raft.len (Raft.ents ms) ->
  Raft.Index d + 1 <= Raft.Index e0 + Raft.len entries - 1 ->
  Raft.Index e0 + Raft.len entries < 2^64 ->
  Raft.Index e0 + Raft.len entries - Raft.Index d < 2^63 ->
  let a := Z.max (Raft.Index e0) (Raft.Index d + 1) in
  exists ms',
    Raft.MemoryStorage_Append ms entries = Ret (ms', None) /\
    ms_ok ms' d /\
    Raft.MemoryStorage_FirstIndex ms' = Ret (Raft.Index d + 1, None) /\
    Raft.MemoryStorage_LastIndex ms' = Ret (Raft.Index e0 + Raft.len entries - 1, None) /\
    (forall i, Raft.Index d <= i < a ->
               Raft.MemoryStorage_Term ms' i = Raft.MemoryStorage_Term ms i) /\
    (forall e, e ∈ Raft.elems entries -> a <= Raft.Index e ->
               Raft.MemoryStorage_Term ms' (Raft.Index e) = Ret (Raft.Term e, None)) /\
    Raft.hardState ms' = Raft.hardState ms /\
    Raft.ms_snapshot ms' = Raft.ms_snapshot ms /\
    Raft.elems (Raft.ents ms') =
      take (Z.to_nat (a - Raft.Index d)) (Raft.elems (Raft.ents ms))
        ++ drop (Z.to_nat (a - Raft.Index e0)) (Raft.elems entries).
Proof. apply MemoryStorage_Append_result. Qed.

Lemma MemoryStorage_Append_stores_witness :
  exists ms',
    Raft.MemoryStorage_Append (ext := Fixtures.doubling) Fixtures.stable3
      (Fixtures.exact [Fixtures.entry 3 2; Fixtures.entry 4 2]) = Ret (ms', None) /\
    Raft.MemoryStorage_LastIndex ms' = Ret (4, None) /\
    Raft.MemoryStorage_Term ms' 2 = Ret (1, None) /\
    Raft.MemoryStorage_Term ms' 3 = Ret (2, None) /\
    Raft.elems (Raft.ents ms') =
      [Fixtures.entry 0 0; Fixtures.entry 1 1; Fixtures.entry 2 1;
       Fixtures.entry 3 2; Fixtures.entry 4 2].
Proof.
  destruct (MemoryStorage_Append_stores (ext := Fixtures.doubling) Fixtures.stable3
              (Fixtures.entry 0 0) (Fixtures.entry 3 2)
              (Fixtures.exact [Fixtures.entry 3 2; Fixtures.entry 4 2]))
    as (ms' & Hrun & _ & _ & Hl & Hold & Hnew & _ & _ & Hel).
  - unfold ms_ok. simpl. unfold Raft.len, zlen. simpl. repeat split; lia.
  - reflexivity.
  - simpl. repeat split.
  - unfold Raft.len, zlen. simpl. lia.
  - unfold Raft.len, zlen. simpl. lia.
  - unfold Raft.len, zlen. simpl. lia.
  - unfold Raft.len, zlen. simpl. lia.
  - exists ms'. split; [exact Hrun|]. split; [exact Hl|]. split; [|split].
    + rewrite Hold by (simpl; lia). reflexivity.
    + apply (Hnew (Fixtures.entry 3 2)); [constructor|simpl; lia].
    + rewrite Hel. reflexivity.
Defined.

(** X2: the edges of [Append]: entries that all lie at or below the dummy
    entry are dropped and the storage is left as it was; entries that start
    beyond the last index + 1 make [Append] panic. *)
Theorem MemoryStorage_Append_stale_or_gap {ext : Raft.External} (ms : Raft.MemoryStorage)
    (d e0 : Raft.Entry) (entries : Raft.slice) :
  ms_ok ms d ->
  Raft.at_ entries 0 = Ret e0 ->
  0 <= Raft.Index e0 -> Raft.Index e0 + Raft.len entries < 2^64 ->
  (Raft.Index e0 + Raft.len entries - 1 <= Raft.Index d ->
   Raft.MemoryStorage_Append ms entries = Ret (ms, None)) /\
  (Raft.Index d + Raft.len (Raft.ents ms) < Raft.Index e0 ->
   Raft.MemoryStorage_Append ms entries = Panic).
Proof.
  intros Hok He0 H0 Hhi.
  pose proof (ms_ok_len _ _ Hok) as Hlen.
  pose proof (ms_ok_firstIndex _ _ Hok) as Hfi.
  destruct Hok as (Hd & Hcs & Hd0 & Hr & Hl).
  assert (Hn : 1 <= Raft.len entries) by (apply at_Ret in He0; lia).
  unfold Raft.MemoryStorage_Append.
  destruct (Z.eqb_spec (Raft.len entries) 0); [lia|].
  rewrite Hfi, He0. simpl obind.
  rewrite (u64_small (Raft.Index e0 + Raft.len entries)) by (unfold is_u64; lia).
  rewrite (u64_small (Raft.Index e0 + Raft.len entries - 1)) by (unfold is_u64; lia).
  split.
  - intros Hstale.
    destruct (Z.ltb_spec (Raft.Index e0 + Raft.len entries - 1) (Raft.Index d + 1));
      [reflexivity|lia].
  - intros Hgap.
    destruct (Z.ltb_spec (Raft.Index e0 + Raft.len entries - 1) (Raft.Index d + 1)); [lia|].
    destruct (Z.gtb_spec (Raft.Index d + 1) (Raft.Index e0)); [lia|].
    simpl obind. rewrite He0, Hd. simpl obind.
    rewrite (u64_small (Raft.Index e0 - Raft.Index d)) by (unfold is_u64; lia).
    destruct (Z.gtb_spec (Raft.len (Raft.ents ms)) (Raft.Index e0 - Raft.Index d)); [lia|].
    destruct (Z.eqb_spec (Raft.len (Raft.ents ms)) (Raft.Index e0 - Raft.Index d)); [lia|].
    reflexivity.
Qed.

Lemma MemoryStorage_Append_stale_or_gap_witness :
  Raft.MemoryStorage_Append (ext := Fixtures.doubling) Fixtures.stable3
    (Fixtures.exact [Fixtures.entry 5 2]) = Panic.
Proof.
  apply (MemoryStorage_Append_stale_or_gap (ext := Fixtures.doubling) Fixtures.stable3
           (Fixtures.entry 0 0) (Fixtures.entry 5 2) (Fixtures.exact [Fixtures.entry 5 2])).
  - unfold ms_ok. simpl. unfold Raft.len, zlen. simpl. repeat split; lia.
  - reflexivity.
  - simpl. lia.
  - unfold Raft.len, zlen. simpl. lia.
  - unfold Raft.len, zlen. simpl. lia.
Defined.

(** X3: [Compact(ci)]: at or below the dummy entry it fails with
    [ErrCompacted] and changes nothing; beyond the last index it panics;
    in between it makes entry ci the new dummy entry, so that [FirstIndex]
    becomes ci + 1 while [LastIndex] and the term of every index from ci on
    stay as they were, and the terms below ci are gone. *)
Theorem MemoryStorage_Compact_spec {ext : Raft.External} (ms : Raft.MemoryStorage)
    (d : Raft.Entry) (ci : Z) :
  ms_ok ms d ->
  (ci <= Raft.Index d ->
   Raft.MemoryStorage_Compact ms ci = Ret (ms, Some Raft.ErrCompacted)) /\
  (Raft.Index d + Raft.len (Raft.ents ms) - 1 < ci ->
   Raft.MemoryStorage_Compact ms ci = Panic) /\
  (Raft.Index d < ci <= Raft.Index d + Raft.len (Raft.ents ms) - 1 ->
   exists ms' d',
     Raft.MemoryStorage_Compact ms ci = Ret (ms', None) /\
     ms_ok ms' d' /\ Raft.Index d' = ci /\
     Raft.MemoryStorage_FirstIndex ms' = Ret (ci + 1, None) /\
     Raft.MemoryStorage_LastIndex ms' = Raft.MemoryStorage_LastIndex ms /\
     (forall i, ci <= i <= Raft.Index d + Raft.len (Raft.ents ms) - 1 ->
                Raft.MemoryStorage_Term ms' i = Raft.MemoryStorage_Term ms i) /\
     (forall i, i < ci ->
                Raft.MemoryStorage_Term ms' i = Ret (0, Some Raft.ErrCompacted)) /\
     Raft.ms_snapshot ms' = Raft.ms_snapshot ms).
Proof.
  intros Hok.
  pose proof (ms_ok_len _ _ Hok) as Hlen.
  pose proof (ms_ok_lastIndex _ _ Hok) as Hli.
  pose proof Hok as (Hd & Hcs & Hd0 & Hr & Hl).
  unfold Raft.MemoryStorage_Compact. rewrite Hd. simpl obind.
  split; [|split].
  - intros Hle. destruct (Z.leb_spec ci (Raft.Index d)); [reflexivity|lia].
  - intros Hgt. destruct (Z.leb_spec ci (Raft.Index d)); [lia|].
    rewrite Hli. simpl obind.
    destruct (Z.gtb_spec ci (Raft.Index d + Raft.len (Raft.ents ms) - 1)); [reflexivity|lia].
  - intros Hin. destruct (Z.leb_spec ci (Raft.Index d)); [lia|].
    rewrite Hli. simpl obind.
    destruct (Z.gtb_spec ci (Raft.Index d + Raft.len (Raft.ents ms) - 1)); [lia|].
    set (L := Raft.elems (Raft.ents ms)) in *.
    set (n := Raft.len (Raft.ents ms)) in *.
    rewrite (u64_small (ci - Raft.Index d)) by (unfold is_u64; lia).
    rewrite (u64_small (1 + n)) by (unfold is_u64; lia).
    rewrite (u64_small (1 + n - (ci - Raft.Index d))) by (unfold is_u64; lia).
    destruct (Z.ltb_spec (1 + n - (ci - Raft.Index d)) 1); [lia|].
    set (k := Z.to_nat (ci - Raft.Index d)).
    destruct (lookup_lt_is_Some_2 L k) as [ei Hei].
    { unfold k, n, Raft.len, zlen in *. fold L in Hin. lia. }
    assert (Hat : Raft.at_ (Raft.ents ms) (ci - Raft.Index d) = Ret ei).
    { apply at_Ret. split; [fold n; lia|exact Hei]. }
    rewrite Hat. simpl obind.
    rewrite (u64_small (ci - Raft.Index d + 1)) by (unfold is_u64; lia).
    rewrite slice_from_ok by (fold n; lia). simpl obind.
    assert (Hiei : Raft.Index ei = ci).
    { rewrite (consecutive_lookup _ _ _ _ Hcs Hei). unfold k. lia. }
    set (d' := Raft.mkEntry (Raft.Term ei) (Raft.Index ei) Raft.EntryNormal []).
    replace (Z.to_nat (ci - Raft.Index d + 1)) with (S k) by (unfold k; lia).
    match goal with
    | |- exists ms' _, Ret (?m, None) = _ /\ _ => set (ms' := m)
    end.
    assert (Hes : Raft.elems (Raft.ents ms') = d' :: drop (S k) L) by reflexivity.
    assert (Hlen' : Raft.len (Raft.ents ms') = n - (ci - Raft.Index d)).
    { unfold Raft.len at 1, zlen. rewrite Hes. simpl length. rewrite length_drop.
      unfold n, Raft.len, zlen, k in *. fold L in Hin |- *. lia. }
    assert (Hok' : ms_ok ms' d').
    { unfold ms_ok. rewrite Hlen'. split; [|split; [|simpl; lia]].
      - apply at_Ret. rewrite Hlen', Hes. split; [lia|reflexivity].
      - rewrite Hes. split; [reflexivity|].
        replace (Raft.Index d' + 1) with (Raft.Index d + Z.of_nat (S k))
          by (simpl; unfold k; lia).
        apply consecutive_drop. exact Hcs. }
    exists ms', d'. split; [reflexivity|]. split; [exact Hok'|].
    split; [exact Hiei|].
    split.
    { unfold Raft.MemoryStorage_FirstIndex. rewrite (ms_ok_firstIndex _ _ Hok').
      simpl. rewrite Hiei. reflexivity. }
    split.
    { unfold Raft.MemoryStorage_LastIndex. rewrite (ms_ok_lastIndex _ _ Hok'), Hli.
      rewrite Hlen'. simpl. rewrite Hiei. do 2 f_equal. fold n. lia. }
    split.
    { intros i Hi.
      destruct (lookup_lt_is_Some_2 L (Z.to_nat (i - Raft.Index d))) as [e He].
      { unfold n, Raft.len, zlen in *. fold L in Hi. lia. }
      rewrite (ms_ok_Term ms d i e Hok); [|lia|exact He].
      destruct (Z.eq_dec i ci) as [->|Hne].
      - assert (e = ei) as -> by (fold k in He; congruence).
        apply (ms_ok_Term ms' d' ci d' Hok'); [simpl; lia|].
        rewrite Hes. simpl Raft.Index. rewrite Hiei, Z.sub_diag. reflexivity.
      - apply (ms_ok_Term ms' d' i e Hok'); [simpl; lia|].
        rewrite Hes. simpl Raft.Index. rewrite Hiei.
        replace (Z.to_nat (i - ci)) with (S (Z.to_nat (i - ci - 1))) by lia.
        simpl. rewrite lookup_drop.
        replace (S k + Z.to_nat (i - ci - 1))%nat with (Z.to_nat (i - Raft.Index d))
          by (unfold k; lia).
        exact He. }
    split; [|reflexivity].
    intros i Hi. apply (ms_ok_Term_below ms' d' i Hok'). simpl. lia.
Qed.

Lemma MemoryStorage_Compact_spec_witness :
  exists ms',
    Raft.MemoryStorage_Compact (ext := Fixtures.doubling) Fixtures.stable3 2
      = Ret (ms', None) /\
    Raft.MemoryStorage_FirstIndex ms' = Ret (3, None) /\
    Raft.MemoryStorage_Term ms' 1 = Ret (0, Some Raft.ErrCompacted).
Proof.
  destruct (MemoryStorage_Compact_spec (ext := Fixtures.doubling) Fixtures.stable3
              (Fixtures.entry 0 0) 2) as (_ & _ & H).
  - unfold ms_ok. simpl. unfold Raft.len, zlen. simpl. repeat split; lia.
  - destruct H as (ms' & d' & Hrun & _ & _ & Hf & _ & _ & Hb & _).
    + unfold Raft.len, zlen. simpl. lia.
    + exists ms'. split; [exact Hrun|]. split; [exact Hf|]. apply Hb. lia.
Defined.

(** X4: [CreateSnapshot(i, cs, data)]: at or below the index of the current
    snapshot it fails with [ErrSnapOutOfDate] and changes nothing; beyond
    the last index, or below the dummy entry, it panics; otherwise the
    snapshot it records and returns carries [data], index i and the term
    the storage holds for i (and [cs] if given), the entries are untouched,
    and a second [CreateSnapshot] at or below i is out of date. *)
Theorem MemoryStorage_CreateSnapshot_spec (ms : Raft.MemoryStorage) (d : Raft.Entry)
    (i : Z) (cs : option Raft.ConfState) (data : list byte) :
  ms_ok ms d -> 0 <= i ->
  let si := Raft.SnapIndex (Raft.Metadata (Raft.ms_snapshot ms)) in
  (i <= si ->
   Raft.MemoryStorage_CreateSnapshot ms i cs data
     = Ret (ms, (Raft.zero_Snapshot, Some Raft.ErrSnapOutOfDate))) /\
  (si < i -> i < Raft.Index d \/ Raft.Index d + Raft.len (Raft.ents ms) - 1 < i ->
   Raft.MemoryStorage_CreateSnapshot ms i cs data = Panic) /\
  (si < i -> Raft.Index d <= i <= Raft.Index d + Raft.len (Raft.ents ms) - 1 ->
   exists t ms',
     Raft.MemoryStorage_Term ms i = Ret (t, None) /\
     Raft.MemoryStorage_CreateSnapshot ms i cs data
       = Ret (ms', (Raft.ms_snapshot ms', None)) /\
     Raft.SnapData (Raft.ms_snapshot ms') = data /\
     Raft.SnapIndex (Raft.Metadata (Raft.ms_snapshot ms')) = i /\
     Raft.SnapTerm (Raft.Metadata (Raft.ms_snapshot ms')) = t /\
     Raft.SnapConfState (Raft.Metadata (Raft.ms_snapshot ms'))
       = default (Raft.SnapConfState (Raft.Metadata (Raft.ms_snapshot ms))) cs /\
     Raft.ents ms' = Raft.ents ms /\
     forall j cs' data', j <= i ->
       Raft.MemoryStorage_CreateSnapshot ms' j cs' data'
         = Ret (ms', (Raft.zero_Snapshot, Some Raft.ErrSnapOutOfDate))).
Proof.
  intros Hok Hi0 si.
  pose proof (ms_ok_len _ _ Hok) as Hlen.
  pose proof (ms_ok_lastIndex _ _ Hok) as Hli.
  pose proof Hok as (Hd & Hcs & Hd0 & Hr & Hl).
  unfold Raft.MemoryStorage_CreateSnapshot. fold si.
  split; [|split].
  - intros Hle. destruct (Z.leb_spec i si); [reflexivity|lia].
  - intros Hgt Hout. destruct (Z.leb_spec i si); [lia|].
    rewrite Hd, Hli. simpl obind.
    destruct (Z.gtb_spec i (Raft.Index d + Raft.len (Raft.ents ms) - 1)); [reflexivity|].
    destruct Hout as [Hbelow|Habove]; [|lia].
    assert (Hw : u64 (i - Raft.Index d) = i - Raft.Index d + 2^64).
    { rewrite (u64_shift (i - Raft.Index d) (i - Raft.Index d + 2^64) (-1)) by lia.
      apply u64_small. unfold is_u64. lia. }
    rewrite Hw.
    destruct (Raft.at_ (Raft.ents ms) (i - Raft.Index d + 2 ^ 64)) as [e|] eqn:Hat;
      [|reflexivity].
    apply at_Ret in Hat. lia.
  - intros Hgt Hin. destruct (Z.leb_spec i si); [lia|].
    rewrite Hd, Hli. simpl obind.
    destruct (Z.gtb_spec i (Raft.Index d + Raft.len (Raft.ents ms) - 1)); [lia|].
    rewrite (u64_small (i - Raft.Index d)) by (unfold is_u64; lia).
    destruct (lookup_lt_is_Some_2 (Raft.elems (Raft.ents ms)) (Z.to_nat (i - Raft.Index d)))
      as [e He].
    { unfold Raft.len, zlen in *. lia. }
    assert (Hat : Raft.at_ (Raft.ents ms) (i - Raft.Index d) = Ret e).
    { apply at_Ret. split; [lia|exact He]. }
    rewrite Hat. simpl obind.
    match goal with
    | |- context [Ret (?m, (_, None)) = _] => exists (Raft.Term e), m
    end.
    split; [apply (ms_ok_Term ms d i e Hok); [lia|exact He]|].
    split; [reflexivity|]. simpl.
    split; [reflexivity|]. split; [reflexivity|]. split; [reflexivity|].
    split; [destruct cs; reflexivity|]. split; [reflexivity|].
    intros j cs' data' Hj. destruct (Z.leb_spec j i); [reflexivity|lia].
Qed.

Lemma MemoryStorage_CreateSnapshot_spec_witness :
  exists ms',
    Raft.MemoryStorage_CreateSnapshot Fixtures.stable3 2 None []
      = Ret (ms', (Fixtures.snap 2 1, None)).
Proof.
  destruct (MemoryStorage_CreateSnapshot_spec Fixtures.stable3 (Fixtures.entry 0 0) 2 None [])
    as (_ & _ & H).
  - unfold ms_ok. simpl. unfold Raft.len, zlen. simpl. repeat split; lia.
  - lia.
  - destruct H as (t & ms' & Ht & Hrun & _); [simpl; lia|unfold Raft.len, zlen; simpl; lia|].
    exists ms'. rewrite Hrun. vm_compute in Hrun. injection Hrun as <-. reflexivity.
Defined.

(** X5: [ApplySnapshot(snap)]: a snapshot that is not newer than the current
    one is refused with [ErrSnapOutOfDate] and nothing changes; a newer one
    replaces the snapshot and the whole log, which is left with the dummy
    entry (snap.index, snap.term) alone, and a log opened on the storage
    with [newLog] starts committed and applied at snap.index, ends there,
    and knows the term of snap.index. *)
Theorem MemoryStorage_ApplySnapshot_spec {ext : Raft.External} (ms : Raft.MemoryStorage)
    (snap : Raft.Snapshot) :
  let si := Raft.SnapIndex (Raft.Metadata snap) in
  0 <= si < 2^64 - 1 ->
  (si <= Raft.SnapIndex (Raft.Metadata (Raft.ms_snapshot ms)) ->
   Raft.MemoryStorage_ApplySnapshot ms snap = (ms, Some Raft.ErrSnapOutOfDate)) /\
  (Raft.SnapIndex (Raft.Metadata (Raft.ms_snapshot ms)) < si ->
   exists ms' l,
     Raft.MemoryStorage_ApplySnapshot ms snap = (ms', None) /\
     Raft.MemoryStorage_Snapshot ms' = (snap, None) /\
     Raft.MemoryStorage_FirstIndex ms' = Ret (si + 1, None) /\
     Raft.MemoryStorage_LastIndex ms' = Ret (si, None) /\
     Raft.newLog ms' = Ret l /\
     Raft.committed l = si /\ Raft.applied l = si /\
     Raft.raftLog_lastIndex l = Ret si /\
     Raft.raftLog_term l si = Ret (Raft.SnapTerm (Raft.Metadata snap), None)).
Proof.
  intros si Hsi. unfold Raft.MemoryStorage_ApplySnapshot. fold si. split.
  - intros Hle.
    destruct (Z.geb_spec (Raft.SnapIndex (Raft.Metadata (Raft.ms_snapshot ms))) si);
      [reflexivity|lia].
  - intros Hlt.
    destruct (Z.geb_spec (Raft.SnapIndex (Raft.Metadata (Raft.ms_snapshot ms))) si); [lia|].
    set (d' := Raft.mkEntry (Raft.SnapTerm (Raft.Metadata snap)) si Raft.EntryNormal []).
    set (ms' := Raft.mkMemoryStorage (Raft.hardState ms) snap (Raft.mkSlice [d'] 1)).
    assert (Hok' : ms_ok ms' d').
    { unfold ms_ok, Raft.len, zlen. simpl. repeat split; lia. }
    assert (Hf : Raft.Storage_FirstIndex ms' = Ret (si + 1, None)).
    { simpl. unfold Raft.MemoryStorage_FirstIndex.
      rewrite (ms_ok_firstIndex _ _ Hok'). reflexivity. }
    assert (Hl : Raft.Storage_LastIndex ms' = Ret (si, None)).
    { simpl. unfold Raft.MemoryStorage_LastIndex.
      rewrite (ms_ok_lastIndex _ _ Hok'). simpl. do 2 f_equal.
      unfold Raft.len, zlen. simpl. lia. }
    assert (H1 : u64 (si + 1) = si + 1) by (apply u64_small; unfold is_u64; lia).
    assert (H2 : u64 (si + 1 - 1) = si).
    { replace (si + 1 - 1) with si by lia. apply u64_small. unfold is_u64. lia. }
    set (l := Raft.mkRaftLog ms' (Raft.mkUnstable None Raft.nil_slice (si + 1)) si si
                Raft.noLimit).
    assert (Hlf : Raft.raftLog_firstIndex l = Ret (si + 1)).
    { unfold Raft.raftLog_firstIndex. simpl Raft.unstable_maybeFirstIndex. cbv iota beta.
      simpl Raft.storage. rewrite Hf. reflexivity. }
    assert (Hll : Raft.raftLog_lastIndex l = Ret si).
    { unfold Raft.raftLog_lastIndex. simpl Raft.unstable_maybeLastIndex. cbv iota beta.
      simpl Raft.storage. rewrite Hl. reflexivity. }
    exists ms', l. split; [reflexivity|]. split; [reflexivity|].
    split; [exact Hf|]. split; [exact Hl|].
    split.
    { unfold Raft.newLog, Raft.newLogWithSize. rewrite Hf, Hl. simpl obind.
      rewrite H1, H2. reflexivity. }
    split; [reflexivity|]. split; [reflexivity|]. split; [exact Hll|].
    unfold Raft.raftLog_term. rewrite Hlf. cbn [obind]. rewrite H2.
    destruct (Z.ltb_spec si si); [lia|]. rewrite Hll. cbn [obind].
    destruct (Z.gtb_spec si si); [lia|].
    unfold Raft.unstable_maybeTerm. cbn [Raft.offset Raft.unstab l Raft.snapshot].
    destruct (Z.ltb_spec si (si + 1)); [|lia]. cbn [obind Raft.storage l].
    change (Raft.Storage_Term ms' si) with (Raft.MemoryStorage_Term ms' si).
    rewrite (ms_ok_Term ms' d' si d' Hok'); [reflexivity|simpl; lia|].
    simpl. rewrite Z.sub_diag. reflexivity.
Qed.

Lemma MemoryStorage_ApplySnapshot_spec_witness :
  exists ms',
    Raft.MemoryStorage_ApplySnapshot Fixtures.stable3 (Fixtures.snap 7 2) = (ms', None) /\
    Raft.MemoryStorage_LastIndex ms' = Ret (7, None).
Proof.
  destruct (MemoryStorage_ApplySnapshot_spec (ext := Fixtures.doubling) Fixtures.stable3
              (Fixtures.snap 7 2)) as (_ & H).
  - simpl. lia.
  - destruct H as (ms' & l & Hrun & _ & _ & Hl & _); [simpl; lia|].
    exists ms'. split; [exact Hrun|exact Hl].
Defined.

(** ** raftLog.findConflictByTerm *)

Section ConflictByTerm.
Import Raft.
Context {Store : Type} {St : Storage Store}.
Variables (l : raftLog Store) (fi sl : Z) (term : Z).
Hypothesis Hwf : wf_log l fi sl.
Hypothesis Hterm : 0 <= term.
Hypothesis Hzero : forall t0, raftLog_term l 0 = Ret (t0, None) -> t0 <= term.

Lemma findConflictByTerm_loop_spec (fuel : nat) (j : Z) :
  is_u64 j -> (Z.to_nat j < fuel)%nat ->
  exists r,
    findConflictByTerm_loop fuel l j term = Ret r /\
    0 <= r <= j /\ Z.min j (wf_dummyIndex l fi - 1) <= r /\
    (exists t, raftLog_term l r = Ret (t, None) /\ t <= term) /\
    (forall k, r < k <= j -> exists t, raftLog_term l k = Ret (t, None) /\ term < t).
Proof.
  revert j. induction fuel as [|fuel IH]; intros j Hj Hfuel; [lia|].
  destruct (wf_raftLog_term l fi sl Hwf j Hj) as (t & Ht & Hin).
  simpl. rewrite Ht. cbn [obind].
  rewrite bool_decide_eq_true_2 by reflexivity. simpl negb. rewrite orb_false_r.
  destruct (Z.leb_spec t term) as [Hle|Hgt].
  - exists j. split; [reflexivity|]. split; [unfold is_u64 in Hj; lia|].
    split; [lia|]. split; [eauto|]. intros k Hk. lia.
  - assert (Hnz : t <> 0) by lia. specialize (Hin Hnz).
    assert (Hj0 : j <> 0).
    { intros ->. specialize (Hzero t Ht). lia. }
    assert (Hj1 : is_u64 (j - 1)) by (unfold is_u64 in *; lia).
    rewrite (u64_small (j - 1)) by exact Hj1.
    destruct (IH (j - 1) Hj1) as (r & Hrun & Hr & Hmin & Hrt & Habove);
      [unfold is_u64 in *; lia|].
    exists r. split; [exact Hrun|]. split; [lia|]. split; [lia|].
    split; [exact Hrt|].
    intros k Hk. destruct (Z.eq_dec k j) as [->|Hne]; [eauto|].
    apply Habove. lia.
Qed.

End ConflictByTerm.

(** X6: [findConflictByTerm(index, term)] on a well-formed log whose term at
    index 0 is at most [term]: an [index] beyond the last index is returned
    as it is; otherwise the loop ends and returns the largest r <= index
    whose term in the log is at most [term] (every index in (r, index] has
    a larger term), and r is never below the index before the dummy
    entry. *)
Theorem raftLog_findConflictByTerm_spec {Store : Type} {St : Raft.Storage Store}
    (l : Raft.raftLog Store) (fi sl index term : Z) :
  wf_log l fi sl -> is_u64 index -> 0 <= term ->
  (forall t0, Raft.raftLog_term l 0 = Ret (t0, None) -> t0 <= term) ->
  (wf_last l sl < index -> Raft.raftLog_findConflictByTerm l index term = Ret index) /\
  (index <= wf_last l sl ->
   exists r,
     Raft.raftLog_findConflictByTerm l index term = Ret r /\
     0 <= r <= index /\ Z.min index (wf_dummyIndex l fi - 1) <= r /\
     (exists t, Raft.raftLog_term l r = Ret (t, None) /\ t <= term) /\
     (forall k, r < k <= index ->
                exists t, Raft.raftLog_term l k = Ret (t, None) /\ term < t)).
Proof.
  intros Hwf Hi Hterm Hzero. unfold Raft.raftLog_findConflictByTerm.
  rewrite (wf_raftLog_lastIndex l fi sl Hwf). cbn [obind]. split.
  - intros Hgt. destruct (Z.gtb_spec index (wf_last l sl)); [reflexivity|lia].
  - intros Hle. destruct (Z.gtb_spec index (wf_last l sl)); [lia|].
    apply (findConflictByTerm_loop_spec l fi sl term Hwf Hterm Hzero); [exact Hi|lia].
Qed.

(** The log [(1,1),(2,1),(3,1)] with the unstable entries (4,2),(5,3). *)
Definition log5 : Raft.raftLog Raft.MemoryStorage :=
  Raft.mkRaftLog Fixtures.stable3
    (Raft.mkUnstable None (Fixtures.exact [Fixtures.entry 4 2; Fixtures.entry 5 3]) 4)
    0 0 Raft.noLimit.

Lemma log5_wf : wf_log (St := Fixtures.in_memory) log5 1 3.
Proof.
  destruct (MemoryStorage_answers (ext := Fixtures.doubling) Fixtures.stable3
              (Fixtures.entry 0 0)) as (Hf & Hl & Ht);
    [reflexivity|unfold is_u64; simpl; lia|vm_compute; reflexivity
    |vm_compute; reflexivity|].
  constructor; simpl Raft.storage; simpl Raft.unstab; simpl Raft.committed.
  - exact Hf.
  - exact Hl.
  - lia.
  - intros i Hi. apply Ht. simpl. unfold Raft.len, zlen. simpl. lia.
  - unfold is_u64. simpl. lia.
  - unfold Raft.len, zlen. simpl. lia.
  - unfold is_u64. lia.
  - simpl. unfold Raft.len, zlen. simpl. lia.
Qed.

Lemma raftLog_findConflictByTerm_spec_witness :
  Raft.raftLog_findConflictByTerm (St := Fixtures.in_memory) log5 5 1 = Ret 3.
Proof.
  destruct (raftLog_findConflictByTerm_spec (St := Fixtures.in_memory) log5 1 3 5 1)
    as (_ & H).
  - exact log5_wf.
  - unfold is_u64. lia.
  - lia.
  - intros t0 Ht0. vm_compute in Ht0. injection Ht0 as <-. lia.
  - destruct H as (r & Hrun & _); [vm_compute; discriminate|].
    rewrite Hrun. vm_compute in Hrun. symmetry. exact Hrun.
Defined.

(** ** raftLog.append and raftLog.term *)

Section TermOfWellFormedLog.
Import Raft.
Context {ext : External} {Store : Type} {St : Storage Store}.

(** What [truncateAndAppend] leaves when the new entries start at most one
    past the end of the tail. *)
Lemma unstable_truncateAndAppend_elems (u : unstable) (ents : slice) (e0 : Entry) :
  is_u64 (offset u) -> offset u + len (entries u) < 2^64 ->
  at_ ents 0 = Ret e0 ->
  0 <= Index e0 <= offset u + len (entries u) ->
  exists es',
    unstable_truncateAndAppend u ents
      = Ret (mkUnstable (snapshot u) es' (Z.min (offset u) (Index e0))) /\
    elems es' = take (Z.to_nat (Index e0 - offset u)) (elems (entries u)) ++ elems ents.
Proof.
  intros Ho Hol He0 Ha. unfold unstable_truncateAndAppend.
  rewrite He0. cbn [obind].
  pose proof (len_nonneg (entries u)) as Hn.
  rewrite (u64_small (offset u + len (entries u))) by (unfold is_u64 in *; lia).
  destruct (Z.eqb_spec (Index e0) (offset u + len (entries u))) as [Heq|Hne].
  - rewrite Z.min_l by lia. eexists. split; [reflexivity|]. simpl.
    rewrite take_ge by (unfold len, zlen in *; lia). reflexivity.
  - destruct (Z.leb_spec (Index e0) (offset u)) as [Hle|Hgt].
    + rewrite Z.min_r by lia. eexists. split; [reflexivity|].
      replace (Z.to_nat (Index e0 - offset u)) with 0%nat by lia. reflexivity.
    + rewrite Z.min_l by lia.
      unfold unstable_slice, unstable_mustCheckOutOfBounds.
      destruct (Z.gtb_spec (offset u) (Index e0)); [lia|].
      rewrite (u64_small (offset u + len (entries u))) by (unfold is_u64 in *; lia).
      destruct (Z.ltb_spec (offset u) (offset u)); [lia|].
      destruct (Z.gtb_spec (Index e0) (offset u + len (entries u))); [lia|].
      cbn [orb obind]. rewrite Z.sub_diag. rewrite (u64_small 0) by (unfold is_u64; lia).
      rewrite (u64_small (Index e0 - offset u)) by (unfold is_u64 in *; lia).
      rewrite slice_range_ok by lia. cbn [obind].
      eexists. split; [reflexivity|]. simpl. rewrite drop_0, Z.sub_0_r. reflexivity.
Qed.

(** The tail of [raftLog.term]: what the storage answers, with the errors
    [term] lets through. *)
Definition storage_term (st : Store) (i : Z) : outcome (Z * option error) :=
  let* r' := Storage_Term st i in
  match r' with
  | (t', None) => Ret (t', None)
  | (_, Some ErrCompacted) => Ret (0, Some ErrCompacted)
  | (_, Some ErrUnavailable) => Ret (0, Some ErrUnavailable)
  | (_, Some _) => Panic
  end.

(** The term below the unstable entries: the pending snapshot's, or the
    storage's. *)
Definition stable_term (sn : option Snapshot) (st : Store) (i : Z)
  : outcome (Z * option error) :=
  match sn with
  | Some s =>
      if SnapIndex (Metadata s) =? i then Ret (SnapTerm (Metadata s), None)
      else storage_term st i
  | None => storage_term st i
  end.

Variables (l : raftLog Store) (fi sl : Z).
Hypothesis Hwf : wf_log l fi sl.

Lemma wf_term_outside (i : Z) :
  is_u64 i -> i < wf_dummyIndex l fi \/ wf_last l sl < i ->
  raftLog_term l i = Ret (0, None).
Proof.
  intros Hi Hout.
  pose proof (wf_last_bounds l fi sl Hwf) as (Hdb & Hlb & Hlr).
  unfold raftLog_term. rewrite (wf_raftLog_firstIndex l fi sl Hwf). cbn [obind].
  replace (wf_dummyIndex l fi + 1 - 1) with (wf_dummyIndex l fi) by lia.
  rewrite u64_small by (unfold is_u64; lia).
  destruct (Z.ltb_spec i (wf_dummyIndex l fi)); [reflexivity|].
  rewrite (wf_raftLog_lastIndex l fi sl Hwf). cbn [obind].
  destruct (Z.gtb_spec i (wf_last l sl)); [reflexivity|lia].
Qed.

Lemma wf_term_unstable (i : Z) (e : Entry) :
  wf_dummyIndex l fi <= i -> offset (unstab l) <= i ->
  elems (entries (unstab l)) !! Z.to_nat (i - offset (unstab l)) = Some e ->
  raftLog_term l i = Ret (Term e, None).
Proof.
  intros Hd Ho He.
  pose proof (wf_last_bounds l fi sl Hwf) as (Hdb & Hlb & Hlr).
  pose proof (wf_offset _ _ _ Hwf) as Hoff. pose proof (wf_tail_range _ _ _ Hwf) as Htr.
  assert (Hlt : i - offset (unstab l) < len (entries (unstab l))).
  { apply lookup_lt_Some in He. unfold len, zlen. lia. }
  unfold raftLog_term. rewrite (wf_raftLog_firstIndex l fi sl Hwf). cbn [obind].
  replace (wf_dummyIndex l fi + 1 - 1) with (wf_dummyIndex l fi) by lia.
  rewrite u64_small by (unfold is_u64; lia).
  destruct (Z.ltb_spec i (wf_dummyIndex l fi)); [lia|].
  rewrite (wf_raftLog_lastIndex l fi sl Hwf). cbn [obind].
  assert (Hlast : wf_last l sl = offset (unstab l) + len (entries (unstab l)) - 1).
  { unfold wf_last. destruct (Z.eqb_spec (len (entries (unstab l))) 0); [lia|reflexivity]. }
  destruct (Z.gtb_spec i (wf_last l sl)); [lia|].
  unfold unstable_maybeTerm, unstable_maybeLastIndex.
  destruct (Z.ltb_spec i (offset (unstab l))); [lia|].
  destruct (Z.eqb_spec (len (entries (unstab l))) 0); [lia|]. cbn [negb].
  rewrite (u64_small (offset (unstab l) + len (entries (unstab l)) - 1))
    by (unfold is_u64 in *; lia).
  destruct (Z.gtb_spec i (offset (unstab l) + len (entries (unstab l)) - 1)); [lia|].
  rewrite (u64_small (i - offset (unstab l))) by (unfold is_u64 in *; lia).
  assert (Hat : at_ (entries (unstab l)) (i - offset (unstab l)) = Ret e).
  { apply at_Ret. split; [lia|exact He]. }
  rewrite Hat. reflexivity.
Qed.

Lemma wf_term_stable (i : Z) :
  wf_dummyIndex l fi <= i -> i < offset (unstab l) -> i <= wf_last l sl ->
  raftLog_term l i = stable_term (snapshot (unstab l)) (storage l) i.
Proof.
  intros Hd Ho Hl.
  pose proof (wf_last_bounds l fi sl Hwf) as (Hdb & Hlb & Hlr).
  unfold raftLog_term. rewrite (wf_raftLog_firstIndex l fi sl Hwf). cbn [obind].
  replace (wf_dummyIndex l fi + 1 - 1) with (wf_dummyIndex l fi) by lia.
  rewrite u64_small by (unfold is_u64; lia).
  destruct (Z.ltb_spec i (wf_dummyIndex l fi)); [lia|].
  rewrite (wf_raftLog_lastIndex l fi sl Hwf). cbn [obind].
  destruct (Z.gtb_spec i (wf_last l sl)); [lia|].
  unfold unstable_maybeTerm, stable_term, storage_term.
  destruct (Z.ltb_spec i (offset (unstab l))); [|lia].
  destruct (snapshot (unstab l)) as [s|]; [|reflexivity].
  destruct (SnapIndex (Metadata s) =? i); reflexivity.
Qed.

End TermOfWellFormedLog.

Section AppendKeepsWellFormed.
Import Raft.
Context {ext : External} {Store : Type} {St : Storage Store}.
Variables (l : raftLog Store) (fi sl : Z) (ents : slice) (e0 : Entry).
Hypothesis Hwf : wf_log l fi sl.
Hypothesis He0 : at_ ents 0 = Ret e0.

Hypothesis Hlo : Z.max (committed l) (wf_dummyIndex l fi) < Index e0.
Hypothesis Hhi : Index e0 <= wf_last l sl + 1.
Hypothesis Hov : Index e0 + len ents < 2^64.

(** The log that [append] leaves. *)
Lemma raftLog_append_result :
  exists es',
    let l' := mkRaftLog (storage l)
                (mkUnstable (snapshot (unstab l)) es' (Z.min (offset (unstab l)) (Index e0)))
                (committed l) (applied l) (maxNextEntsSize l) in
    raftLog_append l ents = Ret (l', Index e0 + len ents - 1) /\
    elems es' = take (Z.to_nat (Index e0 - offset (unstab l))) (elems (entries (unstab l)))
                  ++ elems ents /\
    wf_log l' fi sl /\
    wf_last l' sl = Index e0 + len ents - 1.
Proof.
  pose proof (wf_last_bounds l fi sl Hwf) as (Hdb & Hlb & Hlr).
  pose proof (wf_offset _ _ _ Hwf) as Hoff. pose proof (wf_tail_range _ _ _ Hwf) as Htr.
  pose proof (wf_committed _ _ _ Hwf) as Hcm.
  pose proof (len_nonneg (entries (unstab l))) as Hn.
  assert (Hpos : 1 <= len ents) by (apply at_Ret in He0; lia).
  destruct (unstable_truncateAndAppend_elems (unstab l) ents e0 Hoff Htr He0)
    as (es' & Hrun & Hes); [lia|].
  exists es'. cbn zeta.
  set (u' := mkUnstable (snapshot (unstab l)) es' (Z.min (offset (unstab l)) (Index e0))) in *.
  assert (Hlen' : Z.min (offset (unstab l)) (Index e0) + len es' = Index e0 + len ents).
  { unfold len at 1, zlen. rewrite Hes, length_app, length_take.
    unfold len, zlen in *. lia. }
  split.
  { rewrite (raftLog_append_run l ents e0 u' He0);
      [rewrite u64_small by (unfold is_u64 in *; lia); reflexivity| |exact Hrun].
    rewrite u64_small by (unfold is_u64 in *; lia). lia. }
  split; [exact Hes|].
  assert (Hnz : len es' <> 0) by lia.
  split.
  - pose proof (wf_shape _ _ _ Hwf) as Hsh.
    constructor; cbn [storage unstab committed u' offset entries snapshot].
    + apply (wf_first _ _ _ Hwf).
    + apply (wf_stable_last _ _ _ Hwf).
    + apply (wf_stable_range _ _ _ Hwf).
    + apply (wf_stable_term _ _ _ Hwf).
    + unfold is_u64 in *. lia.
    + lia.
    + exact Hcm.
    + unfold wf_dummyIndex in Hlo, Hdb.
      destruct (snapshot (unstab l)) as [s|].
      * destruct Hsh as [Hs1 Hs2]. split; [lia|]. intros Hgap.
        destruct Hs2 as [Hs2 Hs3]; [lia|]. lia.
      * destruct Hsh as [Hs1 Hs2]. split; [lia|]. intros Hz. lia.
  - unfold wf_last. cbn [unstab u' entries offset].
    destruct (Z.eqb_spec (len es') 0); [lia|]. lia.
Qed.

End AppendKeepsWellFormed.

(** What [append] returns and what [term] answers afterwards. *)
Lemma raftLog_append_terms {ext : Raft.External} {Store : Type}
    {St : Raft.Storage Store} (l : Raft.raftLog Store) (fi sl : Z)
    (ents : Raft.slice) (e0 : Raft.Entry) :
  wf_log l fi sl ->
  Raft.at_ ents 0 = Ret e0 ->
  consecutive (Raft.Index e0) (Raft.elems ents) ->
  Z.max (Raft.committed l) (wf_dummyIndex l fi) < Raft.Index e0 ->
  Raft.Index e0 <= wf_last l sl + 1 ->
  Raft.Index e0 + Raft.len ents < 2^64 ->
  exists l',
    Raft.raftLog_append l ents = Ret (l', Raft.Index e0 + Raft.len ents - 1) /\
    wf_log l' fi sl /\
    Raft.raftLog_lastIndex l' = Ret (Raft.Index e0 + Raft.len ents - 1) /\
    (forall e, e ∈ Raft.elems ents ->
               Raft.raftLog_term l' (Raft.Index e) = Ret (Raft.Term e, None)) /\
    (forall i, is_u64 i -> i < Raft.Index e0 ->
               Raft.raftLog_term l' i = Raft.raftLog_term l i) /\
    Raft.committed l' = Raft.committed l /\
    Raft.applied l' = Raft.applied l /\
    Raft.storage l' = Raft.storage l.
Proof.
  intros Hwf He0 Hcons Hlo Hhi Hov.
  destruct (raftLog_append_result l fi sl ents e0 Hwf He0 Hlo Hhi Hov)
    as (es' & Hrun & Hes & Hwf' & Hlast').
  cbn zeta in *.
  set (l' := Raft.mkRaftLog (Raft.storage l)
               (Raft.mkUnstable (Raft.snapshot (Raft.unstab l)) es'
                  (Z.min (Raft.offset (Raft.unstab l)) (Raft.Index e0)))
               (Raft.committed l) (Raft.applied l) (Raft.maxNextEntsSize l)) in *.
  pose proof (wf_last_bounds l fi sl Hwf) as (Hdb & Hlb & Hlr).
  pose proof (len_nonneg (Raft.entries (Raft.unstab l))) as Hn.
  assert (Hpos : 1 <= Raft.len ents) by (apply at_Ret in He0; lia).
  assert (Hdummy : wf_dummyIndex l' fi = wf_dummyIndex l fi) by reflexivity.
  exists l'. split; [exact Hrun|]. split; [exact Hwf'|].
  split; [rewrite (wf_raftLog_lastIndex l' fi sl Hwf'), Hlast'; reflexivity|].
  split.
  { intros e Hin. apply list_elem_of_lookup in Hin. destruct Hin as [k Hk].
    pose proof (consecutive_lookup _ _ _ _ Hcons Hk) as Hik.
    apply (wf_term_unstable l' fi sl Hwf'); cbn [Raft.unstab l' Raft.offset Raft.entries].
    - rewrite Hdummy. lia.
    - lia.
    - rewrite Hes. rewrite lookup_app_r by (rewrite length_take; unfold Raft.len, zlen in *; lia).
      rewrite length_take.
      replace (Z.to_nat (Raft.Index e - Z.min (Raft.offset (Raft.unstab l)) (Raft.Index e0))
               - Z.to_nat (Raft.Index e0 - Raft.offset (Raft.unstab l))
                 `min` length (Raft.elems (Raft.entries (Raft.unstab l))))%nat
        with k by (unfold Raft.len, zlen in *; lia).
      exact Hk. }
  split; [|split; [reflexivity|split; reflexivity]].
  intros i Hi Hlt.
  destruct (Z_lt_dec i (wf_dummyIndex l fi)) as [Hbelow|Hin].
  { rewrite (wf_term_outside l' fi sl Hwf' i Hi) by (rewrite Hdummy; lia).
    rewrite (wf_term_outside l fi sl Hwf i Hi) by lia. reflexivity. }
  destruct (Z_lt_dec i (Z.min (Raft.offset (Raft.unstab l)) (Raft.Index e0))) as [Hst|Hun].
  - rewrite (wf_term_stable l' fi sl Hwf' i); [|rewrite Hdummy; lia|exact Hst|lia].
    rewrite (wf_term_stable l fi sl Hwf i); [reflexivity|lia|lia|lia].
  - assert (Hmin : Z.min (Raft.offset (Raft.unstab l)) (Raft.Index e0)
                   = Raft.offset (Raft.unstab l)) by lia.
    destruct (lookup_lt_is_Some_2 (Raft.elems (Raft.entries (Raft.unstab l)))
                (Z.to_nat (i - Raft.offset (Raft.unstab l)))) as [e He].
    { unfold Raft.len, zlen in *. lia. }
    rewrite (wf_term_unstable l fi sl Hwf i e); [|lia|lia|exact He].
    apply (wf_term_unstable l' fi sl Hwf' i e); cbn [Raft.unstab l' Raft.offset Raft.entries].
    + rewrite Hdummy. lia.
    + lia.
    + rewrite Hes, Hmin.
      rewrite lookup_app_l by (rewrite length_take; unfold Raft.len, zlen in *; lia).
      rewrite lookup_take_lt by lia. exact He.
Qed.

(** X7: [append(ents)] on a well-formed log, for entries with consecutive
    indices that start above [committed] and the dummy entry and at most
    one past the last index: it returns the last new index, which is now the
    last index of the log; the log stays well formed; [term] answers the
    term of every new entry at its index and, below the first new index,
    what it answered before; [committed], [applied] and the storage are
    untouched. *)
Theorem raftLog_append_spec {ext : Raft.External} {Store : Type}
    {St : Raft.Storage Store} (l : Raft.raftLog Store) (fi sl : Z)
    (ents : Raft.slice) (e0 : Raft.Entry) :
  wf_log l fi sl ->
  Raft.at_ ents 0 = Ret e0 ->
  consecutive (Raft.Index e0) (Raft.elems ents) ->
  Z.max (Raft.committed l) (wf_dummyIndex l fi) < Raft.Index e0 ->
  Raft.Index e0 <= wf_last l sl + 1 ->
  Raft.Index e0 + Raft.len ents < 2^64 ->
  exists l',
    Raft.raftLog_append l ents = Ret (l', Raft.Index e0 + Raft.len ents - 1) /\
    wf_log l' fi sl /\
    Raft.raftLog_lastIndex l' = Ret (Raft.Index e0 + Raft.len ents - 1) /\
    (forall e, e ∈ Raft.elems ents ->
               Raft.raftLog_term l' (Raft.Index e) = Ret (Raft.Term e, None)) /\
    (forall i, is_u64 i -> i < Raft.Index e0 ->
               Raft.raftLog_term l' i = Raft.raftLog_term l i) /\
    Raft.committed l' = Raft.committed l /\
    Raft.applied l' = Raft.applied l /\
    Raft.storage l' = Raft.storage l.
Proof. apply raftLog_append_terms. Qed.

Lemma raftLog_append_spec_witness :
  exists l',
    Raft.raftLog_append (ext := Fixtures.doubling) (St := Fixtures.in_memory) log5
      (Fixtures.exact [Fixtures.entry 5 4; Fixtures.entry 6 4]) = Ret (l', 6) /\
    Raft.raftLog_term (St := Fixtures.in_memory) l' 5 = Ret (4, None) /\
    Raft.raftLog_term (St := Fixtures.in_memory) l' 4 = Ret (2, None).
Proof.
  destruct (raftLog_append_spec (ext := Fixtures.doubling) (St := Fixtures.in_memory)
              log5 1 3 (Fixtures.exact [Fixtures.entry 5 4; Fixtures.entry 6 4])
              (Fixtures.entry 5 4))
    as (l' & Hrun & _ & _ & Hnew & Hold & _).
  - exact log5_wf.
  - reflexivity.
  - simpl. repeat split.
  - vm_compute. reflexivity.
  - vm_compute. discriminate.
  - vm_compute. reflexivity.
  - exists l'. split; [exact Hrun|]. split.
    + apply (Hnew (Fixtures.entry 5 4)). constructor.
    + rewrite Hold; [reflexivity|unfold is_u64; lia|simpl; lia].
Defined.

(** ** raftLog.slice and raftLog.entries *)

Section SliceOfWellFormedLog.
Import Raft.
Context {ext : External} {Store : Type} {St : Storage Store}.
Variables (l : raftLog Store) (fi sl : Z).
Hypothesis Hwf : wf_log l fi sl.

(** The upper bound [fi + (lastIndex + 1 - fi)] that [mustCheckOutOfBounds]
    computes is lastIndex + 1, whether or not the subtraction wraps. *)
Lemma mustCheckOutOfBounds_upper (f li : Z) :
  0 <= li + 1 < 2^64 -> u64 (f + u64 (u64 (li + 1) - f)) = li + 1.
Proof.
  intros Hli. rewrite (u64_small (li + 1)) by exact Hli.
  rewrite (u64_eq (li + 1 - f)).
  rewrite (u64_shift _ (li + 1) (- ((li + 1 - f) / 2^64))) by lia.
  apply u64_small. exact Hli.
Qed.

Lemma wf_mustCheckOutOfBounds (lo hi : Z) :
  raftLog_mustCheckOutOfBounds l lo hi =
    if lo >? hi then Panic
    else if lo <? wf_dummyIndex l fi + 1 then Ret (Some ErrCompacted)
    else if hi >? wf_last l sl + 1 then Panic else Ret None.
Proof.
  pose proof (wf_last_bounds l fi sl Hwf) as (Hdb & Hlb & Hlr).
  pose proof (wf_tail_range _ _ _ Hwf) as Htr.
  assert (Hl0 : 0 <= wf_last l sl + 1).
  { unfold wf_last. pose proof (wf_offset _ _ _ Hwf) as Ho.
    pose proof (wf_stable_range _ _ _ Hwf) as Hsr. pose proof (wf_shape _ _ _ Hwf) as Hsh.
    pose proof (len_nonneg (entries (unstab l))).
    destruct (len (entries (unstab l)) =? 0); [|unfold is_u64 in *; lia].
    destruct (snapshot (unstab l)); lia. }
  unfold raftLog_mustCheckOutOfBounds.
  destruct (lo >? hi); [reflexivity|].
  rewrite (wf_raftLog_firstIndex l fi sl Hwf). cbn [obind].
  destruct (lo <? wf_dummyIndex l fi + 1); [reflexivity|].
  rewrite (wf_raftLog_lastIndex l fi sl Hwf). cbn [obind].
  rewrite mustCheckOutOfBounds_upper by lia. reflexivity.
Qed.

(** A range inside the unstable entries is cut from them. *)
Lemma raftLog_slice_unstable (lo hi maxSize : Z) :
  wf_dummyIndex l fi < lo -> offset (unstab l) <= lo -> lo < hi -> hi <= wf_last l sl + 1 ->
  raftLog_slice l lo hi maxSize =
    Ret (limitSize
           (mkSlice (take (Z.to_nat (hi - lo))
                       (drop (Z.to_nat (lo - offset (unstab l)))
                          (elems (entries (unstab l)))))
              (cap (entries (unstab l)) - (lo - offset (unstab l))))
           maxSize, None).
Proof.
  intros Hd Ho Hlt Hhi.
  pose proof (wf_last_bounds l fi sl Hwf) as (Hdb & Hlb & Hlr).
  pose proof (wf_offset _ _ _ Hwf) as Hoff. pose proof (wf_tail_range _ _ _ Hwf) as Htr.
  pose proof (len_nonneg (entries (unstab l))) as Hn.
  unfold raftLog_slice. rewrite wf_mustCheckOutOfBounds.
  destruct (Z.gtb_spec lo hi); [lia|].
  destruct (Z.ltb_spec lo (wf_dummyIndex l fi + 1)); [lia|].
  destruct (Z.gtb_spec hi (wf_last l sl + 1)); [lia|]. cbn [obind].
  destruct (Z.eqb_spec lo hi); [lia|].
  destruct (Z.ltb_spec lo (offset (unstab l))); [lia|]. cbn [obind].
  destruct (Z.gtb_spec hi (offset (unstab l))); [|lia].
  rewrite Z.max_l by lia.
  unfold unstable_slice, unstable_mustCheckOutOfBounds.
  destruct (Z.gtb_spec lo hi); [lia|].
  rewrite (u64_small (offset (unstab l) + len (entries (unstab l))))
    by (unfold is_u64 in *; lia).
  destruct (Z.ltb_spec lo (offset (unstab l))); [lia|].
  destruct (Z.gtb_spec hi (offset (unstab l) + len (entries (unstab l)))); [lia|].
  cbn [orb obind].
  rewrite (u64_small (lo - offset (unstab l))) by (unfold is_u64 in *; lia).
  rewrite (u64_small (hi - offset (unstab l))) by (unfold is_u64 in *; lia).
  rewrite slice_range_ok by lia. cbn [obind].
  change (len nil_slice >? 0) with false. cbn [obind].
  replace (hi - offset (unstab l) - (lo - offset (unstab l))) with (hi - lo) by lia.
  reflexivity.
Qed.

End SliceOfWellFormedLog.

(** X8: [slice(lo, hi, maxSize)] on a well-formed log: lo > hi panics; a lo
    at or below the dummy entry gives [ErrCompacted]; a hi beyond
    lastIndex + 1 panics; an empty range inside the log is empty; and a
    range inside the unstable entries is cut from them and passed to
    [limitSize], without a call to the storage. *)
Theorem raftLog_slice_bounds {ext : Raft.External} {Store : Type}
    {St : Raft.Storage Store} (l : Raft.raftLog Store) (fi sl lo hi maxSize : Z) :
  wf_log l fi sl ->
  (hi < lo -> Raft.raftLog_slice l lo hi maxSize = Panic) /\
  (lo <= hi -> lo <= wf_dummyIndex l fi ->
   Raft.raftLog_slice l lo hi maxSize = Ret (Raft.nil_slice, Some Raft.ErrCompacted)) /\
  (wf_dummyIndex l fi < lo <= hi -> wf_last l sl + 1 < hi ->
   Raft.raftLog_slice l lo hi maxSize = Panic) /\
  (wf_dummyIndex l fi < lo -> lo = hi -> hi <= wf_last l sl + 1 ->
   Raft.raftLog_slice l lo hi maxSize = Ret (Raft.nil_slice, None)) /\
  (wf_dummyIndex l fi < lo -> Raft.offset (Raft.unstab l) <= lo -> lo < hi ->
   hi <= wf_last l sl + 1 ->
   Raft.raftLog_slice l lo hi maxSize =
     Ret (Raft.limitSize
            (Raft.mkSlice
               (take (Z.to_nat (hi - lo))
                  (drop (Z.to_nat (lo - Raft.offset (Raft.unstab l)))
                     (Raft.elems (Raft.entries (Raft.unstab l)))))
               (Raft.cap (Raft.entries (Raft.unstab l))
                - (lo - Raft.offset (Raft.unstab l))))
            maxSize, None)).
Proof.
  intros Hwf.
  split; [|split; [|split; [|split]]].
  - intros H. unfold Raft.raftLog_slice. rewrite (wf_mustCheckOutOfBounds l fi sl Hwf).
    destruct (Z.gtb_spec lo hi); [reflexivity|lia].
  - intros H1 H2. unfold Raft.raftLog_slice. rewrite (wf_mustCheckOutOfBounds l fi sl Hwf).
    destruct (Z.gtb_spec lo hi); [lia|].
    destruct (Z.ltb_spec lo (wf_dummyIndex l fi + 1)); [reflexivity|lia].
  - intros H1 H2. unfold Raft.raftLog_slice. rewrite (wf_mustCheckOutOfBounds l fi sl Hwf).
    destruct (Z.gtb_spec lo hi); [lia|].
    destruct (Z.ltb_spec lo (wf_dummyIndex l fi + 1)); [lia|].
    destruct (Z.gtb_spec hi (wf_last l sl + 1)); [reflexivity|lia].
  - intros H1 H2 H3. unfold Raft.raftLog_slice. rewrite (wf_mustCheckOutOfBounds l fi sl Hwf).
    destruct (Z.gtb_spec lo hi); [lia|].
    destruct (Z.ltb_spec lo (wf_dummyIndex l fi + 1)); [lia|].
    destruct (Z.gtb_spec hi (wf_last l sl + 1)); [lia|]. cbn [obind].
    destruct (Z.eqb_spec lo hi); [reflexivity|lia].
  - intros H1 H2 H3 H4. apply (raftLog_slice_unstable l fi sl Hwf); assumption.
Qed.

Lemma raftLog_slice_bounds_witness :
  Raft.raftLog_slice (ext := Fixtures.doubling) (St := Fixtures.in_memory) log5 1 7 0 = Panic.
Proof.
  destruct (raftLog_slice_bounds (ext := Fixtures.doubling) (St := Fixtures.in_memory)
              log5 1 3 1 7 0 log5_wf) as (_ & _ & H & _).
  apply H; vm_compute; split; try reflexivity; discriminate.
Defined.

(** ** raftLog.lastTerm and raftLog.isUpToDate *)

(** X9: on a well-formed log [lastTerm] returns the term [term] answers for
    the last index, and [isUpToDate(lasti, term)] neither panics nor
    errs: it holds exactly when (term, lasti) is at least
    (lastTerm, lastIndex) in the lexicographic order. *)
Theorem raftLog_isUpToDate_spec {Store : Type} {St : Raft.Storage Store}
    (l : Raft.raftLog Store) (fi sl : Z) :
  wf_log l fi sl ->
  exists lt,
    Raft.raftLog_term l (wf_last l sl) = Ret (lt, None) /\
    Raft.raftLog_lastTerm l = Ret lt /\
    forall lasti term,
    exists b,
      Raft.raftLog_isUpToDate l lasti term = Ret b /\
      (b = true <-> lt < term \/ (term = lt /\ wf_last l sl <= lasti)).
Proof.
  intros Hwf.
  pose proof (wf_last_bounds l fi sl Hwf) as (Hdb & Hlb & Hlr).
  assert (Hl0 : 0 <= wf_last l sl).
  { unfold wf_last. pose proof (wf_offset _ _ _ Hwf) as Ho.
    pose proof (wf_stable_range _ _ _ Hwf) as Hsr. pose proof (wf_shape _ _ _ Hwf) as Hsh.
    pose proof (len_nonneg (Raft.entries (Raft.unstab l))).
    destruct (Z.eqb_spec (Raft.len (Raft.entries (Raft.unstab l))) 0);
      [|unfold is_u64 in *; lia].
    destruct (Raft.snapshot (Raft.unstab l)); lia. }
  destruct (wf_raftLog_term l fi sl Hwf (wf_last l sl)) as (lt & Hlt & _);
    [unfold is_u64; lia|].
  assert (Hlast : Raft.raftLog_lastTerm l = Ret lt).
  { unfold Raft.raftLog_lastTerm. rewrite (wf_raftLog_lastIndex l fi sl Hwf). cbn [obind].
    rewrite Hlt. reflexivity. }
  exists lt. split; [exact Hlt|]. split; [exact Hlast|].
  intros lasti term. unfold Raft.raftLog_isUpToDate. rewrite Hlast. cbn [obind].
  destruct (Z.gtb_spec term lt) as [Hgt|Hle].
  - exists true. split; [reflexivity|]. split; [intros _; left; lia|reflexivity].
  - destruct (Z.eqb_spec term lt) as [Heq|Hne].
    + rewrite (wf_raftLog_lastIndex l fi sl Hwf). cbn [obind].
      eexists. split; [reflexivity|].
      destruct (Z.geb_spec lasti (wf_last l sl)) as [Hge|Hlt']; split; intros Hb;
        try reflexivity; try discriminate; [right; lia|lia].
    + exists false. split; [reflexivity|]. split; [discriminate|lia].
Qed.

Lemma raftLog_isUpToDate_spec_witness :
  Raft.raftLog_isUpToDate (St := Fixtures.in_memory) log5 9 2 = Ret false.
Proof.
  destruct (raftLog_isUpToDate_spec (St := Fixtures.in_memory) log5 1 3 log5_wf)
    as (lt & Hlt & _ & H).
  vm_compute in Hlt. injection Hlt as <-.
  destruct (H 9 2) as (b & Hrun & Hb). rewrite Hrun. f_equal.
  destruct b; [|reflexivity]. exfalso. destruct Hb as [Hb _].
  destruct (Hb eq_refl) as [Hc|[Hc _]]; lia.
Defined.

(** ** Persisting the unstable entries *)

(** X10: the unstable entries of a well-formed log over a [MemoryStorage]
    (no snapshot pending), handed to [Append] and then acknowledged with
    [stableTo(last index, last term)]: both calls return, the unstable tail
    is left empty with its offset just past the last index, the log is
    still well formed, and [lastIndex] and the [term] of every index are
    what they were. *)
Theorem raftLog_stabilise_keeps_terms {ext : Raft.External}
    (l : Raft.raftLog Raft.MemoryStorage) (d e0 elast : Raft.Entry) (sl : Z) :
  wf_log l (Raft.Index d + 1) sl ->
  ms_ok (Raft.storage l) d ->
  Raft.snapshot (Raft.unstab l) = None ->
  Raft.at_ (Raft.entries (Raft.unstab l)) 0 = Ret e0 ->
  consecutive (Raft.offset (Raft.unstab l)) (Raft.elems (Raft.entries (Raft.unstab l))) ->
  last (Raft.elems (Raft.entries (Raft.unstab l))) = Some elast ->
  Raft.Index d < Raft.offset (Raft.unstab l) ->
  Raft.offset (Raft.unstab l) + Raft.len (Raft.entries (Raft.unstab l)) - Raft.Index d
    < 2^63 ->
  exists ms' l2,
    Raft.MemoryStorage_Append (Raft.storage l) (Raft.entries (Raft.unstab l))
      = Ret (ms', None) /\
    Raft.raftLog_stableTo
      (Raft.mkRaftLog ms' (Raft.unstab l) (Raft.committed l) (Raft.applied l)
         (Raft.maxNextEntsSize l))
      (Raft.Index elast) (Raft.Term elast) = Ret l2 /\
    Raft.storage l2 = ms' /\
    Raft.len (Raft.entries (Raft.unstab l2)) = 0 /\
    Raft.offset (Raft.unstab l2) = Raft.Index elast + 1 /\
    wf_log l2 (Raft.Index d + 1) (Raft.Index elast) /\
    Raft.raftLog_lastIndex l2 = Raft.raftLog_lastIndex l /\
    forall i, is_u64 i -> Raft.raftLog_term l2 i = Raft.raftLog_term l i.
Proof.
  intros Hwf Hok Hsnap He0 Hcons Hlast Hoff Hint.
  set (u := Raft.unstab l) in *. set (ms := Raft.storage l) in *.
  set (L := Raft.elems (Raft.entries u)) in *.
  set (n := Raft.len (Raft.entries u)) in *.
  set (off := Raft.offset u) in *.
  assert (Hn : 1 <= n) by (apply at_Ret in He0; unfold n; lia).
  pose proof (wf_offset _ _ _ Hwf) as Ho. pose proof (wf_tail_range _ _ _ Hwf) as Htr.
  pose proof (wf_shape _ _ _ Hwf) as Hsh. fold u off n in Ho, Htr, Hsh.
  rewrite Hsnap in Hsh. destruct Hsh as [Hsh _].
  pose proof (ms_ok_len _ _ Hok) as Hlen.
  assert (Hsl : sl = Raft.Index d + Raft.len (Raft.ents ms) - 1).
  { pose proof (wf_stable_last _ _ _ Hwf) as Hl. fold ms in Hl. simpl in Hl.
    unfold Raft.MemoryStorage_LastIndex in Hl. rewrite (ms_ok_lastIndex _ _ Hok) in Hl.
    simpl in Hl. congruence. }
  assert (Hi0 : Raft.Index e0 = off).
  { apply at_Ret in He0. destruct He0 as [_ He0].
    rewrite (consecutive_lookup _ _ _ _ Hcons He0). lia. }
  assert (Hil : Raft.Index elast = off + n - 1 /\ L !! Z.to_nat (n - 1) = Some elast).
  { rewrite last_lookup in Hlast.
    replace (Z.to_nat (n - 1)) with (Init.Nat.pred (length L))
      by (unfold n, Raft.len, zlen; fold u L; lia).
    split; [|exact Hlast].
    rewrite (consecutive_lookup _ _ _ _ Hcons Hlast).
    unfold n, Raft.len, zlen in *. fold u L in Hn |- *. lia. }
  destruct Hil as [Hil Hlk].
  (* Append *)
  destruct (MemoryStorage_Append_result ms d e0 (Raft.entries u)) as
    (ms' & Hrun & Hok' & Hf' & Hl' & Hold & Hnew & _ & _);
    [exact Hok|exact He0|rewrite Hi0; exact Hcons|rewrite Hi0; unfold is_u64 in Ho; lia
    |rewrite Hi0; fold n; lia|rewrite Hi0; fold n; lia|rewrite Hi0; fold n; lia|].
  cbn zeta in Hold, Hnew. rewrite Hi0 in Hold, Hnew, Hl'. fold n in Hl'.
  rewrite Z.max_l in Hold, Hnew by lia.
  assert (Hlen' : Raft.len (Raft.ents ms') = off + n - Raft.Index d).
  { unfold Raft.MemoryStorage_LastIndex in Hl'. rewrite (ms_ok_lastIndex _ _ Hok') in Hl'.
    simpl in Hl'. injection Hl' as Hl'. lia. }
  (* stableTo *)
  set (u2 := Raft.mkUnstable None Raft.nil_slice (Raft.Index elast + 1)).
  set (l2 := Raft.mkRaftLog ms' u2 (Raft.committed l) (Raft.applied l)
               (Raft.maxNextEntsSize l)).
  assert (Hst : Raft.raftLog_stableTo
                  (Raft.mkRaftLog ms' u (Raft.committed l) (Raft.applied l)
                     (Raft.maxNextEntsSize l))
                  (Raft.Index elast) (Raft.Term elast) = Ret l2).
  { unfold Raft.raftLog_stableTo, Raft.unstable_stableTo. cbn [Raft.unstab].
    unfold Raft.unstable_maybeTerm, Raft.unstable_maybeLastIndex. fold off n.
    rewrite Hil.
    destruct (Z.ltb_spec (off + n - 1) off); [lia|].
    destruct (Z.eqb_spec n 0); [lia|]. cbn [negb].
    rewrite (u64_small (off + n - 1)) by (unfold is_u64 in *; lia).
    destruct (Z.gtb_spec (off + n - 1) (off + n - 1)); [lia|].
    replace (off + n - 1 - off) with (n - 1) by lia.
    rewrite (u64_small (n - 1)) by (unfold is_u64 in *; lia).
    assert (Hat : Raft.at_ (Raft.entries u) (n - 1) = Ret elast).
    { apply at_Ret. split; [fold n; lia|exact Hlk]. }
    rewrite Hat. cbn [obind negb].
    rewrite Z.eqb_refl. destruct (Z.geb_spec (off + n - 1) off); [|lia]. cbn [andb].
    replace (off + n - 1 + 1 - off) with n by lia.
    rewrite (u64_small n) by (unfold is_u64 in *; lia).
    rewrite slice_from_ok by (fold n; lia). cbn [obind].
    unfold Raft.unstable_shrinkEntriesArray. cbn [Raft.entries Raft.snapshot Raft.offset].
    assert (Hempty : drop (Z.to_nat n) (Raft.elems (Raft.entries u)) = []).
    { apply drop_ge. unfold n, Raft.len, zlen. lia. }
    unfold Raft.len at 1. cbn [Raft.elems]. rewrite Hempty. change (zlen []) with 0.
    cbn [Z.eqb]. rewrite Hsnap.
    replace (off + n - 1 + 1) with (off + n) by lia.
    rewrite (u64_small (off + n)) by (unfold is_u64 in *; lia).
    unfold l2, u2. rewrite Hil. replace (off + n - 1 + 1) with (off + n) by lia.
    reflexivity. }
  assert (Hwf2 : wf_log l2 (Raft.Index d + 1) (Raft.Index elast)).
  { destruct Hok as (_ & _ & Hd0 & _).
    constructor; cbn [Raft.storage Raft.unstab Raft.committed l2 u2 Raft.offset
                      Raft.entries Raft.snapshot].
    - exact Hf'.
    - rewrite Hil. exact Hl'.
    - lia.
    - intros i Hi.
      destruct (lookup_lt_is_Some_2 (Raft.elems (Raft.ents ms')) (Z.to_nat (i - Raft.Index d)))
        as [e He]; [unfold Raft.len, zlen in Hlen'; lia|].
      exists (Raft.Term e). apply (ms_ok_Term ms' d i e Hok'); [lia|exact He].
    - unfold is_u64 in *. lia.
    - change (Raft.len Raft.nil_slice) with 0. lia.
    - apply (wf_committed _ _ _ Hwf).
    - change (Raft.len Raft.nil_slice) with 0. lia. }
  assert (Hd1 : wf_dummyIndex l (Raft.Index d + 1) = Raft.Index d).
  { unfold wf_dummyIndex. fold u. rewrite Hsnap. lia. }
  assert (Hd2 : wf_dummyIndex l2 (Raft.Index d + 1) = Raft.Index d).
  { unfold wf_dummyIndex. cbn [Raft.unstab l2 u2 Raft.snapshot]. lia. }
  assert (Hla1 : wf_last l sl = off + n - 1).
  { unfold wf_last. fold u n off. destruct (Z.eqb_spec n 0); [lia|reflexivity]. }
  assert (Hla2 : wf_last l2 (Raft.Index elast) = off + n - 1).
  { unfold wf_last. cbn [Raft.unstab l2 u2 Raft.snapshot Raft.entries].
    change (Raft.len Raft.nil_slice =? 0) with true. cbn iota. exact Hil. }
  exists ms', l2. split; [exact Hrun|]. split; [exact Hst|].
  split; [reflexivity|]. split; [reflexivity|]. split; [reflexivity|].
  split; [exact Hwf2|].
  split.
  { rewrite (wf_raftLog_lastIndex l2 _ _ Hwf2), (wf_raftLog_lastIndex l _ _ Hwf).
    rewrite Hla1, Hla2. reflexivity. }
  intros i Hi.
  destruct (Z_lt_dec i (Raft.Index d)) as [Hb|Hge].
  { rewrite (wf_term_outside l2 _ _ Hwf2 i Hi) by (rewrite Hd2; lia).
    rewrite (wf_term_outside l _ _ Hwf i Hi) by (rewrite Hd1; lia). reflexivity. }
  destruct (Z_lt_dec (off + n - 1) i) as [Ha|Hle].
  { rewrite (wf_term_outside l2 _ _ Hwf2 i Hi) by (rewrite Hla2; lia).
    rewrite (wf_term_outside l _ _ Hwf i Hi) by (rewrite Hla1; lia). reflexivity. }
  rewrite (wf_term_stable l2 _ _ Hwf2 i);
    [|rewrite Hd2; lia|cbn [Raft.unstab l2 u2 Raft.offset]; lia|rewrite Hla2; lia].
  cbn [Raft.unstab l2 u2 Raft.snapshot Raft.storage stable_term].
  unfold storage_term.
  change (Raft.Storage_Term ms' i) with (Raft.MemoryStorage_Term ms' i).
  destruct (Z_lt_dec i off) as [Hst'|Hun].
  - rewrite (wf_term_stable l _ _ Hwf i); [|rewrite Hd1; lia|fold u off; lia|rewrite Hla1; lia].
    fold u ms. rewrite Hsnap. cbn [stable_term]. unfold storage_term.
    change (Raft.Storage_Term ms i) with (Raft.MemoryStorage_Term ms i).
    rewrite Hold by lia. reflexivity.
  - destruct (lookup_lt_is_Some_2 L (Z.to_nat (i - off))) as [e He].
    { unfold n, Raft.len, zlen in *. fold u L in Hle. lia. }
    assert (Hie : Raft.Index e = i).
    { rewrite (consecutive_lookup _ _ _ _ Hcons He). lia. }
    rewrite (wf_term_unstable l _ _ Hwf i e); [|rewrite Hd1; lia|fold u off; lia|exact He].
    rewrite <- Hie at 1. rewrite (Hnew e); [reflexivity| |lia].
    apply list_elem_of_lookup. eauto.
Qed.

Lemma raftLog_stabilise_keeps_terms_witness :
  exists ms' l2,
    Raft.MemoryStorage_Append (ext := Fixtures.doubling) Fixtures.stable3
      (Fixtures.exact [Fixtures.entry 4 2; Fixtures.entry 5 3]) = Ret (ms', None) /\
    Raft.raftLog_stableTo
      (Raft.mkRaftLog ms' (Raft.unstab log5) 0 0 Raft.noLimit) 5 3 = Ret l2 /\
    Raft.raftLog_term (St := Fixtures.in_memory) l2 4 = Ret (2, None).
Proof.
  destruct (raftLog_stabilise_keeps_terms (ext := Fixtures.doubling) log5
              (Fixtures.entry 0 0) (Fixtures.entry 4 2) (Fixtures.entry 5 3) 3)
    as (ms' & l2 & Hrun & Hst & _ & _ & _ & _ & _ & Ht).
  - exact log5_wf.
  - unfold ms_ok. simpl. unfold Raft.len, zlen. simpl. repeat split; lia.
  - reflexivity.
  - reflexivity.
  - simpl. repeat split.
  - reflexivity.
  - simpl. lia.
  - unfold Raft.len, zlen. simpl. lia.
  - exists ms', l2. split; [exact Hrun|]. split; [exact Hst|].
    change (Raft.raftLog_term (St := Fixtures.in_memory) l2 4)
      with (Raft.raftLog_term (St := Raft.MemoryStorage_Storage (ext := Fixtures.doubling)) l2 4).
    rewrite Ht by (unfold is_u64; lia). reflexivity.
Defined.

(** ** After a successful maybeAppend *)

Section AfterCommitTo.
Import Raft.
Context {Store : Type} {St : Storage Store}.

(** [commitTo] changes [committed] only, and keeps the log well formed. *)
Lemma raftLog_commitTo_wf (l l' : raftLog Store) (fi sl tocommit : Z) :
  wf_log l fi sl -> 0 <= tocommit ->
  raftLog_commitTo l tocommit = Ret l' ->
  wf_log l' fi sl /\ storage l' = storage l /\ unstab l' = unstab l.
Proof.
  intros Hwf H0 Hrun. unfold raftLog_commitTo in Hrun.
  destruct (Z.ltb_spec (committed l) tocommit).
  - rewrite (wf_raftLog_lastIndex l fi sl Hwf) in Hrun. cbn [obind] in Hrun.
    pose proof (wf_last_bounds l fi sl Hwf) as (_ & _ & Hlr).
    destruct (Z.ltb_spec (wf_last l sl) tocommit); [discriminate|].
    injection Hrun as <-. split; [|split; reflexivity].
    destruct Hwf. constructor; cbn [storage unstab committed]; try assumption.
    unfold is_u64. lia.
  - injection Hrun as <-. auto.
Qed.

Lemma raftLog_term_same (l l' : raftLog Store) (i : Z) :
  storage l' = storage l -> unstab l' = unstab l -> raftLog_term l' i = raftLog_term l i.
Proof.
  intros Hs Hu. unfold raftLog_term, raftLog_firstIndex, raftLog_lastIndex.
  rewrite Hs, Hu. reflexivity.
Qed.

Lemma raftLog_matchTerm_of_term (l l' : raftLog Store) (i t : Z) :
  raftLog_term l' i = raftLog_term l i -> raftLog_matchTerm l' i t = raftLog_matchTerm l i t.
Proof. intros H. unfold raftLog_matchTerm. rewrite H. reflexivity. Qed.

End AfterCommitTo.

(** X11: when [maybeAppend(index, logTerm, committed, ents)] succeeds on a
    well-formed log, for an [index] inside the log and entries that carry
    the indices index + 1, index + 2, ... and non-zero terms, the log it
    leaves is well formed, still matches (index, logTerm), and matches
    every entry of [ents] at its index: [findConflict(ents)] finds nothing
    any more. *)
Theorem raftLog_maybeAppend_installs {ext : Raft.External} {Store : Type}
    {St : Raft.Storage Store} (l l' : Raft.raftLog Store)
    (fi sl index logTerm leaderCommit r : Z) (ents : Raft.slice) :
  wf_log l fi sl ->
  wf_dummyIndex l fi <= index <= wf_last l sl ->
  index + Raft.len ents + 1 < 2^64 -> 0 <= leaderCommit ->
  consecutive (index + 1) (Raft.elems ents) ->
  Forall (fun e => Raft.Term e <> 0) (Raft.elems ents) ->
  Raft.raftLog_maybeAppend l index logTerm leaderCommit ents = Ret (l', (r, true)) ->
  wf_log l' fi sl /\
  Raft.raftLog_matchTerm l' index logTerm = Ret true /\
  Forall (fun e => Raft.raftLog_matchTerm l' (Raft.Index e) (Raft.Term e) = Ret true)
    (Raft.elems ents) /\
  Raft.raftLog_findConflict l' (Raft.elems ents) = Ret 0.
Proof.
  intros Hwf Hidx Hov Hlc Hcons Hterms Hrun.
  pose proof (wf_last_bounds l fi sl Hwf) as (Hdb & Hlb & Hlr).
  pose proof (len_nonneg ents) as Hlen.
  assert (Hiu : is_u64 index) by (unfold is_u64; lia).
  assert (Hpos : forall (k : nat) (e : Raft.Entry),
             Raft.elems ents !! k = Some e ->
             Raft.Index e = index + 1 + Z.of_nat k /\ Z.of_nat k < Raft.len ents).
  { intros k e Hk. split; [apply (consecutive_lookup _ _ _ _ Hcons Hk)|].
    apply lookup_lt_Some in Hk. unfold Raft.len, zlen. lia. }
  assert (Hrange : Forall (fun e => is_u64 (Raft.Index e)) (Raft.elems ents)).
  { apply Forall_lookup. intros k e Hk. destruct (Hpos k e Hk). unfold is_u64 in *. lia. }
  assert (Hinside : forall (k : nat) (e : Raft.Entry),
             Raft.elems ents !! k = Some e ->
             Raft.raftLog_matchTerm l (Raft.Index e) (Raft.Term e) = Ret true ->
             Raft.Index e <= wf_last l sl).
  { intros k e Hk Hme.
    assert (is_u64 (Raft.Index e)) as Hu.
    { rewrite Forall_lookup in Hrange. exact (Hrange k e Hk). }
    destruct (wf_raftLog_matchTerm l fi sl Hwf (Raft.Index e) (Raft.Term e) Hu)
      as (t & _ & Hmt & Hnz).
    rewrite Hmt in Hme. injection Hme as Hme. apply Z.eqb_eq in Hme.
    rewrite Forall_lookup in Hterms. specialize (Hterms k e Hk). simpl in Hterms.
    lia. }
  (* the statement follows from: l' is well formed, and term answers in l'
     the term of every entry of ents and what it answered in l at index *)
  enough (Hgoal : wf_log l' fi sl /\
                  Raft.raftLog_matchTerm l' index logTerm = Ret true /\
                  Forall (fun e => Raft.raftLog_matchTerm l' (Raft.Index e) (Raft.Term e)
                                   = Ret true) (Raft.elems ents)).
  { destruct Hgoal as (Hwf' & Hm' & Hall). split; [exact Hwf'|]. split; [exact Hm'|].
    split; [exact Hall|].
    clear -Hall. induction Hall as [|e es He Hes IH]; [reflexivity|].
    simpl. rewrite He. cbn [obind negb]. exact IH. }
  unfold Raft.raftLog_maybeAppend in Hrun.
  destruct (Raft.raftLog_matchTerm l index logTerm) as [[|]|] eqn:Hm;
    cbn [obind] in Hrun; [|discriminate|discriminate].
  destruct (wf_raftLog_findConflict l fi sl Hwf (Raft.elems ents) Hrange) as (ci & Hci & Hfc).
  rewrite Hci in Hrun. cbn [obind] in Hrun.
  rewrite (u64_small (index + Raft.len ents)) in Hrun by (unfold is_u64 in *; lia).
  destruct Hfc as [[-> Hall]|(k & e & Hk & -> & Hmis & Hpre)].
  - (* nothing to append *)
    cbn [Z.eqb obind] in Hrun.
    destruct (Raft.raftLog_commitTo l (Z.min leaderCommit (index + Raft.len ents)))
      as [l2|] eqn:Hct; [|discriminate].
    cbn [obind] in Hrun. injection Hrun as <- _.
    assert (Hc0 : 0 <= Z.min leaderCommit (index + Raft.len ents)) by lia.
    destruct (raftLog_commitTo_wf l l2 fi sl _ Hwf Hc0 Hct) as (Hwf2 & Hs & Hu).
    split; [exact Hwf2|]. split.
    + rewrite (raftLog_matchTerm_of_term l l2) by (apply raftLog_term_same; assumption).
      exact Hm.
    + eapply Forall_impl; [exact Hall|]. intros x Hx. cbn beta in Hx |- *.
      rewrite (raftLog_matchTerm_of_term l l2) by (apply raftLog_term_same; assumption).
      exact Hx.
  - (* the entries from position k on are appended *)
    destruct (Hpos k e Hk) as [Hek Hklt].
    rewrite (u64_small (index + 1)) in Hrun by (unfold is_u64 in *; lia).
    destruct (Z.eqb_spec (Raft.Index e) 0); [lia|].
    destruct (Z.leb_spec (Raft.Index e) (Raft.committed l)) as [|Hcm];
      [cbn [obind] in Hrun; discriminate|].
    rewrite (u64_small (Raft.Index e - (index + 1))) in Hrun by (unfold is_u64 in *; lia).
    rewrite slice_from_ok in Hrun by lia. cbn [obind] in Hrun.
    set (suffix := Raft.mkSlice
                     (drop (Z.to_nat (Raft.Index e - (index + 1))) (Raft.elems ents))
                     (Raft.cap ents - (Raft.Index e - (index + 1)))) in *.
    assert (Hk' : Z.to_nat (Raft.Index e - (index + 1)) = k) by lia.
    assert (He0 : Raft.at_ suffix 0 = Ret e).
    { apply at_Ret. unfold suffix, Raft.len. simpl. rewrite len_drop by lia.
      split; [lia|]. rewrite lookup_drop, Hk'. rewrite Nat.add_0_r. exact Hk. }
    assert (Hsl : Raft.len suffix = Raft.len ents - Z.of_nat k).
    { unfold suffix, Raft.len at 1. simpl. rewrite len_drop by lia. lia. }
    assert (Hprev : Raft.Index e - 1 <= wf_last l sl).
    { destruct k as [|k'].
      - lia.
      - assert (Hlt : (k' < length (Raft.elems ents))%nat).
        { apply lookup_lt_Some in Hk. lia. }
        destruct (lookup_lt_is_Some_2 (Raft.elems ents) k' Hlt) as [p Hp].
        assert (Hmp : Raft.raftLog_matchTerm l (Raft.Index p) (Raft.Term p) = Ret true).
        { rewrite Forall_lookup in Hpre. apply (Hpre k' p).
          rewrite lookup_take_lt by lia. exact Hp. }
        pose proof (Hinside _ _ Hp Hmp) as Hip.
        destruct (Hpos _ _ Hp) as [Hpk _]. lia. }
    destruct (raftLog_append_terms l fi sl suffix e Hwf He0)
      as (l1 & Hap & Hwf1 & Hl1 & Hnew & Hold & Hc1 & _ & _).
    { unfold suffix. cbn [Raft.elems]. rewrite Hk'.
      replace (Raft.Index e) with (index + 1 + Z.of_nat k) by lia.
      apply consecutive_drop. exact Hcons. }
    { lia. }
    { lia. }
    { rewrite Hsl. lia. }
    rewrite Hap in Hrun. cbn [obind fst] in Hrun.
    destruct (Raft.raftLog_commitTo l1 (Z.min leaderCommit (index + Raft.len ents)))
      as [l2|] eqn:Hct; [|discriminate].
    cbn [obind] in Hrun. injection Hrun as <- _.
    assert (Hc0 : 0 <= Z.min leaderCommit (index + Raft.len ents)) by lia.
    destruct (raftLog_commitTo_wf l1 l2 fi sl _ Hwf1 Hc0 Hct) as (Hwf2 & Hs & Hu).
    split; [exact Hwf2|]. split.
    + rewrite (raftLog_matchTerm_of_term l1 l2) by (apply raftLog_term_same; assumption).
      rewrite (raftLog_matchTerm_of_term l l1) by (apply Hold; [exact Hiu|lia]).
      exact Hm.
    + apply Forall_lookup. intros j x Hj. cbn beta.
      rewrite (raftLog_matchTerm_of_term l1 l2) by (apply raftLog_term_same; assumption).
      destruct (Hpos j x Hj) as [Hxj Hjlt].
      destruct (Nat.lt_ge_cases j k) as [Hlt|Hge].
      * rewrite (raftLog_matchTerm_of_term l l1).
        -- rewrite Forall_lookup in Hpre. apply (Hpre j x).
           rewrite lookup_take_lt by lia. exact Hj.
        -- apply Hold; [unfold is_u64 in *; lia|lia].
      * unfold Raft.raftLog_matchTerm. rewrite (Hnew x).
        -- cbn [obind]. rewrite Z.eqb_refl. reflexivity.
        -- unfold suffix. cbn [Raft.elems]. rewrite Hk'.
           apply list_elem_of_lookup. exists (j - k)%nat. rewrite lookup_drop.
           replace (k + (j - k))%nat with j by lia. exact Hj.
Qed.

Lemma raftLog_maybeAppend_installs_witness :
  exists l',
    Raft.raftLog_maybeAppend (ext := Fixtures.doubling) (St := Fixtures.in_memory)
      (Fixtures.log3 1 0) 1 1 2
      (Fixtures.exact [Fixtures.entry 2 2; Fixtures.entry 3 2; Fixtures.entry 4 2])
      = Ret (l', (4, true)) /\
    Raft.raftLog_findConflict (St := Fixtures.in_memory) l'
      [Fixtures.entry 2 2; Fixtures.entry 3 2; Fixtures.entry 4 2] = Ret 0.
Proof.
  eexists. split; [vm_compute; reflexivity|].
  eapply (raftLog_maybeAppend_installs (ext := Fixtures.doubling) (St := Fixtures.in_memory)
            (Fixtures.log3 1 0) _ 1 3 1 1 2 4
            (Fixtures.exact [Fixtures.entry 2 2; Fixtures.entry 3 2; Fixtures.entry 4 2])).
  - apply log3_wf. unfold is_u64. lia.
  - vm_compute. split; discriminate.
  - vm_compute. reflexivity.
  - lia.
  - simpl. repeat split.
  - repeat constructor; simpl; lia.
  - vm_compute. reflexivity.
Defined.

(** ** The key index: put, tombstone and restore, then get *)

Section PutThenGet.
Import Mvcc.

Lemma i64_idem (z : Z) : i64 (i64 z) = i64 z.
Proof.
  unfold i64. set (m := (z + 2^63) mod 2^64).
  replace (m - 2^63 + 2^63) with m by lia.
  unfold m. rewrite Z.mod_mod by lia. reflexivity.
Qed.

(** The walk of [get] stops at the newest revision when that one is not
    above [atRev]. *)
Lemma generation_walk_newest (g : generation) (rs : list revision) (r : revision) (atRev : Z) :
  revs g = rs ++ [r] -> main r <= atRev ->
  generation_walk g (fun rev => main rev >? atRev) = zlen rs.
Proof.
  intros Hr Hle. unfold generation_walk. rewrite Hr, reverse_app. simpl.
  destruct (Z.gtb_spec (main r) atRev); [lia|].
  unfold zlen. rewrite length_app. simpl. lia.
Qed.

(** [findGeneration] answers the last generation when it is not empty and
    starts at or below [rev]. *)
Lemma keyIndex_findGeneration_last (ki : keyIndex) (gs : list generation) (g : generation)
    (r0 : revision) (rev : Z) :
  generations ki = gs ++ [g] -> head (revs g) = Some r0 -> main r0 <= rev ->
  keyIndex_findGeneration ki rev = Some g.
Proof.
  intros Hg Hh Hle. unfold keyIndex_findGeneration. rewrite Hg, reverse_app. simpl.
  rewrite Hh.
  destruct (last (revs g)) as [tomb|] eqn:Hl.
  - rewrite Z.eqb_refl. simpl. destruct (Z.leb_spec (main r0) rev); [reflexivity|lia].
  - destruct (revs g); [discriminate|]. rewrite last_cons in Hl.
    destruct (last l); discriminate.
Qed.

End PutThenGet.

(** X12: [put(main, sub)] with a revision above [modified] on a key index
    whose last generation, if it has revisions, starts at or below [main]:
    the revision becomes [modified], and [get(atRev)] for every
    atRev >= main finds it, with the generation's creation revision (the
    new revision itself when the generation was empty) and its version
    raised by one.  A revision that is not above [modified] makes [put]
    panic. *)
Theorem keyIndex_put_get (ki : Mvcc.keyIndex) (main_ sub_ atRev : Z) :
  let rev := Mvcc.mkRevision main_ sub_ in
  let g := default Mvcc.zero_generation (last (Mvcc.generations ki)) in
  (Mvcc.GreaterThan rev (Mvcc.modified ki) = false ->
   Mvcc.keyIndex_put ki main_ sub_ = Panic) /\
  (Mvcc.GreaterThan rev (Mvcc.modified ki) = true ->
   (forall r0, head (Mvcc.revs g) = Some r0 -> Mvcc.main r0 <= main_) ->
   - 2^63 <= Mvcc.ver g + 1 < 2^63 ->
   main_ <= atRev ->
   exists ki',
     Mvcc.keyIndex_put ki main_ sub_ = Ret ki' /\
     Mvcc.modified ki' = rev /\
     Mvcc.keyIndex_get ki' atRev =
       Ret (rev,
            (if Mvcc.generation_isEmpty g then rev else Mvcc.created g),
            Mvcc.ver g + 1, None)).
Proof.
  intros rev g. split.
  { intros Hgt. unfold Mvcc.keyIndex_put. fold rev. rewrite Hgt. reflexivity. }
  intros Hgt Hhead Hver Hat.
  unfold Mvcc.keyIndex_put. fold rev. rewrite Hgt. cbn [negb].
  set (gens := if zlen (Mvcc.generations ki) =? 0
               then Mvcc.generations ki ++ [Mvcc.zero_generation]
               else Mvcc.generations ki).
  assert (Hgens : exists pre, gens = pre ++ [g]).
  { unfold gens, g. destruct (Mvcc.generations ki) as [|x xs] eqn:Hks using rev_ind.
    - exists []. reflexivity.
    - clear IHxs. exists xs. rewrite last_snoc. simpl.
      destruct (Z.eqb_spec (zlen (xs ++ [x])) 0) as [Hz|]; [|reflexivity].
      unfold zlen in Hz. rewrite length_app in Hz. simpl in Hz. lia. }
  destruct Hgens as (pre & Hgens). rewrite Hgens.
  rewrite length_app. simpl length.
  replace (length pre + 1 - 1)%nat with (length pre) by lia.
  rewrite lookup_app_r by lia. rewrite Nat.sub_diag. simpl lookup. cbv iota beta.
  set (g1 := if zlen (Mvcc.revs g) =? 0
             then Mvcc.mkGeneration (Mvcc.ver g) rev (Mvcc.revs g) else g).
  set (g2 := Mvcc.mkGeneration (i64 (Mvcc.ver g1 + 1)) (Mvcc.created g1)
               (Mvcc.revs g1 ++ [rev])).
  assert (Hins : <[length pre := g2]> (pre ++ [g]) = pre ++ [g2]).
  { rewrite insert_app_r_alt by lia. rewrite Nat.sub_diag. reflexivity. }
  rewrite Hins.
  eexists. split; [reflexivity|]. split; [reflexivity|].
  assert (Hrevs1 : Mvcc.revs g1 = Mvcc.revs g).
  { unfold g1. destruct (zlen (Mvcc.revs g) =? 0); reflexivity. }
  assert (Hver1 : Mvcc.ver g1 = Mvcc.ver g).
  { unfold g1. destruct (zlen (Mvcc.revs g) =? 0); reflexivity. }
  assert (Hcr1 : Mvcc.created g1
                 = if Mvcc.generation_isEmpty g then rev else Mvcc.created g).
  { unfold g1, Mvcc.generation_isEmpty. destruct (Mvcc.revs g); reflexivity. }
  unfold Mvcc.keyIndex_get.
  assert (Hne : Mvcc.keyIndex_isEmpty (Mvcc.mkKeyIndex (Mvcc.key ki) rev (pre ++ [g2])) = false).
  { unfold Mvcc.keyIndex_isEmpty. cbn [Mvcc.generations].
    destruct pre as [|p [|p' pre']]; simpl.
    - unfold Mvcc.generation_isEmpty. cbn [g2 Mvcc.revs]. rewrite Hrevs1.
      destruct (Mvcc.revs g); reflexivity.
    - reflexivity.
    - destruct (pre' ++ [g2]) eqn:Hx; [|reflexivity].
      destruct pre'; discriminate. }
  rewrite Hne.
  assert (Hhead2 : exists r0, head (Mvcc.revs g2) = Some r0 /\ Mvcc.main r0 <= atRev).
  { cbn [g2 Mvcc.revs]. rewrite Hrevs1. destruct (Mvcc.revs g) as [|r0 rs] eqn:Hr.
    - exists rev. split; [reflexivity|]. simpl. lia.
    - exists r0. split; [reflexivity|]. specialize (Hhead r0 eq_refl). lia. }
  destruct Hhead2 as (r0 & Hh2 & Hle2).
  rewrite (keyIndex_findGeneration_last
             (Mvcc.mkKeyIndex (Mvcc.key ki) rev (pre ++ [g2])) pre g2 r0 atRev
             eq_refl Hh2 Hle2).
  assert (Hge2 : Mvcc.generation_isEmpty g2 = false).
  { unfold Mvcc.generation_isEmpty. cbn [g2 Mvcc.revs]. destruct (Mvcc.revs g1); reflexivity. }
  rewrite Hge2. cbn [negb].
  rewrite (generation_walk_newest g2 (Mvcc.revs g1) rev atRev eq_refl) by (simpl; lia).
  assert (Hn : 0 <= zlen (Mvcc.revs g1)) by (unfold zlen; lia).
  destruct (Z.eqb_spec (zlen (Mvcc.revs g1)) (-1)); [lia|]. cbn [negb].
  cbn [g2 Mvcc.revs Mvcc.ver Mvcc.created].
  rewrite lookup_app_r by (unfold zlen; lia).
  replace (Z.to_nat (zlen (Mvcc.revs g1)) - length (Mvcc.revs g1))%nat with 0%nat
    by (unfold zlen; lia).
  simpl lookup.
  replace (zlen (Mvcc.revs g1 ++ [rev]) - zlen (Mvcc.revs g1) - 1) with 0
    by (unfold zlen; rewrite length_app; simpl; lia).
  change (i64 0) with 0. rewrite Z.sub_0_r, i64_idem, Hver1, Hcr1.
  rewrite i64_small by lia. reflexivity.
Qed.

Lemma keyIndex_put_get_witness :
  exists ki',
    Mvcc.keyIndex_put (Mvcc.newKeyIndex []) 5 0 = Ret ki' /\
    Mvcc.keyIndex_get ki' 7 = Ret (Mvcc.mkRevision 5 0, Mvcc.mkRevision 5 0, 1, None).
Proof.
  destruct (keyIndex_put_get (Mvcc.newKeyIndex []) 5 0 7) as (_ & H).
  destruct H as (ki' & Hput & _ & Hget).
  - reflexivity.
  - intros r0 Hr0. discriminate Hr0.
  - simpl. lia.
  - lia.
  - exists ki'. split; [exact Hput|exact Hget].
Defined.

Section TombstoneThenGet.
Import Mvcc.

(** What [put] leaves in a key index that has generations. *)
Lemma keyIndex_put_result (ki : keyIndex) (pre : list generation) (g : generation)
    (main_ sub_ : Z) :
  generations ki = pre ++ [g] ->
  GreaterThan (mkRevision main_ sub_) (modified ki) = true ->
  keyIndex_put ki main_ sub_ =
    Ret (mkKeyIndex (key ki) (mkRevision main_ sub_)
           (pre ++ [mkGeneration (i64 (ver g + 1))
                      (if generation_isEmpty g then mkRevision main_ sub_ else created g)
                      (revs g ++ [mkRevision main_ sub_])])).
Proof.
  intros Hg Hgt. unfold keyIndex_put. rewrite Hgt. cbn [negb]. rewrite Hg.
  destruct (Z.eqb_spec (zlen (pre ++ [g])) 0) as [Hz|_].
  { unfold zlen in Hz. rewrite length_app in Hz. simpl in Hz. lia. }
  rewrite length_app. simpl length.
  replace (length pre + 1 - 1)%nat with (length pre) by lia.
  rewrite lookup_app_r by lia. rewrite Nat.sub_diag. simpl lookup. cbv iota beta.
  rewrite insert_app_r_alt by lia. rewrite Nat.sub_diag. simpl.
  unfold generation_isEmpty. destruct g as [v c rs]. simpl. destruct rs; reflexivity.
Qed.

Lemma keyIndex_isEmpty_snoc (k : list byte) (m : revision) (pre : list generation)
    (g : generation) :
  keyIndex_isEmpty (mkKeyIndex k m (pre ++ [g]))
    = match pre with [] => generation_isEmpty g | _ :: _ => false end.
Proof.
  unfold keyIndex_isEmpty. cbn [generations].
  destruct pre as [|p [|p' pre']]; simpl; reflexivity.
Qed.

End TombstoneThenGet.

(** X13: [tombstone(main, sub)] on a key index whose last generation [g] has
    revisions: the tombstone revision becomes [modified], a new empty
    generation is opened, [get(atRev)] for every atRev >= main answers
    [ErrRevisionNotFound], and a further [tombstone] answers
    [ErrRevisionNotFound] and changes nothing.  On a key index that is
    only an empty generation [tombstone] panics. *)
Theorem keyIndex_tombstone_get (ki : Mvcc.keyIndex) (pre : list Mvcc.generation)
    (g : Mvcc.generation) (main_ sub_ atRev : Z) :
  Mvcc.generations ki = pre ++ [g] ->
  (Mvcc.revs g = [] -> pre = [] -> Mvcc.keyIndex_tombstone ki main_ sub_ = Panic) /\
  (Mvcc.revs g <> [] ->
   Mvcc.GreaterThan (Mvcc.mkRevision main_ sub_) (Mvcc.modified ki) = true ->
   main_ <= atRev ->
   exists ki',
     Mvcc.keyIndex_tombstone ki main_ sub_ = Ret (ki', None) /\
     Mvcc.modified ki' = Mvcc.mkRevision main_ sub_ /\
     zlen (Mvcc.generations ki') = zlen (Mvcc.generations ki) + 1 /\
     Mvcc.keyIndex_get ki' atRev
       = Ret (Mvcc.zero_revision, Mvcc.zero_revision, 0, Some Mvcc.ErrRevisionNotFound) /\
     forall m' s',
       Mvcc.keyIndex_tombstone ki' m' s' = Ret (ki', Some Mvcc.ErrRevisionNotFound)).
Proof.
  intros Hg. split.
  { intros Hr ->. unfold Mvcc.keyIndex_tombstone, Mvcc.keyIndex_isEmpty.
    rewrite Hg. simpl. unfold Mvcc.generation_isEmpty. rewrite Hr. reflexivity. }
  intros Hr Hgt Hat.
  assert (Hge : Mvcc.generation_isEmpty g = false).
  { unfold Mvcc.generation_isEmpty. destruct (Mvcc.revs g); [contradiction|reflexivity]. }
  assert (Hemp : Mvcc.keyIndex_isEmpty ki = false).
  { destruct ki as [k m gs]. simpl in Hg. subst gs. rewrite keyIndex_isEmpty_snoc.
    destruct pre; [exact Hge|reflexivity]. }
  unfold Mvcc.keyIndex_tombstone at 1. rewrite Hemp, Hg.
  rewrite length_app. simpl length.
  replace (length pre + 1 - 1)%nat with (length pre) by lia.
  rewrite lookup_app_r by lia. rewrite Nat.sub_diag. simpl lookup. cbv iota beta.
  rewrite Hge. rewrite (keyIndex_put_result ki pre g main_ sub_ Hg Hgt). cbn [obind].
  rewrite Hge. cbn [Mvcc.key Mvcc.modified Mvcc.generations].
  set (rev := Mvcc.mkRevision main_ sub_).
  set (g2 := Mvcc.mkGeneration (i64 (Mvcc.ver g + 1)) (Mvcc.created g) (Mvcc.revs g ++ [rev])).
  set (ki' := Mvcc.mkKeyIndex (Mvcc.key ki) rev ((pre ++ [g2]) ++ [Mvcc.zero_generation])).
  exists ki'. split; [reflexivity|]. split; [reflexivity|].
  split.
  { cbn [ki' Mvcc.generations]. unfold zlen. rewrite !length_app. simpl. lia. }
  assert (Hemp' : Mvcc.keyIndex_isEmpty ki' = false).
  { unfold ki'. rewrite keyIndex_isEmpty_snoc. destruct pre; reflexivity. }
  split.
  - unfold Mvcc.keyIndex_get. rewrite Hemp'.
    unfold Mvcc.keyIndex_findGeneration. cbn [ki' Mvcc.generations].
    rewrite !reverse_app. simpl.
    assert (Hh : exists r0, head (Mvcc.revs g ++ [rev]) = Some r0).
    { destruct (Mvcc.revs g); simpl; eauto. }
    destruct Hh as (r0 & Hh). rewrite Hh, last_snoc.
    assert (Hcg : (zlen ((pre ++ [g2]) ++ [Mvcc.zero_generation]) - 1 - 1
                   =? zlen ((pre ++ [g2]) ++ [Mvcc.zero_generation]) - 1) = false).
    { apply Z.eqb_neq. lia. }
    rewrite Hcg. cbn [negb andb].
    destruct (Z.leb_spec (Mvcc.main rev) atRev); [reflexivity|simpl in *; lia].
  - intros m' s'. unfold Mvcc.keyIndex_tombstone. rewrite Hemp'.
    cbn [ki' Mvcc.generations].
    rewrite length_app. simpl length.
    replace (length (pre ++ [g2]) + 1 - 1)%nat with (length (pre ++ [g2])) by lia.
    rewrite lookup_app_r by lia. rewrite Nat.sub_diag. reflexivity.
Qed.

Lemma keyIndex_tombstone_get_witness :
  exists ki',
    Mvcc.keyIndex_tombstone
      (Mvcc.mkKeyIndex [] (Mvcc.mkRevision 5 0)
         [Mvcc.mkGeneration 1 (Mvcc.mkRevision 5 0) [Mvcc.mkRevision 5 0]]) 8 0
      = Ret (ki', None) /\
    Mvcc.keyIndex_get ki' 9
      = Ret (Mvcc.zero_revision, Mvcc.zero_revision, 0, Some Mvcc.ErrRevisionNotFound).
Proof.
  destruct (keyIndex_tombstone_get
              (Mvcc.mkKeyIndex [] (Mvcc.mkRevision 5 0)
                 [Mvcc.mkGeneration 1 (Mvcc.mkRevision 5 0) [Mvcc.mkRevision 5 0]])
              [] (Mvcc.mkGeneration 1 (Mvcc.mkRevision 5 0) [Mvcc.mkRevision 5 0]) 8 0 9)
    as (_ & H).
  - reflexivity.
  - destruct H as (ki' & Ht & _ & _ & Hget & _).
    + discriminate.
    + reflexivity.
    + lia.
    + exists ki'. split; [exact Ht|exact Hget].
Defined.

(** X14: [restore(created, modified, ver)] panics on a key index that has
    generations; on a fresh one it installs one generation, and then
    [get(atRev)] answers (modified, created, ver) for every
    atRev >= modified.main and [ErrRevisionNotFound] below. *)
Theorem keyIndex_restore_get (ki : Mvcc.keyIndex) (created_ modified_ : Mvcc.revision)
    (ver_ atRev : Z) :
  - 2^63 <= ver_ < 2^63 ->
  (Mvcc.generations ki <> [] ->
   Mvcc.keyIndex_restore ki created_ modified_ ver_ = Panic) /\
  (Mvcc.generations ki = [] ->
   exists ki',
     Mvcc.keyIndex_restore ki created_ modified_ ver_ = Ret ki' /\
     Mvcc.modified ki' = modified_ /\
     (Mvcc.main modified_ <= atRev ->
      Mvcc.keyIndex_get ki' atRev = Ret (modified_, created_, ver_, None)) /\
     (atRev < Mvcc.main modified_ ->
      Mvcc.keyIndex_get ki' atRev
        = Ret (Mvcc.zero_revision, Mvcc.zero_revision, 0, Some Mvcc.ErrRevisionNotFound))).
Proof.
  intros Hver. unfold Mvcc.keyIndex_restore. split.
  - intros Hne. destruct (Mvcc.generations ki); [contradiction|]. reflexivity.
  - intros ->. simpl. eexists. split; [reflexivity|]. split; [reflexivity|].
    unfold Mvcc.keyIndex_get, Mvcc.keyIndex_findGeneration, Mvcc.generation_walk. simpl.
    split; intros Hat.
    + destruct (Z.leb_spec (Mvcc.main modified_) atRev); [|lia]. simpl.
      destruct (Z.gtb_spec (Mvcc.main modified_) atRev); [lia|]. simpl.
      change (i64 0) with 0. rewrite Z.sub_0_r. rewrite i64_small by lia. reflexivity.
    + destruct (Z.leb_spec (Mvcc.main modified_) atRev); [lia|]. reflexivity.
Qed.

Lemma keyIndex_restore_get_witness :
  exists ki',
    Mvcc.keyIndex_restore (Mvcc.newKeyIndex []) (Mvcc.mkRevision 3 0) (Mvcc.mkRevision 5 1) 2
      = Ret ki' /\
    Mvcc.keyIndex_get ki' 5 = Ret (Mvcc.mkRevision 5 1, Mvcc.mkRevision 3 0, 2, None).
Proof.
  destruct (keyIndex_restore_get (Mvcc.newKeyIndex []) (Mvcc.mkRevision 3 0)
              (Mvcc.mkRevision 5 1) 2 5) as (_ & H).
  - lia.
  - destruct (H eq_refl) as (ki' & Hr & _ & Hget & _).
    exists ki'. split; [exact Hr|]. apply Hget. simpl. lia.
Defined.

(** ** keep and compact *)

Section KeepAndCompact.
Import Mvcc.

Lemma closed_generations_ok_lookup (gs : list generation) (i : nat) (g : generation) :
  closed_generations_ok gs -> gs !! i = Some g -> Z.of_nat i <> zlen gs - 1 ->
  (2 <= length (revs g))%nat.
Proof.
  revert i. induction gs as [|x rest IH]; intros i Hok Hl Hne.
  - rewrite lookup_nil in Hl. discriminate.
  - destruct rest as [|y rest'].
    + destruct i as [|i]; [unfold zlen in Hne; simpl in Hne; lia|].
      simpl in Hl. rewrite lookup_nil in Hl. discriminate.
    + destruct Hok as [Hx Hrest]. destruct i as [|i].
      * simpl in Hl. injection Hl as <-. exact Hx.
      * simpl in Hl. apply (IH i Hrest Hl).
        unfold zlen in *. simpl length in *. lia.
Qed.

End KeepAndCompact.

(** X15: [keep(atRev, available)] marks what [compact(atRev, available)]
    would: on a key index that is not empty and whose closed generations
    hold at least two revisions each, both return and leave the same
    [available] set ([keep] without touching the key index).  On an empty
    key index [keep] returns [available] as it is, where [compact]
    panics. *)
Theorem keyIndex_keep_agrees_with_compact (ki : Mvcc.keyIndex) (atRev : Z)
    (av : gset Mvcc.revision) :
  Mvcc.generations ki <> [] -> closed_generations_ok (Mvcc.generations ki) ->
  (Mvcc.keyIndex_isEmpty ki = true ->
   Mvcc.keyIndex_keep ki atRev av = Ret av /\ Mvcc.keyIndex_compact ki atRev av = Panic) /\
  (Mvcc.keyIndex_isEmpty ki = false ->
   exists ki' av',
     Mvcc.keyIndex_compact ki atRev av = Ret (ki', av') /\
     Mvcc.keyIndex_keep ki atRev av = Ret av').
Proof.
  intros Hne Hok. split.
  { intros He. unfold Mvcc.keyIndex_keep, Mvcc.keyIndex_compact. rewrite He. auto. }
  intros He.
  destruct (doCompact_loop_cut atRev (Mvcc.generations ki) [] Hne Hok)
    as (i & g & Hrun & Hlook & _ & _).
  simpl in Hrun, Hlook. change (zlen []) with 0 in Hrun.
  unfold Mvcc.keyIndex_keep, Mvcc.keyIndex_compact. rewrite He.
  unfold Mvcc.keyIndex_doCompact. rewrite Hrun. cbn [obind]. cbv iota beta.
  rewrite Nat2Z.id, Hlook.
  unfold Mvcc.generation_walk. fold (keep_from atRev). fold (walk_to atRev (Mvcc.revs g)).
  set (w := walk_to atRev (Mvcc.revs g)).
  pose proof (walk_to_bound atRev (Mvcc.revs g)) as Hw. fold w in Hw.
  set (av0 := match Mvcc.revs g !! Z.to_nat w with
              | Some r => if w =? -1 then av else {[r]} ∪ av
              | None => av
              end).
  destruct (Mvcc.generation_isEmpty g) eqn:Hge; cbn [negb].
  { eexists. eexists. split; reflexivity. }
  destruct (Z.eqb_spec (Z.of_nat i) (zlen (Mvcc.generations ki) - 1)) as [Hlast|Hclosed].
  { rewrite !andb_false_r. eexists. eexists. split; reflexivity. }
  cbn [negb]. rewrite !andb_true_r.
  pose proof (closed_generations_ok_lookup _ _ _ Hok Hlook Hclosed) as Htwo.
  destruct (Z.eqb_spec w (-1)) as [Hm1|Hfound]; cbn [negb]; cbv iota.
  - destruct (Z.eqb_spec (zlen (Mvcc.revs g)) 1) as [H1|_]; [unfold zlen in H1; lia|].
    destruct (Z.eqb_spec w (zlen (Mvcc.revs g) - 1)) as [H2|_]; [unfold zlen in H2; lia|].
    eexists. eexists. split; reflexivity.
  - cbn [Mvcc.revs].
    assert (Hlen : zlen (drop (Z.to_nat w) (Mvcc.revs g)) = zlen (Mvcc.revs g) - w).
    { unfold zlen in *. rewrite length_drop. lia. }
    rewrite Hlen.
    destruct (Z.eqb_spec (zlen (Mvcc.revs g) - w) 1) as [H1|H1];
      destruct (Z.eqb_spec w (zlen (Mvcc.revs g) - 1)) as [H2|H2]; try lia.
    + destruct (Z.ltb_spec w 0); [lia|].
      destruct (lookup_lt_is_Some_2 (Mvcc.revs g) (Z.to_nat w)) as [r0 Hr0];
        [unfold zlen in *; lia|].
      rewrite Hr0. rewrite (drop_S _ _ _ Hr0).
      eexists. eexists. split; reflexivity.
    + eexists. eexists. split; reflexivity.
Qed.

Lemma keyIndex_keep_agrees_with_compact_witness :
  exists ki' av',
    Mvcc.keyIndex_compact commented_key 2 ∅ = Ret (ki', av') /\
    Mvcc.keyIndex_keep commented_key 2 ∅ = Ret av'.
Proof.
  destruct (keyIndex_keep_agrees_with_compact commented_key 2 ∅) as (_ & H).
  - discriminate.
  - simpl. repeat split; lia.
  - apply H. reflexivity.
Defined.

(** ** keyIndex.equal *)

Section Equal.
Import Mvcc.

Lemma bytes_Equal_eq (a b : list byte) : bytes_Equal a b = true <-> a = b.
Proof.
  revert b. induction a as [|x a IH]; intros [|y b]; simpl; split; intros H;
    try reflexivity; try discriminate.
  - apply andb_true_iff in H. destruct H as [Hxy Hab].
    apply Byte.byte_dec_bl in Hxy. apply IH in Hab. congruence.
  - injection H as -> ->. apply andb_true_iff. split; [apply Byte.byte_dec_lb; reflexivity|].
    apply IH. reflexivity.
Qed.

Lemma revision_eqb_eq (a b : revision) : revision_eqb a b = true <-> a = b.
Proof.
  unfold revision_eqb. destruct a as [m s], b as [m' s']. simpl.
  rewrite andb_true_iff, !Z.eqb_eq. split; [intros [-> ->]; reflexivity|intros [= -> ->]; auto].
Qed.

Lemma revs_equal_eq (a b : list revision) :
  length a = length b -> (revs_equal a b = true <-> a = b).
Proof.
  revert b. induction a as [|x a IH]; intros [|y b] Hl; simpl in *; try discriminate.
  - split; reflexivity.
  - destruct (revision_eqb x y) eqn:Hxy; simpl.
    + apply revision_eqb_eq in Hxy. subst y. rewrite IH by lia.
      split; [intros ->; reflexivity|intros [= ->]; reflexivity].
    + split; [discriminate|]. intros [= -> ->].
      assert (revision_eqb y y = true) by (apply revision_eqb_eq; reflexivity). congruence.
Qed.

Lemma generation_equal_spec (g h : generation) :
  generation_equal g h = true <-> ver g = ver h /\ revs g = revs h.
Proof.
  unfold generation_equal.
  destruct (Z.eqb_spec (ver g) (ver h)) as [Hv|Hv]; simpl; [|split; [discriminate|tauto]].
  destruct (Z.eqb_spec (zlen (revs g)) (zlen (revs h))) as [Hl|Hl]; simpl.
  - rewrite revs_equal_eq by (unfold zlen in Hl; lia). tauto.
  - split; [discriminate|]. intros [_ Hr]. rewrite Hr in Hl. contradiction.
Qed.

Lemma generations_equal_spec (a b : list generation) :
  length a = length b ->
  (generations_equal a b = true <->
   Forall2 (fun g h => ver g = ver h /\ revs g = revs h) a b).
Proof.
  revert b. induction a as [|x a IH]; intros [|y b] Hl; simpl in *; try discriminate.
  - split; [constructor|reflexivity].
  - destruct (generation_equal x y) eqn:Hxy; simpl.
    + apply generation_equal_spec in Hxy. rewrite IH by lia.
      split; [intros H; constructor; assumption|intros H; inversion H; assumption].
    + split; [discriminate|]. intros H. inversion H as [|? ? ? ? Hg _]; subst.
      apply generation_equal_spec in Hg. congruence.
Qed.

End Equal.

(** X16: [equal] compares the key, [modified], and the version and the
    revisions of every generation, and nothing else: it holds exactly when
    these agree, whatever the creation revisions of the generations are. *)
Theorem keyIndex_equal_spec (a b : Mvcc.keyIndex) :
  Mvcc.keyIndex_equal a b = true <->
  Mvcc.key a = Mvcc.key b /\ Mvcc.modified a = Mvcc.modified b /\
  Forall2 (fun g h => Mvcc.ver g = Mvcc.ver h /\ Mvcc.revs g = Mvcc.revs h)
    (Mvcc.generations a) (Mvcc.generations b).
Proof.
  unfold Mvcc.keyIndex_equal.
  destruct (Mvcc.bytes_Equal (Mvcc.key a) (Mvcc.key b)) eqn:Hk; simpl.
  2:{ split; [discriminate|]. intros (Hk' & _). apply bytes_Equal_eq in Hk'. congruence. }
  apply bytes_Equal_eq in Hk.
  destruct (Mvcc.revision_eqb (Mvcc.modified a) (Mvcc.modified b)) eqn:Hm; simpl.
  2:{ split; [discriminate|]. intros (_ & Hm' & _). apply revision_eqb_eq in Hm'. congruence. }
  apply revision_eqb_eq in Hm.
  destruct (Z.eqb_spec (zlen (Mvcc.generations a)) (zlen (Mvcc.generations b))) as [Hl|Hl];
    simpl.
  - rewrite generations_equal_spec by (unfold zlen in Hl; lia). tauto.
  - split; [discriminate|]. intros (_ & _ & Hf). apply Forall2_length in Hf.
    unfold zlen in Hl. lia.
Qed.

(** ** keyIndex.since *)

(** Of successive revisions with the same main revision, the last one. *)
Fixpoint last_per_main (rs : list Mvcc.revision) : list Mvcc.revision :=
  match rs with
  | [] => []
  | r :: rest =>
      match rest with
      | [] => [r]
      | r' :: _ =>
          if Mvcc.main r =? Mvcc.main r' then last_per_main rest
          else r :: last_per_main rest
      end
  end.

(** The revisions that [since(rev)] does not skip. *)
Definition not_before (rev : Z) (r : Mvcc.revision) : bool :=
  negb (Mvcc.GreaterThan (Mvcc.mkRevision rev 0) r).

(** Every generation that has revisions was created after all the
    revisions of the generations before it. *)
Definition created_after (gs : list Mvcc.generation) : Prop :=
  forall pre g post,
    gs = pre ++ g :: post -> Mvcc.revs g <> [] ->
    Forall (fun r => Mvcc.GreaterThan (Mvcc.created g) r = true)
      (concat (map Mvcc.revs pre)).

Section Since.
Import Mvcc.
Variable rev : Z.
Hypothesis Hrev : 0 < rev.
Let since := mkRevision rev 0.

Lemma GreaterThan_trans (a b c : revision) :
  GreaterThan a b = true -> GreaterThan b c = true -> GreaterThan a c = true.
Proof.
  unfold GreaterThan. intros H1 H2.
  apply orb_true_iff in H1. apply orb_true_iff in H2. apply orb_true_iff.
  rewrite !andb_true_iff, !Z.gtb_gt, !Z.eqb_eq in *. lia.
Qed.

Lemma not_before_main (r : revision) : not_before rev r = true -> rev <= main r.
Proof.
  unfold not_before, GreaterThan. simpl. intros H. apply negb_true_iff in H.
  apply orb_false_iff in H. destruct H as [H _].
  destruct (Z.gtb_spec rev (main r)); [discriminate|lia].
Qed.

Lemma since_loop_snoc (rs pre : list revision) (x : revision) :
  exists last_,
    since_loop since rs (pre ++ [x], main x)
      = Ret (pre ++ last_per_main (x :: filter (fun r => not_before rev r = true) rs), last_).
Proof.
  revert pre x. induction rs as [|r rest IH]; intros pre x.
  - simpl. eauto.
  - cbn [since_loop since_step]. rewrite filter_cons.
    destruct (GreaterThan since r) eqn:Hgt; cbn [negb obind].
    + rewrite decide_False by (unfold not_before; fold since; rewrite Hgt; discriminate).
      apply IH.
    + rewrite decide_True by (unfold not_before; fold since; rewrite Hgt; reflexivity).
      destruct (Z.eqb_spec (main r) (main x)) as [Heq|Hne].
      * destruct (pre ++ [x]) as [|y ys] eqn:Hpx; [destruct pre; discriminate|].
        rewrite <- Hpx. cbn [obind].
        rewrite length_app. simpl length.
        replace (length pre + 1 - 1)%nat with (length pre) by lia.
        rewrite insert_app_r_alt by lia. rewrite Nat.sub_diag. simpl insert.
        destruct (IH pre r) as (l' & Hl'). rewrite <- Heq, Hl'.
        exists l'. do 2 f_equal. cbn [last_per_main].
        destruct (Z.eqb_spec (main x) (main r)); [reflexivity|lia].
      * cbn [obind]. destruct (IH (pre ++ [x]) r) as (l' & Hl'). rewrite Hl'.
        exists l'. rewrite <- app_assoc. do 2 f_equal. cbn [last_per_main].
        destruct (Z.eqb_spec (main x) (main r)); [lia|reflexivity].
Qed.

Lemma since_loop_start (rs : list revision) :
  exists last_,
    since_loop since rs ([], 0)
      = Ret (last_per_main (filter (fun r => not_before rev r = true) rs), last_).
Proof.
  induction rs as [|r rest IH].
  - simpl. eauto.
  - cbn [since_loop since_step]. rewrite filter_cons.
    destruct (GreaterThan since r) eqn:Hgt; cbn [negb obind].
    + rewrite decide_False by (unfold not_before; fold since; rewrite Hgt; discriminate).
      apply IH.
    + assert (Hnb : not_before rev r = true).
      { unfold not_before. fold since. rewrite Hgt. reflexivity. }
      rewrite decide_True by exact Hnb.
      pose proof (not_before_main r Hnb) as Hm.
      destruct (Z.eqb_spec (main r) 0); [lia|]. cbn [obind].
      apply (since_loop_snoc rest [] r).
Qed.

(** The first loop stops at a generation before which every revision is
    skipped. *)
Lemma since_start_skips (g0 : generation) (mid : list generation) :
  created_after (g0 :: mid) ->
  let gi := since_start since (reverse mid) (zlen mid) in
  0 <= gi <= zlen mid /\
  filter (fun r => not_before rev r = true)
    (concat (map revs (take (Z.to_nat gi) (g0 :: mid)))) = [].
Proof.
  induction mid as [|g mid' IH] using rev_ind; intros Hca gi.
  - unfold gi. simpl. split; [unfold zlen; simpl; lia|reflexivity].
  - assert (Hca' : created_after (g0 :: mid')).
    { intros pre x post Hsplit Hx. apply (Hca pre x (post ++ [g])); [|exact Hx].
      rewrite app_comm_cons, Hsplit, <- app_assoc. reflexivity. }
    specialize (IH Hca'). cbn zeta in IH. destruct IH as [Hgi Hskip].
    assert (Hz : zlen (mid' ++ [g]) - 1 = zlen mid').
    { unfold zlen. rewrite length_app. simpl. lia. }
    assert (Hrec : 0 <= since_start since (reverse mid') (zlen mid') <= zlen (mid' ++ [g]) /\
                   filter (fun r => not_before rev r = true)
                     (concat (map revs
                        (take (Z.to_nat (since_start since (reverse mid') (zlen mid')))
                           (g0 :: mid' ++ [g])))) = []).
    { split; [lia|].
      rewrite app_comm_cons, take_app_le by (simpl; unfold zlen in *; lia). exact Hskip. }
    unfold gi. rewrite reverse_app.
    change (reverse [g] ++ reverse mid') with (g :: reverse mid').
    cbn [since_start]. rewrite Hz.
    destruct (generation_isEmpty g) eqn:Hge; [exact Hrec|].
    destruct (GreaterThan since (created g)) eqn:Hgt; [|exact Hrec].
    split; [lia|].
    replace (Z.to_nat (zlen (mid' ++ [g]))) with (length (g0 :: mid'))
      by (unfold zlen; rewrite length_app; simpl; lia).
    rewrite app_comm_cons, take_app_length.
    assert (Hall : Forall (fun r => GreaterThan (created g) r = true)
                     (concat (map revs (g0 :: mid')))).
    { apply (Hca (g0 :: mid') g []); [reflexivity|].
      unfold generation_isEmpty in Hge. destruct (revs g); [discriminate|]. discriminate. }
    induction Hall as [|r rs Hr Hrs IHrs]; [reflexivity|].
    rewrite filter_cons.
    rewrite decide_False; [exact IHrs|].
    unfold not_before. fold since.
    rewrite (GreaterThan_trans since (created g) r Hgt Hr). discriminate.
Qed.

End Since.

(** X17: [since(rev)], for rev > 0, on a key index that is not empty and in
    which every generation was created after the revisions of the
    generations before it: it returns, in their order, the revisions of the
    key index that are not before (rev, 0), and of successive revisions
    with the same main revision only the last one.  On an empty key index
    it panics. *)
Theorem keyIndex_since_spec (ki : Mvcc.keyIndex) (rev : Z) :
  (Mvcc.keyIndex_isEmpty ki = true -> Mvcc.keyIndex_since ki rev = Panic) /\
  (Mvcc.keyIndex_isEmpty ki = false -> Mvcc.generations ki <> [] -> 0 < rev ->
   created_after (Mvcc.generations ki) ->
   Mvcc.keyIndex_since ki rev =
     Ret (last_per_main
            (filter (fun r => not_before rev r = true)
               (concat (map Mvcc.revs (Mvcc.generations ki)))))).
Proof.
  unfold Mvcc.keyIndex_since. split.
  { intros ->. reflexivity. }
  intros -> Hne Hrev Hca.
  destruct (Mvcc.generations ki) as [|g0 mid] eqn:Hg; [contradiction|].
  cbn [drop]. rewrite drop_0.
  replace (zlen (g0 :: mid) - 1) with (zlen mid) by (unfold zlen; simpl length; lia).
  destruct (since_start_skips rev g0 mid Hca) as [Hgi Hskip].
  set (gi := Mvcc.since_start (Mvcc.mkRevision rev 0) (reverse mid) (zlen mid)) in *.
  destruct (Z.ltb_spec gi 0); [lia|].
  destruct (since_loop_start rev Hrev
              (concat (map Mvcc.revs (drop (Z.to_nat gi) (g0 :: mid))))) as (l' & Hl').
  rewrite Hl'. cbn [obind fst]. do 2 f_equal.
  rewrite <- (take_drop (Z.to_nat gi) (g0 :: mid)) at 2.
  rewrite map_app, concat_app, filter_app, Hskip. reflexivity.
Qed.

(** put(1.0); put(2.0); put(2.1); tombstone(3.0); put(4.0) *)
Definition revised_key : Mvcc.keyIndex :=
  Mvcc.mkKeyIndex [] (Mvcc.mkRevision 4 0)
    [ Mvcc.mkGeneration 4 (Mvcc.mkRevision 1 0)
        [Mvcc.mkRevision 1 0; Mvcc.mkRevision 2 0; Mvcc.mkRevision 2 1; Mvcc.mkRevision 3 0];
      Mvcc.mkGeneration 1 (Mvcc.mkRevision 4 0) [Mvcc.mkRevision 4 0] ].

Lemma keyIndex_since_spec_witness :
  Mvcc.keyIndex_since revised_key 2
    = Ret [Mvcc.mkRevision 2 1; Mvcc.mkRevision 3 0; Mvcc.mkRevision 4 0].
Proof.
  destruct (keyIndex_since_spec revised_key 2) as (_ & H).
  rewrite H.
  - reflexivity.
  - reflexivity.
  - discriminate.
  - lia.
  - intros pre g post Hsplit Hr.
    destruct pre as [|p pre]; [constructor|].
    destruct pre as [|p' pre].
    + injection Hsplit as <- <- <-. repeat constructor.
    + destruct pre; discriminate.
Defined.

(** ** The bucket buffer: contents *)

Section KeyOrder.
Import Backend.

Lemma to_N_inj (x y : byte) : Byte.to_N x = Byte.to_N y -> x = y.
Proof.
  intros H. pose proof (Byte.of_to_N x) as Hx. pose proof (Byte.of_to_N y) as Hy.
  rewrite H in Hx. congruence.
Qed.

Lemma bytes_Compare_range (a b : list byte) : -1 <= bytes_Compare a b <= 1.
Proof.
  revert b. induction a as [|x a IH]; intros [|y b]; simpl; try lia.
  destruct (Byte.to_N x <? Byte.to_N y)%N; [lia|].
  destruct (Byte.to_N y <? Byte.to_N x)%N; [lia|]. apply IH.
Qed.

Lemma bytes_Compare_refl (a : list byte) : bytes_Compare a a = 0.
Proof.
  induction a as [|x a IH]; [reflexivity|]. simpl.
  rewrite N.ltb_irrefl. exact IH.
Qed.

Lemma bytes_Compare_eq (a b : list byte) : bytes_Compare a b = 0 -> a = b.
Proof.
  revert b. induction a as [|x a IH]; intros [|y b]; simpl; try reflexivity; try discriminate.
  destruct (N.ltb_spec (Byte.to_N x) (Byte.to_N y)) as [|H1]; [discriminate|].
  destruct (N.ltb_spec (Byte.to_N y) (Byte.to_N x)) as [|H2]; [discriminate|].
  intros Hc. rewrite (IH b Hc). f_equal. apply to_N_inj. lia.
Qed.

Lemma bytes_Compare_antisym (a b : list byte) : bytes_Compare b a = - bytes_Compare a b.
Proof.
  revert b. induction a as [|x a IH]; intros [|y b]; simpl; try reflexivity.
  destruct (N.ltb_spec (Byte.to_N x) (Byte.to_N y));
    destruct (N.ltb_spec (Byte.to_N y) (Byte.to_N x)); try lia. apply IH.
Qed.

(** The order on keys is transitive: if a <= b and b <= c then a <= c,
    strictly when one of the two steps is strict. *)
Lemma bytes_Compare_trans (a b c : list byte) :
  bytes_Compare a b <= 0 -> bytes_Compare b c <= 0 ->
  bytes_Compare a c <= 0 /\
  (bytes_Compare a b < 0 \/ bytes_Compare b c < 0 -> bytes_Compare a c < 0).
Proof.
  revert b c. induction a as [|x a IH]; intros [|y b] [|z c]; simpl; try lia.
  destruct (N.ltb_spec (Byte.to_N x) (Byte.to_N y));
    destruct (N.ltb_spec (Byte.to_N y) (Byte.to_N x));
    destruct (N.ltb_spec (Byte.to_N y) (Byte.to_N z));
    destruct (N.ltb_spec (Byte.to_N z) (Byte.to_N y));
    destruct (N.ltb_spec (Byte.to_N x) (Byte.to_N z));
    destruct (N.ltb_spec (Byte.to_N z) (Byte.to_N x)); try lia.
  apply IH.
Qed.

Lemma bytes_Equal_iff (a b : list byte) : bytes_Equal a b = true <-> a = b.
Proof.
  unfold bytes_Equal. rewrite Z.eqb_eq. split; [apply bytes_Compare_eq|].
  intros ->. apply bytes_Compare_refl.
Qed.

(** Keys in strictly ascending order, and in ascending order. *)
Definition klt (x y : kv) : Prop := bytes_Compare (key x) (key y) < 0.
Definition kle (x y : kv) : Prop := bytes_Compare (key x) (key y) <= 0.

Fixpoint sorted_by (R : kv -> kv -> Prop) (l : list kv) : Prop :=
  match l with
  | [] => True
  | x :: rest => Forall (R x) rest /\ sorted_by R rest
  end.

(** The pairs in use, and the value the last pair of key [k] holds. *)
Definition used_kvs (bb : bucketBuffer) : list kv := take (Z.to_nat (used bb)) (buf bb).

Fixpoint find_key (k : list byte) (l : list kv) : option (list byte) :=
  match l with
  | [] => None
  | x :: rest =>
      match find_key k rest with
      | Some v => Some v
      | None => if bytes_Equal (key x) k then Some (val x) else None
      end
  end.

Lemma find_key_app (k : list byte) (l1 l2 : list kv) :
  find_key k (l1 ++ l2) = match find_key k l2 with
                          | Some v => Some v
                          | None => find_key k l1
                          end.
Proof.
  induction l1 as [|x l1 IH]; simpl.
  - destruct (find_key k l2); reflexivity.
  - rewrite IH. destruct (find_key k l2); reflexivity.
Qed.

Lemma find_key_None (k : list byte) (l : list kv) :
  find_key k l = None <-> Forall (fun x => key x <> k) l.
Proof.
  induction l as [|x l IH]; simpl.
  - split; [constructor|reflexivity].
  - destruct (find_key k l) as [v|].
    + split; [discriminate|]. intros H. inversion H as [|? ? _ Hl]; subst.
      apply IH in Hl. discriminate.
    + destruct (bytes_Equal (key x) k) eqn:He.
      * apply bytes_Equal_iff in He. split; [discriminate|].
        intros H. inversion H; subst. contradiction.
      * split; [|reflexivity]. intros _. constructor; [|apply IH; reflexivity].
        intros Hk. apply bytes_Equal_iff in Hk. congruence.
Qed.

Lemma sorted_by_app (R : kv -> kv -> Prop) (l1 l2 : list kv) :
  sorted_by R (l1 ++ l2) <->
  sorted_by R l1 /\ sorted_by R l2 /\ Forall (fun x => Forall (R x) l2) l1.
Proof.
  induction l1 as [|x l1 IH]; simpl.
  - split; [intros H; repeat split; [exact H|constructor]|tauto].
  - rewrite Forall_app, IH, Forall_cons. tauto.
Qed.

Lemma sorted_by_lookup (R : kv -> kv -> Prop) (l : list kv) (i j : nat) (a b : kv) :
  sorted_by R l -> l !! i = Some a -> l !! j = Some b -> (i < j)%nat -> R a b.
Proof.
  revert i j. induction l as [|x l IH]; intros i j Hs Hi Hj Hlt.
  - rewrite lookup_nil in Hi. discriminate.
  - destruct Hs as [Hx Hl]. destruct j as [|j]; [lia|]. simpl in Hj.
    destruct i as [|i]; simpl in Hi.
    + injection Hi as <-. rewrite Forall_lookup in Hx. apply (Hx j b Hj).
    + apply (IH i j Hl Hi Hj). lia.
Qed.

End KeyOrder.

Section SortAndDedup.
Import Backend.

(** Of successive pairs with the same key, the last one: what the loop
    after [sort.Stable] keeps. *)
Fixpoint last_per_key (s : list kv) : list kv :=
  match s with
  | [] => []
  | x :: rest =>
      match rest with
      | [] => [x]
      | y :: _ =>
          if bytes_Equal (key y) (key x) then last_per_key rest
          else x :: last_per_key rest
      end
  end.

Lemma kv_Less_klt (x y : kv) : kv_Less x y = true <-> klt x y.
Proof. unfold kv_Less, klt. apply Z.ltb_lt. Qed.

Lemma not_kv_Less_kle (x y : kv) : kv_Less y x = false -> kle x y.
Proof.
  unfold kv_Less, kle. intros H. apply Z.ltb_ge in H.
  rewrite (bytes_Compare_antisym (key y) (key x)). lia.
Qed.

Lemma kle_trans (x y z : kv) : kle x y -> kle y z -> kle x z.
Proof. unfold kle. intros H1 H2. apply (bytes_Compare_trans _ _ _ H1 H2). Qed.

Lemma klt_kle_trans (x y z : kv) : klt x y -> kle y z -> klt x z.
Proof.
  unfold klt, kle. intros H1 H2.
  apply (bytes_Compare_trans (key x) (key y) (key z)); [lia|exact H2|left; exact H1].
Qed.

Lemma insert_stable_Forall (P : kv -> Prop) (x : kv) (s : list kv) :
  P x -> Forall P s -> Forall P (insert_stable x s).
Proof.
  intros Hx Hs. induction Hs as [|y rest Hy Hrest IH]; simpl; [constructor; auto|].
  destruct (kv_Less y x); constructor; auto.
Qed.

Lemma insert_stable_sorted (x : kv) (s : list kv) :
  sorted_by kle s -> sorted_by kle (insert_stable x s).
Proof.
  induction s as [|y rest IH]; intros Hs; simpl; [auto|].
  destruct Hs as [Hy Hrest].
  destruct (kv_Less y x) eqn:Hlt.
  - simpl. split; [|apply IH; exact Hrest].
    apply insert_stable_Forall; [|exact Hy].
    apply kv_Less_klt in Hlt. unfold klt, kle in *. lia.
  - pose proof (not_kv_Less_kle _ _ Hlt) as Hxy. simpl.
    split; [|split; assumption].
    constructor; [exact Hxy|].
    eapply Forall_impl; [exact Hy|]. intros z Hz. apply (kle_trans _ _ _ Hxy Hz).
Qed.

Lemma stable_sort_sorted (l : list kv) : sorted_by kle (stable_sort l).
Proof.
  induction l as [|x rest IH]; [exact I|].
  change (stable_sort (x :: rest)) with (insert_stable x (stable_sort rest)).
  apply insert_stable_sorted. exact IH.
Qed.

(** The sort is stable: among the pairs of a key, the last one stays the
    last one. *)
Lemma find_key_insert_stable (k : list byte) (x : kv) (s : list kv) :
  find_key k (insert_stable x s) = find_key k (x :: s).
Proof.
  induction s as [|y rest IH]; [reflexivity|]. simpl.
  destruct (kv_Less y x) eqn:Hlt; [|reflexivity].
  simpl. rewrite IH. simpl.
  destruct (find_key k rest) as [v|]; [reflexivity|].
  destruct (bytes_Equal (key x) k) eqn:Hx; destruct (bytes_Equal (key y) k) eqn:Hy;
    try reflexivity.
  apply bytes_Equal_iff in Hx, Hy. apply kv_Less_klt in Hlt. unfold klt in Hlt.
  rewrite Hx, Hy, bytes_Compare_refl in Hlt. lia.
Qed.

Lemma find_key_stable_sort (k : list byte) (l : list kv) :
  find_key k (stable_sort l) = find_key k l.
Proof.
  induction l as [|x rest IH]; [reflexivity|].
  change (stable_sort (x :: rest)) with (insert_stable x (stable_sort rest)).
  rewrite find_key_insert_stable. simpl. rewrite IH. reflexivity.
Qed.

Lemma find_key_last_per_key (k : list byte) (s : list kv) :
  find_key k (last_per_key s) = find_key k s.
Proof.
  induction s as [|x rest IH]; [reflexivity|].
  destruct rest as [|y rest']; [reflexivity|].
  change (last_per_key (x :: y :: rest'))
    with (if bytes_Equal (key y) (key x) then last_per_key (y :: rest')
          else x :: last_per_key (y :: rest')).
  destruct (bytes_Equal (key y) (key x)) eqn:Hyx.
  - rewrite IH. change (find_key k (x :: y :: rest'))
      with (match find_key k (y :: rest') with
            | Some v => Some v
            | None => if bytes_Equal (key x) k then Some (val x) else None
            end).
    destruct (find_key k (y :: rest')) as [v|] eqn:Hf; [reflexivity|].
    destruct (bytes_Equal (key x) k) eqn:Hx; [|reflexivity].
    apply find_key_None in Hf. inversion Hf as [|? ? Hy _]; subst.
    apply bytes_Equal_iff in Hyx, Hx. congruence.
  - change (find_key k (x :: last_per_key (y :: rest')))
      with (match find_key k (last_per_key (y :: rest')) with
            | Some v => Some v
            | None => if bytes_Equal (key x) k then Some (val x) else None
            end).
    rewrite IH. reflexivity.
Qed.

Lemma last_per_key_Forall (P : kv -> Prop) (s : list kv) :
  Forall P s -> Forall P (last_per_key s).
Proof.
  induction s as [|x rest IH]; intros Hs; [constructor|].
  inversion Hs as [|? ? Hx Hrest]; subst.
  destruct rest as [|y rest']; [constructor; auto|].
  change (last_per_key (x :: y :: rest'))
    with (if bytes_Equal (key y) (key x) then last_per_key (y :: rest')
          else x :: last_per_key (y :: rest')).
  destruct (bytes_Equal (key y) (key x)); [auto|constructor; auto].
Qed.

Lemma last_per_key_sorted (s : list kv) :
  sorted_by kle s -> sorted_by klt (last_per_key s).
Proof.
  induction s as [|x rest IH]; intros Hs; [exact I|].
  destruct Hs as [Hx Hrest].
  destruct rest as [|y rest']; [simpl; auto|].
  change (last_per_key (x :: y :: rest'))
    with (if bytes_Equal (key y) (key x) then last_per_key (y :: rest')
          else x :: last_per_key (y :: rest')).
  destruct (bytes_Equal (key y) (key x)) eqn:Hyx; [apply IH; exact Hrest|].
  split; [|apply IH; exact Hrest].
  apply last_per_key_Forall.
  inversion Hx as [|? ? Hxy Hxr]; subst.
  assert (Hlt : klt x y).
  { unfold klt, kle in *.
    destruct (Z.eq_dec (bytes_Compare (key x) (key y)) 0) as [Hz|]; [|lia].
    apply bytes_Compare_eq in Hz.
    assert (bytes_Equal (key y) (key x) = true) by (apply bytes_Equal_iff; congruence).
    congruence. }
  constructor; [exact Hlt|].
  destruct Hrest as [Hy _].
  eapply Forall_impl; [exact Hy|]. intros z Hz. apply (klt_kle_trans _ _ _ Hlt Hz).
Qed.

Lemma last_per_key_nonempty (x : kv) (rest : list kv) : last_per_key (x :: rest) <> [].
Proof.
  revert x. induction rest as [|y rest' IH]; intros x; [discriminate|].
  change (last_per_key (x :: y :: rest'))
    with (if bytes_Equal (key y) (key x) then last_per_key (y :: rest')
          else x :: last_per_key (y :: rest')).
  destruct (bytes_Equal (key y) (key x)); [apply IH|discriminate].
Qed.

(** One more pair at the end. *)
Lemma last_per_key_snoc (l pre : list kv) (x e : kv) :
  last_per_key l = pre ++ [x] ->
  last_per_key (l ++ [e]) =
    if bytes_Equal (key e) (key x) then pre ++ [e] else pre ++ [x; e].
Proof.
  revert pre. induction l as [|a rest IH]; intros pre Hl.
  - destruct pre; discriminate.
  - destruct rest as [|b rest'].
    + simpl in Hl. destruct pre as [|p pre]; [|destruct pre; discriminate].
      injection Hl as <-. simpl.
      destruct (bytes_Equal (key e) (key a)); reflexivity.
    + change (last_per_key (a :: b :: rest'))
        with (if bytes_Equal (key b) (key a) then last_per_key (b :: rest')
              else a :: last_per_key (b :: rest')) in Hl.
      change (last_per_key ((a :: b :: rest') ++ [e]))
        with (if bytes_Equal (key b) (key a) then last_per_key ((b :: rest') ++ [e])
              else a :: last_per_key ((b :: rest') ++ [e])).
      destruct (bytes_Equal (key b) (key a)).
      * apply IH. exact Hl.
      * destruct pre as [|p pre'].
        { simpl in Hl. injection Hl as _ Hl.
          exfalso. apply (last_per_key_nonempty b rest'). exact Hl. }
        simpl in Hl. injection Hl as <- Hl.
        rewrite (IH pre' Hl).
        destruct (bytes_Equal (key e) (key x)); reflexivity.
Qed.

End SortAndDedup.

Section MergeContent.
Import Backend.

Lemma get_kv_middle (A R : list kv) (e : kv) : get_kv (A ++ e :: R) (zlen A) = Ret e.
Proof.
  unfold get_kv, zlen. rewrite length_app. simpl length.
  destruct (Z.leb_spec 0 (Z.of_nat (length A))); [|lia].
  destruct (Z.ltb_spec (Z.of_nat (length A)) (Z.of_nat (length A + S (length R)))); [|lia].
  simpl. rewrite Nat2Z.id. rewrite list_lookup_middle by reflexivity. reflexivity.
Qed.

Lemma set_kv_middle (A R : list kv) (y e : kv) :
  set_kv (A ++ y :: R) (zlen A) e = Ret (A ++ e :: R).
Proof.
  unfold set_kv, zlen. rewrite length_app. simpl length.
  destruct (Z.leb_spec 0 (Z.of_nat (length A))); [|lia].
  destruct (Z.ltb_spec (Z.of_nat (length A)) (Z.of_nat (length A + S (length R)))); [|lia].
  simpl. rewrite Nat2Z.id. rewrite insert_app_r_alt by lia.
  replace (length A - length A)%nat with 0%nat by lia. reflexivity.
Qed.

Lemma zlen_app (A B : list kv) : zlen (A ++ B) = zlen A + zlen B.
Proof. unfold zlen. rewrite length_app. lia. Qed.

Lemma zlen_nonneg (A : list kv) : 0 <= zlen A.
Proof. unfold zlen. lia. Qed.

(** [add] appends the pair to the pairs in use. *)
Lemma bucketBuffer_add_content (bb bb' : bucketBuffer) (k v : list byte) :
  buffer_ok bb -> zlen (buf bb) < 2^61 ->
  bucketBuffer_add bb k v = Ret bb' ->
  used_kvs bb' = used_kvs bb ++ [mkKv k v].
Proof.
  intros [Hu Hl] Hb. unfold bucketBuffer_add.
  rewrite set_kv_in_range by exact Hu. cbn [obind].
  rewrite zlen_insert. rewrite i64_small by lia.
  assert (Hlt : (Z.to_nat (used bb) < length (buf bb))%nat) by (unfold zlen in Hu; lia).
  assert (Htake : take (Z.to_nat (used bb + 1)) (<[Z.to_nat (used bb) := mkKv k v]> (buf bb))
                  = take (Z.to_nat (used bb)) (buf bb) ++ [mkKv k v]).
  { replace (Z.to_nat (used bb + 1)) with (S (Z.to_nat (used bb))) by lia.
    rewrite (take_S_r _ _ (mkKv k v)) by (apply list_lookup_insert_eq; exact Hlt).
    rewrite take_insert_ge by lia. reflexivity. }
  destruct (Z.eqb_spec (used bb + 1) (zlen (buf bb))) as [Heq|Hne].
  - rewrite i64_small by lia.
    rewrite Z.quot_div_nonneg by lia.
    assert (Hn : zlen (buf bb) + 1 <= 3 * zlen (buf bb) / 2).
    { apply Z.div_le_lower_bound; lia. }
    unfold make_kvs. destruct (Z.ltb_spec (3 * zlen (buf bb) / 2) 0); [lia|].
    cbn [obind]. intros Hr. injection Hr as <-.
    unfold used_kvs. cbn [used buf]. unfold copy_kvs.
    rewrite length_replicate.
    rewrite (take_ge (<[_ := _]> (buf bb))) by (rewrite length_insert; unfold zlen in *; lia).
    rewrite take_app_le by (rewrite length_insert; unfold zlen in *; lia).
    exact Htake.
  - intros Hr. injection Hr as <-. unfold used_kvs. cbn [used buf]. exact Htake.
Qed.

Lemma stable_sort_single (l : list kv) : length l = 1%nat -> stable_sort l = l.
Proof. destruct l as [|a [|b l]]; try discriminate. reflexivity. Qed.

(** [sort.Stable] sorts the pairs in use and leaves the rest of [buf]. *)
Lemma sort_Stable_content (bb : bucketBuffer) :
  buffer_ok bb -> 1 <= used bb ->
  exists bb2, sort_Stable bb = Ret bb2 /\ used bb2 = used bb /\
    buf bb2 = stable_sort (used_kvs bb) ++ drop (Z.to_nat (used bb)) (buf bb).
Proof.
  intros [Hu Hl] H1. unfold sort_Stable, bucketBuffer_Len.
  destruct (Z.leb_spec (used bb) 1).
  - exists bb. split; [reflexivity|]. split; [reflexivity|].
    rewrite stable_sort_single.
    + unfold used_kvs. rewrite take_drop. reflexivity.
    + unfold used_kvs. rewrite length_take. unfold zlen in *. lia.
  - destruct (Z.leb_spec (used bb) (zlen (buf bb))); [|lia].
    eexists. split; [reflexivity|]. split; reflexivity.
Qed.

(** The loop of [merge] after the sort: the first [widx + 1] slots hold the
    last pair of every key. *)
Lemma dedup_loop_spec (s T : list kv) :
  s <> [] -> zlen (s ++ T) < 2^62 ->
  exists b3 w,
    for_each (indices 1 (zlen s))
      (fun (st : list kv * Z) ridx =>
         let '(b, widx) := st in
         let* er := get_kv b ridx in
         let* ew := get_kv b widx in
         let widx' := if negb (bytes_Equal (key er) (key ew))
                      then i64 (widx + 1) else widx in
         let* b' := set_kv b widx' er in
         Ret (b', widx'))
      (s ++ T, 0) = Ret (b3, w) /\
    0 <= w < zlen s /\ take (Z.to_nat (w + 1)) b3 = last_per_key s /\
    zlen b3 = zlen (s ++ T).
Proof.
  intros Hs Hb.
  assert (Hs1 : 1 <= zlen s).
  { destruct s; [congruence|]. unfold zlen. simpl length. lia. }
  assert (Hsb : zlen s < 2^62).
  { rewrite zlen_app in Hb. pose proof (zlen_nonneg T). lia. }
  destruct (for_each_invariant
              (fun (st : list kv * Z) ridx =>
                 exists pre x junk,
                   fst st = pre ++ x :: junk ++ drop (Z.to_nat ridx) (s ++ T) /\
                   snd st = zlen pre /\ zlen pre + 1 + zlen junk = ridx /\
                   last_per_key (take (Z.to_nat ridx) s) = pre ++ [x])
              (fun (st : list kv * Z) ridx =>
                 let '(b, widx) := st in
                 let* er := get_kv b ridx in
                 let* ew := get_kv b widx in
                 let widx' := if negb (bytes_Equal (key er) (key ew))
                              then i64 (widx + 1) else widx in
                 let* b' := set_kv b widx' er in
                 Ret (b', widx'))
              1 (zlen s) (s ++ T, 0))
    as ([b3 w] & Hrun & pre & x & junk & Hb3 & Hw & Hlen & Hlpk).
  { exact Hs1. }
  { destruct s as [|s0 s']; [congruence|].
    exists [], s0, []. simpl. repeat split; reflexivity. }
  { intros [b0 w0] ridx Hri (pre & x & junk & Hb0 & Hw0 & Hlen & Hlpk).
    cbn [fst snd] in Hb0, Hw0. subst b0 w0.
    assert (Hlook : exists e, s !! Z.to_nat ridx = Some e).
    { apply lookup_lt_is_Some_2. unfold zlen in Hri. lia. }
    destruct Hlook as [e He].
    assert (Hdrop : drop (Z.to_nat ridx) (s ++ T) = e :: drop (Z.to_nat (ridx + 1)) (s ++ T)).
    { replace (Z.to_nat (ridx + 1)) with (S (Z.to_nat ridx)) by lia.
      apply drop_S. rewrite lookup_app_l by (unfold zlen in Hri; lia). exact He. }
    assert (Htake : take (Z.to_nat (ridx + 1)) s = take (Z.to_nat ridx) s ++ [e]).
    { replace (Z.to_nat (ridx + 1)) with (S (Z.to_nat ridx)) by lia.
      apply take_S_r. exact He. }
    rewrite Hdrop.
    set (rest := drop (Z.to_nat (ridx + 1)) (s ++ T)).
    assert (Her : get_kv (pre ++ x :: junk ++ e :: rest) ridx = Ret e).
    { replace (pre ++ x :: junk ++ e :: rest) with ((pre ++ x :: junk) ++ e :: rest)
        by (rewrite <- app_assoc; reflexivity).
      replace ridx with (zlen (pre ++ x :: junk)); [apply get_kv_middle|].
      rewrite zlen_app. unfold zlen in *. simpl length. lia. }
    rewrite Her. cbn [obind]. rewrite get_kv_middle. cbn [obind].
    pose proof (last_per_key_snoc _ _ _ e Hlpk) as Hsnoc. rewrite <- Htake in Hsnoc.
    pose proof (zlen_nonneg pre) as Hp0. pose proof (zlen_nonneg junk) as Hj0.
    destruct (bytes_Equal (key e) (key x)); cbn [negb]; cbv iota.
    - rewrite set_kv_middle. cbn [obind].
      eexists. split; [reflexivity|]. exists pre, e, (junk ++ [e]). cbn [fst snd].
      split; [rewrite <- app_assoc; reflexivity|].
      split; [reflexivity|]. split; [rewrite zlen_app; unfold zlen in *; simpl length; lia|exact Hsnoc].
    - rewrite i64_small by lia.
      replace (zlen pre + 1) with (zlen (pre ++ [x]))
        by (rewrite zlen_app; unfold zlen; simpl; lia).
      replace (pre ++ x :: junk ++ e :: rest) with ((pre ++ [x]) ++ junk ++ e :: rest)
        by (rewrite <- app_assoc; reflexivity).
      destruct junk as [|j jk].
      + cbn [app]. rewrite set_kv_middle. cbn [obind].
        eexists. split; [reflexivity|]. exists (pre ++ [x]), e, []. cbn [fst snd].
        split; [reflexivity|]. split; [reflexivity|].
        split; [rewrite zlen_app; unfold zlen in *; simpl length in *; lia|].
        rewrite Hsnoc. rewrite <- app_assoc. reflexivity.
      + change ((j :: jk) ++ e :: rest) with (j :: (jk ++ e :: rest)).
        rewrite set_kv_middle. cbn [obind].
        eexists. split; [reflexivity|]. exists (pre ++ [x]), e, (jk ++ [e]). cbn [fst snd].
        split; [rewrite <- (app_assoc jk); reflexivity|]. split; [reflexivity|].
        split; [rewrite !zlen_app; unfold zlen in *; simpl length in *; lia|].
        rewrite Hsnoc. rewrite <- app_assoc. reflexivity. }
  cbn [fst snd] in Hb3, Hw. subst b3 w.
  exists (pre ++ x :: junk ++ drop (Z.to_nat (zlen s)) (s ++ T)), (zlen pre).
  split; [exact Hrun|].
  pose proof (zlen_nonneg pre) as Hp0. pose proof (zlen_nonneg junk) as Hj0.
  split; [lia|]. split.
  - replace (Z.to_nat (zlen pre + 1)) with (length (pre ++ [x]))
      by (rewrite length_app; unfold zlen; simpl; lia).
    replace (pre ++ x :: junk ++ drop (Z.to_nat (zlen s)) (s ++ T))
      with ((pre ++ [x]) ++ junk ++ drop (Z.to_nat (zlen s)) (s ++ T))
      by (rewrite <- app_assoc; reflexivity).
    rewrite take_app_length. rewrite <- Hlpk.
    rewrite take_ge by (unfold zlen; lia). reflexivity.
  - unfold zlen in *. rewrite !length_app in *. simpl length. rewrite length_app.
    rewrite length_drop, length_app. lia.
Qed.

End MergeContent.

Section MergeSpec.
Import Backend.

Lemma get_kv_inv (b : list kv) (i : Z) (e : kv) :
  get_kv b i = Ret e -> 0 <= i < zlen b /\ b !! Z.to_nat i = Some e.
Proof.
  unfold get_kv. destruct (Z.leb_spec 0 i); [|discriminate].
  destruct (Z.ltb_spec i (zlen b)); [|discriminate]. simpl.
  destruct (b !! Z.to_nat i) as [x|]; [|discriminate].
  intros Hr. injection Hr as <-. split; [lia|reflexivity].
Qed.

Lemma used_kvs_lookup (bb : bucketBuffer) (i : Z) :
  0 <= i < used bb -> used_kvs bb !! Z.to_nat i = buf bb !! Z.to_nat i.
Proof. intros Hi. unfold used_kvs. apply lookup_take_lt. lia. Qed.

Lemma used_kvs_length (bb : bucketBuffer) :
  buffer_ok bb -> zlen (used_kvs bb) = used bb.
Proof.
  intros [Hu _]. unfold used_kvs, zlen in *. rewrite length_take. lia.
Qed.

Lemma klt_trans (x y z : kv) : klt x y -> klt y z -> klt x z.
Proof. intros H1 H2. apply (klt_kle_trans x y z H1). unfold klt, kle in *. lia. Qed.

(** What [merge] leaves in use: sorted, one pair per key, the pair of
    [bbsrc] where both buffers have the key. *)
Lemma bucketBuffer_merge_content (bb bbsrc : bucketBuffer) :
  buffer_ok bb -> buffer_ok bbsrc ->
  zlen (buf bb) + used bbsrc < 2^59 ->
  sorted_by klt (used_kvs bb) -> sorted_by klt (used_kvs bbsrc) ->
  exists bb', bucketBuffer_merge bb bbsrc = Ret bb' /\
    sorted_by klt (used_kvs bb') /\
    used bb' <= used bb + used bbsrc /\
    forall k, find_key k (used_kvs bb') =
              match find_key k (used_kvs bbsrc) with
              | Some v => Some v
              | None => find_key k (used_kvs bb)
              end.
Proof.
  intros Hbb Hsrc Hbound Hsb Hss. unfold bucketBuffer_merge.
  pose proof Hbb as [Hu Hl]. pose proof Hsrc as [Hsu Hsl].
  destruct (for_each_invariant
              (fun b i => buffer_ok b /\ used b = used bb + i /\
                          zlen (buf bb) <= zlen (buf b) /\
                          2 * zlen (buf b) <= Z.max (2 * zlen (buf bb)) (3 * used b) /\
                          used_kvs b = used_kvs bb ++ take (Z.to_nat i) (buf bbsrc))
              (fun b i => let* e := get_kv (buf bbsrc) i in
                          bucketBuffer_add b (key e) (val e))
              0 (used bbsrc) bb) as (bb1 & Hrun1 & Hok1 & Hused1 & Hgrow1 & Hlen1 & Hc1).
  { lia. }
  { split; [exact Hbb|]. split; [lia|]. split; [lia|]. split; [lia|].
    simpl. rewrite app_nil_r. reflexivity. }
  { intros b i Hi (Hb & Hbu & Hbg & Hbl & Hbc).
    destruct (get_kv_in_range (buf bbsrc) i) as [e He]; [lia|].
    rewrite He. cbn [obind].
    assert (Hb61 : zlen (buf b) < 2^61) by (destruct Hb as [Hbu' _]; lia).
    destruct (bucketBuffer_add_ok b (key e) (val e) Hb Hb61)
      as (b' & Hadd & Hb' & Hu' & Hg' & Hl').
    exists b'. split; [exact Hadd|]. split; [exact Hb'|].
    split; [lia|]. split; [lia|]. split; [lia|].
    rewrite (bucketBuffer_add_content b b' _ _ Hb Hb61 Hadd), Hbc.
    replace (Z.to_nat (i + 1)) with (S (Z.to_nat i)) by lia.
    apply get_kv_inv in He. destruct He as [_ He].
    rewrite (take_S_r _ _ e He). rewrite <- app_assoc. destruct e; reflexivity. }
  fold (used_kvs bbsrc) in Hc1.
  assert (Hfind : forall k, find_key k (used_kvs bb1) =
                            match find_key k (used_kvs bbsrc) with
                            | Some v => Some v
                            | None => find_key k (used_kvs bb)
                            end).
  { intros k. rewrite Hc1. apply find_key_app. }
  rewrite Hrun1. cbn [obind].
  destruct (Z.eqb_spec (used bb1) (used bbsrc)) as [Heq|Hne].
  { exists bb1. split; [reflexivity|]. split; [|split; [lia|exact Hfind]].
    rewrite Hc1. unfold used_kvs at 1. replace (used bb) with 0 by lia. exact Hss. }
  rewrite (i64_small (used bb1 - used bbsrc)) by lia.
  rewrite (i64_small (used bb1 - used bbsrc - 1)) by lia.
  pose proof Hok1 as [Hu1 Hl1].
  destruct (get_kv_in_range (buf bb1) (used bb1 - used bbsrc - 1)) as [a Ha]; [lia|].
  destruct (get_kv_in_range (buf bbsrc) 0) as [b Hb]; [lia|].
  rewrite Ha, Hb. cbn [obind].
  destruct (Z.ltb_spec (bytes_Compare (key a) (key b)) 0) as [Hab|Hab].
  { exists bb1. split; [reflexivity|]. split; [|split; [lia|exact Hfind]].
    rewrite Hc1. apply sorted_by_app. split; [exact Hsb|]. split; [exact Hss|].
    apply get_kv_inv in Ha, Hb. destruct Ha as [_ Ha]. destruct Hb as [_ Hb].
    replace (used bb1 - used bbsrc - 1) with (used bb - 1) in Ha by lia.
    rewrite <- (used_kvs_lookup bb1) in Ha by lia.
    rewrite Hc1 in Ha.
    rewrite lookup_app_l in Ha
      by (pose proof (used_kvs_length bb Hbb) as Hlen; unfold zlen in Hlen; lia).
    apply Forall_lookup. intros i x Hx.
    apply Forall_lookup. intros j y Hy.
    assert (Hi : (i < length (used_kvs bb))%nat) by (apply lookup_lt_Some in Hx; exact Hx).
    assert (Hj : (j < length (used_kvs bbsrc))%nat) by (apply lookup_lt_Some in Hy; exact Hy).
    pose proof (used_kvs_length bb Hbb) as Hlb. pose proof (used_kvs_length bbsrc Hsrc) as Hls.
    unfold zlen in Hlb, Hls.
    rewrite <- (used_kvs_lookup bbsrc) in Hb by lia.
    assert (Hxa : kle x a).
    { destruct (decide (i = Z.to_nat (used bb - 1))) as [->|Hne'].
      - rewrite Ha in Hx. injection Hx as <-. unfold kle. rewrite bytes_Compare_refl. lia.
      - pose proof (sorted_by_lookup klt _ i (Z.to_nat (used bb - 1)) x a Hsb Hx Ha) as Hlt.
        unfold klt, kle in *. assert (i < Z.to_nat (used bb - 1))%nat by lia. lia. }
    assert (Hby : kle b y).
    { destruct (decide (j = Z.to_nat 0)) as [->|Hne'].
      - rewrite Hb in Hy. injection Hy as <-. unfold kle. rewrite bytes_Compare_refl. lia.
      - pose proof (sorted_by_lookup klt _ (Z.to_nat 0) j b y Hss Hb Hy) as Hlt.
        unfold klt, kle in *. assert (Z.to_nat 0 < j)%nat by lia. lia. }
    apply (klt_kle_trans x b y); [|exact Hby].
    unfold klt, kle in *.
    apply (bytes_Compare_trans (key x) (key a) (key b)); [exact Hxa|lia|right; exact Hab]. }
  destruct (sort_Stable_content bb1 Hok1) as (bb2 & Hsort & Hused2 & Hbuf2); [lia|].
  rewrite Hsort. cbn [obind].
  set (s := stable_sort (used_kvs bb1)) in *.
  assert (Hslen : zlen s = used bb1).
  { unfold s, zlen. rewrite stable_sort_length. apply (used_kvs_length bb1 Hok1). }
  assert (Hblen : zlen (buf bb2) = zlen (buf bb1)).
  { rewrite Hbuf2. unfold zlen in *. rewrite length_app, length_drop. lia. }
  destruct (dedup_loop_spec s (drop (Z.to_nat (used bb1)) (buf bb1)))
    as (b3 & w & Hrun2 & Hw & Htake & Hlen3).
  { intros Hnil. rewrite Hnil in Hslen. unfold zlen in Hslen. simpl in Hslen. lia. }
  { rewrite <- Hbuf2, Hblen. lia. }
  rewrite Hused2, Hbuf2. rewrite Hslen in Hrun2.
  match goal with
  | |- context [obind ?m _] =>
      replace m with (Ret (b3, w) : outcome (list kv * Z)) by (symmetry; exact Hrun2)
  end.
  cbn [obind fst snd]. rewrite i64_small by lia.
  eexists. split; [reflexivity|]. unfold used_kvs at 1 2. cbn [used buf].
  rewrite Htake. split; [|split; [lia|]].
  - apply last_per_key_sorted. apply stable_sort_sorted.
  - intros k. rewrite find_key_last_per_key. unfold s. rewrite find_key_stable_sort.
    apply Hfind.
Qed.

End MergeSpec.

Section RangeSpec.
Import Backend.

(** Binary search over a predicate that, once true, stays true: the
    smallest index at which it holds. *)
Lemma search_loop_least (fuel : nat) (f : Z -> outcome bool) (p : Z -> bool) (i j n : Z) :
  0 <= i <= j -> j <= n -> n < 2^62 -> j - i <= Z.of_nat fuel ->
  (forall h, 0 <= h < n -> f h = Ret (p h)) ->
  (forall a b, 0 <= a <= b -> b < n -> p a = true -> p b = true) ->
  (forall h, 0 <= h < i -> p h = false) ->
  (forall h, j <= h < n -> p h = true) ->
  exists idx, search_loop fuel f i j = Ret idx /\ i <= idx <= j /\
    (forall h, 0 <= h < idx -> p h = false) /\
    (forall h, idx <= h < n -> p h = true).
Proof.
  revert i j. induction fuel as [|fuel IH]; intros i j Hij Hjn Hn Hfuel Hf Hmono Hlo Hhi.
  - simpl. destruct (Z.ltb_spec i j); [lia|]. exists i.
    split; [reflexivity|]. split; [lia|]. split; [exact Hlo|].
    intros h Hh. apply Hhi. lia.
  - simpl. destruct (Z.ltb_spec i j) as [Hlt|Hge].
    2:{ exists i. split; [reflexivity|]. split; [lia|]. split; [exact Hlo|].
        intros h Hh. apply Hhi. lia. }
    rewrite u64_small by (unfold is_u64; lia).
    rewrite Z.shiftr_div_pow2 by lia. change (2 ^ 1) with 2.
    assert (Hh : i <= (i + j) / 2 < j).
    { split; [apply Z.div_le_lower_bound; lia|apply Z.div_lt_upper_bound; lia]. }
    rewrite i64_small by lia.
    rewrite Hf by lia. cbn [obind].
    destruct (p ((i + j) / 2)) eqn:Hp; cbn [negb]; cbv iota.
    + destruct (IH i ((i + j) / 2)) as (idx & Hrun & Hidx & Hl & Hr);
        [lia|lia|lia|lia|exact Hf|exact Hmono|exact Hlo| |].
      { intros h Hhh. apply (Hmono ((i + j) / 2) h); [lia|lia|exact Hp]. }
      exists idx. split; [exact Hrun|]. split; [lia|]. split; assumption.
    + destruct (IH ((i + j) / 2 + 1) j) as (idx & Hrun & Hidx & Hl & Hr);
        [lia|lia|lia|lia|exact Hf|exact Hmono| |exact Hhi|].
      { intros h Hhh. destruct (p h) eqn:Hph; [|reflexivity].
        rewrite (Hmono h ((i + j) / 2)) in Hp; [discriminate|lia|lia|exact Hph]. }
      exists idx. split; [exact Hrun|]. split; [lia|]. split; assumption.
Qed.

(** The index [Range] starts from: the pairs in use before it have a key
    below [key_], those from it on a key of at least [key_]. *)
Lemma Range_search (bb : bucketBuffer) (key_ : list byte) :
  buffer_ok bb -> zlen (buf bb) < 2^62 -> sorted_by klt (used_kvs bb) ->
  exists idx,
    sort_Search (used bb)
      (fun i => let* e := get_kv (buf bb) i in
                Ret (bytes_Compare (key e) key_ >=? 0)) = Ret idx /\
    0 <= idx <= used bb /\
    Forall (fun e => bytes_Compare (key e) key_ < 0) (take (Z.to_nat idx) (used_kvs bb)) /\
    Forall (fun e => bytes_Compare (key e) key_ >= 0) (drop (Z.to_nat idx) (used_kvs bb)).
Proof.
  intros Hok Hb Hs. pose proof Hok as [Hu Hl].
  pose proof (used_kvs_length bb Hok) as Hlen. unfold zlen in Hlen.
  set (p := fun h : Z => match buf bb !! Z.to_nat h with
                         | Some e => bytes_Compare (key e) key_ >=? 0
                         | None => false
                         end).
  destruct (search_loop_least (Z.to_nat (used bb))
              (fun i => let* e := get_kv (buf bb) i in
                        Ret (bytes_Compare (key e) key_ >=? 0))
              p 0 (used bb) (used bb))
    as (idx & Hrun & Hidx & Hlo & Hhi); try lia.
  { intros h Hh. destruct (get_kv_in_range (buf bb) h) as [e He]; [lia|].
    rewrite He. cbn [obind]. apply get_kv_inv in He. destruct He as [_ He].
    unfold p. rewrite He. reflexivity. }
  { intros a b Hab Hbn. unfold p.
    destruct (lookup_lt_is_Some_2 (buf bb) (Z.to_nat a)) as [ea Hea];
      [unfold zlen in Hu; lia|].
    destruct (lookup_lt_is_Some_2 (buf bb) (Z.to_nat b)) as [eb Heb];
      [unfold zlen in Hu; lia|].
    rewrite Hea, Heb. intros Ha.
    destruct (Z.eq_dec a b) as [->|Hne]; [congruence|].
    rewrite <- used_kvs_lookup in Hea, Heb by lia.
    pose proof (sorted_by_lookup klt _ _ _ _ _ Hs Hea Heb ltac:(lia)) as Hlt.
    unfold klt in Hlt. apply Z.geb_le in Ha. apply Z.geb_le.
    pose proof (bytes_Compare_antisym (key ea) (key eb)) as Hanti.
    pose proof (bytes_Compare_antisym (key ea) key_) as Hanti2.
    pose proof (bytes_Compare_antisym (key eb) key_) as Hanti3.
    pose proof (bytes_Compare_trans key_ (key ea) (key eb)) as Htr. lia. }
  exists idx. split; [exact Hrun|]. split; [lia|]. split.
  - apply Forall_lookup. intros n e He.
    pose proof (lookup_lt_Some _ _ _ He) as Hn. rewrite length_take in Hn.
    rewrite lookup_take_lt in He by lia.
    specialize (Hlo (Z.of_nat n) ltac:(lia)). unfold p in Hlo. rewrite Nat2Z.id in Hlo.
    rewrite <- (Nat2Z.id n) in He. rewrite used_kvs_lookup in He by lia.
    rewrite Nat2Z.id in He. rewrite He in Hlo.
    destruct (Z.geb_spec (bytes_Compare (key e) key_) 0); [discriminate|lia].
  - apply Forall_lookup. intros n e He.
    rewrite lookup_drop in He.
    pose proof (lookup_lt_Some _ _ _ He) as Hn.
    specialize (Hhi (Z.of_nat (Z.to_nat idx + n)) ltac:(lia)). unfold p in Hhi.
    rewrite Nat2Z.id in Hhi.
    rewrite <- (Nat2Z.id (Z.to_nat idx + n)) in He. rewrite used_kvs_lookup in He by lia.
    rewrite Nat2Z.id in He. rewrite He in Hhi.
    destruct (Z.geb_spec (bytes_Compare (key e) key_) 0); [lia|discriminate].
Qed.

End RangeSpec.

Section RangeResult.
Import Backend.

Lemma bytes_Equal_sym (a b : list byte) : bytes_Equal a b = bytes_Equal b a.
Proof.
  unfold bytes_Equal. rewrite (bytes_Compare_antisym b a).
  destruct (Z.eqb_spec (bytes_Compare b a) 0), (Z.eqb_spec (- bytes_Compare b a) 0);
    try reflexivity; lia.
Qed.

Lemma find_key_below (k : list byte) (l : list kv) :
  Forall (fun e => bytes_Compare (key e) k < 0) l -> find_key k l = None.
Proof.
  intros H. apply find_key_None. eapply Forall_impl; [exact H|].
  intros x Hx Heq. simpl in Hx. rewrite Heq, bytes_Compare_refl in Hx. lia.
Qed.

Lemma find_key_above (k : list byte) (l : list kv) :
  Forall (fun e => bytes_Compare k (key e) < 0) l -> find_key k l = None.
Proof.
  intros H. apply find_key_None. eapply Forall_impl; [exact H|].
  intros x Hx Heq. simpl in Hx. rewrite Heq, bytes_Compare_refl in Hx. lia.
Qed.

Lemma forallb_below (k : list byte) (l : list kv) :
  forallb (fun x => bytes_Compare (key x) k <? 0) l = true <->
  Forall (fun e => bytes_Compare (key e) k < 0) l.
Proof.
  induction l as [|x l IH]; simpl.
  - split; [constructor|reflexivity].
  - rewrite andb_true_iff, IH, Z.ltb_lt. split.
    + intros [H1 H2]. constructor; assumption.
    + intros H. inversion H; subst. split; assumption.
Qed.

(** [Range] with an empty [endKey]. *)
Lemma Range_point_spec (bb : bucketBuffer) (k : list byte) (limit : Z) :
  buffer_ok bb -> zlen (buf bb) < 2^62 -> sorted_by klt (used_kvs bb) ->
  bucketBuffer_Range bb k [] limit =
    Ret (match find_key k (used_kvs bb) with
         | Some v => ([k], [v])
         | None =>
             match buf bb !! Z.to_nat (used bb) with
             | Some e =>
                 if bytes_Equal k (key e) &&
                    forallb (fun x => bytes_Compare (key x) k <? 0) (used_kvs bb)
                 then ([k], [val e]) else ([], [])
             | None => ([], [])
             end
         end).
Proof.
  intros Hok Hb Hs. pose proof Hok as [Hu Hl].
  destruct (Range_search bb k Hok Hb Hs) as (idx & Hrun & Hidx & HA & HB).
  pose proof (used_kvs_length bb Hok) as Hlen. unfold zlen in Hlen.
  unfold bucketBuffer_Range. rewrite Hrun. cbn [obind].
  destruct (Z.ltb_spec idx 0); [lia|].
  change (zlen (@nil byte) =? 0) with true. cbv iota.
  destruct (get_kv_in_range (buf bb) idx) as [e He]; [lia|].
  rewrite He. cbn [obind]. apply get_kv_inv in He. destruct He as [_ He].
  destruct (Z.eq_dec idx (used bb)) as [->|Hne].
  - rewrite take_ge in HA by lia.
    rewrite (find_key_below k _ HA). rewrite He.
    rewrite (proj2 (forallb_below k _) HA). rewrite andb_true_r.
    destruct (bytes_Equal k (key e)) eqn:Heq; [|reflexivity].
    apply bytes_Equal_iff in Heq. rewrite <- Heq. reflexivity.
  - rewrite <- used_kvs_lookup in He by lia.
    rewrite <- (take_drop (Z.to_nat idx) (used_kvs bb)) in Hs.
    apply sorted_by_app in Hs. destruct Hs as (_ & HsB & _).
    rewrite <- (take_drop (Z.to_nat idx) (used_kvs bb)) at 1.
    rewrite (drop_S _ _ _ He) in *.
    inversion HB as [|? ? Hek HB']; subst. destruct HsB as [He' _].
    rewrite find_key_app. cbn [find_key].
    rewrite (find_key_above k (drop (S (Z.to_nat idx)) (used_kvs bb))).
    2:{ eapply Forall_impl; [exact He'|]. intros x Hx. simpl. unfold klt in Hx.
        pose proof (bytes_Compare_antisym (key e) k).
        pose proof (bytes_Compare_trans k (key e) (key x)). lia. }
    rewrite (find_key_below k _ HA). rewrite (bytes_Equal_sym k (key e)).
    destruct (bytes_Equal (key e) k) eqn:Heq.
    + apply bytes_Equal_iff in Heq. rewrite Heq. reflexivity.
    + destruct (buf bb !! Z.to_nat (used bb)) as [e'|]; [|reflexivity].
      replace (forallb (fun x => bytes_Compare (key x) k <? 0) (used_kvs bb)) with false;
        [rewrite andb_false_r; reflexivity|].
      symmetry. apply not_true_is_false. intros Hall. apply forallb_below in Hall.
      apply list_elem_of_lookup_2 in He.
      rewrite Forall_forall in Hall. specialize (Hall e He). simpl in Hall. lia.
Qed.

(** The pairs [Range] selects with a non-empty [endKey]. *)
Definition in_range (k endKey : list byte) (e : kv) : Prop :=
  0 <= bytes_Compare (key e) k /\ 0 < bytes_Compare endKey (key e).

#[global] Instance in_range_dec (k endKey : list byte) (e : kv) :
  Decision (in_range k endKey e).
Proof. unfold in_range. apply _. Defined.

Lemma filter_none (P : kv -> Prop) `{!forall x, Decision (P x)} (l : list kv) :
  Forall (fun x => ~ P x) l -> filter P l = [].
Proof.
  induction 1 as [|x l Hx Hl IH]; [reflexivity|].
  rewrite filter_cons, decide_False by exact Hx. exact IH.
Qed.

Lemma zlen_snoc {A : Type} (l : list A) (x : A) : zlen (l ++ [x]) = zlen l + 1.
Proof. unfold zlen. rewrite length_app. simpl. lia. Qed.

Lemma range_loop_sorted (b : list kv) (k endKey : list byte) (limit : Z) (L : list kv) :
  forall (i : Z) (keys vals : list (list byte)),
  0 <= i ->
  (forall j e, L !! j = Some e -> b !! (Z.to_nat i + j)%nat = Some e) ->
  Z.of_nat (length b) < 2^62 ->
  sorted_by klt L -> Forall (fun e => 0 <= bytes_Compare (key e) k) L ->
  range_loop b endKey limit (indices i (i + zlen L)) keys vals =
    Ret (keys ++ map key (take (Z.to_nat (limit - zlen keys)) (filter (in_range k endKey) L)),
         vals ++ map val (take (Z.to_nat (limit - zlen keys)) (filter (in_range k endKey) L))).
Proof.
  induction L as [|e L IH]; intros i keys vals Hi Hlook Hb Hs Hk.
  - rewrite indices_nil by (unfold zlen; simpl; lia). cbn [range_loop].
    rewrite filter_nil, take_nil. simpl. rewrite !app_nil_r. reflexivity.
  - rewrite indices_cons by (unfold zlen; simpl length; lia).
    cbn [range_loop].
    destruct (Z.ltb_spec (zlen keys) limit) as [Hlim|Hlim].
    2:{ replace (Z.to_nat (limit - zlen keys)) with 0%nat by lia.
        rewrite take_0. simpl. rewrite !app_nil_r. reflexivity. }
    pose proof (Hlook 0%nat e eq_refl) as He. rewrite Nat.add_0_r in He.
    assert (Hget : get_kv b i = Ret e).
    { pose proof (lookup_lt_Some _ _ _ He) as Hlt. unfold get_kv, zlen.
      destruct (Z.leb_spec 0 i); [|lia].
      destruct (Z.ltb_spec i (Z.of_nat (length b))); [|lia]. simpl. rewrite He. reflexivity. }
    rewrite Hget. cbn [obind].
    destruct Hs as [He' HsL]. inversion Hk as [|? ? Hek HkL]; subst.
    destruct (Z.leb_spec (bytes_Compare endKey (key e)) 0) as [Hend|Hend].
    + rewrite filter_none; [rewrite take_nil; simpl; rewrite !app_nil_r; reflexivity|].
      constructor.
      * unfold in_range. lia.
      * eapply Forall_impl; [exact He'|]. intros x Hx. unfold in_range, klt in *.
        pose proof (bytes_Compare_trans endKey (key e) (key x)). lia.
    + replace (i + zlen (e :: L)) with (i + 1 + zlen L) by (unfold zlen; simpl length; lia).
      rewrite (IH (i + 1)); [|lia| |exact Hb|exact HsL|exact HkL].
      2:{ intros j x Hx. replace (Z.to_nat (i + 1) + j)%nat with (Z.to_nat i + S j)%nat by lia.
          apply Hlook. exact Hx. }
      rewrite filter_cons, decide_True by (unfold in_range; lia).
      rewrite zlen_snoc.
      replace (Z.to_nat (limit - zlen keys)) with (S (Z.to_nat (limit - (zlen keys + 1))))
        by lia.
      cbn [take map]. rewrite <- !app_assoc. reflexivity.
Qed.

Lemma Range_interval_spec (bb : bucketBuffer) (k endKey : list byte) (limit : Z) :
  buffer_ok bb -> zlen (buf bb) < 2^62 -> sorted_by klt (used_kvs bb) ->
  endKey <> [] ->
  bucketBuffer_Range bb k endKey limit =
    Ret (map key (take (Z.to_nat limit) (filter (in_range k endKey) (used_kvs bb))),
         map val (take (Z.to_nat limit) (filter (in_range k endKey) (used_kvs bb)))).
Proof.
  intros Hok Hb Hs Hend. pose proof Hok as [Hu Hl].
  destruct (Range_search bb k Hok Hb Hs) as (idx & Hrun & Hidx & HA & HB).
  pose proof (used_kvs_length bb Hok) as Hlen. unfold zlen in Hlen.
  unfold bucketBuffer_Range. rewrite Hrun. cbn [obind].
  destruct (Z.ltb_spec idx 0); [lia|].
  destruct (Z.eqb_spec (zlen endKey) 0) as [Hz|_].
  { destruct endKey; [congruence|]. unfold zlen in Hz. simpl in Hz. lia. }
  destruct (get_kv_in_range (buf bb) idx) as [e He]; [lia|].
  rewrite He. cbn [obind]. apply get_kv_inv in He. destruct He as [_ He].
  assert (HfA : filter (in_range k endKey) (take (Z.to_nat idx) (used_kvs bb)) = []).
  { apply filter_none. eapply Forall_impl; [exact HA|].
    intros x Hx. simpl in Hx. unfold in_range. lia. }
  assert (Hsplit : filter (in_range k endKey) (used_kvs bb)
                   = filter (in_range k endKey) (drop (Z.to_nat idx) (used_kvs bb))).
  { rewrite <- (take_drop (Z.to_nat idx) (used_kvs bb)) at 1.
    rewrite filter_app, HfA. reflexivity. }
  rewrite Hsplit.
  assert (HsB : sorted_by klt (drop (Z.to_nat idx) (used_kvs bb))).
  { rewrite <- (take_drop (Z.to_nat idx) (used_kvs bb)) in Hs.
    apply sorted_by_app in Hs. tauto. }
  assert (HB' : Forall (fun e => 0 <= bytes_Compare (key e) k)
                  (drop (Z.to_nat idx) (used_kvs bb))).
  { eapply Forall_impl; [exact HB|]. intros x Hx. simpl in Hx. lia. }
  assert (Hloop : range_loop (buf bb) endKey limit (indices idx (used bb)) [] [] =
    Ret (map key (take (Z.to_nat limit)
                    (filter (in_range k endKey) (drop (Z.to_nat idx) (used_kvs bb)))),
         map val (take (Z.to_nat limit)
                    (filter (in_range k endKey) (drop (Z.to_nat idx) (used_kvs bb)))))).
  { replace (used bb) with (idx + zlen (drop (Z.to_nat idx) (used_kvs bb))) at 1
      by (unfold zlen; rewrite length_drop; lia).
    rewrite (range_loop_sorted (buf bb) k endKey limit _ idx [] []);
      [|lia| |unfold zlen in Hb; exact Hb|exact HsB|exact HB'].
    - change (zlen (@nil (list byte))) with 0. rewrite Z.sub_0_r. reflexivity.
    - intros j x Hx. rewrite lookup_drop in Hx.
      pose proof (lookup_lt_Some _ _ _ Hx) as Hlt.
      rewrite <- (Nat2Z.id (Z.to_nat idx + j)) in Hx.
      rewrite used_kvs_lookup in Hx by lia. rewrite Nat2Z.id in Hx. exact Hx. }
  destruct (Z.leb_spec (bytes_Compare endKey (key e)) 0) as [Hle|Hgt]; [|exact Hloop].
  destruct (Z.eq_dec idx (used bb)) as [->|Hne].
  - rewrite drop_ge by lia. rewrite filter_nil, take_nil. reflexivity.
  - rewrite <- used_kvs_lookup in He by lia.
    rewrite (drop_S _ _ _ He) in *. destruct HsB as [He' _].
    rewrite filter_none; [rewrite take_nil; reflexivity|].
    constructor.
    + unfold in_range. lia.
    + eapply Forall_impl; [exact He'|]. intros x Hx. unfold in_range, klt in *.
      pose proof (bytes_Compare_trans endKey (key e) (key x)). lia.
Qed.

End RangeResult.

Section ForEachSpec.
Import Backend.
Context {E : Type}.

Lemma foreach_loop_first_error (b : list kv) (visitor : list byte -> list byte -> option E)
    (L : list kv) :
  forall i : Z,
  0 <= i ->
  (forall j e, L !! j = Some e -> b !! (Z.to_nat i + j)%nat = Some e) ->
  exists r, foreach_loop b visitor (indices i (i + zlen L)) = Ret r /\
    match r with
    | None => Forall (fun e => visitor (key e) (val e) = None) L
    | Some err =>
        exists pre e post, L = pre ++ e :: post /\
          Forall (fun x => visitor (key x) (val x) = None) pre /\
          visitor (key e) (val e) = Some err
    end.
Proof.
  induction L as [|e L IH]; intros i Hi Hlook.
  - rewrite indices_nil by (unfold zlen; simpl; lia). exists None.
    split; [reflexivity|constructor].
  - rewrite indices_cons by (unfold zlen; simpl length; lia).
    cbn [foreach_loop].
    pose proof (Hlook 0%nat e eq_refl) as He. rewrite Nat.add_0_r in He.
    assert (Hget : get_kv b i = Ret e).
    { pose proof (lookup_lt_Some _ _ _ He) as Hlt. unfold get_kv, zlen.
      destruct (Z.leb_spec 0 i); [|lia].
      destruct (Z.ltb_spec i (Z.of_nat (length b))); [|lia]. simpl. rewrite He. reflexivity. }
    rewrite Hget. cbn [obind].
    destruct (visitor (key e) (val e)) as [err|] eqn:Hv.
    + exists (Some err). split; [reflexivity|]. exists [], e, L.
      split; [reflexivity|]. split; [constructor|exact Hv].
    + replace (i + zlen (e :: L)) with (i + 1 + zlen L) by (unfold zlen; simpl length; lia).
      destruct (IH (i + 1)) as (r & Hrun & Hr); [lia| |].
      { intros j x Hx. replace (Z.to_nat (i + 1) + j)%nat with (Z.to_nat i + S j)%nat by lia.
        apply Hlook. exact Hx. }
      exists r. split; [exact Hrun|]. destruct r as [err|].
      * destruct Hr as (pre & x & post & -> & Hpre & Hx).
        exists (e :: pre), x, post. split; [reflexivity|]. split; [|exact Hx].
        constructor; assumption.
      * constructor; assumption.
Qed.

End ForEachSpec.

(** ** The bucket buffer: what merge, Range and ForEach compute *)

(** Two small buffers: keys a, c in the first, b, c in the second. *)
Definition buffer_ac : Backend.bucketBuffer :=
  Backend.mkBucketBuffer
    [Backend.mkKv [x61%byte] [x31%byte]; Backend.mkKv [x63%byte] [x32%byte];
     Backend.zero_kv; Backend.zero_kv; Backend.zero_kv] 2.

Definition buffer_bc : Backend.bucketBuffer :=
  Backend.mkBucketBuffer
    [Backend.mkKv [x62%byte] [x33%byte]; Backend.mkKv [x63%byte] [x34%byte];
     Backend.zero_kv] 2.

Lemma buffer_ac_ok : buffer_ok buffer_ac.
Proof. unfold buffer_ok. vm_compute. repeat split; congruence. Qed.

Lemma buffer_bc_ok : buffer_ok buffer_bc.
Proof. unfold buffer_ok. vm_compute. repeat split; congruence. Qed.

Lemma buffer_ac_sorted : sorted_by klt (used_kvs buffer_ac).
Proof. vm_compute. repeat constructor. Qed.

Lemma buffer_bc_sorted : sorted_by klt (used_kvs buffer_bc).
Proof. vm_compute. repeat constructor. Qed.

(** X18: merging a buffer into another, both within the invariant and with
    their pairs in use in strictly ascending key order, returns; the pairs
    in use afterwards are again in strictly ascending key order (so no key
    twice), there are at most as many as the two buffers had together, and
    each key carries the value of [bbsrc] if [bbsrc] has the key, else the
    value of [bb], and is absent if neither has it. *)
Theorem bucketBuffer_merge_spec (bb bbsrc : Backend.bucketBuffer) :
  buffer_ok bb -> buffer_ok bbsrc ->
  zlen (Backend.buf bb) + Backend.used bbsrc < 2^59 ->
  sorted_by klt (used_kvs bb) -> sorted_by klt (used_kvs bbsrc) ->
  exists bb', Backend.bucketBuffer_merge bb bbsrc = Ret bb' /\
    sorted_by klt (used_kvs bb') /\
    Backend.used bb' <= Backend.used bb + Backend.used bbsrc /\
    forall k, find_key k (used_kvs bb') =
              match find_key k (used_kvs bbsrc) with
              | Some v => Some v
              | None => find_key k (used_kvs bb)
              end.
Proof. apply bucketBuffer_merge_content. Qed.

(** a=1, c=2 merged with b=3, c=4: a=1, b=3, c=4. *)
Lemma bucketBuffer_merge_spec_witness :
  exists bb', Backend.bucketBuffer_merge buffer_ac buffer_bc = Ret bb' /\
    used_kvs bb' = [Backend.mkKv [x61%byte] [x31%byte]; Backend.mkKv [x62%byte] [x33%byte];
                    Backend.mkKv [x63%byte] [x34%byte]] /\
    find_key [x63%byte] (used_kvs bb') = Some [x34%byte].
Proof.
  destruct (bucketBuffer_merge_spec buffer_ac buffer_bc buffer_ac_ok buffer_bc_ok)
    as (bb' & Hrun & _ & _ & Hfind).
  - vm_compute. reflexivity.
  - exact buffer_ac_sorted.
  - exact buffer_bc_sorted.
  - exists bb'. split; [exact Hrun|]. split.
    + vm_compute in Hrun. injection Hrun as <-. reflexivity.
    + rewrite Hfind. reflexivity.
Defined.

(** X19: on a buffer within the invariant whose pairs in use are in strictly
    ascending key order, [Range] with an empty [endKey] returns the pair in
    use that has the key, if there is one, whatever the limit.  If no pair
    in use has the key, it returns nothing, with one exception: when every
    key in use is smaller than the key (in particular when no pair is in
    use), the slot [buf[used]], which is not in use, is compared too, and
    its pair is returned if it holds the key. *)
Theorem bucketBuffer_Range_point (bb : Backend.bucketBuffer) (k : list byte) (limit : Z) :
  buffer_ok bb -> zlen (Backend.buf bb) < 2^62 -> sorted_by klt (used_kvs bb) ->
  Backend.bucketBuffer_Range bb k [] limit =
    Ret (match find_key k (used_kvs bb) with
         | Some v => ([k], [v])
         | None =>
             match Backend.buf bb !! Z.to_nat (Backend.used bb) with
             | Some e =>
                 if Backend.bytes_Equal k (Backend.key e) &&
                    forallb (fun x => Backend.bytes_Compare (Backend.key x) k <? 0)
                      (used_kvs bb)
                 then ([k], [Backend.val e]) else ([], [])
             | None => ([], [])
             end
         end).
Proof. apply Range_point_spec. Qed.

(** After the reset of [used], the pair a=1 is no longer in use, and
    [Range] still returns it. *)
Lemma bucketBuffer_Range_point_witness :
  used_kvs (Backend.bucketBuffer_reset buffer_ac) = [] /\
  Backend.bucketBuffer_Range (Backend.bucketBuffer_reset buffer_ac) [x61%byte] [] 1
    = Ret ([[x61%byte]], [[x31%byte]]) /\
  Backend.bucketBuffer_Range buffer_ac [x63%byte] [] 1 = Ret ([[x63%byte]], [[x32%byte]]).
Proof.
  split; [reflexivity|]. split.
  - rewrite (bucketBuffer_Range_point (Backend.bucketBuffer_reset buffer_ac) [x61%byte] 1).
    + reflexivity.
    + unfold buffer_ok. vm_compute. repeat split; congruence.
    + vm_compute. reflexivity.
    + exact I.
  - rewrite (bucketBuffer_Range_point buffer_ac [x63%byte] 1).
    + reflexivity.
    + exact buffer_ac_ok.
    + vm_compute. reflexivity.
    + exact buffer_ac_sorted.
Defined.

(** X20: on a buffer within the invariant whose pairs in use are in strictly
    ascending key order, [Range] with a non-empty [endKey] returns the keys
    and the values of the pairs in use whose key is at least [key] and below
    [endKey], in key order, and only the first [limit] of them (none for a
    limit of zero or less).  Slots that are not in use never show. *)
Theorem bucketBuffer_Range_interval (bb : Backend.bucketBuffer) (k endKey : list byte)
    (limit : Z) :
  buffer_ok bb -> zlen (Backend.buf bb) < 2^62 -> sorted_by klt (used_kvs bb) ->
  endKey <> [] ->
  Backend.bucketBuffer_Range bb k endKey limit =
    Ret (map Backend.key (take (Z.to_nat limit) (filter (in_range k endKey) (used_kvs bb))),
         map Backend.val (take (Z.to_nat limit) (filter (in_range k endKey) (used_kvs bb)))).
Proof. apply Range_interval_spec. Qed.

(** The keys from a up to, not including, c: only a. *)
Lemma bucketBuffer_Range_interval_witness :
  Backend.bucketBuffer_Range buffer_ac [x61%byte] [x63%byte] 10
    = Ret ([[x61%byte]], [[x31%byte]]).
Proof.
  rewrite (bucketBuffer_Range_interval buffer_ac [x61%byte] [x63%byte] 10).
  - reflexivity.
  - exact buffer_ac_ok.
  - vm_compute. reflexivity.
  - exact buffer_ac_sorted.
  - discriminate.
Defined.

(** X21: [ForEach] on a buffer within the invariant returns; it calls the
    visitor on the pairs in use, in order, and returns the first error the
    visitor gives, without visiting the pairs after it; it returns nil
    exactly when the visitor accepts every pair in use. *)
Theorem bucketBuffer_ForEach_first_error {E : Type} (bb : Backend.bucketBuffer)
    (visitor : list byte -> list byte -> option E) :
  buffer_ok bb ->
  exists r, Backend.bucketBuffer_ForEach bb visitor = Ret r /\
    match r with
    | None => Forall (fun e => visitor (Backend.key e) (Backend.val e) = None) (used_kvs bb)
    | Some err =>
        exists pre e post, used_kvs bb = pre ++ e :: post /\
          Forall (fun x => visitor (Backend.key x) (Backend.val x) = None) pre /\
          visitor (Backend.key e) (Backend.val e) = Some err
    end.
Proof.
  intros Hok. pose proof Hok as [Hu Hl].
  pose proof (used_kvs_length bb Hok) as Hlen.
  unfold Backend.bucketBuffer_ForEach.
  assert (Heq : Backend.indices 0 (Backend.used bb)
                = Backend.indices 0 (0 + zlen (used_kvs bb))) by (rewrite Hlen; reflexivity).
  rewrite Heq.
  apply foreach_loop_first_error; [lia|].
  intros j x Hx. pose proof (lookup_lt_Some _ _ _ Hx) as Hlt.
  unfold zlen in Hlen. simpl.
  rewrite <- (Nat2Z.id j) in Hx. rewrite used_kvs_lookup in Hx by lia.
  rewrite Nat2Z.id in Hx. exact Hx.
Qed.

(** A visitor that rejects the key c stops there. *)
Lemma bucketBuffer_ForEach_first_error_witness :
  exists r, Backend.bucketBuffer_ForEach buffer_ac
              (fun k _ => if Backend.bytes_Equal k [x63%byte] then Some k else None) = Ret r /\
            r = Some [x63%byte].
Proof.
  destruct (bucketBuffer_ForEach_first_error buffer_ac
              (fun k _ => if Backend.bytes_Equal k [x63%byte] then Some k else None)
              buffer_ac_ok) as (r & Hrun & _).
  exists r. split; [exact Hrun|].
  vm_compute in Hrun. injection Hrun as <-. reflexivity.
Defined.

(** X22: [add(k, v)] on a buffer within the invariant appends the pair to
    the pairs in use and keeps the others, also when it moves them to a
    larger array.  If the pairs in use were in strictly ascending key order
    and [k] is above all their keys, they still are, and a [Range] for [k]
    with an empty [endKey] then returns exactly this pair. *)
Theorem bucketBuffer_add_then_Range (bb : Backend.bucketBuffer) (k v : list byte) :
  buffer_ok bb -> zlen (Backend.buf bb) < 2^61 ->
  exists bb', Backend.bucketBuffer_add bb k v = Ret bb' /\
    used_kvs bb' = used_kvs bb ++ [Backend.mkKv k v] /\
    (sorted_by klt (used_kvs bb) ->
     Forall (fun e => Backend.bytes_Compare (Backend.key e) k < 0) (used_kvs bb) ->
     sorted_by klt (used_kvs bb') /\
     forall limit, Backend.bucketBuffer_Range bb' k [] limit = Ret ([k], [v])).
Proof.
  intros Hok Hb.
  destruct (bucketBuffer_add_ok bb k v Hok Hb) as (bb' & Hadd & Hok' & Hu' & Hg' & Hl').
  pose proof (bucketBuffer_add_content bb bb' k v Hok Hb Hadd) as Hc.
  exists bb'. split; [exact Hadd|]. split; [exact Hc|].
  intros Hs Hbelow.
  assert (Hs' : sorted_by klt (used_kvs bb')).
  { rewrite Hc. apply sorted_by_app. split; [exact Hs|]. split; [simpl; auto|].
    eapply Forall_impl; [exact Hbelow|]. intros x Hx. constructor; [|constructor].
    exact Hx. }
  split; [exact Hs'|]. intros limit.
  rewrite (Range_point_spec bb' k limit Hok') by (destruct Hok as [Hu _]; lia || exact Hs').
  rewrite Hc, find_key_app. simpl.
  assert (He : Backend.bytes_Equal k k = true) by (apply bytes_Equal_iff; reflexivity).
  rewrite He. reflexivity.
Qed.

(** Adding d=5 after a=1 and c=2. *)
Lemma bucketBuffer_add_then_Range_witness :
  exists bb', Backend.bucketBuffer_add buffer_ac [x64%byte] [x35%byte] = Ret bb' /\
    Backend.bucketBuffer_Range bb' [x64%byte] [] 0 = Ret ([[x64%byte]], [[x35%byte]]).
Proof.
  destruct (bucketBuffer_add_then_Range buffer_ac [x64%byte] [x35%byte] buffer_ac_ok)
    as (bb' & Hadd & _ & H).
  - vm_compute. reflexivity.
  - exists bb'. split; [exact Hadd|].
    apply H; [exact buffer_ac_sorted|].
    vm_compute. repeat constructor.
Defined.

(** ** raftLog.maybeCommit *)

(** X23: [maybeCommit(maxIndex, term)] on a well-formed log, for a term other
    than zero, never panics: it answers true exactly when maxIndex is above
    [committed] and [term(maxIndex)] answers that term, and
    then [committed] is maxIndex, which is at most the last index; when it
    answers false the log is unchanged.  With term zero and a maxIndex above
    both [committed] and the last index it panics, because [term] answers
    zero for an index outside the log. *)
Theorem raftLog_maybeCommit_spec {Store : Type}
    {St : Raft.Storage Store} (l : Raft.raftLog Store) (fi sl maxIndex term : Z) :
  wf_log l fi sl -> is_u64 maxIndex ->
  (term <> 0 ->
   exists l' b, Raft.raftLog_maybeCommit l maxIndex term = Ret (l', b) /\
     wf_log l' fi sl /\
     (b = true ->
      Raft.committed l < maxIndex <= wf_last l sl /\
      Raft.raftLog_term l maxIndex = Ret (term, None) /\
      l' = Raft.mkRaftLog (Raft.storage l) (Raft.unstab l) maxIndex (Raft.applied l)
             (Raft.maxNextEntsSize l)) /\
     (b = false ->
      l' = l /\
      (maxIndex <= Raft.committed l \/
       Raft.raftLog_term l maxIndex <> Ret (term, None)))) /\
  (term = 0 -> Raft.committed l < maxIndex -> wf_last l sl < maxIndex ->
   Raft.raftLog_maybeCommit l maxIndex term = Panic).
Proof.
  intros Hwf Hmi.
  destruct (wf_raftLog_term l fi sl Hwf maxIndex Hmi) as (t & Ht & Hin).
  pose proof (wf_raftLog_lastIndex l fi sl Hwf) as Hlast.
  split.
  - intros Hterm. unfold Raft.raftLog_maybeCommit.
    destruct (Z.gtb_spec maxIndex (Raft.committed l)) as [Hgt|Hle].
    2:{ exists l, false. split; [reflexivity|]. split; [exact Hwf|].
        split; [discriminate|]. intros _. split; [reflexivity|left; lia]. }
    rewrite Ht. cbn [obind Raft.raftLog_zeroTermOnErrCompacted].
    destruct (Z.eqb_spec t term) as [->|Hne].
    + specialize (Hin Hterm).
      unfold Raft.raftLog_commitTo.
      destruct (Z.ltb_spec (Raft.committed l) maxIndex); [|lia].
      rewrite Hlast. cbn [obind].
      destruct (Z.ltb_spec (wf_last l sl) maxIndex); [lia|]. cbn [obind].
      eexists _, true. split; [reflexivity|]. split.
      * destruct Hwf. constructor; cbn [Raft.storage Raft.unstab Raft.committed];
          try assumption.
      * split; [|discriminate]. intros _. split; [lia|]. split; reflexivity.
    + exists l, false. split; [reflexivity|]. split; [exact Hwf|].
      split; [discriminate|]. intros _. split; [reflexivity|].
      right. intros Heq. injection Heq as Heq. contradiction.
  - intros -> Hgt Hout. unfold Raft.raftLog_maybeCommit.
    destruct (Z.gtb_spec maxIndex (Raft.committed l)); [|lia].
    rewrite (wf_term_outside l fi sl Hwf maxIndex Hmi) by (right; exact Hout).
    cbn [obind Raft.raftLog_zeroTermOnErrCompacted].
    change (0 =? 0) with true. cbv iota.
    unfold Raft.raftLog_commitTo.
    destruct (Z.ltb_spec (Raft.committed l) maxIndex); [|lia].
    rewrite Hlast. cbn [obind].
    destruct (Z.ltb_spec (wf_last l sl) maxIndex); [reflexivity|lia].
Qed.

(** On the log with entries up to index 5, whose last term is 3:
    maybeCommit(5, 3) commits up to 5, and maybeCommit(9, 0) panics. *)
Lemma raftLog_maybeCommit_spec_witness :
  (exists l', Raft.raftLog_maybeCommit (St := Fixtures.in_memory)
                log5 5 3 = Ret (l', true) /\ Raft.committed l' = 5) /\
  Raft.raftLog_maybeCommit (St := Fixtures.in_memory) log5 9 0
    = Panic.
Proof.
  split.
  - destruct (raftLog_maybeCommit_spec (St := Fixtures.in_memory)
                log5 1 3 5 3 log5_wf) as (H & _); [unfold is_u64; lia|].
    destruct H as (l' & b & Hrun & _ & Ht & _); [lia|].
    assert (Hb : b = true) by (vm_compute in Hrun; injection Hrun as _ <-; reflexivity).
    subst b. destruct (Ht eq_refl) as (_ & _ & ->).
    eexists. split; [exact Hrun|reflexivity].
  - destruct (raftLog_maybeCommit_spec (St := Fixtures.in_memory)
                log5 1 3 9 0 log5_wf) as (_ & H); [unfold is_u64; lia|].
    apply H; [reflexivity|vm_compute; reflexivity|vm_compute; reflexivity].
Defined.

(** ** raftexample: entriesToApply *)

Lemma filter_not_applied (applied a : Z) (es : list Raft.Entry) :
  consecutive a es ->
  filter (fun e => applied < Raft.Index e) es = drop (Z.to_nat (applied + 1 - a)) es.
Proof.
  revert a. induction es as [|e rest IH]; intros a Hc.
  - rewrite drop_nil. reflexivity.
  - destruct Hc as [He Hrest]. rewrite filter_cons.
    rewrite (IH (a + 1) Hrest).
    destruct (decide (applied < Raft.Index e)) as [Hlt|Hge].
    + replace (Z.to_nat (applied + 1 - (a + 1))) with 0%nat by lia.
      replace (Z.to_nat (applied + 1 - a)) with 0%nat by lia. reflexivity.
    + replace (Z.to_nat (applied + 1 - a)) with (S (Z.to_nat (applied + 1 - (a + 1))))
        by lia.
      reflexivity.
Qed.

(** X24: [entriesToApply(ents)], for entries with consecutive indices: if the
    first index is at most appliedIndex + 1, it returns exactly the entries
    whose index is above [appliedIndex], in order (none if all are
    applied); if the first index is beyond appliedIndex + 1, so that entries
    would be skipped, it ends the process.  No entries in, no entries
    out. *)
Theorem raftNode_entriesToApply_spec (appliedIndex a : Z) (ents : Raft.slice) :
  0 <= appliedIndex -> appliedIndex + 1 < 2^64 ->
  0 <= a -> a + Raft.len ents < 2^64 ->
  consecutive a (Raft.elems ents) ->
  (a <= appliedIndex + 1 ->
   exists r, RaftExample.raftNode_entriesToApply appliedIndex ents = Ret r /\
     Raft.elems r = filter (fun e => appliedIndex < Raft.Index e) (Raft.elems ents)) /\
  (appliedIndex + 1 < a -> Raft.elems ents <> [] ->
   RaftExample.raftNode_entriesToApply appliedIndex ents = Panic).
Proof.
  intros Hap Hap1 Ha Hlen Hc.
  pose proof (len_nonneg ents) as Hn.
  unfold RaftExample.raftNode_entriesToApply.
  destruct (Z.eqb_spec (Raft.len ents) 0) as [Hz|Hnz].
  { assert (He : Raft.elems ents = []).
    { unfold Raft.len, zlen in Hz. destruct (Raft.elems ents); [reflexivity|].
      simpl in Hz. lia. }
    split.
    - intros _. exists ents. split; [reflexivity|]. rewrite He. reflexivity.
    - intros _ Hne. contradiction. }
  destruct (Raft.elems ents) as [|e0 rest] eqn:He.
  { unfold Raft.len, zlen in Hnz. rewrite He in Hnz. simpl in Hnz. lia. }
  assert (Hat : Raft.at_ ents 0 = Ret e0).
  { unfold Raft.at_. destruct (Z.leb_spec 0 0); [|lia].
    destruct (Z.ltb_spec 0 (Raft.len ents)); [|lia]. simpl. rewrite He. reflexivity. }
  rewrite Hat. cbn [obind].
  destruct Hc as [H0 Hrest]. rewrite H0.
  rewrite (u64_small (appliedIndex + 1)) by (unfold is_u64; lia).
  rewrite (u64_small (Raft.len ents)) by (unfold is_u64; lia).
  split.
  - intros Hle. destruct (Z.gtb_spec a (appliedIndex + 1)); [lia|].
    assert (Hw : u64 (u64 (appliedIndex - a) + 1) = appliedIndex - a + 1).
    { unfold u64. rewrite Zplus_mod_idemp_l. apply Z.mod_small. lia. }
    rewrite Hw.
    rewrite <- He.
    rewrite (filter_not_applied appliedIndex a (Raft.elems ents))
      by (rewrite He; split; assumption).
    destruct (Z.ltb_spec (appliedIndex - a + 1) (Raft.len ents)) as [Hlt|Hge].
    + rewrite slice_from_ok by lia. eexists. split; [reflexivity|]. simpl.
      replace (appliedIndex + 1 - a) with (appliedIndex - a + 1) by lia. reflexivity.
    + exists Raft.nil_slice. split; [reflexivity|].
      rewrite drop_ge by (unfold Raft.len, zlen in Hge; lia). reflexivity.
  - intros Hgt _. destruct (Z.gtb_spec a (appliedIndex + 1)); [reflexivity|lia].
Qed.

(** Entries 3, 4, 5 with 4 applied: entry 5 is left. *)
Lemma raftNode_entriesToApply_spec_witness :
  exists r, RaftExample.raftNode_entriesToApply 4
              (Fixtures.exact [Fixtures.entry 3 1; Fixtures.entry 4 1; Fixtures.entry 5 2])
            = Ret r /\
            Raft.elems r = [Fixtures.entry 5 2].
Proof.
  destruct (raftNode_entriesToApply_spec 4 3
              (Fixtures.exact [Fixtures.entry 3 1; Fixtures.entry 4 1; Fixtures.entry 5 2]))
    as (H & _).
  - lia.
  - lia.
  - lia.
  - vm_compute. reflexivity.
  - simpl. repeat split.
  - destruct H as (r & Hrun & Hr); [lia|].
    exists r. split; [exact Hrun|]. rewrite Hr. reflexivity.
Defined.

(** ** The WAL decoder: torn entries *)

(** Sector [s] of the file holds bytes of [data], written from file offset
    [off] on, and all of them are zero.  [from] restricts this to the bytes
    of [data] from that position on. *)
Definition zero_sector_from (off : Z) (data : list byte) (from s : Z) : Prop :=
  (exists p, from <= p < zlen data /\ (off + p) / 512 = s) /\
  forall p, from <= p < zlen data -> (off + p) / 512 = s ->
            data !! Z.to_nat p = Some x00.

Definition zero_sector (off : Z) (data : list byte) (s : Z) : Prop :=
  zero_sector_from off data 0 s.

Section TornEntry.
Import Wal.

Lemma byte_eqb_true (a b : byte) : Byte.eqb a b = true <-> a = b.
Proof.
  split.
  - intros H. apply Byte.byte_dec_bl. exact H.
  - intros ->. apply Byte.byte_dec_lb. reflexivity.
Qed.

Lemma sector_isZero_spec (sect : list byte) :
  sector_isZero sect = true <-> Forall (fun v => v = x00) sect.
Proof.
  induction sect as [|v rest IH]; simpl.
  - split; [constructor|reflexivity].
  - destruct (Byte.eqb v x00) eqn:Hv; simpl.
    + apply byte_eqb_true in Hv. rewrite IH. split.
      * intros H. constructor; assumption.
      * intros H. inversion H; assumption.
    + split; [discriminate|]. intros H. inversion H as [|? ? Hz _]; subst.
      vm_compute in Hv. discriminate.
Qed.

Lemma chunk_zero (data : list byte) (lo c : Z) :
  0 <= lo -> 0 <= c -> lo + c <= zlen data ->
  sector_isZero (take (Z.to_nat c) (drop (Z.to_nat lo) data)) = true <->
  forall p, lo <= p < lo + c -> data !! Z.to_nat p = Some x00.
Proof.
  intros Hlo Hc Hhi. rewrite sector_isZero_spec, Forall_lookup. split.
  - intros H p Hp.
    assert (Hlt : (Z.to_nat p < length data)%nat) by (unfold zlen in Hhi; lia).
    destruct (lookup_lt_is_Some_2 data _ Hlt) as [v Hv]. rewrite Hv. f_equal.
    apply (H (Z.to_nat (p - lo)) v).
    rewrite lookup_take_lt by lia. rewrite lookup_drop.
    replace (Z.to_nat lo + Z.to_nat (p - lo))%nat with (Z.to_nat p) by lia. exact Hv.
  - intros H i v Hv.
    pose proof (lookup_lt_Some _ _ _ Hv) as Hlt. rewrite length_take in Hlt.
    rewrite lookup_take_lt in Hv by lia. rewrite lookup_drop in Hv.
    specialize (H (lo + Z.of_nat i) ltac:(lia)).
    replace (Z.to_nat (lo + Z.of_nat i)) with (Z.to_nat lo + i)%nat in H by lia.
    congruence.
Qed.

Lemma chunk_loop_spec (data : list byte) (off : Z) (fuel : nat) :
  forall (curOff : Z) (chunks : list (list byte)),
  0 <= off -> off + zlen data < 2^63 -> 0 <= curOff <= zlen data ->
  zlen data - curOff <= Z.of_nat fuel ->
  exists cs, chunk_loop fuel data (off + curOff) curOff chunks = Ret (chunks ++ cs) /\
    (any_zero_chunk cs = true <-> exists s, zero_sector_from off data curOff s).
Proof.
  induction fuel as [|fuel IH]; intros curOff chunks Hoff Hb Hcur Hfuel.
  - simpl. destruct (Z.ltb_spec curOff (zlen data)); [lia|].
    exists []. split; [rewrite app_nil_r; reflexivity|]. simpl.
    split; [discriminate|]. intros (s & (p & Hp & _) & _). lia.
  - cbn [chunk_loop]. destruct (Z.ltb_spec curOff (zlen data)) as [Hlt|Hge].
    2:{ exists []. split; [rewrite app_nil_r; reflexivity|]. simpl.
        split; [discriminate|]. intros (s & (p & Hp & _) & _). lia. }
    unfold minSectorSize.
    rewrite Z.rem_mod_nonneg by lia.
    pose proof (Z.mod_pos_bound (off + curOff) 512 ltac:(lia)) as Hr.
    rewrite (i64_small (512 - (off + curOff) mod 512)) by lia.
    rewrite (i64_small (zlen data - curOff)) by lia.
    set (c0 := 512 - (off + curOff) mod 512) in *.
    set (c := if c0 >? zlen data - curOff then zlen data - curOff else c0).
    assert (Hc : 1 <= c <= c0 /\ c <= zlen data - curOff /\
                 (c = c0 \/ c = zlen data - curOff)).
    { unfold c. destruct (Z.gtb_spec c0 (zlen data - curOff)); lia. }
    rewrite (i64_small (curOff + c)) by lia.
    rewrite (i64_small (off + curOff + c)) by lia.
    unfold bytes_range.
    destruct (Z.leb_spec 0 curOff); [|lia].
    destruct (Z.leb_spec curOff (curOff + c)); [|lia].
    destruct (Z.leb_spec (curOff + c) (zlen data)); [|lia].
    cbn [andb obind].
    replace (curOff + c - curOff) with c by lia.
    replace (off + curOff + c) with (off + (curOff + c)) by lia.
    destruct (IH (curOff + c) (chunks ++ [take (Z.to_nat c) (drop (Z.to_nat curOff) data)]))
      as (cs & Hrun & Hcs); [lia|lia|lia|lia|].
    exists (take (Z.to_nat c) (drop (Z.to_nat curOff) data) :: cs).
    split; [rewrite Hrun, <- app_assoc; reflexivity|].
    cbn [any_zero_chunk].
    pose proof (chunk_zero data curOff c ltac:(lia) ltac:(lia) ltac:(lia)) as Hz.
    assert (Hin : forall p, curOff <= p < curOff + c0 ->
                            (off + p) / 512 = (off + curOff) / 512).
    { intros p Hp. unfold c0 in Hp. Z.to_euclidean_division_equations. lia. }
    assert (Hout : forall p, curOff + c0 <= p ->
                             (off + curOff) / 512 < (off + p) / 512).
    { intros p Hp. unfold c0 in Hp. Z.to_euclidean_division_equations. lia. }
    destruct (sector_isZero (take (Z.to_nat c) (drop (Z.to_nat curOff) data))) eqn:Hsz.
    + split; [intros _|reflexivity].
      exists ((off + curOff) / 512). split.
      * exists curOff. split; [lia|reflexivity].
      * intros p Hp Hs. apply (proj1 Hz eq_refl).
        destruct (Z.lt_ge_cases p (curOff + c0)) as [Hpl|Hpg]; [lia|].
        specialize (Hout p Hpg). lia.
    + rewrite Hcs. split.
      * intros (s & (p & Hp & Hs) & Hall). exists s. split.
        { exists p. split; [lia|exact Hs]. }
        intros q Hq Hqs.
        destruct (Z.lt_ge_cases q (curOff + c)) as [Hql|Hqg]; [|apply Hall; [lia|exact Hqs]].
        exfalso.
        assert (Hcc : c = c0) by lia.
        rewrite Hin in Hqs by lia.
        specialize (Hout p ltac:(lia)). lia.
      * intros (s & (p & Hp & Hs) & Hall).
        destruct (Z.eq_dec s ((off + curOff) / 512)) as [Heq|Hne].
        { exfalso. assert (Hall' : forall q, curOff <= q < curOff + c ->
                                            data !! Z.to_nat q = Some x00).
          { intros q Hq. apply Hall; [lia|]. rewrite Heq. apply Hin. lia. }
          apply Hz in Hall'. congruence. }
        exists s. split.
        { exists p. split; [|exact Hs].
          destruct (Z.lt_ge_cases p (curOff + c)) as [Hpl|Hpg]; [|lia].
          exfalso. apply Hne. rewrite <- Hs. apply Hin. lia. }
        intros q Hq Hqs. apply Hall; [lia|exact Hqs].
Qed.

End TornEntry.

(** X25: [isTornEntry(data)], for a decoder whose offset after the last
    valid record is not negative and a record that ends below 2^63, returns
    without panicking, and answers true exactly when the decoder reads its
    last file (one reader left) and some 512-byte sector of the file holds
    bytes of [data] that are all zero, [data] being laid out from the file
    offset lastValidOff + 8 on.  Empty data is never torn. *)
Theorem decoder_isTornEntry_spec {R : Type} (d : Wal.decoder R) (data : list byte) :
  0 <= Wal.lastValidOff d -> Wal.lastValidOff d + 8 + zlen data < 2^63 ->
  exists b, Wal.decoder_isTornEntry d data = Ret b /\
    (b = true <->
     length (Wal.brs d) = 1%nat /\
     exists s, zero_sector (Wal.lastValidOff d + 8) data s).
Proof.
  intros Hoff Hb. unfold Wal.decoder_isTornEntry.
  destruct (Z.eqb_spec (zlen (Wal.brs d)) 1) as [H1|H1]; cbn [negb]; cbv iota.
  2:{ exists false. split; [reflexivity|]. split; [discriminate|].
      intros [Hl _]. unfold zlen in H1. lia. }
  unfold Wal.frameSizeBytes.
  pose proof (Nat2Z.is_nonneg (length data)) as Hn. fold (zlen data) in Hn.
  rewrite i64_small by lia.
  destruct (chunk_loop_spec data (Wal.lastValidOff d + 8) (length data) 0 [])
    as (cs & Hrun & Hcs); [lia|lia|lia|unfold zlen; lia|].
  rewrite Z.add_0_r in Hrun. rewrite Hrun. cbn [obind app].
  exists (Wal.any_zero_chunk cs). split; [reflexivity|].
  rewrite Hcs. unfold zero_sector. split.
  - intros H. split; [unfold zlen in H1; lia|exact H].
  - intros [_ H]. exact H.
Qed.

(** A frame of 16 bytes after a first record at offset 0: the bytes lie in
    sector 0, and a zero frame is torn. *)
Lemma decoder_isTornEntry_spec_witness :
  Wal.decoder_isTornEntry (Wal.mkDecoder [tt] 0) (replicate 16 x00) = Ret true.
Proof.
  destruct (decoder_isTornEntry_spec (Wal.mkDecoder [tt] 0) (replicate 16 x00))
    as (b & Hrun & Hb).
  - simpl. lia.
  - vm_compute. reflexivity.
  - rewrite Hrun. f_equal. vm_compute in Hrun. injection Hrun as <-. reflexivity.
Defined.
